(** * Hub-based k-nearest-neighbour search: index construction and query

    A shallow embedding of the kernels of [include/bitonic-hubs-ws.cuh]
    (namespace [bitonic_hubs_ws]) and of the host pipeline [C_and_Q] that
    launches them.

    Conventions of the embedding.
    - A kernel is a function of the thread coordinates and of the device
      memory it touches.  A launch runs the kernel body once per thread of
      the grid; threads that only communicate through atomic operations are
      run in an arbitrary order (a schedule), threads that synchronise with
      barriers are run phase by phase.
    - Device arrays are lists, read with [!!] and written with [<[i:=x]>].
    - [idx_t], [H], [warp_size] and [dim] are declared in [cuda_util.cuh],
      which is not part of the sources: [H] is a parameter, [warp_size] is
      32 and [dim] is 3.  Values of type [idx_t] that are used as array
      positions are natural numbers.
    - A [float] is its IEEE-754 binary32 word.  Comparisons are the IEEE
      comparisons on words; arithmetic ([sqrt], [-], [spatial::l2dist]) is a
      parameter of the kernels that use it. *)

From Stdlib Require Import ZArith Lia.
From Stdlib Require Import Floats.SpecFloat.
From stdpp Require Import base tactics option list numbers.
Import ListNotations.

Local Open Scope nat_scope.

(** ** Configuration constants *)

Definition warp_size : nat := 32.
Definition dim : nat := 3.
Definition block_size : nat := 1024.

(** [util::CEIL_DIV] lives in [cuda_util.cuh]; it is the rounding-up
    division that [C_and_Q] also spells out as [(n + b - 1) / b]. *)
Definition CEIL_DIV (a b : nat) : nat := (a + b - 1) / b.

(** ** Grids and launches *)

(** The threads of a one-dimensional launch [<<<nb, bd>>>], as pairs
    (blockIdx.x, threadIdx.x). *)
Definition grid (nb bd : nat) : list (nat * nat) :=
  b ← seq 0 nb; (λ t, (b, t)) <$> seq 0 bd.

(** [blockIdx.x * blockDim.x + threadIdx.x] *)
Definition global_idx (bd : nat) (th : nat * nat) : nat :=
  th.1 * bd + th.2.

(** Runs a kernel body for every thread of a schedule. *)
Definition launch {M : Type} (body : nat * nat → M → M)
    (sched : list (nat * nat)) (mem : M) : M :=
  foldl (λ m th, body th m) mem sched.

(** ** Randomly_Select_Hubs *)

Section Hubs.

Variable H : nat.

(** [unsigned int] arithmetic wraps modulo 2^32. *)
Definition u32 (z : Z) : Z := (z mod 2 ^ 32)%Z.

(** [unsigned int seed = 1234 + idx;
     unsigned int rand_num = (seed * 1103515245 + 12345) % 2147483648;] *)
Definition hub_seed (idx : nat) : Z := u32 (1234 + Z.of_nat idx).

Definition hub_rand (idx : nat) : Z :=
  (u32 (hub_seed idx * 1103515245 + 12345) mod 2147483648)%Z.

Definition Randomly_Select_Hubs_thread (bd : nat) (n : Z)
    (th : nat * nat) (dH : list Z) : list Z :=
  let idx := global_idx bd th in
  if decide (idx < H) then <[idx := (hub_rand idx mod n)%Z]> dH else dH.

(** The launch of [C_and_Q]:
    [Randomly_Select_Hubs<<<(H + block_size - 1) / block_size, block_size>>>]. *)
Definition hubs_grid : list (nat * nat) :=
  grid ((H + block_size - 1) / block_size) block_size.

Definition Randomly_Select_Hubs (n : Z) (sched : list (nat * nat))
    (dH : list Z) : list Z :=
  launch (Randomly_Select_Hubs_thread block_size n) sched dH.

End Hubs.

(** ** binary32 words *)

(** A [float] is the 32-bit word that holds it.  [__float_as_int] and
    [__int_as_float] reinterpret the word as a signed [int] and back. *)
Definition float : Type := Z.

Definition FLT_MAX : float := 0x7f7fffff%Z.

Definition float_as_int (w : float) : Z :=
  (if w <? 2 ^ 31 then w else w - 2 ^ 32)%Z.

Definition int_as_float (i : Z) : float := (i mod 2 ^ 32)%Z.

(** Exponent and mantissa bits, without the sign. *)
Definition f32_magnitude (w : float) : Z := Z.land w 0x7fffffff.

Definition f32_is_nan (w : float) : bool :=
  (0x7f800000 <? f32_magnitude w)%Z.

(** Sign-magnitude words compare like the numbers they hold once negative
    words are mirrored; the two zeros get the same key. *)
Definition f32_key (w : float) : Z :=
  if Z.testbit w 31 then (- f32_magnitude w)%Z else f32_magnitude w.

(** IEEE [<], [>] and [>=]: false as soon as one side is a NaN. *)
Definition flt (a b : float) : bool :=
  negb (f32_is_nan a) && negb (f32_is_nan b) && (f32_key a <? f32_key b)%Z.

Definition fgt (a b : float) : bool := flt b a.

Definition fge (a b : float) : bool :=
  negb (f32_is_nan a) && negb (f32_is_nan b) && (f32_key b <=? f32_key a)%Z.

Definition fle (a b : float) : bool := fge b a.

(** The words of the non-negative floats, infinity included, NaNs
    excluded: the domain of the distances. *)
Definition f32_nonneg (w : float) : Prop := (0 ≤ w ≤ 0x7f800000)%Z.

#[global] Instance f32_nonneg_dec (w : float) : Decision (f32_nonneg w) :=
  ltac:(unfold f32_nonneg; apply _).

(** *** Arithmetic on words

    The kernels take their arithmetic as parameters.  The definitions below
    give the IEEE-754 binary32 operations, round to nearest even, through
    the Standard Library's specification of floating-point numbers; the
    examples use them. *)

Definition f32_sign_bit (s : bool) : Z := (if s then 2 ^ 31 else 0)%Z.

Definition f32_decode (w : float) : spec_float :=
  let s := Z.testbit w 31 in
  let e := Z.land (Z.shiftr w 23) 0xff in
  let m := Z.land w 0x7fffff in
  if (e =? 255)%Z then (if (m =? 0)%Z then S754_infinity s else S754_nan)
  else if (e =? 0)%Z then
    match m with Zpos p => S754_finite s p (-149) | _ => S754_zero s end
  else
    match (m + 2 ^ 23)%Z with
    | Zpos p => S754_finite s p (e - 150)
    | _ => S754_nan
    end.

Definition f32_encode (x : spec_float) : float :=
  match x with
  | S754_zero s => f32_sign_bit s
  | S754_infinity s => (f32_sign_bit s + 0x7f800000)%Z
  | S754_nan => 0x7fc00000%Z
  | S754_finite s m e =>
      (f32_sign_bit s +
       (if Zpos m <? 2 ^ 23 then Zpos m
        else (e + 150) * 2 ^ 23 + (Zpos m - 2 ^ 23)))%Z
  end.

Definition f32_add (a b : float) : float :=
  f32_encode (SFadd 24 128 (f32_decode a) (f32_decode b)).

Definition f32_sub (a b : float) : float :=
  f32_encode (SFsub 24 128 (f32_decode a) (f32_decode b)).

Definition f32_mul (a b : float) : float :=
  f32_encode (SFmul 24 128 (f32_decode a) (f32_decode b)).

Definition f32_sqrt (a : float) : float :=
  f32_encode (SFsqrt 24 128 (f32_decode a)).

(** The word of a small integer, for writing examples. *)
Definition f32_of_Z (z : Z) : float :=
  f32_encode (binary_normalize 24 128 z 0 false).

(** [spatial::l2dist] lives in [spatial.cuh]; the kernels take it as a
    parameter.  The examples use the squared Euclidean distance, which is
    what [Calculate_Distances] takes the square root of. *)
Definition f32_l2dist (x1 y1 z1 x2 y2 z2 : float) : float :=
  let dx := f32_sub x1 x2 in
  let dy := f32_sub y1 y2 in
  let dz := f32_sub z1 z2 in
  f32_add (f32_add (f32_mul dx dx) (f32_mul dy dy)) (f32_mul dz dz).

(** ** Device memory accesses *)

(** Reads of [float] and [idx_t] arrays.  A read outside the array is
    undefined in the source; here it yields 0. *)
Definition rdf (a : list float) (i : nat) : float := nth i a 0%Z.
Definition rdn (a : list nat) (i : nat) : nat := nth i a 0.
Definition rdz (a : list Z) (i : nat) : Z := nth i a 0%Z.

(** [atomicAdd(&a[i], v)] and [atomicMin(&a[i], v)]: the new array.  The
    value [atomicAdd] returns is the old [a[i]], read with [rdn]. *)
Definition atomicAdd (a : list nat) (i v : nat) : list nat :=
  <[i := rdn a i + v]> a.

Definition atomicMin (a : list Z) (i : nat) (v : Z) : list Z :=
  <[i := Z.min (rdz a i) v]> a.

(** ** Calculate_Distances and Construct_D *)

(** The memory [Calculate_Distances] writes. *)
Record cd_mem : Type := CdMem {
  distances : list float;
  hub_counts : list nat;
  dH_assignments : list nat
}.

(** The sizes of the distance table and of the assignment table. *)
Definition cd_lengths (L n : nat) (m : cd_mem) : Prop :=
  length (distances m) = L ∧ length (dH_assignments m) = n.

(** [IEEE-754 max exponent, no mantissa, no sign bit]: the value
    [Construct_D] initialises its shared row with. *)
Definition D_sentinel : Z := 0x7f000000%Z.

Section Index.

Variable H : nat.
Variable l2dist : float → float → float → float → float → float → float.
Variable fsqrt : float → float.

(** [sqrt( spatial::l2dist( q_x, q_y, q_z, &points[ dim * dH[h] ]) )]
    for the point [idx]. *)
Definition hub_distance (points : list float) (dH : list Z)
    (idx h : nat) : float :=
  let hp := dim * Z.to_nat (rdz dH h) in
  fsqrt (l2dist (rdf points (idx * dim)) (rdf points (idx * dim + 1))
                (rdf points (idx * dim + 2))
                (rdf points hp) (rdf points (hp + 1)) (rdf points (hp + 2))).

(** One iteration of the loop over the hubs; the state is the distance
    table, [minimal_dist] and [assigned_H]. *)
Definition Calculate_Distances_hub (points : list float) (dH : list Z)
    (b_size idx idx_within_b : nat)
    (st : list float * float * nat) (h : nat) : list float * float * nat :=
  let '(ds, minimal_dist, assigned_H) := st in
  let next_hub_distance := hub_distance points dH idx h in
  let ds := <[h * b_size + idx_within_b := next_hub_distance]> ds in
  if flt next_hub_distance minimal_dist
  then (ds, next_hub_distance, h)
  else (ds, minimal_dist, assigned_H).

Definition Calculate_Distances_thread (bd b_id b_size n : nat)
    (dH : list Z) (points : list float)
    (th : nat * nat) (m : cd_mem) : cd_mem :=
  let idx_within_b := global_idx bd th in
  let idx := idx_within_b + b_id * b_size in
  if decide (idx < n ∧ idx_within_b < b_size) then
    let '(ds, _, assigned_H) :=
      foldl (Calculate_Distances_hub points dH b_size idx idx_within_b)
            (distances m, FLT_MAX, H + 1) (seq 0 H) in
    {| distances := ds;
       hub_counts := atomicAdd (hub_counts m) assigned_H 1;
       dH_assignments := <[idx := assigned_H]> (dH_assignments m) |}
  else m.

Definition Calculate_Distances (bd b_id b_size n : nat)
    (dH : list Z) (points : list float)
    (sched : list (nat * nat)) (m : cd_mem) : cd_mem :=
  launch (Calculate_Distances_thread bd b_id b_size n dH points) sched m.

(** [set_max_float]: every cell below [size] is set by the thread that owns
    it. *)
Definition set_max_float (size : nat) (D : list float) : list float :=
  replicate (min size (length D)) FLT_MAX ++ drop size D.

(** The positions [p = lane; p < b_size; p += blockDim.x] one thread of
    [Construct_D] visits. *)
Definition strided (bd b_size lane : nat) : list nat :=
  (λ r, lane + r * bd) <$> seq 0 (CEIL_DIV (b_size - lane) bd).

(** First loop of the block: the slots below [H] get the sentinel. *)
Definition Construct_D_init (bd : nat) (s_dists : list Z)
    (slot : nat * nat) : list Z :=
  let j := global_idx bd slot in
  if decide (j < H) then <[j := D_sentinel]> s_dists else s_dists.

(** Second loop, for the position [p] of the batch. *)
Definition Construct_D_scan (dists : list float) (assignments : list nat)
    (b_id b_size n hub_id : nat) (s_dists : list Z) (p : nat) : list Z :=
  let idx := b_id * b_size + p in
  if decide (idx < n) then
    let this_H := rdn assignments idx in
    atomicMin s_dists this_H (float_as_int (rdf dists (hub_id * b_size + p)))
  else s_dists.

(** Third loop: the row of [D] is folded into the shared row and written
    back. *)
Definition Construct_D_merge (bd hub_id : nat)
    (st : list Z * list float) (slot : nat * nat) : list Z * list float :=
  let '(s_dists, D) := st in
  let j := global_idx bd slot in
  if decide (j < H) then
    let s_dists := atomicMin s_dists j (float_as_int (rdf D (H * hub_id + j))) in
    (s_dists, <[H * hub_id + j := int_as_float (rdz s_dists j)]> D)
  else st.

(** The block [hub_id] of a launch with [bd] threads per block.  [smem] is
    what the shared array holds when the block starts. *)
Definition Construct_D_block (bd : nat) (smem : list Z)
    (dists : list float) (assignments : list nat) (b_id b_size n : nat)
    (D : list float) (hub_id : nat) : list float :=
  let R := (H + bd - 1) / bd in
  let s1 := foldl (Construct_D_init bd) smem (grid R bd) in
  let s2 := foldl (Construct_D_scan dists assignments b_id b_size n hub_id)
                  s1 (lane ← seq 0 bd; strided bd b_size lane) in
  (foldl (Construct_D_merge bd hub_id) (s2, D) (grid R bd)).2.

(** [Construct_D<<<H, bd>>>]: one block per row of [D].  This is the
    memory after a launch in which no assertion fails; the assertions are
    [Construct_D_asserts] below, and [build_index] checks them. *)
Definition Construct_D (bd : nat) (smem : nat → list Z)
    (dists : list float) (assignments : list nat) (b_id b_size n : nat)
    (D : list float) : list float :=
  foldl (λ D hub_id,
           Construct_D_block bd (smem hub_id) dists assignments
                             b_id b_size n D hub_id)
        D (seq 0 H).

(** One turn of the batch loop of [C_and_Q]. *)
Definition index_batch (b_size n : nat) (dH : list Z) (points : list float)
    (smem : nat → nat → list Z)
    (st : cd_mem * list float) (batch_id : nat) : cd_mem * list float :=
  let '(m, D) := st in
  let num_blocks := (b_size + block_size - 1) / block_size in
  let m := Calculate_Distances block_size batch_id b_size n dH points
             (grid num_blocks block_size) m in
  (m, Construct_D block_size (smem batch_id) (distances m)
        (dH_assignments m) batch_id b_size n D).

(** [set_max_float] and the batch loop of [C_and_Q], for batches of size
    [b_size], from the memory the allocations leave: [dists0] and [D0] hold
    anything, the counters and the assignments are zeroed by [cudaMemset]. *)
Definition index_tables (b_size n : nat) (dH : list Z) (points : list float)
    (smem : nat → nat → list Z) (dists0 D0 : list float)
    : cd_mem * list float :=
  let batch_number := (n + b_size - 1) / b_size in
  foldl (index_batch b_size n dH points smem)
        ({| distances := dists0;
            hub_counts := replicate (H + 1) 0;
            dH_assignments := replicate n 0 |},
         set_max_float (H * H) D0)
        (seq 0 batch_number).

(** The assertions of the two kernels of the batch loop.
    [Calculate_Distances] asserts [H > 0].  [Construct_D] asserts
    [H <= shared_memory_size], [block_level_lane_id < shared_memory_size]
    for each of its [bd] lanes, and [this_H < H] for every point of the
    batch: a launch in which one of them fails aborts, and the functions
    above give the memory of a launch in which all hold. *)
Definition Calculate_Distances_asserts : bool := bool_decide (0 < H).

Definition Construct_D_asserts (bd : nat) (assignments : list nat)
    (b_id b_size n : nat) : bool :=
  bool_decide (H ≤ 2048) && bool_decide (bd ≤ 2048)
  && forallb (λ p, let idx := b_id * b_size + p in
                   bool_decide (n ≤ idx)
                   || bool_decide (rdn assignments idx < H))
             (seq 0 b_size).

(** The assertions of the turn [batch_id] of the batch loop, entered with
    the memory [st]. *)
Definition index_batch_asserts (b_size n : nat) (dH : list Z)
    (points : list float) (st : cd_mem * list float) (batch_id : nat)
    : bool :=
  let num_blocks := (b_size + block_size - 1) / block_size in
  let m := Calculate_Distances block_size batch_id b_size n dH points
             (grid num_blocks block_size) st.1 in
  Calculate_Distances_asserts
  && Construct_D_asserts block_size (dH_assignments m) batch_id b_size n.

(** No assertion fails in the batch loop of [C_and_Q]. *)
Definition index_tables_asserts (b_size n : nat) (dH : list Z)
    (points : list float) (smem : nat → nat → list Z)
    (dists0 D0 : list float) : bool :=
  let batch_number := (n + b_size - 1) / b_size in
  forallb (λ b,
             index_batch_asserts b_size n dH points
               (foldl (index_batch b_size n dH points smem)
                      ({| distances := dists0;
                          hub_counts := replicate (H + 1) 0;
                          dH_assignments := replicate n 0 |},
                       set_max_float (H * H) D0)
                      (seq 0 b))
               b)
          (seq 0 batch_number).

End Index.

(** *** What the distance kernel computes, per point

    [nearest_hub] is the value of [assigned_H] at the end of the loop over
    the hubs: the first hub at minimal distance, or [H + 1] when no
    distance is below [FLT_MAX]. *)

Section Nearest.

Variable H : nat.
Variable l2dist : float → float → float → float → float → float → float.
Variable fsqrt : float → float.

Definition nearest_step (points : list float) (dH : list Z) (idx : nat)
    (st : float * nat) (h : nat) : float * nat :=
  let next_hub_distance := hub_distance l2dist fsqrt points dH idx h in
  if flt next_hub_distance st.1 then (next_hub_distance, h) else st.

Definition nearest_hub (points : list float) (dH : list Z) (idx : nat) : nat :=
  (foldl (nearest_step points dH idx) (FLT_MAX, H + 1) (seq 0 H)).2.

(** The cell [c] of the table of the batch [b_id] is meant to hold the
    distance of the point [c mod b_size] of the batch to the hub
    [c / b_size]. *)
Definition batch_cell (points : list float) (dH : list Z)
    (b_id b_size c : nat) : float :=
  hub_distance l2dist fsqrt points dH
    (c mod b_size + b_id * b_size) (c / b_size).

(** All point-to-hub distances, point by point. *)
Definition hub_distance_table (n : nat) (points : list float) (dH : list Z)
    : list float :=
  idx ← seq 0 n; hub_distance l2dist fsqrt points dH idx <$> seq 0 H.

End Nearest.

(** ** fused_prefix_sum_copy *)

(** The strides of [for( stride = 1; stride < warp_size; stride <<= 1 )]. *)
Definition warp_strides : list nat := [1; 2; 4; 8; 16].

(** [__shfl_up_sync( FULL_MASK, my_val, stride )] for the lane [lane] of a
    warp whose registers are [vals]: the value of the lane [stride] below,
    the lane's own value when there is none. *)
Definition shfl_up (vals : list nat) (stride lane : nat) : nat :=
  if decide (stride ≤ lane) then rdn vals (lane - stride) else rdn vals lane.

(** One turn of the loop of [prefix_sum_warp], for all lanes at once. *)
Definition prefix_sum_warp_step (vals : list nat) (stride : nat) : list nat :=
  imap (λ lane my_val,
          let paired_val := shfl_up vals stride lane in
          if decide (stride ≤ lane) then my_val + paired_val else my_val)
       vals.

Definition prefix_sum_warp (vals : list nat) : list nat :=
  foldl prefix_sum_warp_step vals warp_strides.

(** The memory of [fused_prefix_sum_copy]: the two arrays and the shared
    staging area of [32 + 1] cells. *)
Record ps_mem : Type := PsMem {
  ps_arr : list nat;
  ps_copy : list nat;
  ps_smem : list nat
}.

(** [__popc]: the number of bits set. *)
Fixpoint popc_pos (p : positive) : nat :=
  match p with
  | xH => 1
  | xO p => popc_pos p
  | xI p => S (popc_pos p)
  end.

Definition popc (n : nat) : nat :=
  match N.of_nat n with
  | N0 => 0
  | Npos p => popc_pos p
  end.

Section PrefixSum.

Variable H : nat.

(** The loop over the chunks has no barrier at its end: between the
    second barrier of a turn and the first barrier of the next, a warp
    that is done with the turn goes on and stores its sum of the next
    chunk in the staging area, [smem[ warp_id + 1 ] = my_val], while later
    warps may still have to read [smem[ warp_id ]] for the turn.  The
    lanes of a warp run in step; [ahead c w] tells that in the turn [c]
    the warp [w - 1] has stored its sum of the turn [c + 1] before the
    warp [w] reads its cell. *)
Variable ahead : nat → nat → bool.

(** The block is 32 x 32: [th_id = warp_id * blockDim.x + lane_id], and in
    the turn [c] of the chunk loop the thread works on
    [i = th_id + c * 1024]. *)
Definition chunk_index (c warp_id lane_id : nat) : nat :=
  warp_id * warp_size + lane_id + c * (warp_size * warp_size).

(** The warps that are in the turn [c] of the loop.  The kernel asserts that
    [H] is a power of two of at least a warp, so a warp is in the loop with
    all its lanes or with none. *)
Definition chunk_warps (c : nat) : list nat :=
  filter (λ warp_id, chunk_index c warp_id 0 < H) (seq 0 warp_size).

(** The registers [my_val] of a warp after [prefix_sum_warp]. *)
Definition chunk_warp_scan (arr : list nat) (c warp_id : nat) : list nat :=
  prefix_sum_warp ((λ lane_id, rdn arr (chunk_index c warp_id lane_id))
                     <$> seq 0 warp_size).

(** [smem[ warp_id ]] as the warp [w] reads it after the second barrier of
    the turn [c]: what the first warp staged for it, or the sum the warp
    [w - 1] has already stored there for the turn [c + 1]. *)
Definition staged_read (arr smem2 : list nat) (c w : nat) : nat :=
  if ahead c w
     && bool_decide (0 < w ∧ chunk_index (c + 1) (w - 1) 0 < H)
  then rdn (chunk_warp_scan arr (c + 1) (w - 1)) (warp_size - 1)
  else rdn smem2 w.

(** One turn of the chunk loop. *)
Definition fused_prefix_sum_copy_chunk (m : ps_mem) (c : nat) : ps_mem :=
  let warps := chunk_warps c in
  (* the last lane of each warp copies its result to smem *)
  let smem1 :=
    foldl (λ smem warp_id,
             <[warp_id + 1 :=
                 rdn (chunk_warp_scan (ps_arr m) c warp_id) (warp_size - 1)]>
               smem)
          (ps_smem m) warps in
  (* __syncthreads; the first warp scans the warp-level sums *)
  let warp_level_sum :=
    prefix_sum_warp
      ((λ lane_id, rdn smem1 (lane_id + 1)
                   + rdn smem1 0 * (if decide (lane_id = 0) then 1 else 0))
         <$> seq 0 warp_size) in
  let smem2 :=
    foldl (λ smem lane_id,
             <[lane_id + 1 := rdn warp_level_sum lane_id]> smem)
          smem1 (seq 0 warp_size) in
  let sum_of_chunk_sofar := rdn warp_level_sum (warp_size - 1) in
  (* __syncthreads; every thread adds the partial sum for its warp *)
  let out :=
    foldl (λ ac th,
             let my_val :=
               rdn (chunk_warp_scan (ps_arr m) c th.1) th.2
               + staged_read (ps_arr m) smem2 c th.1 in
             let i := chunk_index c th.1 th.2 in
             (<[i := my_val]> ac.1, <[i := my_val]> ac.2))
          (ps_arr m, ps_copy m)
          (warp_id ← warps; (λ lane_id, (warp_id, lane_id)) <$> seq 0 warp_size) in
  {| ps_arr := out.1; ps_copy := out.2;
     ps_smem := <[0 := sum_of_chunk_sofar]> smem2 |}.

(** The kernel, launched as [<<<1, dim3(32, 32, 1)>>>]: [None] when one of
    its two assertions fails, [__popc( H ) == 1] and [H >= 32].  [smem] is
    what the shared array holds at the start; thread 0 clears its first
    cell. *)
Definition fused_prefix_sum_copy (smem arr copy : list nat)
    : option ps_mem :=
  if decide (popc H = 1 ∧ 32 ≤ H) then
    Some (foldl fused_prefix_sum_copy_chunk
                {| ps_arr := arr; ps_copy := copy;
                   ps_smem := <[0 := 0]> smem |}
                (seq 0 (CEIL_DIV H (warp_size * warp_size))))
  else None.

(** [cudaMemcpy(dst + off, src, count * sizeof(idx_t), ...)] *)
Definition memcpy (dst : list nat) (off : nat) (src : list nat) (count : nat)
    : list nat :=
  take off dst ++ take count src ++ drop (off + count) dst.

(** The prefix-sum step of [C_and_Q], from the launch of the kernel to the
    two [cudaMemset] that clear the first cells: the final [dH_psum] and
    [dH_psum_copy], [None] when the kernel fails an assertion. *)
Definition prefix_sum_step (smem dH_psum dH_psum_copy d_psum_placeholder
    : list nat) : option (list nat * list nat) :=
  m ← fused_prefix_sum_copy smem dH_psum dH_psum_copy;
  let d_psum_placeholder := memcpy d_psum_placeholder 0 (ps_copy m) (H + 1) in
  let dH_psum_copy := memcpy (ps_copy m) 1 d_psum_placeholder H in
  let dH_psum := memcpy (ps_arr m) 1 d_psum_placeholder H in
  Some (<[0 := 0]> dH_psum, <[0 := 0]> dH_psum_copy).

End PrefixSum.

(** The sum of the first [k] values of [f]. *)
Definition sum_upto (f : nat → nat) (k : nat) : nat :=
  sum_list (f <$> seq 0 k).

(** ** BucketSort *)

(** The arrays [BucketSort] writes: the bucketed coordinates and
    identifiers, and the write cursors [dH_psum] it advances. *)
Record bs_mem : Type := BsMem {
  arr_x : list float;
  arr_y : list float;
  arr_z : list float;
  arr_idx : list nat;
  bs_cursor : list nat
}.

(** The body of [BucketSort] for the point [idx]: [atomicAdd] hands out the
    next free location of the hub's segment. *)
Definition BucketSort_point (points : list float) (assignments : list nat)
    (m : bs_mem) (idx : nat) : bs_mem :=
  let hub_idx := rdn assignments idx in
  let loc := rdn (bs_cursor m) hub_idx in
  {| arr_x := <[loc := rdf points (idx * dim + 0)]> (arr_x m);
     arr_y := <[loc := rdf points (idx * dim + 1)]> (arr_y m);
     arr_z := <[loc := rdf points (idx * dim + 2)]> (arr_z m);
     arr_idx := <[loc := idx]> (arr_idx m);
     bs_cursor := atomicAdd (bs_cursor m) hub_idx 1 |}.

Definition BucketSort_thread (bd n : nat) (points : list float)
    (assignments : list nat) (th : nat * nat) (m : bs_mem) : bs_mem :=
  let idx := global_idx bd th in
  if decide (idx < n) then BucketSort_point points assignments m idx else m.

(** [BucketSort<<<num_blocks, block_size>>>] under a schedule of its
    threads. *)
Definition BucketSort (n : nat) (points : list float)
    (assignments : list nat) (sched : list (nat * nat)) (m : bs_mem)
    : bs_mem :=
  launch (BucketSort_thread block_size n points assignments) sched m.

(** The grid of that launch: [num_blocks = (n + block_size - 1) / block_size]. *)
Definition bucket_grid (n : nat) : list (nat * nat) :=
  grid ((n + block_size - 1) / block_size) block_size.

(** The number of points of the list [l] that are assigned to the hub [h],
    and the population of a hub: that number among the first [n] points. *)
Definition assigned_count (assignments : list nat) (l : list nat) (h : nat)
    : nat :=
  length (filter (λ idx, rdn assignments idx = h) l).

Definition hub_population (assignments : list nat) (n h : nat) : nat :=
  assigned_count assignments (seq 0 n) h.

(** ** reassignPoints *)

(** [int constexpr shared_memory_size = 1024;] *)
Definition reassign_shared_memory_size : nat := 1024.

Section Reassign.

Variable H : nat.

(** The shared array [initial_counts] of the block [b] after the first
    barrier: the threads of the block whose global [idx] is below [H] have
    copied [hub_counts[idx]] into slot [idx]; the other slots hold what the
    shared memory held at the start, [smem]. *)
Definition reassign_snapshot (bd b : nat) (smem hub_counts : list nat)
    : list nat :=
  foldl (λ s t, let idx := global_idx bd (b, t) in
                if decide (idx < H) then <[idx := rdn hub_counts idx]> s
                else s)
        smem (seq 0 bd).

(** One turn of the loop over the hubs; the state is [minimal_dist] and
    [new_hub], [None] once [assert( next_distance < FLT_MAX )] has failed. *)
Definition reassign_scan_step (n k idx : nat) (dists : list float)
    (initial_counts : list nat) (st : option (float * nat)) (h : nat)
    : option (float * nat) :=
  match st with
  | None => None
  | Some (minimal_dist, new_hub) =>
      let next_distance := rdf dists (h * n + idx) in
      if flt next_distance FLT_MAX then
        if bool_decide (k ≤ rdn initial_counts h)
           && flt next_distance minimal_dist
        then Some (next_distance, h)
        else Some (minimal_dist, new_hub)
      else None
  end.

(** The five assertions after the loop. *)
Definition reassign_asserts (n k idx : nat) (dists : list float)
    (initial_counts : list nat) (current_hub : nat)
    (minimal_dist : float) (new_hub : nat) : bool :=
  bool_decide (new_hub ≠ current_hub)
  && bool_decide (new_hub < H)
  && flt minimal_dist FLT_MAX
  && bool_decide (k ≤ rdn initial_counts new_hub)
  && fge (rdf dists (new_hub * n + idx)) (rdf dists (current_hub * n + idx)).

(** The part of the body under [if( idx < n )]; the memory is the pair of
    [hub_counts] and [dH_assignments]. *)
Definition reassign_move (n k idx : nat) (dists : list float)
    (initial_counts : list nat) (m : list nat * list nat)
    : option (list nat * list nat) :=
  let current_hub := rdn m.2 idx in
  if decide (rdn initial_counts current_hub < k) then
    match foldl (reassign_scan_step n k idx dists initial_counts)
                (Some (FLT_MAX, H)) (seq 0 H) with
    | None => None
    | Some (minimal_dist, new_hub) =>
        if reassign_asserts n k idx dists initial_counts current_hub
                            minimal_dist new_hub
        then Some (atomicAdd m.1 new_hub 1, <[idx := new_hub]> m.2)
        else None
    end
  else Some m.

(** A thread, after the barrier: it moves its point if it has one, then
    resets the counter of the hub of its index if that hub is unused. *)
Definition reassignPoints_thread (bd n k : nat) (dists : list float)
    (initial_counts : list nat) (th : nat * nat) (m : list nat * list nat)
    : option (list nat * list nat) :=
  let idx := global_idx bd th in
  m1 ← (if decide (idx < n)
        then reassign_move n k idx dists initial_counts m else Some m);
  Some (if decide (idx < H ∧ rdn initial_counts idx < k)
        then (<[idx := 0]> m1.1, m1.2) else m1).

(** A block: the snapshot, the barrier, then its threads. *)
Definition reassignPoints_block (bd n k : nat) (dists : list float)
    (smem : nat → list nat) (m : option (list nat * list nat)) (b : nat)
    : option (list nat * list nat) :=
  m ← m;
  let initial_counts := reassign_snapshot bd b (smem b) m.1 in
  foldl (λ m t, m ← m;
                reassignPoints_thread bd n k dists initial_counts (b, t) m)
        (Some m) (seq 0 bd).

(** The kernel launched as [<<<nb, bd>>>], block after block; [None] when
    an assertion fails.  [smem b] is what the shared memory of the block [b]
    holds when it starts. *)
Definition reassignPoints (nb bd n k : nat) (dists : list float)
    (smem : nat → list nat) (m : list nat * list nat)
    : option (list nat * list nat) :=
  if decide (k < n ∧ H < reassign_shared_memory_size) then
    foldl (reassignPoints_block bd n k dists smem) (Some m) (seq 0 nb)
  else None.

End Reassign.

(** ** The choice of the top-K collector in C_and_Q *)

(** [switch (util::CEIL_DIV(k, warp_size))]: the template arguments
    [WarpQ] and [ThreadQ] of the [Query] that is launched, [None] for the
    [default] branch, [assert(false && ...)]. *)
Definition Query_dispatch (k : nat) : option (nat * nat) :=
  match CEIL_DIV k warp_size with
  | 1 => Some (32, 2)
  | 2 => Some (64, 3)
  | 3 => Some (128, 3)
  | 4 => Some (256, 4)
  | 5 => Some (512, 8)
  | _ => None
  end.

(** The bounds the collector is instantiated with. *)
Definition WarpQ_tiers : list nat := [32; 64; 128; 256; 512].

(** The choice the specification describes: the smallest supported bound
    that is at least [k], an error when there is none. *)
Definition smallest_tier (k : nat) : option nat :=
  head (filter (λ q, k ≤ q) WarpQ_tiers).

(** ** fused_transform_sort_D *)

(** The pair of registers [dist[r]] and [hub[r]] of a lane. *)
Definition sort_cell : Type := float * nat.

(** The values of a loop variable that starts at [c] and doubles while it
    is at most [bound], and of one that starts at [s] and halves while it is
    at least [warp_size]. *)
Fixpoint doubling (fuel c bound : nat) : list nat :=
  match fuel with
  | 0 => []
  | S fuel => if decide (c ≤ bound) then c :: doubling fuel (2 * c) bound
              else []
  end.

Fixpoint halving (fuel s : nat) : list nat :=
  match fuel with
  | 0 => []
  | S fuel => if decide (warp_size ≤ s) then s :: halving fuel (s / 2) else []
  end.

Section Sort.

Variable H : nat.

(** [bitonic::sort<ascending, 1>( &hub, &dist )] lives in
    [bitonic-shared.cuh]: the 32 lanes of a warp sort their pairs by
    distance in the direction asked for.  It is a parameter; what is known
    of it is stated where it is used. *)
Variable warp_sort : bool → list sort_cell → list sort_cell.

(** The registers of a block are listed by [global_lane_id =
    r * block_size + sort_id].  When [H] is below [block_size] or one of
    its multiples, as every power of two is, these are the numbers below
    [H], and the two halves of the shared array hold the pair of each lane
    in cells of its own.  The hub of a pair crosses the shared array as a
    [float], which is exact for the hub numbers below 2^24. *)
Definition sort_load (D : list float) (hub_id : nat) : list sort_cell :=
  (λ g, (rdf D (H * hub_id + g), g)) <$> seq 0 H.

(** The 32 registers of the warp [w]. *)
Definition warp_chunk (l : list sort_cell) (w : nat) : list sort_cell :=
  take warp_size (drop (w * warp_size) l).

(** Every warp sorts its registers, in the direction [asc] gives for its
    lanes. *)
Definition sort_warps (asc : nat → bool) (l : list sort_cell)
    : list sort_cell :=
  w ← seq 0 (length l / warp_size);
  warp_sort (asc (w * warp_size)) (warp_chunk l w).

(** [warp_id % 2 == 0], for the lane [g]. *)
Definition first_run_ascending (g : nat) : bool :=
  Nat.even (g `mod` block_size / warp_size).

(** [( global_lane_id & coop ) == 0] *)
Definition merge_ascending (coop g : nat) : bool :=
  bool_decide (Nat.land g coop = 0).

(** The four-way condition under which the lane [global_lane_id] takes
    the pair of [paired_thread]. *)
Definition merge_takes (coop global_lane_id paired_thread : nat)
    (paired_dist dist : float) : bool :=
  bool_decide (global_lane_id < paired_thread)
    && merge_ascending coop global_lane_id && flt paired_dist dist
  || bool_decide (paired_thread < global_lane_id)
     && negb (merge_ascending coop global_lane_id) && flt paired_dist dist
  || bool_decide (global_lane_id < paired_thread)
     && negb (merge_ascending coop global_lane_id) && fgt paired_dist dist
  || bool_decide (paired_thread < global_lane_id)
     && merge_ascending coop global_lane_id && fgt paired_dist dist.

(** One step of a merge in shared memory: every lane reads the pair of
    [paired_thread = global_lane_id ^ stride] and takes it under the
    four-way condition of the source. *)
Definition merge_exchange (coop stride : nat) (l : list sort_cell)
    : list sort_cell :=
  imap (λ g (me : sort_cell),
          let paired_thread := Nat.lxor g stride in
          let paired := nth paired_thread l me in
          if merge_takes coop g paired_thread paired.1 me.1
          then paired else me)
       l.

(** One turn of the loop over [coop]: the steps in shared memory for
    [stride = coop >> 1] down to [warp_size], then the sort inside the
    warps. *)
Definition merge_stage (l : list sort_cell) (coop : nat) : list sort_cell :=
  sort_warps (merge_ascending coop)
             (foldl (λ l stride, merge_exchange coop stride l) l
                    (halving coop (coop / 2))).

(** The registers of the block [hub_id] when it writes its row. *)
Definition fused_transform_sort_D_row (D : list float) (hub_id : nat)
    : list sort_cell :=
  foldl merge_stage (sort_warps first_run_ascending (sort_load D hub_id))
        (doubling H (2 * warp_size) H).

(** The kernel, one block per row: [sorted_hub_ids] and
    [sorted_hub_dist]. *)
Definition fused_transform_sort_D (D : list float) : list nat * list float :=
  (hub_id ← seq 0 H; snd <$> fused_transform_sort_D_row D hub_id,
   hub_id ← seq 0 H; fst <$> fused_transform_sort_D_row D hub_id).

End Sort.

(** A sort of the pairs of a warp by insertion, for the examples. *)
Fixpoint warp_insert (asc : bool) (x : sort_cell) (l : list sort_cell)
    : list sort_cell :=
  match l with
  | [] => [x]
  | y :: l' =>
      if (if asc then flt y.1 x.1 else flt x.1 y.1)
      then y :: warp_insert asc x l'
      else x :: l
  end.

Definition warp_sort_insertion (asc : bool) (l : list sort_cell)
    : list sort_cell :=
  foldr (warp_insert asc) [] l.

(** ** The bounded top-K collector *)

(** Modelled from the spec: [faiss::gpu::WarpSelect] is the external
    collaborator of section 6, the bounded top-K maintenance utility.  It
    keeps the [K] smallest (distance, identifier) pairs seen, in ascending
    order, starting from [K] copies of the pair it is constructed with;
    [add] takes one pair of every lane of the warp; [warpKTop] is the worst
    retained distance; [writeOut] emits the [K] retained pairs. *)
Definition heap_entry : Type := float * Z.

Definition WarpSelect_init (initK : float) (initV : Z) (K : nat)
    : list heap_entry :=
  replicate K (initK, initV).

Fixpoint WarpSelect_insert (x : heap_entry) (h : list heap_entry)
    : list heap_entry :=
  match h with
  | [] => [x]
  | y :: h' => if flt x.1 y.1 then x :: h else y :: WarpSelect_insert x h'
  end.

Definition WarpSelect_add (K : nat) (h : list heap_entry)
    (lanes : list heap_entry) : list heap_entry :=
  foldl (λ h x, take K (WarpSelect_insert x h)) h lanes.

Definition warpKTop (K : nat) (h : list heap_entry) : float :=
  (nth (K - 1) h (FLT_MAX, (-1)%Z)).1.

(** ** Query *)

(** The device arrays [Query] reads. *)
Record knn_index : Type := KnnIndex {
  ix_points : list float;
  ix_dH : list Z;
  ix_arr_idx : list nat;
  ix_arr_x : list float;
  ix_arr_y : list float;
  ix_arr_z : list float;
  ix_iD : list nat;
  ix_dD : list float;
  ix_dH_psum : list nat;
  ix_assignments : list nat
}.

(** The variables of the traversal loop of one query.  The counters
    [current_H] and [poitns_scanned] are left out: nothing reads them. *)
Record query_state : Type := QState {
  hubs_processed : nat;
  scan_hub_from : nat;
  scan_hub_to : nat;
  dist_to_this_hub : float;
  heap : list heap_entry
}.

Section Query.

Variable H : nat.
Variable l2dist : float → float → float → float → float → float → float.
Variable fsqrt : float → float.
Variable fsub : float → float → float.

Variable ix : knn_index.
Variables (K Points_num : nat).

(** [sqrt(spatial::l2dist( q_x, q_y, q_z, h_x, h_y, h_z ))] for the query
    point [qp]. *)
Definition Query_dist_to_my_hub (qp : nat) : float :=
  let hub_containing_qp := rdn (ix_assignments ix) qp in
  let hp := Z.to_nat (rdz (ix_dH ix) hub_containing_qp) * dim in
  fsqrt (l2dist (rdf (ix_points ix) (qp * dim))
                (rdf (ix_points ix) (qp * dim + 1))
                (rdf (ix_points ix) (qp * dim + 2))
                (rdf (ix_points ix) hp) (rdf (ix_points ix) (hp + 1))
                (rdf (ix_points ix) (hp + 2))).

(** The state at the loop entry. *)
Definition Query_init (qp : nat) : query_state :=
  let hub_containing_qp := rdn (ix_assignments ix) qp in
  {| hubs_processed := 0;
     scan_hub_from := rdn (ix_dH_psum ix) (hub_containing_qp + 0);
     scan_hub_to := rdn (ix_dH_psum ix) (hub_containing_qp + 1);
     dist_to_this_hub := rdf (ix_dD ix) (hub_containing_qp * H + 0);
     heap := WarpSelect_init FLT_MAX (-1) K |}.

(** The loop condition:
    [hubs_processed < H &&
     sqrt( heap.warpKTop ) > dist_to_this_hub - dist_to_my_hub]. *)
Definition Query_continue (qp : nat) (st : query_state) : bool :=
  bool_decide (hubs_processed st < H)
  && fgt (fsqrt (warpKTop K (heap st)))
         (fsub (dist_to_this_hub st) (Query_dist_to_my_hub qp)).

(** What the lane [lane_id] hands to [heap.add]: the next point of the
    bucket and its distance to the query, or the sentinel pair. *)
Definition Query_lane (qp : nat) (st : query_state) (lane_id : nat)
    : heap_entry :=
  let at_ := scan_hub_from st + lane_id in
  if decide (at_ < scan_hub_to st) then
    (l2dist (rdf (ix_points ix) (qp * dim))
            (rdf (ix_points ix) (qp * dim + 1))
            (rdf (ix_points ix) (qp * dim + 2))
            (rdf (ix_arr_x ix) at_) (rdf (ix_arr_y ix) at_)
            (rdf (ix_arr_z ix) at_),
     Z.of_nat (rdn (ix_arr_idx ix) at_))
  else (FLT_MAX, Z.of_nat Points_num).

(** The loop body. *)
Definition Query_step (qp : nat) (st : query_state) : query_state :=
  let hub_containing_qp := rdn (ix_assignments ix) qp in
  let heap' := WarpSelect_add K (heap st)
                 (Query_lane qp st <$> seq 0 warp_size) in
  let from' := scan_hub_from st + warp_size in
  if decide (scan_hub_to st ≤ from') then
    let hp' := hubs_processed st + 1 in
    if decide (hp' < H) then
      let current_H := rdn (ix_iD ix) (hub_containing_qp * H + hp') in
      {| hubs_processed := hp';
         scan_hub_from := rdn (ix_dH_psum ix) current_H;
         scan_hub_to := rdn (ix_dH_psum ix) (current_H + 1);
         dist_to_this_hub := rdf (ix_dD ix) (hub_containing_qp * H + hp');
         heap := heap' |}
    else
      {| hubs_processed := hp'; scan_hub_from := from';
         scan_hub_to := scan_hub_to st;
         dist_to_this_hub := dist_to_this_hub st; heap := heap' |}
  else
    {| hubs_processed := hubs_processed st; scan_hub_from := from';
       scan_hub_to := scan_hub_to st;
       dist_to_this_hub := dist_to_this_hub st; heap := heap' |}.

(** The [while] loop, for at most [fuel] turns. *)
Fixpoint Query_loop (fuel : nat) (qp : nat) (st : query_state)
    : query_state :=
  match fuel with
  | 0 => st
  | S fuel => if Query_continue qp st
              then Query_loop fuel qp (Query_step qp st) else st
  end.

(** A number of turns the loop cannot exceed: every hub takes at most one
    turn per 32 cells of the largest offset, plus one. *)
Definition Query_fuel : nat :=
  H * (list_max (ix_dH_psum ix) / warp_size + 1).

(** The measure of the loop: the turns left in the bucket that is being
    scanned, and a bound on the turns left in all. *)
Definition Query_turns_left (st : query_state) : nat :=
  if decide (scan_hub_to st ≤ scan_hub_from st + warp_size) then 1
  else (scan_hub_to st - scan_hub_from st + (warp_size - 1)) / warp_size.

Definition Query_potential (st : query_state) : nat :=
  if decide (hubs_processed st < H)
  then (H - hubs_processed st - 1)
       * (list_max (ix_dH_psum ix) / warp_size + 1)
       + Query_turns_left st
  else 0.

(** The loop condition as the specification words it: the traversal goes
    on until all hubs are exhausted, and stops once the square root of the
    worst retained distance exceeds the lower bound of the next hub minus
    the distance of the query to its own hub. *)
Definition Query_continue_spec (qp : nat) (st : query_state) : bool :=
  bool_decide (hubs_processed st < H)
  && negb (fgt (fsqrt (warpKTop K (heap st)))
               (fsub (dist_to_this_hub st) (Query_dist_to_my_hub qp))).

(** The pairs the warp of the query [qp] writes out. *)
Definition Query_result (qp : nat) : list heap_entry :=
  heap (Query_loop Query_fuel qp (Query_init qp)).

(** [heap.writeOut( solutions_distances + K * qp, solutions_knn + K * qp, K )]:
    the memory is the pair of [solutions_knn] and [solutions_distances]. *)
Definition Query_writeOut (qp : nat) (out : list Z * list float)
    : list Z * list float :=
  foldl (λ out j,
           let e := nth j (Query_result qp) (FLT_MAX, (-1)%Z) in
           (<[K * qp + j := e.2]> out.1, <[K * qp + j := e.1]> out.2))
        out (seq 0 K).

(** One warp of the launch: [threadIdx.y] selects the query of the block,
    and the query handled is the point [arr_idx[ query_sequence_id ]].
    The list [Qps] of the supplied query points is not read. *)
Definition Query_warp (queries_per_block : nat) (Qps : list nat)
    (w : nat * nat) (out : list Z * list float) : list Z * list float :=
  let query_sequence_id := global_idx queries_per_block w in
  if decide (Points_num ≤ query_sequence_id) then out
  else Query_writeOut (rdn (ix_arr_idx ix) query_sequence_id) out.

(** [Query<<<num_blocks, dim3 { warp_size, queries_per_block, 1 }>>>] under
    a schedule of its warps. *)
Definition Query (queries_per_block : nat) (Qps : list nat)
    (sched : list (nat * nat)) (out : list Z * list float)
    : list Z * list float :=
  launch (Query_warp queries_per_block Qps) sched out.

(** The points the launch handles as queries, in the order of the
    schedule. *)
Definition Query_points (queries_per_block : nat)
    (sched : list (nat * nat)) : list nat :=
  rdn (ix_arr_idx ix)
    <$> filter (λ s, s < Points_num) (global_idx queries_per_block <$> sched).

End Query.

(** [std::size_t constexpr queries_per_block = 128 / warp_size;
     num_blocks = util::CEIL_DIV(n, queries_per_block);] *)
Definition queries_per_block : nat := 128 / warp_size.

Definition query_grid (n : nat) : list (nat * nat) :=
  grid (CEIL_DIV n queries_per_block) queries_per_block.

(** ** C_and_Q *)

(** What the buffers hold when they are allocated, and what the shared
    memory of the blocks holds when they start. *)
Record allocations : Type := Allocations {
  al_dH : list Z;
  al_distances : list float;
  al_D : list float;
  al_arr_x : list float;
  al_arr_y : list float;
  al_arr_z : list float;
  al_arr_idx : list nat;
  al_smem_D : nat → nat → list Z;
  al_smem_psum : list nat
}.

Section Pipeline.

Variable H : nat.
Variable l2dist : float → float → float → float → float → float → float.
Variable fsqrt : float → float.
Variable fsub : float → float → float.
Variable warp_sort : bool → list sort_cell → list sort_cell.

(** The warps of [fused_prefix_sum_copy] that run ahead of the others
    between two turns of its loop. *)
Variable ahead : nat → nat → bool.

(** The index [C_and_Q] builds before it launches [Query], [None] when a
    kernel fails an assertion on the way.  The source fixes [batch_size]
    to 100000; here it is the parameter [b_size].  The call of
    [reassignPoints] is commented out in the source and has no
    counterpart. *)
Definition build_index (al : allocations) (b_size n : nat)
    (data : list float) : option knn_index :=
  let dH := Randomly_Select_Hubs H (Z.of_nat n) (hubs_grid H) (al_dH al) in
  if index_tables_asserts H l2dist fsqrt b_size n dH data
       (al_smem_D al) (al_distances al) (al_D al)
  then
    let tables := index_tables H l2dist fsqrt b_size n dH data
                    (al_smem_D al) (al_distances al) (al_D al) in
    psums ← prefix_sum_step H ahead (al_smem_psum al) (hub_counts tables.1)
              (replicate (H + 1) 0) (replicate (H + 1) 0);
    let buckets :=
      BucketSort n data (dH_assignments tables.1) (bucket_grid n)
        {| arr_x := al_arr_x al; arr_y := al_arr_y al; arr_z := al_arr_z al;
           arr_idx := al_arr_idx al; bs_cursor := psums.2 |} in
    let ranked := fused_transform_sort_D H warp_sort tables.2 in
    Some {| ix_points := data; ix_dH := dH;
            ix_arr_idx := arr_idx buckets;
            ix_arr_x := arr_x buckets; ix_arr_y := arr_y buckets;
            ix_arr_z := arr_z buckets;
            ix_iD := ranked.1; ix_dD := ranked.2;
            ix_dH_psum := psums.1;
            ix_assignments := dH_assignments tables.1 |}
  else None.

(** [C_and_Q(n, data, q, queries, k, results_knn, results_distances)]:
    the result arrays, [None] when a kernel fails an assertion or the
    [switch] over the collector bounds ends in its [default] branch.
    With no point, [n = 0], the grids of the launches have no block, and
    what [CHECK_ERROR] of [cuda_util.cuh] does then is not in the source
    at hand: the properties below are about [0 < n]. *)
Definition C_and_Q (al : allocations) (b_size : nat)
    (n : nat) (data : list float) (q : nat) (queries : list nat) (k : nat)
    (results : list Z * list float) : option (list Z * list float) :=
  ix ← build_index al b_size n data;
  match Query_dispatch k with
  | Some _ =>
      Some (Query H l2dist fsqrt fsub ix k n queries_per_block queries
              (query_grid n) results)
  | None => None
  end.

End Pipeline.

(** ** Examples *)

(** Buffers that hold zeros. *)
Definition zero_allocations (H b_size n : nat) : allocations :=
  {| al_dH := replicate H 0%Z;
     al_distances := replicate (H * b_size) 0%Z;
     al_D := replicate (H * H) 0%Z;
     al_arr_x := replicate n 0%Z;
     al_arr_y := replicate n 0%Z;
     al_arr_z := replicate n 0%Z;
     al_arr_idx := replicate n 0;
     al_smem_D := λ _ _, replicate 2048 0%Z;
     al_smem_psum := replicate 33 0 |}.

(** Three points on a line, at 0, 10 and 20, indexed with 32 hubs. *)
Definition line3 : list float := f32_of_Z <$> [0; 0; 0; 10; 0; 0; 20; 0; 0]%Z.

(** The schedule of [fused_prefix_sum_copy] in which no warp runs ahead. *)
Definition in_step : nat → nat → bool := λ _ _, false.

(** An index with no cell, for a build that fails. *)
Definition no_index : knn_index :=
  {| ix_points := []; ix_dH := []; ix_arr_idx := []; ix_arr_x := [];
     ix_arr_y := []; ix_arr_z := []; ix_iD := []; ix_dD := [];
     ix_dH_psum := []; ix_assignments := [] |}.

Definition line3_index : knn_index :=
  Eval vm_compute in
    default no_index
      (build_index 32 f32_l2dist f32_sqrt warp_sort_insertion in_step
         (zero_allocations 32 3 3) 3 3 line3).

(** ** Shapes of 0-1 sequences

    The sorting network is followed through the sequences of bits that
    tell, for a threshold, which of its registers hold a distance above the
    threshold.  [x] gives the bit of every position; a shape speaks of the
    [L] positions from [a] on. *)

(** Zeros then ones, and ones then zeros. *)
Definition run_up (x : nat → bool) (a L : nat) : Prop :=
  ∃ i, i ≤ L ∧ ∀ j, j < L → x (a + j) = bool_decide (i ≤ j).

Definition run_down (x : nat → bool) (a L : nat) : Prop :=
  ∃ i, i ≤ L ∧ ∀ j, j < L → x (a + j) = bool_decide (j < i).

(** Zeros, ones, zeros; and ones, zeros, ones. *)
Definition hill (x : nat → bool) (a L : nat) : Prop :=
  ∃ i k, i ≤ k ∧ k ≤ L ∧ ∀ j, j < L → x (a + j) = bool_decide (i ≤ j < k).

Definition valley (x : nat → bool) (a L : nat) : Prop :=
  ∃ i k, i ≤ k ∧ k ≤ L ∧
    ∀ j, j < L → x (a + j) = negb (bool_decide (i ≤ j < k)).

Definition bitonic01 (x : nat → bool) (a L : nat) : Prop :=
  hill x a L ∨ valley x a L.

Definition flat (x : nat → bool) (a L : nat) (c : bool) : Prop :=
  ∀ j, j < L → x (a + j) = c.

(** A block of [C] positions in the middle of a merge, cut in pieces of [S]
    positions: one piece is bitonic, the pieces before it hold the small
    bit and the pieces after it the large one, for the direction [asc] of
    the block. *)
Definition merging (x : nat → bool) (a C S : nat) (asc : bool) : Prop :=
  ∃ m, m * S < C ∧
    (∀ q, q < m → flat x (a + q * S) S (negb asc)) ∧
    bitonic01 x (a + m * S) S ∧
    (∀ q, m < q → q * S < C → flat x (a + q * S) S asc).

(** A block sorted in the direction [asc]. *)
Definition run_sorted (x : nat → bool) (a L : nat) (asc : bool) : Prop :=
  if asc then run_up x a L else run_down x a L.

(** The bit of a register for the threshold [t]. *)
Definition above (t : Z) (l : list sort_cell) (g : nat) : bool :=
  bool_decide (t < (nth g l (0%Z, 0%nat)).1)%Z.


(** The lane whose pair the lane [g] holds after an exchange step. *)
Definition exchange_source (coop stride : nat) (l : list sort_cell)
    (g : nat) : nat :=
  let p := Nat.lxor g stride in
  match l !! g, l !! p with
  | Some me, Some pa => if merge_takes coop g p pa.1 me.1 then p else g
  | _, _ => g
  end.

(** The distances of the registers are those of non-negative floats. *)
Definition keys_nonneg (l : list sort_cell) : Prop :=
  Forall (λ c : sort_cell, f32_nonneg c.1) l.

(** What is known of [bitonic::sort], the sort inside a warp that lives in
    [bitonic-shared.cuh]: on the 32 registers of a warp it permutes the
    pairs, and when their distances are those of non-negative floats it
    leaves them ordered by distance, in the direction asked for. *)
Definition warp_sort_sorts
    (warp_sort : bool → list sort_cell → list sort_cell) : Prop :=
  ∀ asc l, length l = warp_size →
    warp_sort asc l ≡ₚ l ∧
    (keys_nonneg l → ∀ a b x y, a ≤ b →
       warp_sort asc l !! a = Some x → warp_sort asc l !! b = Some y →
       fle (if asc then x.1 else y.1) (if asc then y.1 else x.1) = true).

(** The blocks of [C] registers of a row of [H] are sorted for every
    threshold, the even ones upwards and the odd ones downwards; and they
    are in the middle of a merge, cut in pieces of [S] registers. *)
Definition sorted_blocks (H C : nat) (l : list sort_cell) : Prop :=
  ∀ t b, b * C < H → run_sorted (above t l) (b * C) C (Nat.even b).

Definition merging_blocks (H C S : nat) (l : list sort_cell) : Prop :=
  ∀ t b, b * C < H → merging (above t l) (b * C) C S (Nat.even b).

(** The registers of a row: [H] pairs, no hub twice, every pair with the
    property [P], the distances those of non-negative floats. *)
Definition row_pairs (H : nat) (P : sort_cell → Prop) (l : list sort_cell)
    : Prop :=
  length l = H ∧ NoDup (l.*2) ∧ Forall P l ∧ keys_nonneg l.

(** A pair of the row [hub_id]: a column and the entry of [D] there. *)
Definition cell_of_row (H : nat) (D : list float) (hub_id : nat)
    (c : sort_cell) : Prop :=
  c.2 < H ∧ c.1 = rdf D (H * hub_id + c.2).

(** The order of two distances in the direction [asc], and a list in that
    order from its head on. *)
Definition in_order (asc : bool) (x y : sort_cell) : Prop :=
  if asc then (x.1 ≤ y.1)%Z else (y.1 ≤ x.1)%Z.

Fixpoint ordered (asc : bool) (l : list sort_cell) : Prop :=
  match l with
  | [] => True
  | x :: l' => Forall (in_order asc x) l' ∧ ordered asc l'
  end.

(** *** Small inputs

    The points of [line3] with two of them as hubs, a table of hub
    counters with one hub below two points, and the memory of a bucket
    sort of three points. *)
Definition line3_hubs : list Z := [0; 2]%Z.

Definition zero_smem : nat → nat → list Z := λ _ _, replicate 2 0%Z.

(** Point-to-hub distances of three points, hub by hub, as
    [reassignPoints] reads them: the points 0 and 1 sit in hub 0, the
    point 2 in hub 1. *)
Definition three_point_distances : list float :=
  f32_of_Z <$> [0; 1; 3; 3; 2; 0]%Z.

Definition three_point_buckets : bs_mem :=
  {| arr_x := replicate 3 0%Z; arr_y := replicate 3 0%Z;
     arr_z := replicate 3 0%Z; arr_idx := replicate 3 0;
     bs_cursor := [0; 1; 3] |}.

(** The tables [C_and_Q] builds for [line3] with 32 hubs before it sorts
    them. *)
Definition line3_tables : cd_mem * list float :=
  Eval vm_compute in
  index_tables 32 f32_l2dist f32_sqrt 3 3
    (Randomly_Select_Hubs 32 3 (hubs_grid 32) (replicate 32 0%Z))
    line3 (λ _ _, replicate 2048 0%Z)
    (replicate (32 * 3) 0%Z) (replicate (32 * 32) 0%Z).

(** A matrix of 64 rows of small distances. *)
Definition D64 : list float :=
  Eval vm_compute in
    (λ c, f32_of_Z (Z.of_nat ((c * 37) mod 101))) <$> seq 0 (64 * 64).

(** ** Squared and rooted distances *)

Section Values.

Variable H : nat.
Variable l2dist : float → float → float → float → float → float → float.
Variable fsqrt : float → float.

(** What a cell of the hub distance matrix can hold: the value
    [set_max_float] leaves, the sentinel of [Construct_D], or the rooted
    distance of a point to a hub. *)
Definition D_value (n : nat) (points : list float) (dH : list Z)
    (v : float) : Prop :=
  v = FLT_MAX ∨ v = D_sentinel
  ∨ ∃ p h, p < n ∧ h < H ∧ v = hub_distance l2dist fsqrt points dH p h.

Variable ix : knn_index.

(** [spatial::l2dist] between the query point [qp] and the point at the
    position [a] of the bucketed arrays: no square root is taken. *)
Definition Query_l2dist (qp a : nat) : float :=
  l2dist (rdf (ix_points ix) (qp * dim))
         (rdf (ix_points ix) (qp * dim + 1))
         (rdf (ix_points ix) (qp * dim + 2))
         (rdf (ix_arr_x ix) a) (rdf (ix_arr_y ix) a) (rdf (ix_arr_z ix) a).

(** What the collector of the query [qp] can hold: the pair it starts
    with, the pair of an idle lane, or the squared distance to a bucketed
    point with the identifier of that point. *)
Definition Query_entry (Points_num qp : nat) (e : heap_entry) : Prop :=
  e = (FLT_MAX, (-1)%Z) ∨ e = (FLT_MAX, Z.of_nat Points_num)
  ∨ ∃ a, e = (Query_l2dist qp a, Z.of_nat (rdn (ix_arr_idx ix) a)).

End Values.

(** The cell [loc] of the bucketed arrays holds the point [x]: its
    identifier and its three coordinates. *)
Definition bucket_holds (points : list float) (m : bs_mem) (loc x : nat)
    : Prop :=
  arr_idx m !! loc = Some x
  ∧ arr_x m !! loc = Some (rdf points (x * dim + 0))
  ∧ arr_y m !! loc = Some (rdf points (x * dim + 1))
  ∧ arr_z m !! loc = Some (rdf points (x * dim + 2)).

(** The sizes of the bucketed arrays. *)
Definition bucket_lengths (n : nat) (m : bs_mem) : Prop :=
  length (arr_idx m) = n ∧ length (arr_x m) = n
  ∧ length (arr_y m) = n ∧ length (arr_z m) = n.

(** The registers of a row whatever their distances are: [H] pairs, no
    hub twice, every pair with the property [P]. *)
Definition row_cells (H : nat) (P : sort_cell → Prop) (l : list sort_cell)
    : Prop :=
  length l = H ∧ NoDup (l.*2) ∧ Forall P l.

(** The least that is asked of [bitonic::sort]: it permutes the pairs of
    the 32 registers of a warp. *)
Definition warp_sort_permutes
    (warp_sort : bool → list sort_cell → list sort_cell) : Prop :=
  ∀ asc l, length l = warp_size → warp_sort asc l ≡ₚ l.

(** ** The pairs of a query *)

(** [spatial::l2dist] between the points [qp] and [p] of the data set: no
    square root is taken. *)
Definition point_l2dist
    (l2dist : float → float → float → float → float → float → float)
    (points : list float) (qp p : nat) : float :=
  l2dist (rdf points (qp * dim)) (rdf points (qp * dim + 1))
         (rdf points (qp * dim + 2))
         (rdf points (p * dim)) (rdf points (p * dim + 1))
         (rdf points (p * dim + 2)).

(** What the collector of the query [qp] can hold: the pair it starts
    with, the pair of an idle lane, or the pair of a point [p] of the data
    set, its identifier with [l2dist] between [qp] and [p]. *)
Definition result_entry
    (l2dist : float → float → float → float → float → float → float)
    (points : list float) (n qp : nat) (e : heap_entry) : Prop :=
  e = (FLT_MAX, (-1)%Z) ∨ e = (FLT_MAX, Z.of_nat n)
  ∨ ∃ p, p < n ∧ e = (point_l2dist l2dist points qp p, Z.of_nat p).

(** [current_H], the hub whose bucket the loop of the query [qp] is
    scanning: its own hub first, then the hubs of its row of [iD]. *)
Definition Query_scanned_hub (H : nat) (ix : knn_index) (qp : nat)
    (st : query_state) : nat :=
  if decide (hubs_processed st = 0) then rdn (ix_assignments ix) qp
  else rdn (ix_iD ix) (rdn (ix_assignments ix) qp * H + hubs_processed st).

(** What holds of the loop variables of a query over [n] points: the
    bucket that is scanned ends inside the bucketed arrays and, while hubs
    remain, it is the bucket of the hub that is scanned. *)
Definition Query_scanning (H : nat) (ix : knn_index) (n qp : nat)
    (st : query_state) : Prop :=
  scan_hub_to st ≤ n ∧
  (hubs_processed st < H →
   Query_scanned_hub H ix qp st < H
   ∧ rdn (ix_dH_psum ix) (Query_scanned_hub H ix qp st) ≤ scan_hub_from st
   ∧ scan_hub_to st = rdn (ix_dH_psum ix) (Query_scanned_hub H ix qp st + 1)).

(** The first pair the collector holds is at least as near as the pair
    [x]. *)
Definition heap_bounds (x : heap_entry) (h : list heap_entry) : Prop :=
  flt x.1 (nth 0 h (FLT_MAX, (-1)%Z)).1 = false.
(** * Properties *)

(** ** Properties of the grid *)

Lemma elem_of_grid nb bd b t :
  (b, t) ∈ grid nb bd ↔ b < nb ∧ t < bd.
Proof.
  unfold grid. rewrite list_elem_of_bind. split.
  - intros (b' & Hin & Hb). apply elem_of_seq in Hb.
    apply list_elem_of_fmap in Hin as (t' & Heq & Ht).
    apply elem_of_seq in Ht. simplify_eq. lia.
  - intros [Hb Ht]. exists b. split.
    + apply list_elem_of_fmap. exists t. split; [done|].
      apply elem_of_seq. lia.
    + apply elem_of_seq. lia.
Qed.

Lemma grid_covers nb bd i :
  0 < bd → i < nb * bd → ∃ th, th ∈ grid nb bd ∧ global_idx bd th = i.
Proof.
  intros Hbd Hi. exists (i / bd, i mod bd). split.
  - apply elem_of_grid. split.
    + apply Nat.Div0.div_lt_upper_bound. lia.
    + apply Nat.mod_upper_bound. lia.
  - unfold global_idx. simpl. pose proof (Nat.div_mod_eq i bd). lia.
Qed.

Lemma ceil_blocks_cover m bd : 0 < bd → m ≤ ((m + bd - 1) / bd) * bd.
Proof.
  intros Hbd.
  pose proof (Nat.div_mod_eq (m + bd - 1) bd) as E.
  pose proof (Nat.mod_upper_bound (m + bd - 1) bd). lia.
Qed.

(** ** Hub selection *)

Section HubsFacts.

Variable H : nat.

Lemma Randomly_Select_Hubs_length n sched dH :
  length (Randomly_Select_Hubs H n sched dH) = length dH.
Proof.
  unfold Randomly_Select_Hubs, launch.
  revert dH. induction sched as [|th sched IH]; intros dH; [done|].
  simpl. rewrite IH. unfold Randomly_Select_Hubs_thread.
  case_decide; [apply length_insert|done].
Qed.

(** Every write to slot [s] stores the hash of [s]: once a slot holds it,
    no later thread changes it. *)
Lemma Randomly_Select_Hubs_stable n sched dH s :
  dH !! s = Some (hub_rand s mod n)%Z →
  Randomly_Select_Hubs H n sched dH !! s = Some (hub_rand s mod n)%Z.
Proof.
  unfold Randomly_Select_Hubs, launch.
  revert dH. induction sched as [|th sched IH]; intros dH Hs; [done|].
  simpl. apply IH. unfold Randomly_Select_Hubs_thread.
  case_decide; [|done].
  destruct (decide (global_idx block_size th = s)) as [<-|Hne].
  - apply list_lookup_insert_eq. by eapply lookup_lt_Some.
  - by rewrite list_lookup_insert_ne.
Qed.

Lemma Randomly_Select_Hubs_slot n sched dH s :
  s < H → s < length dH →
  (∃ th, th ∈ sched ∧ global_idx block_size th = s) →
  Randomly_Select_Hubs H n sched dH !! s = Some (hub_rand s mod n)%Z.
Proof.
  intros Hs. revert dH.
  induction sched as [|th sched IH]; intros dH Hlen (th' & Hin & Hth').
  - by apply elem_of_nil in Hin.
  - apply elem_of_cons in Hin as [->|Hin].
    + change (Randomly_Select_Hubs H n (th :: sched) dH)
        with (Randomly_Select_Hubs H n sched
                (Randomly_Select_Hubs_thread H block_size n th dH)).
      apply Randomly_Select_Hubs_stable.
      unfold Randomly_Select_Hubs_thread. rewrite Hth'.
      rewrite decide_True by done. by apply list_lookup_insert_eq.
    + change (Randomly_Select_Hubs H n (th :: sched) dH)
        with (Randomly_Select_Hubs H n sched
                (Randomly_Select_Hubs_thread H block_size n th dH)).
      apply IH; [|by exists th'].
      unfold Randomly_Select_Hubs_thread. case_decide; [|done].
      by rewrite length_insert.
Qed.

(** C9. Hub selection is a pure function of the slot index and [n]: under
    every schedule of the launch of [C_and_Q], and whatever the hub array
    held before, slot [s] of the hub list ends up holding
    [hub_rand s mod n], the seeded linear-congruential hash of the slot
    reduced modulo [n], and that value is a point index in [0, n). *)
Theorem Randomly_Select_Hubs_deterministic (n : Z) sched dH s :
  (0 < n)%Z → length dH = H → sched ≡ₚ hubs_grid H → s < H →
  Randomly_Select_Hubs H n sched dH !! s = Some (hub_rand s mod n)%Z
  ∧ (0 ≤ hub_rand s mod n < n)%Z.
Proof.
  intros Hn Hlen Hperm Hs. split.
  - apply Randomly_Select_Hubs_slot; [lia..|].
    destruct (grid_covers ((H + block_size - 1) / block_size) block_size s)
      as (th & Hin & Hth).
    + unfold block_size. lia.
    + pose proof (ceil_blocks_cover H block_size). unfold block_size in *. lia.
    + exists th. split; [|done]. by rewrite Hperm.
  - apply Z.mod_pos_bound. lia.
Qed.

End HubsFacts.
(** ** Launches *)

Lemma launch_invariant {M : Type} (I : M → Prop) body sched (m : M) :
  (∀ th m, I m → I (body th m)) → I m → I (launch body sched m).
Proof.
  intros Hstep. unfold launch. revert m.
  induction sched as [|th sched IH]; intros m Hm; [done|].
  simpl. apply IH. by apply Hstep.
Qed.

(** What one thread establishes and no thread destroys holds after the
    launch. *)
Lemma launch_establishes {M : Type} (I P : M → Prop) body sched th0 (m : M) :
  (∀ th m, I m → I (body th m)) →
  (∀ th m, I m → P m → P (body th m)) →
  (∀ m, I m → P (body th0 m)) →
  th0 ∈ sched → I m → P (launch body sched m).
Proof.
  intros HI HP H0. unfold launch. revert m.
  induction sched as [|th sched IH]; intros m Hin Hm.
  - by apply elem_of_nil in Hin.
  - simpl. apply elem_of_cons in Hin as [->|Hin].
    + apply (launch_invariant (λ m, I m ∧ P m)).
      * intros th' m' [? ?]. split; [by apply HI|by apply HP].
      * split; [by apply HI|by apply H0].
    + apply IH; [done|by apply HI].
Qed.

Lemma foldl_invariant {A B : Type} (I : A → Prop) (f : A → B → A) l a :
  (∀ a b, b ∈ l → I a → I (f a b)) → I a → I (foldl f a l).
Proof.
  revert a. induction l as [|b l IH]; intros a Hstep Ha; [done|].
  simpl. apply IH.
  - intros a' b' Hb'. apply Hstep. by right.
  - apply Hstep; [by left|done].
Qed.

Lemma foldl_establishes {A B : Type} (I P : A → Prop) (f : A → B → A) l b0 a :
  (∀ a b, b ∈ l → I a → I (f a b)) →
  (∀ a b, b ∈ l → I a → P a → P (f a b)) →
  (∀ a, I a → P (f a b0)) →
  b0 ∈ l → I a → P (foldl f a l).
Proof.
  revert a. induction l as [|b l IH]; intros a HI HP H0 Hin Ha.
  - by apply elem_of_nil in Hin.
  - simpl. apply elem_of_cons in Hin as [->|Hin].
    + apply (foldl_invariant (λ a, I a ∧ P a)).
      * intros a' b' Hb' [? ?]. split.
        -- apply HI; [by right|done].
        -- apply HP; [by right|done|done].
      * split; [apply HI; [by left|done]|by apply H0].
    + apply IH; try done.
      * intros a' b' Hb'. apply HI. by right.
      * intros a' b' Hb'. apply HP. by right.
      * apply HI; [by left|done].
Qed.

(** ** Reads and writes *)

Lemma rd_insert_eq {A : Type} (l : list A) i x d :
  i < length l → nth i (<[i := x]> l) d = x.
Proof.
  intros Hi. rewrite nth_lookup, list_lookup_insert_eq by done. done.
Qed.

Lemma rd_insert_ne {A : Type} (l : list A) i j x d :
  i ≠ j → nth j (<[i := x]> l) d = nth j l d.
Proof.
  intros Hne. by rewrite !nth_lookup, list_lookup_insert_ne.
Qed.

Lemma rd_lookup {A : Type} (l : list A) i x d :
  l !! i = Some x → nth i l d = x.
Proof. intros Hl. by rewrite nth_lookup, Hl. Qed.

(** ** Order of the non-negative words *)

Lemma f32_magnitude_nonneg w :
  (0 ≤ w < 2 ^ 31)%Z → f32_magnitude w = w ∧ Z.testbit w 31 = false.
Proof.
  intros Hw. split.
  - unfold f32_magnitude.
    change 0x7fffffff%Z with (Z.ones 31).
    rewrite Z.land_ones by lia. apply Z.mod_small. lia.
  - apply Z.testbit_false; [lia|].
    rewrite Z.div_small by lia. done.
Qed.

Lemma f32_nonneg_key w :
  f32_nonneg w → f32_key w = w ∧ f32_is_nan w = false.
Proof.
  intros Hw. unfold f32_nonneg in Hw.
  destruct (f32_magnitude_nonneg w) as [Hm Hb]; [lia|].
  unfold f32_key, f32_is_nan. rewrite Hm, Hb. split; [done|].
  apply Z.ltb_ge. lia.
Qed.

Lemma fle_nonneg a b :
  f32_nonneg a → f32_nonneg b → fle a b = true ↔ (a ≤ b)%Z.
Proof.
  intros Ha Hb.
  destruct (f32_nonneg_key a Ha) as [Ka Na].
  destruct (f32_nonneg_key b Hb) as [Kb Nb].
  unfold fle, fge. rewrite Ka, Kb, Na, Nb. simpl.
  apply Z.leb_le.
Qed.

Lemma flt_nonneg a b :
  f32_nonneg a → f32_nonneg b → flt a b = true ↔ (a < b)%Z.
Proof.
  intros Ha Hb.
  destruct (f32_nonneg_key a Ha) as [Ka Na].
  destruct (f32_nonneg_key b Hb) as [Kb Nb].
  unfold flt. rewrite Ka, Kb, Na, Nb. simpl.
  apply Z.ltb_lt.
Qed.

Lemma float_as_int_nonneg w : (0 ≤ w < 2 ^ 31)%Z → float_as_int w = w.
Proof.
  intros Hw. unfold float_as_int.
  destruct (Z.ltb_spec w (2 ^ 31)); [done|lia].
Qed.

Lemma int_as_float_nonneg i : (0 ≤ i < 2 ^ 31)%Z → int_as_float i = i.
Proof. intros Hi. unfold int_as_float. apply Z.mod_small. lia. Qed.

(** ** Calculate_Distances *)

Section DistancesFacts.

Variable H : nat.
Variable l2dist : float → float → float → float → float → float → float.
Variable fsqrt : float → float.
Variables (points : list float) (dH : list Z).

(** The loop over the hubs writes one column of the table and finds the
    nearest hub; the two do not interfere. *)
Lemma Calculate_Distances_hub_loop b_size idx p hs ds st :
  foldl (Calculate_Distances_hub l2dist fsqrt points dH b_size idx p)
        (ds, st.1, st.2) hs =
  (foldl (λ ds h, <[h * b_size + p := hub_distance l2dist fsqrt points dH idx h]> ds) ds hs,
   (foldl (nearest_step l2dist fsqrt points dH idx) st hs).1,
   (foldl (nearest_step l2dist fsqrt points dH idx) st hs).2).
Proof.
  revert ds st. induction hs as [|h hs IH]; intros ds [mind a]; [done|].
  simpl. unfold nearest_step at 2 4. simpl.
  destruct (flt (hub_distance l2dist fsqrt points dH idx h) mind).
  - apply (IH _ (hub_distance l2dist fsqrt points dH idx h, h)).
  - apply (IH _ (mind, a)).
Qed.

Lemma Calculate_Distances_thread_eq bd b_id b_size n th m :
  Calculate_Distances_thread H l2dist fsqrt bd b_id b_size n dH points th m =
  let p := global_idx bd th in
  let idx := p + b_id * b_size in
  if decide (idx < n ∧ p < b_size) then
    {| distances :=
         foldl (λ ds h, <[h * b_size + p := hub_distance l2dist fsqrt points dH idx h]> ds)
               (distances m) (seq 0 H);
       hub_counts := atomicAdd (hub_counts m) (nearest_hub H l2dist fsqrt points dH idx) 1;
       dH_assignments := <[idx := nearest_hub H l2dist fsqrt points dH idx]> (dH_assignments m) |}
  else m.
Proof.
  unfold Calculate_Distances_thread. simpl. case_decide; [|done].
  pose proof (Calculate_Distances_hub_loop b_size
    (global_idx bd th + b_id * b_size) (global_idx bd th) (seq 0 H)
    (distances m) (FLT_MAX, H + 1)) as E.
  simpl in E. rewrite E. done.
Qed.

(** The column writes of one thread. *)
Lemma column_writes_length b_size p (v : nat → float) hs (ds : list float) :
  length (foldl (λ ds h, <[h * b_size + p := v h]> ds) ds hs) = length ds.
Proof.
  revert ds. induction hs as [|h hs IH]; intros ds; [done|].
  simpl. rewrite IH. apply length_insert.
Qed.

Lemma column_writes_stable b_size p (v : nat → float) (F : nat → float) hs (ds : list float) c :
  (∀ h, h ∈ hs → v h = F (h * b_size + p)) →
  ds !! c = Some (F c) →
  foldl (λ ds h, <[h * b_size + p := v h]> ds) ds hs !! c = Some (F c).
Proof.
  intros Hv. apply (foldl_invariant (λ ds, ds !! c = Some (F c))).
  intros ds' h Hh Hc.
  destruct (decide (h * b_size + p = c)) as [<-|Hne].
  - rewrite list_lookup_insert_eq by (by eapply lookup_lt_Some).
    by rewrite Hv.
  - by rewrite list_lookup_insert_ne.
Qed.

Lemma column_writes_set b_size p (v : nat → float) (F : nat → float) hs (ds : list float) h0 :
  (∀ h, h ∈ hs → v h = F (h * b_size + p)) →
  h0 ∈ hs → h0 * b_size + p < length ds →
  foldl (λ ds h, <[h * b_size + p := v h]> ds) ds hs !! (h0 * b_size + p)
  = Some (F (h0 * b_size + p)).
Proof.
  intros Hv Hin Hlen.
  apply (foldl_establishes (λ ds', length ds' = length ds)
           (λ ds', ds' !! (h0 * b_size + p) = Some (F (h0 * b_size + p)))
           _ hs h0); try done.
  - intros ds' h _ Hl. by rewrite length_insert.
  - intros ds' h Hh Hl Hc.
    destruct (decide (h * b_size + p = h0 * b_size + p)) as [E|Hne].
    + rewrite E. rewrite list_lookup_insert_eq by lia.
      rewrite Hv by done. by rewrite E.
    + by rewrite list_lookup_insert_ne.
  - intros ds' Hl. rewrite list_lookup_insert_eq by lia.
    by rewrite Hv.
Qed.

Lemma batch_cell_eq b_id b_size h p :
  p < b_size →
  batch_cell l2dist fsqrt points dH b_id b_size (h * b_size + p) = hub_distance l2dist fsqrt points dH (p + b_id * b_size) h.
Proof.
  intros Hp. unfold batch_cell.
  replace (h * b_size + p) with (p + h * b_size) by lia.
  rewrite Nat.Div0.mod_add, Nat.mod_small by done.
  rewrite Nat.div_add by lia. rewrite Nat.div_small by done. done.
Qed.

Lemma Calculate_Distances_thread_lengths bd b_id b_size n L th m :
  cd_lengths L n m →
  cd_lengths L n
    (Calculate_Distances_thread H l2dist fsqrt bd b_id b_size n dH points th m).
Proof.
  intros [Hd Ha]. rewrite Calculate_Distances_thread_eq. simpl.
  case_decide; [|done]. split; simpl.
  - by rewrite column_writes_length.
  - by rewrite length_insert.
Qed.

Lemma Calculate_Distances_lengths bd b_id b_size n L sched m :
  cd_lengths L n m →
  cd_lengths L n
    (Calculate_Distances H l2dist fsqrt bd b_id b_size n dH points sched m).
Proof.
  apply launch_invariant. intros th m'.
  apply Calculate_Distances_thread_lengths.
Qed.

(** Every write to the assignment of a point stores its nearest hub. *)
Lemma Calculate_Distances_assignment_stable bd b_id b_size n sched m idx :
  dH_assignments m !! idx = Some (nearest_hub H l2dist fsqrt points dH idx) →
  dH_assignments
    (Calculate_Distances H l2dist fsqrt bd b_id b_size n dH points sched m)
    !! idx = Some (nearest_hub H l2dist fsqrt points dH idx).
Proof.
  apply (launch_invariant
           (λ m, dH_assignments m !! idx = Some (nearest_hub H l2dist fsqrt points dH idx))).
  intros th m' Hm'. rewrite Calculate_Distances_thread_eq. simpl.
  case_decide; [|done]. simpl.
  destruct (decide (global_idx bd th + b_id * b_size = idx)) as [<-|Hne].
  - rewrite list_lookup_insert_eq; [done|]. by eapply lookup_lt_Some.
  - by rewrite list_lookup_insert_ne.
Qed.

Lemma Calculate_Distances_assignment bd b_id b_size n L sched m p :
  cd_lengths L n m →
  (∃ th, th ∈ sched ∧ global_idx bd th = p) →
  p < b_size → p + b_id * b_size < n →
  dH_assignments
    (Calculate_Distances H l2dist fsqrt bd b_id b_size n dH points sched m)
    !! (p + b_id * b_size) = Some (nearest_hub H l2dist fsqrt points dH (p + b_id * b_size)).
Proof.
  intros Hm (th0 & Hin & Hth0) Hp Hidx.
  apply (launch_establishes (cd_lengths L n)
           (λ m, dH_assignments m !! (p + b_id * b_size)
                 = Some (nearest_hub H l2dist fsqrt points dH (p + b_id * b_size))) _ sched th0);
    try done.
  - intros th m'. apply Calculate_Distances_thread_lengths.
  - intros th m' _ Hm'. rewrite Calculate_Distances_thread_eq. simpl.
    case_decide; [|done]. simpl.
    destruct (decide (global_idx bd th + b_id * b_size = p + b_id * b_size))
      as [E|Hne].
    + rewrite E. rewrite list_lookup_insert_eq; [done|].
      by eapply lookup_lt_Some.
    + by rewrite list_lookup_insert_ne.
  - intros m' [_ Ha]. rewrite Calculate_Distances_thread_eq. simpl.
    rewrite Hth0. rewrite decide_True by done. simpl.
    rewrite list_lookup_insert_eq; [done|lia].
Qed.

(** After the launch for a batch, the table holds the distances of the
    points of the batch. *)
Lemma Calculate_Distances_table bd b_id b_size n sched m p h :
  cd_lengths (H * b_size) n m →
  (∃ th, th ∈ sched ∧ global_idx bd th = p) →
  p < b_size → p + b_id * b_size < n → h < H →
  distances
    (Calculate_Distances H l2dist fsqrt bd b_id b_size n dH points sched m)
    !! (h * b_size + p) = Some (hub_distance l2dist fsqrt points dH (p + b_id * b_size) h).
Proof.
  intros Hm (th0 & Hin & Hth0) Hp Hidx Hh.
  rewrite <- (batch_cell_eq b_id b_size h p) by done.
  assert (∀ q, q < b_size → ∀ h', h' ∈ seq 0 H →
            hub_distance l2dist fsqrt points dH (q + b_id * b_size) h'
            = batch_cell l2dist fsqrt points dH b_id b_size (h' * b_size + q)) as Hcells.
  { intros q Hq h' _. by rewrite batch_cell_eq. }
  apply (launch_establishes (cd_lengths (H * b_size) n)
           (λ m, distances m !! (h * b_size + p)
                 = Some (batch_cell l2dist fsqrt points dH b_id b_size (h * b_size + p)))
           _ sched th0); try done.
  - intros th m'. apply Calculate_Distances_thread_lengths.
  - intros th m' _ Hm'. rewrite Calculate_Distances_thread_eq. simpl.
    case_decide as Hact; [|done]. simpl.
    apply column_writes_stable; [|done].
    apply Hcells. lia.
  - intros m' [Hd _]. rewrite Calculate_Distances_thread_eq. simpl.
    rewrite Hth0. rewrite decide_True by done. simpl.
    apply column_writes_set.
    + by apply Hcells.
    + apply elem_of_seq. lia.
    + rewrite Hd. nia.
Qed.

End DistancesFacts.

(** ** Construct_D *)

Lemma atomicMin_length a i v : length (atomicMin a i v) = length a.
Proof. apply length_insert. Qed.

Lemma atomicMin_le a i v j : (rdz (atomicMin a i v) j ≤ rdz a j)%Z.
Proof.
  unfold atomicMin, rdz. destruct (decide (i = j)) as [->|Hne].
  - destruct (decide (j < length a)).
    + rewrite rd_insert_eq by done. lia.
    + rewrite list_insert_ge by lia. lia.
  - rewrite rd_insert_ne by done. lia.
Qed.

Lemma atomicMin_le_value a i v :
  i < length a → (rdz (atomicMin a i v) i ≤ v)%Z.
Proof.
  intros Hi. unfold atomicMin, rdz. rewrite rd_insert_eq by done. lia.
Qed.

Lemma atomicMin_read a i v :
  i < length a → rdz (atomicMin a i v) i = Z.min (rdz a i) v.
Proof. intros Hi. unfold atomicMin, rdz. by rewrite rd_insert_eq. Qed.

Lemma atomicMin_lower a i v j lo :
  (lo ≤ v)%Z → (lo ≤ rdz a j)%Z → (lo ≤ rdz (atomicMin a i v) j)%Z.
Proof.
  intros Hv Ha. unfold atomicMin, rdz in *.
  destruct (decide (i = j)) as [->|Hne].
  - destruct (decide (j < length a)).
    + rewrite rd_insert_eq by done. lia.
    + by rewrite list_insert_ge by lia.
  - by rewrite rd_insert_ne.
Qed.

Section ConstructDFacts.

Variable H : nat.

(** The first loop leaves the sentinel in every slot below [H]. *)
Lemma Construct_D_init_slots bd smem j :
  0 < bd → H ≤ length smem → j < H →
  rdz (foldl (Construct_D_init H bd) smem (grid ((H + bd - 1) / bd) bd)) j
  = D_sentinel.
Proof.
  intros Hbd Hlen Hj.
  destruct (grid_covers ((H + bd - 1) / bd) bd j) as (slot & Hin & Hslot);
    [done|pose proof (ceil_blocks_cover H bd); lia|].
  apply (foldl_establishes (λ s, length s = length smem)
           (λ s, rdz s j = D_sentinel) _ _ slot); try done.
  - intros s sl _ Hs. unfold Construct_D_init. case_decide; [|done].
    by rewrite length_insert.
  - intros s sl _ Hs Hv. unfold Construct_D_init. case_decide; [|done].
    unfold rdz in *. destruct (decide (global_idx bd sl = j)) as [->|Hne].
    + rewrite rd_insert_eq by lia. done.
    + by rewrite rd_insert_ne.
  - intros s Hs. unfold Construct_D_init. rewrite Hslot.
    rewrite decide_True by done. unfold rdz. rewrite rd_insert_eq by lia. done.
Qed.

Lemma Construct_D_init_length bd smem slots :
  length (foldl (Construct_D_init H bd) smem slots) = length smem.
Proof.
  apply (foldl_invariant (λ s, length s = length smem)); [|done].
  intros s sl _ Hs. unfold Construct_D_init. case_decide; [|done].
  by rewrite length_insert.
Qed.

(** The second loop: the shared row only decreases, stays non-negative
    when the scanned values are, and ends below every scanned value of its
    slot. *)
Lemma Construct_D_scan_length dists assignments b_id b_size n hub_id s ps :
  length (foldl (Construct_D_scan dists assignments b_id b_size n hub_id) s ps)
  = length s.
Proof.
  apply (foldl_invariant (λ s', length s' = length s)); [|done].
  intros s' p _ Hs. unfold Construct_D_scan. case_decide; [|done].
  by rewrite atomicMin_length.
Qed.

Lemma Construct_D_scan_le dists assignments b_id b_size n hub_id s ps j :
  (rdz (foldl (Construct_D_scan dists assignments b_id b_size n hub_id) s ps) j
   ≤ rdz s j)%Z.
Proof.
  apply (foldl_invariant (λ s', (rdz s' j ≤ rdz s j)%Z)); [|done].
  intros s' p _ Hs. unfold Construct_D_scan. case_decide; [|done].
  etrans; [apply atomicMin_le|done].
Qed.

Lemma Construct_D_scan_lower dists assignments b_id b_size n hub_id s ps j :
  (∀ p, p ∈ ps → b_id * b_size + p < n →
        (0 ≤ float_as_int (rdf dists (hub_id * b_size + p)))%Z) →
  (0 ≤ rdz s j)%Z →
  (0 ≤ rdz (foldl (Construct_D_scan dists assignments b_id b_size n hub_id)
                  s ps) j)%Z.
Proof.
  intros Hv Hs.
  apply (foldl_invariant (λ s', (0 ≤ rdz s' j)%Z)); [|done].
  intros s' p Hp Hs'. unfold Construct_D_scan. case_decide; [|done].
  apply atomicMin_lower; [by apply Hv|done].
Qed.

Lemma Construct_D_scan_value dists assignments b_id b_size n hub_id s ps p :
  p ∈ ps → b_id * b_size + p < n →
  rdn assignments (b_id * b_size + p) < length s →
  (rdz (foldl (Construct_D_scan dists assignments b_id b_size n hub_id) s ps)
       (rdn assignments (b_id * b_size + p))
   ≤ float_as_int (rdf dists (hub_id * b_size + p)))%Z.
Proof.
  intros Hp Hidx Hlen.
  apply (foldl_establishes (λ s', length s' = length s)
    (λ s', (rdz s' (rdn assignments (b_id * b_size + p))
            ≤ float_as_int (rdf dists (hub_id * b_size + p)))%Z) _ ps p);
    try done.
  - intros s' q _ Hs. unfold Construct_D_scan. case_decide; [|done].
    by rewrite atomicMin_length.
  - intros s' q _ Hs Hv. unfold Construct_D_scan. case_decide; [|done].
    etrans; [apply atomicMin_le|done].
  - intros s' Hs. unfold Construct_D_scan. rewrite decide_True by done.
    apply atomicMin_le_value. lia.
Qed.

(** The positions the threads of a block visit cover the batch. *)
Lemma strided_covers bd b_size p :
  0 < bd → p < b_size → p ∈ (lane ← seq 0 bd; strided bd b_size lane).
Proof.
  intros Hbd Hp. apply list_elem_of_bind. exists (p mod bd).
  pose proof (Nat.mod_upper_bound p bd ltac:(lia)) as Hm.
  pose proof (Nat.div_mod_eq p bd) as Hd.
  split; [|apply elem_of_seq; lia].
  unfold strided. apply list_elem_of_fmap. exists (p / bd). split; [lia|].
  apply elem_of_seq. split; [lia|]. simpl. unfold CEIL_DIV.
  pose proof (Nat.div_mod_eq (b_size - p mod bd + bd - 1) bd) as Hd'.
  pose proof (Nat.mod_upper_bound (b_size - p mod bd + bd - 1) bd ltac:(lia)).
  destruct (decide ((b_size - p mod bd + bd - 1) / bd ≤ p / bd)) as [Hle|]; [|lia].
  apply (Nat.mul_le_mono_l _ _ bd) in Hle. lia.
Qed.

Lemma strided_below bd b_size p :
  0 < bd → p ∈ (lane ← seq 0 bd; strided bd b_size lane) → p < b_size.
Proof.
  intros Hbd Hp. apply list_elem_of_bind in Hp as (lane & Hp & Hlane).
  apply elem_of_seq in Hlane. unfold strided in Hp.
  apply list_elem_of_fmap in Hp as (r & -> & Hr).
  apply elem_of_seq in Hr. simpl in Hr. unfold CEIL_DIV in Hr.
  destruct Hr as [_ Hr].
  destruct (decide (lane < b_size)) as [Hl|Hl].
  - pose proof (Nat.div_mod_eq (b_size - lane + bd - 1) bd) as Hd.
    pose proof (Nat.mod_upper_bound (b_size - lane + bd - 1) bd ltac:(lia)).
    assert (S r ≤ (b_size - lane + bd - 1) / bd) as Hle by lia.
    apply (Nat.mul_le_mono_l _ _ bd) in Hle. lia.
  - replace (b_size - lane + bd - 1) with (bd - 1) in Hr by lia.
    rewrite Nat.div_small in Hr by lia. lia.
Qed.

End ConstructDFacts.

Section ConstructDBlock.

Variable H : nat.

(** The third loop only lowers cells of [D], keeps them non-negative, and
    brings the cell of every slot below what the shared row held. *)
Lemma Construct_D_merge_inv bd hub_id (s2 : list Z) (D : list float) slots :
  H ≤ length s2 →
  (∀ j, j < H → (0 ≤ rdz s2 j)%Z) →
  (∀ c, (0 ≤ rdf D c < 2 ^ 31)%Z) →
  let r := foldl (Construct_D_merge H bd hub_id) (s2, D) slots in
  length r.1 = length s2 ∧ length r.2 = length D ∧
  (∀ j, j < H → (0 ≤ rdz r.1 j ≤ rdz s2 j)%Z) ∧
  (∀ c, (0 ≤ rdf r.2 c ≤ rdf D c)%Z).
Proof.
  intros Hlen Hs2 HD.
  apply (foldl_invariant (λ r : list Z * list float,
    length r.1 = length s2 ∧ length r.2 = length D ∧
    (∀ j, j < H → (0 ≤ rdz r.1 j ≤ rdz s2 j)%Z) ∧
    (∀ c, (0 ≤ rdf r.2 c ≤ rdf D c)%Z))).
  - intros [s D'] slot _ (Hl1 & Hl2 & Hs & HD'). simpl in *.
    unfold Construct_D_merge. case_decide as Hj; [|done]. simpl.
    assert (float_as_int (rdf D' (H * hub_id + global_idx bd slot))
            = rdf D' (H * hub_id + global_idx bd slot)) as Efai.
    { apply float_as_int_nonneg.
      specialize (HD' (H * hub_id + global_idx bd slot)).
      specialize (HD (H * hub_id + global_idx bd slot)). lia. }
    rewrite Efai. rewrite atomicMin_length.
    rewrite atomicMin_read by lia.
    split; [done|]. split; [by rewrite length_insert|]. split.
    + intros j Hj'. split.
      * apply atomicMin_lower; [|by apply Hs].
        apply (HD' (H * hub_id + global_idx bd slot)).
      * etrans; [apply atomicMin_le|]. by apply Hs.
    + intros c.
      pose proof (Hs _ Hj) as Hsj.
      pose proof (HD' (H * hub_id + global_idx bd slot)) as Hc.
      pose proof (HD (H * hub_id + global_idx bd slot)) as Hc0.
      unfold rdf in *.
      destruct (decide (H * hub_id + global_idx bd slot = c)) as [<-|Hne].
      * destruct (decide (H * hub_id + global_idx bd slot < length D')).
        -- rewrite rd_insert_eq by done.
           rewrite int_as_float_nonneg by lia. lia.
        -- rewrite list_insert_ge by lia. done.
      * rewrite rd_insert_ne by done. apply HD'.
  - simpl. split; [done|]. split; [done|]. split.
    + intros j Hj. pose proof (Hs2 j Hj). lia.
    + intros c. pose proof (HD c). lia.
Qed.

Lemma Construct_D_merge_cell bd hub_id (s2 : list Z) (D : list float) j :
  0 < bd → H ≤ length s2 → j < H → H * hub_id + j < length D →
  (∀ j, j < H → (0 ≤ rdz s2 j)%Z) →
  (∀ c, (0 ≤ rdf D c < 2 ^ 31)%Z) →
  (rdf (foldl (Construct_D_merge H bd hub_id) (s2, D)
               (grid ((H + bd - 1) / bd) bd)).2 (H * hub_id + j)
   ≤ rdz s2 j)%Z.
Proof.
  intros Hbd Hlen Hj Hc Hs2 HD.
  destruct (grid_covers ((H + bd - 1) / bd) bd j) as (slot & Hin & Hslot);
    [done|pose proof (ceil_blocks_cover H bd); lia|].
  apply (foldl_establishes
    (λ r : list Z * list float,
       ∃ slots, r = foldl (Construct_D_merge H bd hub_id) (s2, D) slots)
    (λ r : list Z * list float, (rdf r.2 (H * hub_id + j) ≤ rdz s2 j)%Z)
    _ _ slot); try done.
  - intros r sl _ (slots & ->). exists (slots ++ [sl]).
    by rewrite foldl_app.
  - intros r sl _ (slots & ->) Hle.
    pose proof (Construct_D_merge_inv bd hub_id s2 D (slots ++ [sl])
                  Hlen Hs2 HD) as (_ & _ & _ & HD2).
    pose proof (Construct_D_merge_inv bd hub_id s2 D slots
                  Hlen Hs2 HD) as (Hl1 & Hl2 & Hs & HD1).
    rewrite foldl_app in HD2. simpl in HD2.
    set (r := foldl (Construct_D_merge H bd hub_id) (s2, D) slots) in *.
    destruct r as [s D']. simpl in *.
    unfold Construct_D_merge in *. case_decide as Hsl; [|done]. simpl in *.
    assert (float_as_int (rdf D' (H * hub_id + global_idx bd sl))
            = rdf D' (H * hub_id + global_idx bd sl)) as Efai.
    { apply float_as_int_nonneg.
      specialize (HD1 (H * hub_id + global_idx bd sl)).
      specialize (HD (H * hub_id + global_idx bd sl)). lia. }
    rewrite Efai in *. rewrite atomicMin_read in * by lia.
    unfold rdf in *.
    destruct (decide (H * hub_id + global_idx bd sl = H * hub_id + j))
      as [E|Hne].
    + assert (global_idx bd sl = j) as -> by lia.
      rewrite rd_insert_eq by lia.
      pose proof (Hs j Hj). pose proof (HD1 (H * hub_id + j)).
      pose proof (HD (H * hub_id + j)).
      rewrite int_as_float_nonneg by lia. lia.
    + by rewrite rd_insert_ne.
  - intros r (slots & ->).
    pose proof (Construct_D_merge_inv bd hub_id s2 D slots
                  Hlen Hs2 HD) as (Hl1 & Hl2 & Hs & HD1).
    set (r := foldl (Construct_D_merge H bd hub_id) (s2, D) slots) in *.
    destruct r as [s D']. simpl in *.
    unfold Construct_D_merge. rewrite Hslot. rewrite decide_True by done.
    simpl.
    assert (float_as_int (rdf D' (H * hub_id + j))
            = rdf D' (H * hub_id + j)) as Efai.
    { apply float_as_int_nonneg.
      specialize (HD1 (H * hub_id + j)).
      specialize (HD (H * hub_id + j)). lia. }
    rewrite Efai. rewrite atomicMin_read by lia.
    unfold rdf in *. rewrite rd_insert_eq by lia.
    pose proof (Hs j Hj). pose proof (HD1 (H * hub_id + j)).
    pose proof (HD (H * hub_id + j)).
    rewrite int_as_float_nonneg by lia. lia.
  - by exists [].
Qed.

(** One block: the cells of [D] only decrease, and the cell of the hub of
    every point of the batch ends below the point's entry of the table. *)
Lemma Construct_D_block_range bd smem dists assignments b_id b_size n
    (D : list float) hub_id :
  0 < bd → H ≤ length smem →
  (∀ p, p < b_size → b_id * b_size + p < n →
        (0 ≤ rdf dists (hub_id * b_size + p) < 2 ^ 31)%Z) →
  (∀ c, (0 ≤ rdf D c < 2 ^ 31)%Z) →
  let D' := Construct_D_block H bd smem dists assignments b_id b_size n
              D hub_id in
  length D' = length D ∧ (∀ c, (0 ≤ rdf D' c ≤ rdf D c)%Z).
Proof.
  intros Hbd Hlen Hd HD. unfold Construct_D_block.
  edestruct (Construct_D_merge_inv bd hub_id) as (_ & Hl & _ & Hr);
    [| |exact HD|split; [exact Hl|exact Hr]].
  - by rewrite Construct_D_scan_length, Construct_D_init_length.
  - intros j Hj. apply Construct_D_scan_lower.
    + intros p Hp Hidx. rewrite float_as_int_nonneg.
      * apply Hd; [|done]. by eapply strided_below.
      * apply Hd; [|done]. by eapply strided_below.
    + rewrite Construct_D_init_slots by done. done.
Qed.

Lemma Construct_D_block_cell bd smem dists assignments b_id b_size n
    (D : list float) hub_id p :
  0 < bd → H ≤ length smem →
  (∀ p, p < b_size → b_id * b_size + p < n →
        (0 ≤ rdf dists (hub_id * b_size + p) < 2 ^ 31)%Z) →
  (∀ c, (0 ≤ rdf D c < 2 ^ 31)%Z) →
  p < b_size → b_id * b_size + p < n →
  rdn assignments (b_id * b_size + p) < H →
  H * hub_id + rdn assignments (b_id * b_size + p) < length D →
  (rdf (Construct_D_block H bd smem dists assignments b_id b_size n D hub_id)
       (H * hub_id + rdn assignments (b_id * b_size + p))
   ≤ rdf dists (hub_id * b_size + p))%Z.
Proof.
  intros Hbd Hlen Hd HD Hp Hidx Ha Hc. unfold Construct_D_block.
  etrans.
  - apply Construct_D_merge_cell; try done.
    + by rewrite Construct_D_scan_length, Construct_D_init_length.
    + intros j Hj. apply Construct_D_scan_lower.
      * intros q Hq Hqidx. rewrite float_as_int_nonneg.
        -- apply Hd; [|done]. by eapply strided_below.
        -- apply Hd; [|done]. by eapply strided_below.
      * rewrite Construct_D_init_slots by done. done.
  - etrans.
    + apply Construct_D_scan_value; [by apply strided_covers|done|].
      rewrite Construct_D_init_length. lia.
    + rewrite float_as_int_nonneg; [done|]. by apply Hd.
Qed.

End ConstructDBlock.

Section ConstructDLaunch.

Variable H : nat.

(** The launch: one block per row. *)
Lemma Construct_D_launch bd (smem : nat → list Z) dists assignments
    b_id b_size n (D : list float) :
  0 < bd → (∀ hub, H ≤ length (smem hub)) → length D = H * H →
  (∀ hub p, hub < H → p < b_size → b_id * b_size + p < n →
        (0 ≤ rdf dists (hub * b_size + p) < 2 ^ 31)%Z) →
  (∀ c, (0 ≤ rdf D c < 2 ^ 31)%Z) →
  let D' := Construct_D H bd smem dists assignments b_id b_size n D in
  length D' = length D ∧ (∀ c, (0 ≤ rdf D' c ≤ rdf D c)%Z) ∧
  (∀ i p, i < H → p < b_size → b_id * b_size + p < n →
     rdn assignments (b_id * b_size + p) < H →
     (rdf D' (H * i + rdn assignments (b_id * b_size + p))
      ≤ rdf dists (i * b_size + p))%Z).
Proof.
  intros Hbd Hsm HlenD Hd HD. simpl. unfold Construct_D.
  assert (∀ (D1 : list float) hub, hub ∈ seq 0 H →
            length D1 = length D ∧ (∀ c, (0 ≤ rdf D1 c ≤ rdf D c)%Z) →
            let D2 := Construct_D_block H bd (smem hub) dists assignments
                        b_id b_size n D1 hub in
            length D2 = length D ∧ (∀ c, (0 ≤ rdf D2 c ≤ rdf D c)%Z) ∧
            (∀ c, (rdf D2 c ≤ rdf D1 c)%Z)) as Hstep.
  { intros D1 hub Hhub [Hl1 Hr1]. apply elem_of_seq in Hhub.
    destruct (Construct_D_block_range H bd (smem hub) dists assignments
                b_id b_size n D1 hub) as [Hl2 Hr2]; try done.
    - intros p Hp Hidx. apply Hd; [lia|done|done].
    - intros c. pose proof (Hr1 c). pose proof (HD c). lia.
    - simpl. split; [lia|]. split.
      + intros c. pose proof (Hr1 c). pose proof (Hr2 c). lia.
      + intros c. apply Hr2. }
  split; [|split].
  - apply (foldl_invariant (λ D1 : list float,
      length D1 = length D ∧ (∀ c, (0 ≤ rdf D1 c ≤ rdf D c)%Z))).
    + intros D1 hub Hhub HI. destruct (Hstep D1 hub Hhub HI) as (?&?&?).
      done.
    + split; [done|]. intros c. pose proof (HD c). lia.
  - apply (foldl_invariant (λ D1 : list float,
      length D1 = length D ∧ (∀ c, (0 ≤ rdf D1 c ≤ rdf D c)%Z))).
    + intros D1 hub Hhub HI. destruct (Hstep D1 hub Hhub HI) as (?&?&?).
      done.
    + split; [done|]. intros c. pose proof (HD c). lia.
  - intros i p Hi Hp Hidx Ha.
    apply (foldl_establishes
      (λ D1 : list float,
         length D1 = length D ∧ (∀ c, (0 ≤ rdf D1 c ≤ rdf D c)%Z))
      (λ D1 : list float,
         (rdf D1 (H * i + rdn assignments (b_id * b_size + p))
          ≤ rdf dists (i * b_size + p))%Z) _ (seq 0 H) i).
    + intros D1 hub Hhub HI. destruct (Hstep D1 hub Hhub HI) as (?&?&?).
      done.
    + intros D1 hub Hhub HI HP.
      destruct (Hstep D1 hub Hhub HI) as (_ & _ & Hdec).
      etrans; [apply Hdec|done].
    + intros D1 [Hl1 Hr1].
      apply Construct_D_block_cell; try done.
      * intros q Hq Hqidx. by apply Hd.
      * intros c. pose proof (Hr1 c). pose proof (HD c). lia.
      * rewrite Hl1, HlenD. nia.
    + apply elem_of_seq. lia.
    + split; [done|]. intros c. pose proof (HD c). lia.
Qed.

End ConstructDLaunch.

(** ** The batch loop of the index construction *)

Section IndexSound.

Variable H : nat.
Variable l2dist : float → float → float → float → float → float → float.
Variable fsqrt : float → float.
Variables (points : list float) (dH : list Z).

Lemma hub_distance_table_nonneg n idx h :
  Forall f32_nonneg (hub_distance_table H l2dist fsqrt n points dH) →
  idx < n → h < H →
  f32_nonneg (hub_distance l2dist fsqrt points dH idx h).
Proof.
  intros Hall Hidx Hh. rewrite list.Forall_forall in Hall. apply Hall.
  unfold hub_distance_table. apply list_elem_of_bind. exists idx.
  split; [|apply elem_of_seq; lia].
  apply list_elem_of_fmap. exists h. split; [done|apply elem_of_seq; lia].
Qed.

Lemma set_max_float_read size D0 c :
  length D0 = size →
  (0 ≤ rdf (set_max_float size D0) c ≤ FLT_MAX)%Z
  ∧ length (set_max_float size D0) = size.
Proof.
  intros <-. unfold set_max_float.
  rewrite Nat.min_id, drop_all, app_nil_r. split; [|apply length_replicate].
  unfold rdf. rewrite nth_lookup.
  destruct (replicate (length D0) FLT_MAX !! c) as [x|] eqn:E.
  - apply lookup_replicate in E as [-> _]. unfold FLT_MAX. simpl. lia.
  - simpl. unfold FLT_MAX. lia.
Qed.

(** After [k] turns of the batch loop, the points of the first [k] batches
    are assigned to their nearest hub, and the cell [(i, j)] of [D] is below
    the distance to hub [i] of every one of them that is assigned to [j]. *)
Lemma index_batches_inv b_size n smem dists0 D0 k :
  0 < b_size →
  length dists0 = H * b_size → length D0 = H * H →
  (∀ b hub, H ≤ length (smem b hub)) →
  Forall f32_nonneg (hub_distance_table H l2dist fsqrt n points dH) →
  let st := foldl (index_batch H l2dist fsqrt b_size n dH points smem)
              ({| distances := dists0;
                  hub_counts := replicate (H + 1) 0;
                  dH_assignments := replicate n 0 |},
               set_max_float (H * H) D0) (seq 0 k) in
  cd_lengths (H * b_size) n st.1 ∧ length st.2 = H * H ∧
  (∀ c, (0 ≤ rdf st.2 c ≤ FLT_MAX)%Z) ∧
  (∀ idx, idx < n → idx < k * b_size →
     dH_assignments st.1 !! idx
     = Some (nearest_hub H l2dist fsqrt points dH idx)) ∧
  (∀ idx i, idx < n → idx < k * b_size → i < H →
     nearest_hub H l2dist fsqrt points dH idx < H →
     (rdf st.2 (H * i + nearest_hub H l2dist fsqrt points dH idx)
      ≤ hub_distance l2dist fsqrt points dH idx i)%Z).
Proof.
  intros Hbs Hld HlD Hsm Hnn. induction k as [|k IH].
  - simpl. split; [|split; [|split; [|split]]].
    + split; simpl; [done|apply length_replicate].
    + by apply set_max_float_read.
    + intros c. by apply set_max_float_read.
    + intros idx _ Hk. lia.
    + intros idx i _ Hk. lia.
  - rewrite seq_S, foldl_app. simpl in *.
    destruct (foldl (index_batch H l2dist fsqrt b_size n dH points smem)
      ({| distances := dists0; hub_counts := replicate (H + 1) 0;
          dH_assignments := replicate n 0 |}, set_max_float (H * H) D0)
      (seq 0 k)) as [m D] eqn:Est.
    destruct IH as (Hlen & HlenD & Hrange & Hassign & Hsound). simpl in *.
    set (m' := Calculate_Distances H l2dist fsqrt block_size k b_size n dH
                 points (grid ((b_size + block_size - 1) / block_size)
                              block_size) m).
    assert (cd_lengths (H * b_size) n m') as Hlen'
      by by apply Calculate_Distances_lengths.
    assert (∀ p, p < b_size →
              ∃ th, th ∈ grid ((b_size + block_size - 1) / block_size)
                              block_size
                    ∧ global_idx block_size th = p) as Hcover.
    { intros p Hp. apply grid_covers; [unfold block_size; lia|].
      pose proof (ceil_blocks_cover b_size block_size).
      unfold block_size in *. lia. }
    assert (∀ idx, idx < n → idx < S k * b_size →
              dH_assignments m' !! idx
              = Some (nearest_hub H l2dist fsqrt points dH idx)) as Hassign'.
    { intros idx Hidx Hk. destruct (decide (idx < k * b_size)) as [Hold|Hnew].
      - apply Calculate_Distances_assignment_stable. by apply Hassign.
      - replace idx with ((idx - k * b_size) + k * b_size) by lia.
        eapply Calculate_Distances_assignment; try done; try lia.
        apply Hcover. lia. }
    assert (∀ h p, h < H → p < b_size → k * b_size + p < n →
              rdf (distances m') (h * b_size + p)
              = hub_distance l2dist fsqrt points dH (k * b_size + p) h)
      as Htable.
    { intros h p Hh Hp Hidx. unfold rdf. apply rd_lookup.
      replace (k * b_size + p) with (p + k * b_size) by lia.
      apply Calculate_Distances_table; [done| |done|lia|done].
      by apply Hcover. }
    destruct (Construct_D_launch H block_size (smem k) (distances m')
                (dH_assignments m') k b_size n D)
      as (HlenD' & Hdec & Hcell).
    { unfold block_size. lia. }
    { apply Hsm. }
    { done. }
    { intros hub p Hhub Hp Hidx. rewrite Htable by done.
      pose proof (hub_distance_table_nonneg n (k * b_size + p) hub
                    Hnn Hidx Hhub) as Hw.
      unfold f32_nonneg in Hw. lia. }
    { intros c. pose proof (Hrange c). unfold FLT_MAX in *. lia. }
    split; [done|]. split; [etrans; [exact HlenD'|done]|]. split; [|split].
    + intros c. pose proof (Hdec c) as Hc. pose proof (Hrange c).
      split; [apply Hc|]. etrans; [apply Hc|]. lia.
    + done.
    + intros idx i Hidx Hk Hi Hnear.
      destruct (decide (idx < k * b_size)) as [Hold|Hnew].
      * etrans; [apply Hdec|]. by apply Hsound.
      * pose proof (Hcell i (idx - k * b_size) Hi ltac:(lia)) as Hc.
        replace (k * b_size + (idx - k * b_size)) with idx in Hc by lia.
        assert (rdn (dH_assignments m') idx
                = nearest_hub H l2dist fsqrt points dH idx) as Ea.
        { unfold rdn. apply rd_lookup. by apply Hassign'. }
        rewrite Ea in Hc. etrans; [apply Hc; [done|done]|].
        rewrite Htable by lia.
        replace (k * b_size + (idx - k * b_size)) with idx by lia. done.
Qed.

(** C5. Pruning soundness of the hub distance matrix: for every batch size,
    once the batch loop of the index construction is over, the entry
    [D[i][j]] does not exceed the distance to hub [i] of any point that is
    assigned to hub [j], hence not their minimum either.  The distances are
    compared as floats; they are the non-negative values the distance
    kernel computes. *)
Theorem Construct_D_sound b_size n smem dists0 D0 i j p :
  0 < b_size →
  length dists0 = H * b_size → length D0 = H * H →
  (∀ b hub, H ≤ length (smem b hub)) →
  Forall f32_nonneg (hub_distance_table H l2dist fsqrt n points dH) →
  i < H → j < H → p < n →
  rdn (dH_assignments
         (index_tables H l2dist fsqrt b_size n dH points smem dists0 D0).1) p
  = j →
  fle (rdf (index_tables H l2dist fsqrt b_size n dH points smem dists0 D0).2
           (H * i + j))
      (hub_distance l2dist fsqrt points dH p i) = true.
Proof.
  intros Hbs Hld HlD Hsm Hnn Hi Hj Hp Ha.
  pose proof (index_batches_inv b_size n smem dists0 D0
                ((n + b_size - 1) / b_size) Hbs Hld HlD Hsm Hnn)
    as (Hlen & HlenD & Hrange & Hassign & Hsound).
  unfold index_tables in *. simpl in *.
  assert (p < (n + b_size - 1) / b_size * b_size) as Hk.
  { pose proof (ceil_blocks_cover n b_size Hbs). lia. }
  assert (j = nearest_hub H l2dist fsqrt points dH p) as ->.
  { rewrite <- Ha. unfold rdn. apply rd_lookup. by apply Hassign. }
  apply fle_nonneg.
  - pose proof (Hrange (H * i + nearest_hub H l2dist fsqrt points dH p)).
    unfold f32_nonneg, FLT_MAX in *. lia.
  - by eapply hub_distance_table_nonneg.
  - by apply Hsound.
Qed.

End IndexSound.

(** ** The warp-level scan *)

Lemma sum_upto_0 f : sum_upto f 0 = 0.
Proof. done. Qed.

Lemma sum_upto_S f k : sum_upto f (S k) = sum_upto f k + f k.
Proof.
  unfold sum_upto. rewrite seq_S, fmap_app, sum_list_with_app. simpl. lia.
Qed.

Lemma sum_upto_mono f j k : j ≤ k → sum_upto f j ≤ sum_upto f k.
Proof.
  induction 1 as [|k Hle IH]; [done|]. rewrite sum_upto_S. lia.
Qed.

Lemma sum_upto_ext f g k :
  (∀ i, i < k → f i = g i) → sum_upto f k = sum_upto g k.
Proof.
  induction k as [|k IH]; intros Hfg; [done|].
  rewrite !sum_upto_S, IH, Hfg by (intros; try apply Hfg; lia). done.
Qed.

(** The sum of a window that starts at [a]. *)
Lemma sum_upto_shift f a k :
  sum_upto f (a + k) = sum_upto f a + sum_upto (λ j, f (a + j)) k.
Proof.
  induction k as [|k IH]; [by rewrite Nat.add_0_r; unfold sum_upto; simpl; lia|].
  rewrite Nat.add_succ_r, !sum_upto_S, IH. lia.
Qed.

Lemma sum_upto_take (l : list nat) k :
  k ≤ length l → sum_upto (rdn l) k = sum_list (take k l).
Proof.
  induction k as [|k IH]; intros Hk; [done|].
  rewrite sum_upto_S, IH by lia.
  destruct (lookup_lt_is_Some_2 l k ltac:(lia)) as [x Hx].
  rewrite (take_S_r _ _ _ Hx), sum_list_with_app. simpl.
  unfold rdn. rewrite (rd_lookup _ _ _ _ Hx). lia.
Qed.

Lemma rdn_fmap_seq (f : nat → nat) n i :
  i < n → rdn (f <$> seq 0 n) i = f i.
Proof.
  intros Hi. unfold rdn. apply rd_lookup.
  rewrite list_lookup_fmap, lookup_seq_lt by done. done.
Qed.

Lemma prefix_sum_warp_step_length vals stride :
  length (prefix_sum_warp_step vals stride) = length vals.
Proof. unfold prefix_sum_warp_step. apply length_imap. Qed.

Lemma prefix_sum_warp_step_read vals stride lane :
  lane < length vals →
  rdn (prefix_sum_warp_step vals stride) lane
  = if decide (stride ≤ lane)
    then rdn vals lane + rdn vals (lane - stride) else rdn vals lane.
Proof.
  intros Hl. destruct (lookup_lt_is_Some_2 vals lane Hl) as [x Hx].
  unfold prefix_sum_warp_step, rdn at 1. erewrite rd_lookup.
  2:{ rewrite list_lookup_imap, Hx. simpl. done. }
  unfold shfl_up. unfold rdn. rewrite (rd_lookup _ _ _ _ Hx).
  case_decide; done.
Qed.

(** After the strides below [s], a lane holds the sum of the window of the
    [s] values that ends at it; one more turn doubles the window. *)
Lemma prefix_sum_warp_step_window (f : nat → nat) vals s :
  0 < s →
  (∀ l, l < length vals →
     rdn vals l + sum_upto f (l + 1 - min s (l + 1)) = sum_upto f (l + 1)) →
  ∀ l, l < length vals →
     rdn (prefix_sum_warp_step vals s) l
     + sum_upto f (l + 1 - min (2 * s) (l + 1)) = sum_upto f (l + 1).
Proof.
  intros Hs Hwin l Hl. rewrite prefix_sum_warp_step_read by done.
  case_decide as Hsl.
  - pose proof (Hwin l Hl) as H1.
    pose proof (Hwin (l - s) ltac:(lia)) as H2.
    replace (l + 1 - min s (l + 1)) with (l - s + 1) in H1 by lia.
    replace (l - s + 1 - min s (l - s + 1))
      with (l + 1 - min (2 * s) (l + 1)) in H2 by lia.
    lia.
  - pose proof (Hwin l Hl) as H1.
    replace (l + 1 - min s (l + 1)) with 0 in H1 by lia.
    replace (l + 1 - min (2 * s) (l + 1)) with 0 by lia. done.
Qed.

(** [prefix_sum_warp] leaves in every lane the sum of the values of the
    lanes up to it. *)
Lemma prefix_sum_warp_spec vals l :
  length vals = warp_size → l < warp_size →
  rdn (prefix_sum_warp vals) l = sum_upto (rdn vals) (l + 1).
Proof.
  intros Hlen Hl. unfold prefix_sum_warp, warp_strides. simpl.
  pose proof (prefix_sum_warp_step_window (rdn vals)) as Hstep.
  assert (∀ l, l < length vals →
            rdn vals l + sum_upto (rdn vals) (l + 1 - min 1 (l + 1))
            = sum_upto (rdn vals) (l + 1)) as W1.
  { intros l' Hl'. replace (l' + 1 - min 1 (l' + 1)) with l' by lia.
    replace (l' + 1) with (S l') by lia. rewrite sum_upto_S. lia. }
  pose proof (Hstep _ 1 ltac:(lia) W1) as W2.
  rewrite <- (prefix_sum_warp_step_length vals 1) in W2.
  pose proof (Hstep _ 2 ltac:(lia) W2) as W4.
  rewrite <- (prefix_sum_warp_step_length _ 2) in W4.
  pose proof (Hstep _ 4 ltac:(lia) W4) as W8.
  rewrite <- (prefix_sum_warp_step_length _ 4) in W8.
  pose proof (Hstep _ 8 ltac:(lia) W8) as W16.
  rewrite <- (prefix_sum_warp_step_length _ 8) in W16.
  pose proof (Hstep _ 16 ltac:(lia) W16) as W32.
  specialize (W32 l).
  rewrite !prefix_sum_warp_step_length in W32.
  unfold warp_size in *. specialize (W32 ltac:(lia)).
  replace (l + 1 - min (2 * 16) (l + 1)) with 0 in W32 by lia.
  unfold sum_upto at 1 in W32. simpl in W32. lia.
Qed.

Lemma prefix_sum_warp_length vals :
  length (prefix_sum_warp vals) = length vals.
Proof.
  unfold prefix_sum_warp, warp_strides. simpl.
  by rewrite !prefix_sum_warp_step_length.
Qed.

(** ** Scattered writes *)

(** A loop in which every turn [b] writes [val b] to the cell [cell b]. *)
Lemma foldl_insert_length {A B : Type} (cell : B → nat) (val : B → A) l a :
  length (foldl (λ a b, <[cell b := val b]> a) a l) = length a.
Proof.
  revert a. induction l as [|b l IH]; intros a; [done|].
  simpl. rewrite IH. apply length_insert.
Qed.

Lemma foldl_insert_other {A B : Type} (cell : B → nat) (val : B → A) l a i d :
  (∀ b, b ∈ l → cell b ≠ i) →
  nth i (foldl (λ a b, <[cell b := val b]> a) a l) d = nth i a d.
Proof.
  revert a. induction l as [|b l IH]; intros a Hne; [done|].
  simpl. rewrite IH.
  - apply rd_insert_ne. apply Hne. by left.
  - intros b' Hb'. apply Hne. by right.
Qed.

Lemma foldl_insert_cell {A B : Type} (cell : B → nat) (val : B → A) l a b0 d :
  b0 ∈ l → cell b0 < length a →
  (∀ b, b ∈ l → cell b = cell b0 → val b = val b0) →
  nth (cell b0) (foldl (λ a b, <[cell b := val b]> a) a l) d = val b0.
Proof.
  intros Hin Hlen Hval.
  apply (foldl_establishes (λ a', length a' = length a)
           (λ a', nth (cell b0) a' d = val b0) _ l b0); try done.
  - intros a' b _ Ha'. by rewrite length_insert.
  - intros a' b Hb Ha' Hv.
    destruct (decide (cell b = cell b0)) as [E|Hne].
    + rewrite E, rd_insert_eq by lia. by apply Hval.
    + by rewrite rd_insert_ne.
  - intros a' Ha'. rewrite rd_insert_eq by lia. done.
Qed.

(** Two arrays written in step. *)
Lemma foldl_insert_pair {A B : Type} (cell : B → nat) (val : B → A) l a1 a2 :
  foldl (λ (ac : list A * list A) b,
           (<[cell b := val b]> ac.1, <[cell b := val b]> ac.2)) (a1, a2) l
  = (foldl (λ a b, <[cell b := val b]> a) a1 l,
     foldl (λ a b, <[cell b := val b]> a) a2 l).
Proof.
  revert a1 a2. induction l as [|b l IH]; intros a1 a2; [done|].
  simpl. apply IH.
Qed.

Lemma rdn_insert_eq (l : list nat) i x :
  i < length l → rdn (<[i := x]> l) i = x.
Proof. apply rd_insert_eq. Qed.

Lemma rdn_insert_ne (l : list nat) i j x :
  i ≠ j → rdn (<[i := x]> l) j = rdn l j.
Proof. apply rd_insert_ne. Qed.

(** ** memcpy *)

Lemma memcpy_length dst off src count :
  off + count ≤ length dst → count ≤ length src →
  length (memcpy dst off src count) = length dst.
Proof.
  intros Hd Hs. unfold memcpy.
  rewrite !length_app, !length_take, length_drop. lia.
Qed.

Lemma memcpy_read dst off src count i :
  off + count ≤ length dst → count ≤ length src →
  off ≤ i → i < off + count →
  rdn (memcpy dst off src count) i = rdn src (i - off).
Proof.
  intros Hd Hs Hlo Hhi. unfold memcpy, rdn.
  rewrite !nth_lookup.
  rewrite lookup_app_r by (rewrite length_take; lia).
  rewrite length_take, Nat.min_l by lia.
  rewrite lookup_app_l by (rewrite length_take; lia).
  rewrite lookup_take_lt by lia. done.
Qed.

(** ** fused_prefix_sum_copy *)

Lemma foldl_ext_all {A B : Type} (f g : A → B → A) l a :
  (∀ a b, f a b = g a b) → foldl f a l = foldl g a l.
Proof.
  intros Hfg. revert a. induction l as [|b l IH]; intros a; [done|].
  simpl. by rewrite Hfg, IH.
Qed.

Lemma popc_double n : popc (2 * n) = popc n.
Proof.
  unfold popc. rewrite Nat2N.inj_mul. by destruct (N.of_nat n).
Qed.

Lemma popc_pow2 e : popc (2 ^ e) = 1.
Proof.
  induction e as [|e IH]; [done|].
  by rewrite Nat.pow_succ_r', popc_double.
Qed.

Section PrefixSumFacts.

Variable H : nat.
Variable arr0 : list nat.
Hypothesis H_warps : ∃ q, H = warp_size * q.

Lemma elem_of_chunk_warps c w :
  w ∈ chunk_warps H c ↔ w < warp_size ∧ chunk_index c w 0 < H.
Proof.
  unfold chunk_warps. rewrite list_elem_of_filter, elem_of_seq. lia.
Qed.

(** A warp is in a turn of the loop with all its lanes. *)
Lemma chunk_lane_active c w l :
  w ∈ chunk_warps H c → l < warp_size → chunk_index c w l < H.
Proof.
  intros Hw Hl. apply elem_of_chunk_warps in Hw as [Hw Hact].
  destruct H_warps as [q ->].
  unfold chunk_index, warp_size in *. lia.
Qed.

Lemma chunk_warps_prefix c w w' :
  w ∈ chunk_warps H c → w' < w → w' ∈ chunk_warps H c.
Proof.
  intros Hw Hlt. apply elem_of_chunk_warps in Hw as [Hw Hact].
  apply elem_of_chunk_warps. unfold chunk_index, warp_size in *. lia.
Qed.

Lemma elem_of_chunk_threads c w l :
  (w, l) ∈ (warp_id ← chunk_warps H c;
            (λ lane_id, (warp_id, lane_id)) <$> seq 0 warp_size)
  ↔ w ∈ chunk_warps H c ∧ l < warp_size.
Proof.
  rewrite list_elem_of_bind. split.
  - intros (w' & Hin & Hw'). apply list_elem_of_fmap in Hin as (l' & E & Hl').
    apply elem_of_seq in Hl'. simplify_eq. split; [done|lia].
  - intros [Hw Hl]. exists w. split; [|done].
    apply list_elem_of_fmap. exists l. split; [done|].
    apply elem_of_seq. lia.
Qed.

(** The registers of a warp after its scan, when the chunk still holds the
    input. *)
Lemma chunk_warp_scan_spec arr c w l :
  (∀ i, c * (warp_size * warp_size) ≤ i → rdn arr i = rdn arr0 i) →
  l < warp_size →
  rdn (chunk_warp_scan arr c w) l + sum_upto (rdn arr0) (chunk_index c w 0)
  = sum_upto (rdn arr0) (chunk_index c w l + 1).
Proof.
  intros Harr Hl. unfold chunk_warp_scan.
  rewrite prefix_sum_warp_spec; [|by rewrite length_fmap, length_seq|done].
  rewrite (sum_upto_ext _ (λ j, rdn arr0 (chunk_index c w 0 + j))).
  - replace (chunk_index c w l + 1) with (chunk_index c w 0 + (l + 1))
      by (unfold chunk_index; lia).
    rewrite (sum_upto_shift (rdn arr0) (chunk_index c w 0) (l + 1)).
    apply Nat.add_comm.
  - intros j Hj. rewrite rdn_fmap_seq by lia.
    rewrite Harr by (unfold chunk_index; lia).
    f_equal. unfold chunk_index. lia.
Qed.

(** In the last turn, and when no warp runs ahead, a warp reads what the
    first warp staged for it. *)
Lemma staged_read_quiet ahead arr smem2 c w :
  H ≤ S c * (warp_size * warp_size) ∨ (∀ w, ahead c w = false) →
  staged_read H ahead arr smem2 c w = rdn smem2 w.
Proof.
  intros [Hlast|Hq]; unfold staged_read.
  - rewrite (bool_decide_eq_false_2 (0 < w ∧ _)), andb_false_r; [done|].
    unfold chunk_index. lia.
  - by rewrite Hq.
Qed.

(** One turn of the chunk loop. *)
Lemma fused_prefix_sum_copy_chunk_spec ahead (n0 : nat) m c :
  H ≤ S c * (warp_size * warp_size) ∨ (∀ w, ahead c w = false) →
  c * (warp_size * warp_size) < H →
  length (ps_arr m) = length arr0 → length (ps_copy m) = n0 →
  H ≤ length arr0 → H ≤ n0 →
  warp_size + 1 ≤ length (ps_smem m) →
  (∀ i, i < H → i < c * (warp_size * warp_size) →
     rdn (ps_arr m) i = sum_upto (rdn arr0) (i + 1)
     ∧ rdn (ps_copy m) i = sum_upto (rdn arr0) (i + 1)) →
  (∀ i, c * (warp_size * warp_size) ≤ i → rdn (ps_arr m) i = rdn arr0 i) →
  (∀ i, H ≤ i → rdn (ps_arr m) i = rdn arr0 i) →
  rdn (ps_smem m) 0 = sum_upto (rdn arr0) (c * (warp_size * warp_size)) →
  let m' := fused_prefix_sum_copy_chunk H ahead m c in
  length (ps_arr m') = length arr0 ∧ length (ps_copy m') = n0 ∧
  warp_size + 1 ≤ length (ps_smem m') ∧
  (∀ i, i < H → i < S c * (warp_size * warp_size) →
     rdn (ps_arr m') i = sum_upto (rdn arr0) (i + 1)
     ∧ rdn (ps_copy m') i = sum_upto (rdn arr0) (i + 1)) ∧
  (∀ i, S c * (warp_size * warp_size) ≤ i → rdn (ps_arr m') i = rdn arr0 i) ∧
  (∀ i, H ≤ i → rdn (ps_arr m') i = rdn arr0 i) ∧
  (S c * (warp_size * warp_size) < H →
   rdn (ps_smem m') 0 = sum_upto (rdn arr0) (S c * (warp_size * warp_size))).
Proof.
  intros Hquiet Hc Hla Hlc HHa HHc Hls Hdone Htodo Hout Hbase.
  unfold fused_prefix_sum_copy_chunk. cbv zeta. cbn [ps_arr ps_copy ps_smem].
  set (smem1 := foldl _ (ps_smem m) (chunk_warps H c)).
  set (wl := prefix_sum_warp _).
  set (smem2 := foldl _ smem1 (seq 0 warp_size)).
  pose (scan := λ w, chunk_warp_scan (ps_arr m) c w).
  pose (g := λ lane_id, rdn smem1 (lane_id + 1)
              + rdn smem1 0 * (if decide (lane_id = 0) then 1 else 0)).
  (* the staging area after the first barrier *)
  assert (length smem1 = length (ps_smem m)) as Hl1
    by apply (foldl_insert_length (λ w, w + 1)
                (λ w, rdn (scan w) (warp_size - 1))).
  assert (rdn smem1 0 = rdn (ps_smem m) 0) as H10.
  { apply (foldl_insert_other (λ w, w + 1)
             (λ w, rdn (scan w) (warp_size - 1))). intros; lia. }
  assert (∀ w, w ∈ chunk_warps H c →
            rdn smem1 (w + 1) = rdn (scan w) (warp_size - 1)) as H1w.
  { intros w Hw.
    apply (foldl_insert_cell (λ w, w + 1)
             (λ w, rdn (scan w) (warp_size - 1)) _ _ w); [done| |].
    - apply elem_of_chunk_warps in Hw. lia.
    - intros w' _ E. assert (w' = w) as -> by lia. done. }
  (* the scan of the warp-level sums *)
  assert (∀ l, l < warp_size → rdn wl l = sum_upto g (l + 1)) as Hwl.
  { intros l Hl. unfold wl.
    rewrite prefix_sum_warp_spec; [|by rewrite length_fmap, length_seq|done].
    apply sum_upto_ext. intros j Hj. apply rdn_fmap_seq. lia. }
  assert (∀ k, 0 < k → (∀ w, w < k → w ∈ chunk_warps H c) →
            sum_upto g k = sum_upto (rdn arr0) (chunk_index c k 0)) as Hg.
  { intros k Hk. induction k as [|k IH]; [lia|]. intros Hact.
    rewrite sum_upto_S.
    pose proof (chunk_warp_scan_spec (ps_arr m) c k (warp_size - 1) Htodo
                  ltac:(unfold warp_size; lia)) as Hs.
    replace (chunk_index c k (warp_size - 1) + 1)
      with (chunk_index c (S k) 0) in Hs
      by (unfold chunk_index, warp_size; lia).
    unfold g at 2. rewrite (H1w k) by (apply Hact; lia). unfold scan.
    destruct k as [|k].
    - rewrite sum_upto_0, H10, Hbase.
      replace (chunk_index c 0 0) with (c * (warp_size * warp_size)) in Hs
        by (unfold chunk_index; lia).
      rewrite decide_True by done. lia.
    - rewrite IH by (try lia; intros; apply Hact; lia).
      rewrite decide_False by done. lia. }
  (* the staging area after the second barrier *)
  assert (length smem2 = length smem1) as Hl2
    by apply (foldl_insert_length (λ l, l + 1) (λ l, rdn wl l)).
  assert (rdn smem2 0 = rdn smem1 0) as H20.
  { apply (foldl_insert_other (λ l, l + 1) (λ l, rdn wl l)). intros; lia. }
  assert (∀ l, l < warp_size → rdn smem2 (l + 1) = rdn wl l) as H2l.
  { intros l Hl.
    apply (foldl_insert_cell (λ l, l + 1) (λ l, rdn wl l) _ _ l).
    - apply elem_of_seq. lia.
    - lia.
    - intros l' _ E. assert (l' = l) as -> by lia. done. }
  assert (∀ w, w ∈ chunk_warps H c →
            rdn smem2 w = sum_upto (rdn arr0) (chunk_index c w 0)) as H2w.
  { intros w Hw. destruct w as [|w].
    - rewrite H20, H10, Hbase. f_equal; unfold chunk_index; lia.
    - replace (S w) with (w + 1) at 1 by lia.
      pose proof Hw as Hw'. apply elem_of_chunk_warps in Hw' as [Hw' _].
      rewrite H2l, Hwl by lia. replace (w + 1) with (S w) by lia.
      apply Hg; [lia|]. intros w' Hlt.
      destruct (decide (w' = S w)) as [->|]; [done|].
      apply (chunk_warps_prefix c (S w)); [done|lia]. }
  (* what every thread writes *)
  assert (∀ th, th ∈ (warp_id ← chunk_warps H c;
                      (λ lane_id, (warp_id, lane_id)) <$> seq 0 warp_size) →
            rdn (scan th.1) th.2 + rdn smem2 th.1
            = sum_upto (rdn arr0) (chunk_index c th.1 th.2 + 1)) as Hval.
  { intros [w l] Hth. apply elem_of_chunk_threads in Hth as [Hw Hl]. simpl.
    rewrite H2w by done. by apply chunk_warp_scan_spec. }
  match goal with
  | |- context [foldl ?f (ps_arr m, ps_copy m) ?l] =>
      rewrite (foldl_ext_all f
                 (λ ac th,
                    (<[chunk_index c th.1 th.2 :=
                         rdn (scan th.1) th.2 + rdn smem2 th.1]> ac.1,
                     <[chunk_index c th.1 th.2 :=
                         rdn (scan th.1) th.2 + rdn smem2 th.1]> ac.2)) l)
        by (intros ac th; by rewrite (staged_read_quiet ahead _ _ c th.1))
  end.
  match goal with
  | |- context [foldl ?f (ps_arr m, ps_copy m) ?l] =>
      assert (foldl f (ps_arr m, ps_copy m) l
              = (foldl (λ a th, <[chunk_index c th.1 th.2 :=
                           rdn (scan th.1) th.2 + rdn smem2 th.1]> a)
                       (ps_arr m) l,
                 foldl (λ a th, <[chunk_index c th.1 th.2 :=
                           rdn (scan th.1) th.2 + rdn smem2 th.1]> a)
                       (ps_copy m) l)) as ->
        by apply (foldl_insert_pair (λ th, chunk_index c th.1 th.2)
                    (λ th, rdn (scan th.1) th.2 + rdn smem2 th.1))
  end.
  cbn [fst snd].
  assert (∀ (a : list nat) i,
            H ≤ length a → i < H →
            c * (warp_size * warp_size) ≤ i →
            i < S c * (warp_size * warp_size) →
            rdn (foldl (λ a th, <[chunk_index c th.1 th.2 :=
                           rdn (scan th.1) th.2 + rdn smem2 th.1]> a) a
                   (warp_id ← chunk_warps H c;
                    (λ lane_id, (warp_id, lane_id)) <$> seq 0 warp_size)) i
            = sum_upto (rdn arr0) (i + 1)) as Hnew.
  { intros a i Hlen Hi Hlo Hhi.
    set (w := (i - c * (warp_size * warp_size)) / warp_size).
    set (l := (i - c * (warp_size * warp_size)) mod warp_size).
    assert (i = chunk_index c w l ∧ w < warp_size ∧ l < warp_size)
      as (Ei & Hw & Hl).
    { unfold w, l, chunk_index, warp_size in *.
      pose proof (Nat.div_mod_eq (i - c * (32 * 32)) 32).
      pose proof (Nat.mod_upper_bound (i - c * (32 * 32)) 32 ltac:(lia)).
      repeat split; try lia;
        try (apply Nat.Div0.div_lt_upper_bound; lia). }
    assert ((w, l) ∈ (warp_id ← chunk_warps H c;
                      (λ lane_id, (warp_id, lane_id)) <$> seq 0 warp_size))
      as Hth.
    { apply elem_of_chunk_threads. split; [|done].
      apply elem_of_chunk_warps. split; [done|].
      unfold chunk_index in *. lia. }
    pose proof (Hval (w, l) Hth) as Hv. cbn [fst snd] in Hv.
    rewrite Ei, <- Hv. unfold rdn at 1.
    apply (foldl_insert_cell (λ th, chunk_index c th.1 th.2)
             (λ th, rdn (scan th.1) th.2 + rdn smem2 th.1) _ _ (w, l)).
    - done.
    - simpl. lia.
    - intros [w' l'] Hth' E. simpl in E.
      apply elem_of_chunk_threads in Hth' as [Hw' Hl'].
      apply elem_of_chunk_warps in Hw' as [Hw' _].
      assert (w' = w ∧ l' = l) as [-> ->]
        by (unfold chunk_index, warp_size in *; lia).
      done. }
  assert (∀ (a : list nat) i,
            (i < c * (warp_size * warp_size)
             ∨ S c * (warp_size * warp_size) ≤ i ∨ H ≤ i) →
            rdn (foldl (λ a th, <[chunk_index c th.1 th.2 :=
                           rdn (scan th.1) th.2 + rdn smem2 th.1]> a) a
                   (warp_id ← chunk_warps H c;
                    (λ lane_id, (warp_id, lane_id)) <$> seq 0 warp_size)) i
            = rdn a i) as Hold.
  { intros a i Hi.
    apply (foldl_insert_other (λ th, chunk_index c th.1 th.2)
             (λ th, rdn (scan th.1) th.2 + rdn smem2 th.1)
             (warp_id ← chunk_warps H c;
              (λ lane_id, (warp_id, lane_id)) <$> seq 0 warp_size) a i 0).
    intros [w l] Hth. cbn [fst snd].
    pose proof Hth as Hth'.
    apply elem_of_chunk_threads in Hth' as [Hw Hl].
    pose proof (chunk_lane_active c w l Hw Hl).
    apply elem_of_chunk_warps in Hw as [Hw _].
    unfold chunk_index, warp_size in *. lia. }
  split; [|split; [|split; [|split; [|split; [|split]]]]].
  - rewrite (foldl_insert_length (λ th, chunk_index c th.1 th.2)
               (λ th, rdn (scan th.1) th.2 + rdn smem2 th.1)). done.
  - rewrite (foldl_insert_length (λ th, chunk_index c th.1 th.2)
               (λ th, rdn (scan th.1) th.2 + rdn smem2 th.1)). done.
  - rewrite length_insert. lia.
  - intros i Hi Hi'.
    destruct (decide (i < c * (warp_size * warp_size))) as [Hlt|Hge].
    + rewrite !Hold by lia. by apply Hdone.
    + rewrite !Hnew by lia. done.
  - intros i Hi. rewrite Hold by lia. apply Htodo. lia.
  - intros i Hi. rewrite Hold by lia. by apply Hout.
  - intros Hnext. unfold rdn at 1. rewrite rd_insert_eq by lia.
    rewrite Hwl by (unfold warp_size; lia).
    replace (warp_size - 1 + 1) with warp_size by (unfold warp_size; lia).
    rewrite Hg.
    + f_equal; unfold chunk_index, warp_size; lia.
    + unfold warp_size. lia.
    + intros w Hw. apply elem_of_chunk_warps. split; [done|].
      unfold chunk_index, warp_size in *. lia.
Qed.

End PrefixSumFacts.

Section PrefixSumKernel.

Variable H : nat.
Variable ahead : nat → nat → bool.

Lemma pow2_warps e : 5 ≤ e → 2 ^ e = warp_size * 2 ^ (e - 5).
Proof.
  intros He. replace e with (5 + (e - 5)) at 1 by lia.
  by rewrite Nat.pow_add_r.
Qed.

(** For [H] a power of two of at least a warp the kernel passes its
    assertions.  When it takes one turn, [H ≤ 1024], or no warp runs ahead
    of the others, the cells below [H] of both arrays hold the inclusive
    prefix sums of the input at its end. *)
Lemma fused_prefix_sum_copy_spec e smem arr0 copy0 :
  H = 2 ^ e → 5 ≤ e → e ≤ 10 ∨ (∀ c w, ahead c w = false) →
  H ≤ length arr0 → H ≤ length copy0 → warp_size + 1 ≤ length smem →
  ∃ m, fused_prefix_sum_copy H ahead smem arr0 copy0 = Some m ∧
  length (ps_arr m) = length arr0 ∧ length (ps_copy m) = length copy0 ∧
  (∀ i, i < H →
     rdn (ps_arr m) i = sum_upto (rdn arr0) (i + 1)
     ∧ rdn (ps_copy m) i = sum_upto (rdn arr0) (i + 1)) ∧
  (∀ i, H ≤ i → rdn (ps_arr m) i = rdn arr0 i).
Proof.
  intros HH He Hquiet Hla Hlc Hls. unfold fused_prefix_sum_copy.
  assert (∃ q, H = warp_size * q) as Hq
    by (exists (2 ^ (e - 5)); rewrite HH; by apply pow2_warps).
  assert (32 ≤ H) as H32.
  { rewrite HH. change 32 with (2 ^ 5). by apply Nat.pow_le_mono_r. }
  rewrite decide_True by (split; [rewrite HH; apply popc_pow2|done]).
  eexists. split; [reflexivity|].
  assert (∀ k, k < CEIL_DIV H (warp_size * warp_size) →
            H ≤ S k * (warp_size * warp_size) ∨ (∀ w, ahead k w = false))
    as Hturn.
  { intros k Hk. destruct Hquiet as [He10|Hstep]; [left|by right].
    assert (2 ^ e ≤ 2 ^ 10) by (apply Nat.pow_le_mono_r; lia).
    change (2 ^ 10) with 1024 in *. unfold warp_size. lia. }
  assert (∀ k, k ≤ CEIL_DIV H (warp_size * warp_size) →
    let m := foldl (fused_prefix_sum_copy_chunk H ahead)
               {| ps_arr := arr0; ps_copy := copy0;
                  ps_smem := <[0 := 0]> smem |} (seq 0 k) in
    length (ps_arr m) = length arr0 ∧ length (ps_copy m) = length copy0 ∧
    warp_size + 1 ≤ length (ps_smem m) ∧
    (∀ i, i < H → i < k * (warp_size * warp_size) →
       rdn (ps_arr m) i = sum_upto (rdn arr0) (i + 1)
       ∧ rdn (ps_copy m) i = sum_upto (rdn arr0) (i + 1)) ∧
    (∀ i, k * (warp_size * warp_size) ≤ i → rdn (ps_arr m) i = rdn arr0 i) ∧
    (∀ i, H ≤ i → rdn (ps_arr m) i = rdn arr0 i) ∧
    (k * (warp_size * warp_size) < H →
     rdn (ps_smem m) 0 = sum_upto (rdn arr0) (k * (warp_size * warp_size))))
    as Hinv.
  { induction k as [|k IH]; intros Hk; cbv zeta.
    - cbn [foldl seq ps_arr ps_copy ps_smem].
      split; [done|]. split; [done|].
      split; [by rewrite length_insert|].
      split; [intros; lia|]. split; [done|]. split; [done|].
      intros _. unfold rdn. rewrite rd_insert_eq by lia. done.
    - rewrite seq_S, foldl_app. cbn [foldl].
      destruct (IH ltac:(lia)) as (I1 & I2 & I3 & I4 & I5 & I6 & I7).
      assert (k * (warp_size * warp_size) < H) as Hrun.
      { unfold CEIL_DIV, warp_size in *.
        pose proof (Nat.div_mod_eq (H + 32 * 32 - 1) (32 * 32)).
        pose proof (Nat.mod_upper_bound (H + 32 * 32 - 1) (32 * 32)).
        lia. }
      apply (fused_prefix_sum_copy_chunk_spec H arr0 Hq ahead
               (length copy0)); try done.
      + apply Hturn. lia.
      + by apply I7. }
  destruct (Hinv (CEIL_DIV H (warp_size * warp_size)) ltac:(lia))
    as (I1 & I2 & I3 & I4 & I5 & I6 & I7).
  split; [done|]. split; [done|]. split; [|done].
  intros i Hi. apply I4; [done|].
  pose proof (ceil_blocks_cover H (warp_size * warp_size)) as Hc.
  unfold CEIL_DIV, warp_size in *. lia.
Qed.

(** The offsets [C_and_Q] derives: cell [i] holds the number of points of
    the hubs below [i]. *)
Lemma prefix_sum_step_spec e smem counts copy0 placeholder0 :
  H = 2 ^ e → 5 ≤ e → e ≤ 10 ∨ (∀ c w, ahead c w = false) →
  length counts = H + 1 → length copy0 = H + 1 →
  length placeholder0 = H + 1 → warp_size + 1 ≤ length smem →
  ∃ r, prefix_sum_step H ahead smem counts copy0 placeholder0 = Some r ∧
  length r.1 = H + 1 ∧ length r.2 = H + 1 ∧
  ∀ i, i ≤ H →
    rdn r.1 i = sum_list (take i counts) ∧
    rdn r.2 i = sum_list (take i counts).
Proof.
  intros HH He Hquiet Hlc Hl0 Hlp Hls. unfold prefix_sum_step.
  destruct (fused_prefix_sum_copy_spec e smem counts copy0 HH He Hquiet
              ltac:(lia) ltac:(lia) Hls) as (m & -> & La & Lc & Hsum & _).
  cbn [mbind option_bind]. eexists. split; [reflexivity|].
  cbn [fst snd].
  assert (length (memcpy placeholder0 0 (ps_copy m) (H + 1)) = H + 1) as Lp
    by (rewrite memcpy_length; lia).
  assert (∀ j, j < H → rdn (memcpy placeholder0 0 (ps_copy m) (H + 1)) j
                        = sum_upto (rdn counts) (j + 1)) as Hp.
  { intros j Hj. rewrite memcpy_read by lia.
    rewrite Nat.sub_0_r. by apply Hsum. }
  rewrite !length_insert, !memcpy_length by lia.
  split; [lia|]. split; [lia|].
  intros i Hi. destruct i as [|i].
  - rewrite !rdn_insert_eq by (rewrite memcpy_length; lia).
    done.
  - rewrite !rdn_insert_ne by done.
    rewrite !(memcpy_read _ 1) by lia.
    replace (S i - 1) with i by lia.
    rewrite Hp by lia. replace (i + 1) with (S i) by lia.
    rewrite sum_upto_take by lia. done.
Qed.

(** When [H] is a power of two of at least a warp (32) and the population
    counters sum to [n], and the kernel takes one turn or its warps run in
    step, the offset table [dH_psum] that [C_and_Q] builds has [H + 1]
    cells, starts with 0, ends with [n] and never decreases. *)
Lemma prefix_sum_offsets (e n : nat) smem counts copy0 placeholder0 :
  H = 2 ^ e → 5 ≤ e → e ≤ 10 ∨ (∀ c w, ahead c w = false) →
  length counts = H + 1 → length copy0 = H + 1 →
  length placeholder0 = H + 1 → warp_size + 1 ≤ length smem →
  sum_list (take H counts) = n →
  ∃ r, prefix_sum_step H ahead smem counts copy0 placeholder0 = Some r ∧
  length r.1 = H + 1 ∧ rdn r.1 0 = 0 ∧ rdn r.1 H = n ∧
  ∀ i, i < H → rdn r.1 i ≤ rdn r.1 (i + 1).
Proof.
  intros HH He Hquiet Hlc Hl0 Hlp Hls Hn.
  destruct (prefix_sum_step_spec e smem counts copy0 placeholder0
              HH He Hquiet Hlc Hl0 Hlp Hls) as (r & Er & L1 & _ & Hspec).
  exists r. split; [done|]. split; [done|].
  split; [by destruct (Hspec 0 ltac:(lia)) as [-> _]|].
  split; [by destruct (Hspec H ltac:(lia)) as [-> _]|].
  intros i Hi.
  destruct (Hspec i ltac:(lia)) as [-> _].
  destruct (Hspec (i + 1) ltac:(lia)) as [-> _].
  rewrite <- !sum_upto_take by lia.
  apply sum_upto_mono. lia.
Qed.

End PrefixSumKernel.
(** ** BucketSort *)

Lemma grid_global_idx nb bd : global_idx bd <$> grid nb bd = seq 0 (nb * bd).
Proof.
  unfold grid. induction nb as [|nb IH]; [done|].
  rewrite seq_S, bind_app, fmap_app, IH.
  replace (S nb * bd) with (nb * bd + bd) by lia.
  rewrite (seq_app (nb * bd) bd 0). f_equal.
  cbn [mbind list_bind app]. rewrite app_nil_r, <- list_fmap_compose.
  change (0 + nb * bd) with (nb * bd).
  assert (seq (nb * bd) bd = Nat.add (nb * bd) <$> seq 0 bd) as ->
    by (rewrite fmap_add_seq; f_equal; lia).
  apply list_fmap_ext. intros i x _. unfold global_idx. simpl. lia.
Qed.

(** Threads at or beyond [n] do nothing: the launch is a loop over the
    points, in the order of the schedule. *)
Lemma BucketSort_points n points assignments sched m :
  BucketSort n points assignments sched m
  = foldl (BucketSort_point points assignments) m
          (filter (λ idx, idx < n) (global_idx block_size <$> sched)).
Proof.
  unfold BucketSort, launch. revert m.
  induction sched as [|th sched IH]; intros m; [done|].
  simpl. rewrite IH. unfold BucketSort_thread.
  rewrite filter_cons. case_decide; done.
Qed.

Lemma filter_lt_seq_min n k :
  filter (λ idx, idx < n) (seq 0 k) = seq 0 (min n k).
Proof.
  induction k as [|k IH]; [by rewrite Nat.min_0_r|].
  rewrite seq_S, list.filter_app, IH. cbn [Nat.add].
  destruct (decide (k < n)).
  - rewrite filter_cons_True, filter_nil by done.
    rewrite !Nat.min_r by lia. by rewrite seq_S.
  - rewrite filter_cons_False, filter_nil, app_nil_r by done.
    by rewrite !Nat.min_l by lia.
Qed.

Lemma filter_lt_seq n k : n ≤ k → filter (λ idx, idx < n) (seq 0 k) = seq 0 n.
Proof. intros Hle. by rewrite filter_lt_seq_min, Nat.min_l. Qed.

(** Under a schedule of the grid, the points are visited once each. *)
Lemma bucket_schedule_points n sched :
  sched ≡ₚ bucket_grid n →
  filter (λ idx, idx < n) (global_idx block_size <$> sched) ≡ₚ seq 0 n.
Proof.
  intros ->. unfold bucket_grid. rewrite grid_global_idx.
  rewrite filter_lt_seq; [done|].
  apply ceil_blocks_cover. unfold block_size. lia.
Qed.

(** *** Counting the points of a hub *)

Lemma assigned_count_nil assignments h : assigned_count assignments [] h = 0.
Proof. done. Qed.

Lemma assigned_count_cons assignments x l h :
  assigned_count assignments (x :: l) h
  = (if decide (rdn assignments x = h) then 1 else 0)
    + assigned_count assignments l h.
Proof.
  unfold assigned_count. rewrite filter_cons. case_decide; done.
Qed.

Lemma assigned_count_app assignments l1 l2 h :
  assigned_count assignments (l1 ++ l2) h
  = assigned_count assignments l1 h + assigned_count assignments l2 h.
Proof.
  unfold assigned_count. by rewrite list.filter_app, length_app.
Qed.

Lemma assigned_count_perm assignments l1 l2 h :
  l1 ≡ₚ l2 → assigned_count assignments l1 h = assigned_count assignments l2 h.
Proof. intros Hp. unfold assigned_count. by rewrite Hp. Qed.

Lemma sum_upto_add f g k :
  sum_upto (λ h, f h + g h) k = sum_upto f k + sum_upto g k.
Proof.
  induction k as [|k IH]; [done|]. rewrite !sum_upto_S, IH. lia.
Qed.

Lemma sum_upto_indicator (a k : nat) :
  sum_upto (λ h, if decide (a = h) then 1 else 0) k
  = if decide (a < k) then 1 else 0.
Proof.
  induction k as [|k IH]; [done|]. rewrite sum_upto_S, IH.
  repeat case_decide; lia.
Qed.

(** The populations of the hubs add up to the number of points. *)
Lemma assigned_count_total assignments H l :
  (∀ x, x ∈ l → rdn assignments x < H) →
  sum_upto (assigned_count assignments l) H = length l.
Proof.
  induction l as [|x l IH]; intros Ha.
  - clear Ha. induction H as [|H IH]; [done|]. by rewrite sum_upto_S, IH.
  - rewrite (sum_upto_ext _
      (λ h, (if decide (rdn assignments x = h) then 1 else 0)
            + assigned_count assignments l h))
      by (intros; apply assigned_count_cons).
    rewrite sum_upto_add, sum_upto_indicator, IH.
    + rewrite decide_True; [done|]. apply Ha. by left.
    + intros y Hy. apply Ha. by right.
Qed.

Section BucketSortFacts.

Variables (H n : nat) (points : list float) (assignments off : list nat).

Hypothesis assignments_valid : ∀ idx, idx < n → rdn assignments idx < H.
Hypothesis off_length : length off = H + 1.
Hypothesis off_exclusive :
  ∀ h, h ≤ H → rdn off h = sum_upto (hub_population assignments n) h.

Lemma off_next h :
  h < H → rdn off (h + 1) = rdn off h + hub_population assignments n h.
Proof.
  intros Hh. rewrite !off_exclusive by lia.
  replace (h + 1) with (S h) by lia. apply sum_upto_S.
Qed.

Lemma off_mono h1 h2 : h1 ≤ h2 → h2 ≤ H → rdn off h1 ≤ rdn off h2.
Proof.
  intros H12 H2. rewrite !off_exclusive by lia. by apply sum_upto_mono.
Qed.

Lemma off_total : rdn off H = n.
Proof.
  rewrite off_exclusive by lia.
  transitivity (length (seq 0 n)); [|apply length_seq].
  apply (assigned_count_total assignments H (seq 0 n)).
  intros x Hx. apply elem_of_seq in Hx. apply assignments_valid. lia.
Qed.

(** The loop over the points: [done] have been placed, [rest] are to come.
    The cursor of a hub stands past the points of [done] it holds, and each
    of them sits in the part of the segment below the cursor. *)
Lemma BucketSort_points_inv rest : ∀ done m,
  (∀ h, assigned_count assignments (done ++ rest) h
        = hub_population assignments n h) →
  (∀ x, x ∈ done ++ rest → x < n) →
  length (arr_idx m) = n → length (bs_cursor m) = H + 1 →
  (∀ h, h < H →
     rdn (bs_cursor m) h = rdn off h + assigned_count assignments done h) →
  (∀ x, x ∈ done → ∃ loc,
     rdn off (rdn assignments x) ≤ loc
     ∧ loc < rdn off (rdn assignments x)
             + assigned_count assignments done (rdn assignments x)
     ∧ arr_idx m !! loc = Some x) →
  let m' := foldl (BucketSort_point points assignments) m rest in
  length (arr_idx m') = n ∧
  ∀ x, x ∈ done ++ rest → ∃ loc,
    arr_idx m' !! loc = Some x
    ∧ rdn off (rdn assignments x) ≤ loc < rdn off (rdn assignments x + 1).
Proof.
  induction rest as [|x rest IH]; intros done m Hcount Hlt Hlen Hlc Hcur Hplaced.
  - cbn [foldl]. split; [done|]. intros y Hy. rewrite app_nil_r in *.
    destruct (Hplaced y Hy) as (loc & Hlo & Hhi & Hloc).
    exists loc. split; [done|]. rewrite Hcount in Hhi.
    rewrite off_next by (apply assignments_valid, Hlt, Hy). lia.
  - cbn [foldl]. cbv zeta in IH.
    assert (x < n) as Hx by (apply Hlt, elem_of_app; right; left).
    pose proof (assignments_valid x Hx) as Hh.
    set (h := rdn assignments x) in *.
    assert (∀ h', assigned_count assignments done h'
                  + (if decide (rdn assignments x = h') then 1 else 0)
                  ≤ hub_population assignments n h') as Hroom.
    { intros h'. rewrite <- Hcount.
      rewrite assigned_count_app, assigned_count_cons. lia. }
    assert (∀ h', assigned_count assignments (done ++ [x]) h'
                  = assigned_count assignments done h'
                    + (if decide (rdn assignments x = h') then 1 else 0))
      as Hdone'.
    { intros h'. rewrite assigned_count_app, assigned_count_cons,
        assigned_count_nil. lia. }
    pose proof (Hroom h) as Hroom_h. rewrite decide_True in Hroom_h by done.
    pose proof off_total as Htot.
    pose proof (off_mono (h + 1) H ltac:(lia) ltac:(lia)) as Hseg.
    rewrite off_next in Hseg by done.
    replace (done ++ x :: rest) with ((done ++ [x]) ++ rest) in *
      by (by rewrite <- app_assoc).
    apply IH; try done.
    + unfold BucketSort_point. cbn [arr_idx]. by rewrite length_insert.
    + unfold BucketSort_point. cbn [bs_cursor]. unfold atomicAdd.
      by rewrite length_insert.
    + intros h' Hh'. unfold BucketSort_point. cbn [bs_cursor].
      fold h. rewrite Hdone'. unfold atomicAdd.
      destruct (decide (h = h')) as [<-|Hne].
      * rewrite rdn_insert_eq by lia.
        rewrite Hcur by done. rewrite decide_True by done. lia.
      * rewrite rdn_insert_ne by done. rewrite Hcur by done.
        rewrite decide_False by done. lia.
    + intros y Hy. unfold BucketSort_point. cbn [arr_idx]. fold h.
      rewrite (Hcur h Hh). apply elem_of_app in Hy as [Hy|Hy].
      * destruct (Hplaced y Hy) as (loc & Hlo & Hhi & Hloc).
        exists loc. split; [done|]. split.
        -- rewrite Hdone'. lia.
        -- rewrite list_lookup_insert_ne; [done|].
           assert (y < n) as Hyn
             by (apply Hlt, elem_of_app; left; apply elem_of_app; by left).
           pose proof (assignments_valid y Hyn) as Hhy.
           pose proof (Hroom (rdn assignments y)) as Hry.
           destruct (decide (rdn assignments y = h)) as [E|Hne].
           ++ rewrite E in *. lia.
           ++ destruct (decide (rdn assignments y < h)).
              ** pose proof (off_mono (rdn assignments y + 1) h
                               ltac:(lia) ltac:(lia)) as Hm.
                 rewrite off_next in Hm by done. lia.
              ** pose proof (off_mono (h + 1) (rdn assignments y)
                               ltac:(lia) ltac:(lia)) as Hm.
                 rewrite off_next in Hm by done. lia.
      * apply list_elem_of_singleton in Hy as ->. fold h.
        exists (rdn off h + assigned_count assignments done h).
        split; [lia|]. split.
        -- rewrite Hdone'. rewrite decide_True by done. lia.
        -- apply list_lookup_insert_eq. lia.
Qed.

(** C8. Under every schedule of the launch, started on cursors that are the
    exclusive prefix sums of the hub populations, the bucketed identifier
    array ends up a permutation of [0, n), and every point sits inside the
    segment [offset[hub], offset[hub + 1]) of the hub it is assigned to. *)
Theorem BucketSort_permutation sched m :
  bs_cursor m = off → length (arr_idx m) = n →
  sched ≡ₚ bucket_grid n →
  let m' := BucketSort n points assignments sched m in
  arr_idx m' ≡ₚ seq 0 n ∧
  ∀ p, p < n → ∃ loc,
    arr_idx m' !! loc = Some p
    ∧ rdn off (rdn assignments p) ≤ loc < rdn off (rdn assignments p + 1).
Proof.
  intros Hcur Hlen Hsched. cbv zeta. rewrite BucketSort_points.
  pose proof (bucket_schedule_points n sched Hsched) as Hperm.
  set (idxs := filter (λ idx, idx < n) (global_idx block_size <$> sched)) in *.
  destruct (BucketSort_points_inv idxs [] m) as [Hlen' Hplaced].
  - intros h. cbn [app]. unfold hub_population.
    by apply assigned_count_perm.
  - intros x Hx. cbn [app] in Hx. rewrite Hperm in Hx.
    apply elem_of_seq in Hx. lia.
  - done.
  - by rewrite Hcur.
  - intros h Hh. rewrite Hcur, assigned_count_nil. lia.
  - intros x Hx. by apply elem_of_nil in Hx.
  - cbn [app] in Hplaced. split.
    + symmetry. apply submseteq_length_Permutation.
      * apply NoDup_submseteq; [apply NoDup_seq|].
        intros p Hp. assert (p ∈ idxs) as Hin by by rewrite Hperm.
        destruct (Hplaced p Hin) as (loc & Hloc & _).
        by eapply list_elem_of_lookup_2.
      * rewrite Hlen', length_seq. done.
    + intros p Hp. apply Hplaced. rewrite Hperm. apply elem_of_seq. lia.
Qed.

End BucketSortFacts.

(** ** The choice of the top-K collector *)

Lemma CEIL_DIV_warp k r :
  CEIL_DIV k warp_size = r ↔ 32 * r - 31 ≤ k + (if decide (r = 0) then 31 else 0) ∧ k ≤ 32 * r.
Proof.
  unfold CEIL_DIV, warp_size.
  pose proof (Nat.div_mod_eq (k + 32 - 1) 32) as E.
  pose proof (Nat.mod_upper_bound (k + 32 - 1) 32 ltac:(lia)) as Hm.
  case_decide; split; intros; lia.
Qed.

(** C4, as the code has it.  The collector is chosen by the number of
    32-wide rounds [CEIL_DIV k 32]: one to five rounds select the bounds
    32, 64, 128, 256 and 512.  The bound that is selected is a supported
    one and is at least [k]; it is the smallest such bound when [k ≤ 96].
    The fatal branch is taken exactly when [k = 0] or [k > 160]. *)
Theorem Query_dispatch_rounds k :
  (Query_dispatch k = None ↔ k = 0 ∨ 160 < k) ∧
  (∀ q t, Query_dispatch k = Some (q, t) →
     q ∈ WarpQ_tiers ∧ k ≤ q ∧ q = 32 * 2 ^ (CEIL_DIV k warp_size - 1) ∧
     (k ≤ 96 → smallest_tier k = Some q)).
Proof.
  unfold Query_dispatch.
  destruct (CEIL_DIV k warp_size) as [|[|[|[|[|[|r]]]]]] eqn:E;
    apply CEIL_DIV_warp in E; case_decide; try lia.
  all: split; [split; [try done; intros; lia | try done; intros; lia]|].
  all: intros q t Hq; simplify_eq.
  all: split; [unfold WarpQ_tiers; repeat first [by left | right]|].
  all: split; [lia|]. all: split; [done|].
  all: intros Hk; unfold smallest_tier, WarpQ_tiers.
  all: repeat (rewrite filter_cons; case_decide; try lia); try done.
Qed.

(** The code does not choose the smallest supported bound: for [k = 100]
    it instantiates the collector with 256, and it rejects [k = 200]
    although 200 is below the largest bound. *)
Lemma Query_dispatch_not_smallest :
  ¬ (∀ k, fst <$> Query_dispatch k = smallest_tier k).
Proof. intros Hk. specialize (Hk 100). vm_compute in Hk. discriminate. Qed.

(** ** Order of the floats *)

Lemma flt_irrefl a : flt a a = false.
Proof.
  unfold flt. rewrite Z.ltb_irrefl. by rewrite andb_false_r.
Qed.

Lemma flt_trans a b c : flt a b = true → flt b c = true → flt a c = true.
Proof.
  unfold flt. rewrite !andb_true_iff, !Z.ltb_lt.
  intros [[? ?] ?] [[? ?] ?]. repeat split; try done. lia.
Qed.

(** ** reassignPoints *)

Section ReassignFacts.

Variable H : nat.

Lemma reassign_snapshot_read bd smem hub_counts h :
  H ≤ bd → H ≤ length smem → h < H →
  rdn (reassign_snapshot H bd 0 smem hub_counts) h = rdn hub_counts h.
Proof.
  intros Hbd Hlen Hh. unfold reassign_snapshot.
  apply (foldl_establishes (λ s, length s = length smem)
           (λ s, rdn s h = rdn hub_counts h) _ (seq 0 bd) h).
  - intros s t _ Hs. cbv zeta. case_decide; [|done]. by rewrite length_insert.
  - intros s t _ Hs Hv. cbv zeta. case_decide; [|done].
    unfold global_idx. cbn [fst snd].
    destruct (decide (0 * bd + t = h)) as [<-|Hne].
    + rewrite rdn_insert_eq; [done|]. unfold global_idx in *. simpl in *. lia.
    + by rewrite rdn_insert_ne.
  - intros s Hs. cbv zeta. unfold global_idx. cbn [fst snd].
    rewrite decide_True by lia. replace (0 * bd + h) with h by lia.
    rewrite rdn_insert_eq; [done|lia].
  - apply elem_of_seq. lia.
  - done.
Qed.

(** The loop over the hubs keeps the nearest of the hubs that met [k]. *)
Lemma reassign_scan_inv n k idx dists initial_counts j minimal_dist new_hub :
  foldl (reassign_scan_step n k idx dists initial_counts)
        (Some (FLT_MAX, H)) (seq 0 j) = Some (minimal_dist, new_hub) →
  (new_hub = H ∧ minimal_dist = FLT_MAX
   ∨ new_hub < j ∧ k ≤ rdn initial_counts new_hub
     ∧ minimal_dist = rdf dists (new_hub * n + idx))
  ∧ ∀ h, h < j → k ≤ rdn initial_counts h →
      flt (rdf dists (h * n + idx)) minimal_dist = false.
Proof.
  revert minimal_dist new_hub.
  induction j as [|j IH]; intros minimal_dist new_hub Hfold.
  - cbn in Hfold. simplify_eq. split; [by left|]. intros; lia.
  - rewrite seq_S, foldl_app in Hfold. cbn [foldl Nat.add] in Hfold.
    destruct (foldl (reassign_scan_step n k idx dists initial_counts)
                (Some (FLT_MAX, H)) (seq 0 j)) as [[m0 n0]|] eqn:E;
      [|done].
    destruct (IH m0 n0 eq_refl) as [Hhub Hmin].
    unfold reassign_scan_step in Hfold.
    destruct (flt (rdf dists (j * n + idx)) FLT_MAX) eqn:Hfin; [|done].
    destruct (bool_decide (k ≤ rdn initial_counts j)
              && flt (rdf dists (j * n + idx)) m0) eqn:Hcond;
      injection Hfold as <- <-.
    + apply andb_true_iff in Hcond as [Hk Hlt].
      apply bool_decide_eq_true in Hk.
      split; [right; split; [lia|done]|].
      intros h Hh Hkh. destruct (decide (h = j)) as [->|Hne].
      * apply flt_irrefl.
      * destruct (flt (rdf dists (h * n + idx)) (rdf dists (j * n + idx)))
          eqn:Hc; [|done].
        rewrite <- (Hmin h ltac:(lia) Hkh). symmetry.
        by eapply flt_trans.
    + split.
      * destruct Hhub as [?|(? & ? & ?)]; [by left|right].
        split; [lia|done].
      * intros h Hh Hkh. destruct (decide (h = j)) as [->|Hne].
        -- apply andb_false_iff in Hcond as [Hk|Hlt]; [|done].
           apply bool_decide_eq_false in Hk. lia.
        -- apply Hmin; [lia|done].
Qed.

(** What a successful move of the point [idx] does. *)
Lemma reassign_move_Some n k idx dists initial_counts m m' :
  reassign_move H n k idx dists initial_counts m = Some m' →
  (k ≤ rdn initial_counts (rdn m.2 idx) ∧ m' = m)
  ∨ (rdn initial_counts (rdn m.2 idx) < k ∧
     ∃ new_hub,
       new_hub < H ∧ k ≤ rdn initial_counts new_hub ∧
       (∀ h, h < H → k ≤ rdn initial_counts h →
          flt (rdf dists (h * n + idx)) (rdf dists (new_hub * n + idx))
          = false) ∧
       m' = (atomicAdd m.1 new_hub 1, <[idx := new_hub]> m.2)).
Proof.
  unfold reassign_move. cbv zeta. case_decide as Hlow.
  - destruct (foldl (reassign_scan_step n k idx dists initial_counts)
                (Some (FLT_MAX, H)) (seq 0 H)) as [[mind nh]|] eqn:E;
      [|done].
    destruct (reassign_asserts H n k idx dists initial_counts
                (rdn m.2 idx) mind nh) eqn:Ha; [|done].
    intros [= <-]. right. split; [done|]. exists nh.
    unfold reassign_asserts in Ha.
    rewrite !andb_true_iff, !bool_decide_eq_true in Ha.
    destruct Ha as ((((Hne & Hlt) & Hfin) & Hk) & Hge).
    destruct (reassign_scan_inv n k idx dists initial_counts H mind nh E)
      as [[[-> _]|(_ & _ & ->)] Hmin]; [lia|].
    done.
  - intros [= <-]. left. split; [lia|done].
Qed.

End ReassignFacts.

Section ReassignKernel.

Variable H : nat.

Lemma foldl_option_None {A B : Type} (f : B → A → option A) l :
  foldl (λ m t, m ← m; f t m) None l = None.
Proof. induction l as [|t l IH]; [done|]. simpl. apply IH. Qed.

(** A block whose threads are all beyond the points and the hubs does
    nothing. *)
Lemma reassignPoints_block_idle bd n k dists smem m b :
  1 ≤ b → n ≤ bd → H ≤ bd →
  reassignPoints_block H bd n k dists smem (Some m) b = Some m.
Proof.
  intros Hb Hn HH. unfold reassignPoints_block. cbn [mbind option_bind].
  apply (foldl_invariant (λ r, r = Some m)); [|done].
  intros r t Ht ->. apply elem_of_seq in Ht. cbn [mbind option_bind].
  unfold reassignPoints_thread, global_idx. cbn [fst snd].
  assert (bd ≤ b * bd) by nia.
  rewrite decide_False by lia. cbn [mbind option_bind].
  rewrite decide_False by lia. done.
Qed.

(** The first block after its first [t] threads: the hubs that met [k] have
    not lost points, the unused hubs below [t] are reset, and the points
    below [t] of the hubs that did not meet [k] have moved to the nearest
    hub that did. *)
Lemma reassignPoints_block0_inv bd n k dists initial_counts counts assign t :
  ∀ c a,
  (∀ h, h < H → rdn initial_counts h = rdn counts h) →
  H ≤ length counts → length assign = n →
  (∀ idx, idx < n → rdn assign idx < H) →
  foldl (λ m t, m ← m;
           reassignPoints_thread H bd n k dists initial_counts (0, t) m)
        (Some (counts, assign)) (seq 0 t) = Some (c, a) →
  length c = length counts ∧ length a = n ∧
  (∀ h, h < H → k ≤ rdn counts h → rdn counts h ≤ rdn c h) ∧
  (∀ h, h < H → rdn counts h < k → h < t → rdn c h = 0) ∧
  (∀ idx, t ≤ idx → rdn a idx = rdn assign idx) ∧
  (∀ idx, idx < n → idx < t → k ≤ rdn counts (rdn assign idx) →
     rdn a idx = rdn assign idx) ∧
  (∀ idx, idx < n → idx < t → rdn counts (rdn assign idx) < k →
     rdn a idx < H ∧ k ≤ rdn counts (rdn a idx) ∧
     ∀ h, h < H → k ≤ rdn counts h →
       flt (rdf dists (h * n + idx)) (rdf dists (rdn a idx * n + idx))
       = false).
Proof.
  intros c a Hic Hlc Hla Hvalid. revert c a.
  induction t as [|t IH]; intros c a Hfold.
  - cbn in Hfold. injection Hfold as <- <-.
    repeat split; try done; intros; lia.
  - rewrite seq_S, foldl_app in Hfold. cbn [foldl Nat.add] in Hfold.
    destruct (foldl (λ m t, m ← m;
                reassignPoints_thread H bd n k dists initial_counts (0, t) m)
                (Some (counts, assign)) (seq 0 t)) as [[c0 a0]|] eqn:E;
      [|done].
    destruct (IH c0 a0 eq_refl) as (L1 & L2 & Hkeep & Hzero & Hrest & Hstay & Hmoved).
    cbn [mbind option_bind] in Hfold.
    unfold reassignPoints_thread, global_idx in Hfold. cbn [fst snd] in Hfold.
    replace (0 * bd + t) with t in Hfold by lia.
    (* the move *)
    assert (∃ c1 a1,
      (if decide (t < n)
       then reassign_move H n k t dists initial_counts (c0, a0)
       else Some (c0, a0)) = Some (c1, a1) ∧
      length c1 = length counts ∧ length a1 = n ∧
      (∀ h, rdn c0 h ≤ rdn c1 h) ∧
      (∀ h, h < H → rdn counts h < k → rdn c1 h = rdn c0 h) ∧
      (∀ idx, idx ≠ t → rdn a1 idx = rdn a0 idx) ∧
      (t < n → k ≤ rdn counts (rdn assign t) → rdn a1 t = rdn assign t) ∧
      (t < n → rdn counts (rdn assign t) < k →
         rdn a1 t < H ∧ k ≤ rdn counts (rdn a1 t) ∧
         ∀ h, h < H → k ≤ rdn counts h →
           flt (rdf dists (h * n + t)) (rdf dists (rdn a1 t * n + t))
           = false)) as (c1 & a1 & Emove & M1 & M2 & Mup & Mlow & Moth & Mstay & Mmov).
    { destruct (decide (t < n)) as [Ht|Ht].
      - destruct (reassign_move H n k t dists initial_counts (c0, a0))
          as [[c1 a1]|] eqn:Em; [|done].
        exists c1, a1. split; [done|].
        pose proof (Hrest t ltac:(lia)) as Hcur.
        pose proof (Hvalid t Ht) as Hcv.
        apply reassign_move_Some in Em. cbn [fst snd] in Em.
        rewrite Hcur, Hic in Em by done.
        destruct Em as [[Hk Em]|(Hk & nh & Hnh & Hknh & Hmin & Em)];
          injection Em as -> ->.
        + repeat split; try done; intros; try lia.
        + rewrite Hic in Hknh by done.
          assert (nh < length c0) by lia.
          split; [by unfold atomicAdd; rewrite length_insert|].
          split; [by rewrite length_insert|]. split; [|split; [|split]].
          * intros h. unfold atomicAdd.
            destruct (decide (nh = h)) as [->|].
            -- rewrite rdn_insert_eq by done. lia.
            -- by rewrite rdn_insert_ne.
          * intros h Hh Hlow. unfold atomicAdd.
            rewrite rdn_insert_ne; [done|]. intros ->. lia.
          * intros idx Hne. by rewrite rdn_insert_ne.
          * split; [intros; lia|]. intros _ _.
            rewrite rdn_insert_eq by lia. split; [done|]. split; [done|].
            intros h Hh Hkh. apply Hmin; [done|]. by rewrite Hic.
      - exists c0, a0. repeat split; try done; intros; lia. }
    rewrite Emove in Hfold. cbn [mbind option_bind fst snd] in Hfold.
    destruct (decide (t < H ∧ rdn initial_counts t < k)) as [[HtH Hlow]|Hno];
      injection Hfold as <- <-.
    + rewrite Hic in Hlow by done.
      split; [by rewrite length_insert|]. split; [done|].
      split; [|split; [|split; [|split]]].
      * intros h Hh Hk. rewrite rdn_insert_ne by (intros ->; lia).
        etrans; [by apply Hkeep|apply Mup].
      * intros h Hh Hk Hht. destruct (decide (t = h)) as [->|Hne].
        -- rewrite rdn_insert_eq; [done|lia].
        -- rewrite rdn_insert_ne by done. rewrite Mlow by done.
           apply Hzero; [done|done|lia].
      * intros idx Hidx. rewrite Moth by lia. apply Hrest. lia.
      * intros idx Hidx Hlt Hk. destruct (decide (idx = t)) as [->|Hne].
        -- by apply Mstay.
        -- rewrite Moth by done. apply Hstay; [done|lia|done].
      * intros idx Hidx Hlt Hk. destruct (decide (idx = t)) as [->|Hne].
        -- by apply Mmov.
        -- rewrite Moth by done. apply Hmoved; [done|lia|done].
    + split; [done|]. split; [done|].
      split; [|split; [|split; [|split]]].
      * intros h Hh Hk. etrans; [by apply Hkeep|apply Mup].
      * intros h Hh Hk Hht. destruct (decide (t = h)) as [->|Hne].
        -- exfalso. apply Hno. split; [done|]. by rewrite Hic.
        -- rewrite Mlow by done. apply Hzero; [done|done|lia].
      * intros idx Hidx. rewrite Moth by lia. apply Hrest. lia.
      * intros idx Hidx Hlt Hk. destruct (decide (idx = t)) as [->|Hne].
        -- by apply Mstay.
        -- rewrite Moth by done. apply Hstay; [done|lia|done].
      * intros idx Hidx Hlt Hk. destruct (decide (idx = t)) as [->|Hne].
        -- by apply Mmov.
        -- rewrite Moth by done. apply Hmoved; [done|lia|done].
Qed.

End ReassignKernel.

Section ReassignTheorem.

Variable H : nat.

Lemma reassignPoints_blocks_None bd n k dists smem bs :
  foldl (reassignPoints_block H bd n k dists smem) None bs = None.
Proof. induction bs as [|b bs IH]; [done|]. simpl. apply IH. Qed.

Lemma reassignPoints_blocks_idle bd n k dists smem m bs :
  n ≤ bd → H ≤ bd → (∀ b, b ∈ bs → 1 ≤ b) →
  foldl (reassignPoints_block H bd n k dists smem) (Some m) bs = Some m.
Proof.
  intros Hn HH Hbs. apply (foldl_invariant (λ r, r = Some m)); [|done].
  intros r b Hb ->. apply reassignPoints_block_idle; [by apply Hbs|done..].
Qed.

(** What a launch that runs to its end leaves.  For a launch whose first
    block covers the points and the hubs: when the kernel runs to its
    end, none of its assertions failing, [k < n], every hub whose counter
    is positive holds at least [k], and every hub that held fewer than
    [k] before has its counter reset and each of its points moved to a
    hub that held at least [k] before, no such hub being strictly nearer
    to the point. *)
Lemma reassignPoints_rebalanced nb bd n k dists smem counts assign
    counts' assign' :
  0 < nb → n ≤ bd → H ≤ bd → H ≤ length (smem 0) →
  H ≤ length counts → length assign = n →
  (∀ idx, idx < n → rdn assign idx < H) →
  reassignPoints H nb bd n k dists smem (counts, assign)
  = Some (counts', assign') →
  k < n ∧
  (∀ h, h < H → 0 < rdn counts' h → k ≤ rdn counts' h) ∧
  (∀ h, h < H → rdn counts h < k →
     rdn counts' h = 0 ∧
     ∀ idx, idx < n → rdn assign idx = h →
       rdn assign' idx < H ∧ k ≤ rdn counts (rdn assign' idx) ∧
       ∀ h', h' < H → k ≤ rdn counts h' →
         flt (rdf dists (h' * n + idx)) (rdf dists (rdn assign' idx * n + idx))
         = false).
Proof.
  intros Hnb Hn HH Hsm Hlc Hla Hvalid. unfold reassignPoints.
  case_decide as Hpre; [|done]. destruct Hpre as [Hkn _].
  destruct nb as [|nb]; [lia|].
  rewrite <- cons_seq. cbn [foldl].
  destruct (reassignPoints_block H bd n k dists smem (Some (counts, assign)) 0)
    as [[c a]|] eqn:E0; [|by rewrite reassignPoints_blocks_None].
  rewrite reassignPoints_blocks_idle; try done.
  2:{ intros b Hb. apply elem_of_seq in Hb. lia. }
  intros [= <- <-].
  unfold reassignPoints_block in E0. cbn [mbind option_bind fst] in E0.
  apply reassignPoints_block0_inv in E0; try done.
  2:{ intros h Hh. by apply reassign_snapshot_read. }
  destruct E0 as (L1 & L2 & Hkeep & Hzero & Hrest & Hstay & Hmoved).
  split; [done|]. split.
  - intros h Hh Hpos. destruct (decide (k ≤ rdn counts h)) as [Hk|Hk].
    + etrans; [exact Hk|]. by apply Hkeep.
    + rewrite Hzero in Hpos by lia. lia.
  - intros h Hh Hk. split; [apply Hzero; [done|done|lia]|].
    intros idx Hidx Ha. apply Hmoved; [done|lia|]. by rewrite Ha.
Qed.

End ReassignTheorem.

(** ** The traversal loop of Query *)

Lemma rdn_le_list_max (l : list nat) i : rdn l i ≤ list_max l.
Proof.
  unfold rdn. rewrite nth_lookup.
  destruct (l !! i) as [x|] eqn:E; simpl; [|lia].
  apply list_elem_of_lookup_2 in E.
  pose proof (proj1 (list_max_le l (list_max l)) ltac:(lia)) as Hall.
  rewrite Forall_forall in Hall. apply Hall. by apply list_elem_of_In.
Qed.

Section QueryLoop.

Variable H : nat.
Variable l2dist : float → float → float → float → float → float → float.
Variable fsqrt : float → float.
Variable fsub : float → float → float.
Variable ix : knn_index.
Variables (K Points_num : nat).

(** The loop, turn by turn. *)
Lemma Query_loop_turns qp fuel : ∀ st,
  ∃ j, j ≤ fuel ∧
    Query_loop H l2dist fsqrt fsub ix K Points_num fuel qp st
    = Nat.iter j (Query_step H l2dist ix K Points_num qp) st ∧
    (∀ i, i < j →
       Query_continue H l2dist fsqrt fsub ix K qp
         (Nat.iter i (Query_step H l2dist ix K Points_num qp) st) = true) ∧
    (j < fuel →
       Query_continue H l2dist fsqrt fsub ix K qp
         (Nat.iter j (Query_step H l2dist ix K Points_num qp) st) = false).
Proof.
  induction fuel as [|fuel IH]; intros st.
  - exists 0. repeat split; [done | intros; lia | intros; lia].
  - cbn [Query_loop].
    destruct (Query_continue H l2dist fsqrt fsub ix K qp st) eqn:Hc.
    + destruct (IH (Query_step H l2dist ix K Points_num qp st))
        as (j & Hj & Eq & Hgo & Hstop).
      exists (S j). rewrite Nat.iter_succ_r.
      split; [lia|]. split; [done|]. split.
      * intros [|i] Hi; [done|]. rewrite Nat.iter_succ_r. apply Hgo. lia.
      * intros Hlt. apply Hstop. lia.
    + exists 0. repeat split; [lia | intros; lia | done].
Qed.

Lemma Query_step_to_bound qp st :
  scan_hub_to st ≤ list_max (ix_dH_psum ix) →
  scan_hub_to (Query_step H l2dist ix K Points_num qp st)
  ≤ list_max (ix_dH_psum ix).
Proof.
  intros Hto. unfold Query_step. cbv zeta.
  repeat case_decide; cbn [scan_hub_to]; try done.
  apply rdn_le_list_max.
Qed.

Lemma Query_turns_left_bound st :
  scan_hub_to st ≤ list_max (ix_dH_psum ix) →
  1 ≤ Query_turns_left st
  ∧ Query_turns_left st ≤ list_max (ix_dH_psum ix) / warp_size + 1.
Proof.
  intros Hto. unfold Query_turns_left, warp_size in *.
  case_decide; [lia|].
  pose proof (Nat.div_mod_eq (scan_hub_to st - scan_hub_from st + (32 - 1)) 32).
  pose proof (Nat.mod_upper_bound
                (scan_hub_to st - scan_hub_from st + (32 - 1)) 32).
  pose proof (Nat.div_mod_eq (list_max (ix_dH_psum ix)) 32).
  pose proof (Nat.mod_upper_bound (list_max (ix_dH_psum ix)) 32).
  lia.
Qed.

(** Every turn lowers the measure. *)
Lemma Query_step_potential qp st :
  scan_hub_to st ≤ list_max (ix_dH_psum ix) →
  hubs_processed st < H →
  Query_potential H ix (Query_step H l2dist ix K Points_num qp st)
  < Query_potential H ix st.
Proof.
  intros Hto Hhp.
  pose proof (Query_step_to_bound qp st Hto) as Hto'.
  pose proof (Query_turns_left_bound _ Hto') as [_ Hup].
  pose proof (Query_turns_left_bound _ Hto) as [Hlo _].
  revert Hto' Hup Hlo.
  unfold Query_potential, Query_step. cbv zeta.
  set (B := list_max (ix_dH_psum ix) / warp_size + 1).
  rewrite (decide_True (P := hubs_processed st < H)) by done.
  destruct (decide (scan_hub_to st ≤ scan_hub_from st + warp_size))
    as [Hlast|Hmore].
  - destruct (decide (hubs_processed st + 1 < H)) as [Hnext|Hend];
      cbn [hubs_processed]; intros _ Hup _.
    + rewrite decide_True by done.
      assert (Query_turns_left st = 1) as ->
        by (unfold Query_turns_left; by rewrite decide_True).
      replace (H - hubs_processed st - 1)
        with (S (H - (hubs_processed st + 1) - 1)) by lia.
      lia.
    + rewrite decide_False by done.
      assert (Query_turns_left st = 1) as ->
        by (unfold Query_turns_left; by rewrite decide_True).
      lia.
  - cbn [hubs_processed]. intros _ _ _.
    rewrite decide_True by done.
    apply Nat.add_lt_mono_l.
    unfold Query_turns_left, warp_size in *.
    cbn [scan_hub_to scan_hub_from].
    rewrite (decide_False (P := scan_hub_to st ≤ scan_hub_from st + 32))
      by done.
    pose proof (Nat.div_mod_eq
                  (scan_hub_to st - scan_hub_from st + (32 - 1)) 32).
    pose proof (Nat.mod_upper_bound
                  (scan_hub_to st - scan_hub_from st + (32 - 1)) 32).
    case_decide.
    + lia.
    + pose proof (Nat.div_mod_eq
                    (scan_hub_to st - (scan_hub_from st + 32) + (32 - 1)) 32).
      pose proof (Nat.mod_upper_bound
                    (scan_hub_to st - (scan_hub_from st + 32) + (32 - 1)) 32).
      lia.
Qed.

(** With as many turns as the measure allows, the loop ends on a state
    where its condition fails. *)
Lemma Query_loop_stops qp fuel : ∀ st,
  scan_hub_to st ≤ list_max (ix_dH_psum ix) →
  Query_potential H ix st ≤ fuel →
  Query_continue H l2dist fsqrt fsub ix K qp
    (Query_loop H l2dist fsqrt fsub ix K Points_num fuel qp st) = false.
Proof.
  induction fuel as [|fuel IH]; intros st Hto Hpot.
  - cbn [Query_loop]. unfold Query_continue.
    destruct (decide (hubs_processed st < H)) as [Hhp|Hhp].
    + pose proof (Query_turns_left_bound st Hto).
      unfold Query_potential in Hpot. rewrite decide_True in Hpot by done.
      nia.
    + by rewrite bool_decide_eq_false_2.
  - cbn [Query_loop].
    destruct (Query_continue H l2dist fsqrt fsub ix K qp st) eqn:Hc; [|done].
    assert (hubs_processed st < H) as Hhp.
    { unfold Query_continue in Hc. apply andb_true_iff in Hc as [Hc _].
      by apply bool_decide_eq_true in Hc. }
    apply IH; [by apply Query_step_to_bound|].
    pose proof (Query_step_potential qp st Hto Hhp). lia.
Qed.

Lemma Query_init_potential qp :
  scan_hub_to (Query_init H ix K qp) ≤ list_max (ix_dH_psum ix)
  ∧ Query_potential H ix (Query_init H ix K qp) ≤ Query_fuel H ix.
Proof.
  assert (scan_hub_to (Query_init H ix K qp) ≤ list_max (ix_dH_psum ix))
    as Hto by apply rdn_le_list_max.
  split; [done|].
  pose proof (Query_turns_left_bound _ Hto) as [_ Hup].
  unfold Query_potential, Query_fuel. case_decide as Hhp; [|lia].
  cbn [Query_init hubs_processed] in *.
  set (B := list_max (ix_dH_psum ix) / warp_size + 1) in *.
  set (t := Query_turns_left _) in *.
  assert (H * B = (H - 0 - 1) * B + B) as ->; [|lia].
  replace H with (S (H - 0 - 1)) at 1 by lia. lia.
Qed.

(** C3, as the code has it.  The traversal of a query takes a turn, one
    batch of 32 cells, exactly as long as fewer than [H] hubs have been
    processed and the square root of the worst retained distance exceeds
    the lower bound of the hub being scanned minus the distance of the
    query to its own hub; it stops at the first test where one of the two
    fails, and it always gets there. *)
Theorem Query_loop_exit qp :
  ∃ turns,
    Query_loop H l2dist fsqrt fsub ix K Points_num (Query_fuel H ix) qp
      (Query_init H ix K qp)
    = Nat.iter turns (Query_step H l2dist ix K Points_num qp)
        (Query_init H ix K qp) ∧
    (∀ i, i < turns →
       let st := Nat.iter i (Query_step H l2dist ix K Points_num qp)
                   (Query_init H ix K qp) in
       hubs_processed st < H ∧
       fgt (fsqrt (warpKTop K (heap st)))
           (fsub (dist_to_this_hub st)
                 (Query_dist_to_my_hub l2dist fsqrt ix qp)) = true) ∧
    (let st := Nat.iter turns (Query_step H l2dist ix K Points_num qp)
                 (Query_init H ix K qp) in
     H ≤ hubs_processed st ∨
     fgt (fsqrt (warpKTop K (heap st)))
         (fsub (dist_to_this_hub st)
               (Query_dist_to_my_hub l2dist fsqrt ix qp)) = false).
Proof.
  destruct (Query_loop_turns qp (Query_fuel H ix) (Query_init H ix K qp))
    as (j & Hj & Eq & Hgo & _).
  destruct (Query_init_potential qp) as [Hto Hpot].
  pose proof (Query_loop_stops qp _ _ Hto Hpot) as Hstop.
  rewrite Eq in Hstop.
  exists j. split; [done|]. split.
  - intros i Hi. cbv zeta. specialize (Hgo i Hi).
    unfold Query_continue in Hgo. apply andb_true_iff in Hgo as [Hhp Hg].
    apply bool_decide_eq_true in Hhp. done.
  - cbv zeta. unfold Query_continue in Hstop.
    apply andb_false_iff in Hstop as [Hhp|Hg]; [left|by right].
    apply bool_decide_eq_false in Hhp. lia.
Qed.

End QueryLoop.

(** ** The rows Query writes *)

Lemma grid_schedule_points nb bd n sched :
  sched ≡ₚ grid nb bd → n ≤ nb * bd →
  filter (λ idx, idx < n) (global_idx bd <$> sched) ≡ₚ seq 0 n.
Proof.
  intros -> Hn. rewrite grid_global_idx. by rewrite filter_lt_seq.
Qed.

Lemma div_mod_cell K q j : j < K → (K * q + j) / K = q ∧ (K * q + j) mod K = j.
Proof.
  intros Hj. split.
  - rewrite (Nat.mul_comm K q), Nat.div_add_l by lia.
    rewrite Nat.div_small by done. lia.
  - rewrite Nat.add_comm, (Nat.mul_comm K q), Nat.Div0.mod_add.
    by apply Nat.mod_small.
Qed.

Section QueryRows.

Variable H : nat.
Variable l2dist : float → float → float → float → float → float → float.
Variable fsqrt : float → float.
Variable fsub : float → float → float.
Variable ix : knn_index.
Variables (K n : nat).

(** A warp leaves in every cell it writes the entry of the result of the
    point the cell belongs to, and keeps such entries where it finds
    them. *)
Lemma Query_writeOut_length qp out :
  length (Query_writeOut H l2dist fsqrt fsub ix K n qp out).1 = length out.1
  ∧ length (Query_writeOut H l2dist fsqrt fsub ix K n qp out).2
    = length out.2.
Proof.
  unfold Query_writeOut.
  apply (foldl_invariant (λ o : list Z * list float,
           length o.1 = length out.1 ∧ length o.2 = length out.2));
    [|done].
  intros o j _ [H1 H2]. cbn [fst snd]. by rewrite !length_insert.
Qed.

Lemma Query_writeOut_stable qp out c :
  out.1 !! c = Some (nth (c mod K)
                 (Query_result H l2dist fsqrt fsub ix K n (c / K))
                 (FLT_MAX, (-1)%Z)).2 ∧
  out.2 !! c = Some (nth (c mod K)
                 (Query_result H l2dist fsqrt fsub ix K n (c / K))
                 (FLT_MAX, (-1)%Z)).1 →
  let out' := Query_writeOut H l2dist fsqrt fsub ix K n qp out in
  out'.1 !! c = Some (nth (c mod K)
                  (Query_result H l2dist fsqrt fsub ix K n (c / K))
                  (FLT_MAX, (-1)%Z)).2 ∧
  out'.2 !! c = Some (nth (c mod K)
                  (Query_result H l2dist fsqrt fsub ix K n (c / K))
                  (FLT_MAX, (-1)%Z)).1.
Proof.
  intros Hc. cbv zeta. unfold Query_writeOut.
  apply (foldl_invariant (λ o : list Z * list float,
    o.1 !! c = Some (nth (c mod K)
                 (Query_result H l2dist fsqrt fsub ix K n (c / K))
                 (FLT_MAX, (-1)%Z)).2 ∧
    o.2 !! c = Some (nth (c mod K)
                 (Query_result H l2dist fsqrt fsub ix K n (c / K))
                 (FLT_MAX, (-1)%Z)).1)); [|done].
  intros o j Hj [H1 H2]. apply elem_of_seq in Hj. cbn [fst snd].
  destruct (decide (K * qp + j = c)) as [<-|Hne].
  - destruct (div_mod_cell K qp j ltac:(lia)) as [-> ->].
    split; apply list_lookup_insert_eq; by eapply lookup_lt_Some.
  - by rewrite !list_lookup_insert_ne.
Qed.

Lemma Query_writeOut_cell qp out j :
  j < K → K * qp + j < length out.1 → K * qp + j < length out.2 →
  let out' := Query_writeOut H l2dist fsqrt fsub ix K n qp out in
  out'.1 !! (K * qp + j)
  = Some (nth j (Query_result H l2dist fsqrt fsub ix K n qp)
                (FLT_MAX, (-1)%Z)).2 ∧
  out'.2 !! (K * qp + j)
  = Some (nth j (Query_result H l2dist fsqrt fsub ix K n qp)
                (FLT_MAX, (-1)%Z)).1.
Proof.
  intros Hj H1 H2. cbv zeta. unfold Query_writeOut.
  apply (foldl_establishes
    (λ o : list Z * list float,
       length o.1 = length out.1 ∧ length o.2 = length out.2)
    (λ o : list Z * list float,
       o.1 !! (K * qp + j)
       = Some (nth j (Query_result H l2dist fsqrt fsub ix K n qp)
                     (FLT_MAX, (-1)%Z)).2 ∧
       o.2 !! (K * qp + j)
       = Some (nth j (Query_result H l2dist fsqrt fsub ix K n qp)
                     (FLT_MAX, (-1)%Z)).1) _ (seq 0 K) j).
  - intros o j' _ [L1 L2]. cbn [fst snd]. by rewrite !length_insert.
  - intros o j' Hj' _ [P1 P2]. apply elem_of_seq in Hj'. cbn [fst snd].
    destruct (decide (K * qp + j' = K * qp + j)) as [E|Hne].
    + assert (j' = j) as -> by lia.
      split; apply list_lookup_insert_eq; by eapply lookup_lt_Some.
    + by rewrite !list_lookup_insert_ne.
  - intros o [L1 L2]. cbn [fst snd].
    split; apply list_lookup_insert_eq; lia.
  - apply elem_of_seq. lia.
  - done.
Qed.

(** C1, as the code has it.  The launch of [C_and_Q] does not read the
    list of query points: under every schedule it handles as queries the
    points [arr_idx[s]] for every [s] below [n], the bucketed identifiers,
    whatever list is supplied; and it writes the [K] pairs of the point
    [qp] into the cells [K * qp + j], the row of the identifier of the
    point. *)
Theorem Query_rows_by_point Qps sched out :
  sched ≡ₚ query_grid n →
  Query_points ix n queries_per_block sched
    ≡ₚ rdn (ix_arr_idx ix) <$> seq 0 n ∧
  (∀ Qps',
     Query H l2dist fsqrt fsub ix K n queries_per_block Qps' sched out
     = Query H l2dist fsqrt fsub ix K n queries_per_block Qps sched out) ∧
  ∀ s j, s < n → j < K →
    let qp := rdn (ix_arr_idx ix) s in
    K * qp + j < length out.1 → K * qp + j < length out.2 →
    let out' :=
      Query H l2dist fsqrt fsub ix K n queries_per_block Qps sched out in
    out'.1 !! (K * qp + j)
    = Some (nth j (Query_result H l2dist fsqrt fsub ix K n qp)
                  (FLT_MAX, (-1)%Z)).2 ∧
    out'.2 !! (K * qp + j)
    = Some (nth j (Query_result H l2dist fsqrt fsub ix K n qp)
                  (FLT_MAX, (-1)%Z)).1.
Proof.
  intros Hsched.
  assert (n ≤ CEIL_DIV n queries_per_block * queries_per_block) as Hcover.
  { unfold CEIL_DIV. apply ceil_blocks_cover. unfold queries_per_block.
    simpl. lia. }
  split; [|split].
  - unfold Query_points.
    by rewrite (grid_schedule_points _ _ n sched Hsched Hcover).
  - done.
  - intros s j Hs Hj qp H1 H2. cbv zeta.
    destruct (grid_covers (CEIL_DIV n queries_per_block) queries_per_block s)
      as (w & Hw & Hws); [unfold queries_per_block; simpl; lia|lia|].
    destruct (div_mod_cell K qp j Hj) as [Ediv Emod].
    cut ((λ o : list Z * list float,
         o.1 !! (K * qp + j)
         = Some (nth ((K * qp + j) mod K)
                   (Query_result H l2dist fsqrt fsub ix K n
                      ((K * qp + j) / K)) (FLT_MAX, (-1)%Z)).2 ∧
         o.2 !! (K * qp + j)
         = Some (nth ((K * qp + j) mod K)
                   (Query_result H l2dist fsqrt fsub ix K n
                      ((K * qp + j) / K)) (FLT_MAX, (-1)%Z)).1)
        (Query H l2dist fsqrt fsub ix K n queries_per_block Qps sched out)).
    { cbv beta. by rewrite Ediv, Emod. }
    apply (launch_establishes
      (λ o : list Z * list float,
         length o.1 = length out.1 ∧ length o.2 = length out.2)
      (λ o : list Z * list float,
         o.1 !! (K * qp + j)
         = Some (nth ((K * qp + j) mod K)
                   (Query_result H l2dist fsqrt fsub ix K n
                      ((K * qp + j) / K)) (FLT_MAX, (-1)%Z)).2 ∧
         o.2 !! (K * qp + j)
         = Some (nth ((K * qp + j) mod K)
                   (Query_result H l2dist fsqrt fsub ix K n
                      ((K * qp + j) / K)) (FLT_MAX, (-1)%Z)).1)
      _ sched w).
    + intros w' o [L1 L2]. unfold Query_warp. cbv zeta.
      case_decide; [done|].
      destruct (Query_writeOut_length
                  (rdn (ix_arr_idx ix) (global_idx queries_per_block w')) o)
        as [-> ->]. done.
    + intros w' o _ Ho. unfold Query_warp. cbv zeta.
      case_decide; [done|]. by apply Query_writeOut_stable.
    + intros o [L1 L2]. unfold Query_warp. cbv zeta. rewrite Hws.
      rewrite decide_False by lia. rewrite Ediv, Emod.
      apply Query_writeOut_cell; [done|fold qp; lia|fold qp; lia].
    + by rewrite Hsched.
    + done.
Qed.

End QueryRows.

(** ** Half-cleaners on 0-1 sequences *)

Ltac shape_cases :=
  repeat case_bool_decide; simpl; try done; try lia.

Lemma flat_hill x a L : flat x a L false → hill x a L.
Proof.
  intros Hx. exists 0, 0. repeat split; [lia..|].
  intros j Hj. rewrite Hx by done. shape_cases.
Qed.

Lemma flat_valley x a L : flat x a L true → valley x a L.
Proof.
  intros Hx. exists 0, 0. repeat split; [lia..|].
  intros j Hj. rewrite Hx by done. shape_cases.
Qed.

Lemma flat_bitonic x a L c : flat x a L c → bitonic01 x a L.
Proof.
  destruct c; intros Hx; [right; by apply flat_valley|left; by apply flat_hill].
Qed.

(** The ascending half-cleaner: the lower half takes the minima, the
    upper half the maxima. *)
Lemma half_clean_asc x x' a s :
  bitonic01 x a (2 * s) →
  (∀ j, j < s → x' (a + j) = x (a + j) && x (a + (s + j))) →
  (∀ j, j < s → x' (a + s + j) = x (a + j) || x (a + (s + j))) →
  bitonic01 x' a s ∧ bitonic01 x' (a + s) s ∧
  (flat x' a s false ∨ flat x' (a + s) s true).
Proof.
  intros Hx Hlo Hhi.
  assert (∀ j, j < s → j < 2 * s ∧ s + j < 2 * s) as Hin by (intros; lia).
  destruct Hx as [(i & k & Hik & Hk & Hx)|(i & k & Hik & Hk & Hx)].
  - destruct (decide (k ≤ s)); [|destruct (decide (s ≤ i));
      [|destruct (decide (i + s ≤ k))]].
    + assert (flat x' a s false) as Hf.
      { intros j Hj. rewrite Hlo, !Hx by lia. shape_cases. }
      split; [by eapply flat_bitonic|]. split; [|by left].
      left. exists i, k. repeat split; [lia..|].
      intros j Hj. rewrite Hhi, !Hx by lia. shape_cases.
    + assert (flat x' a s false) as Hf.
      { intros j Hj. rewrite Hlo, !Hx by lia. shape_cases. }
      split; [by eapply flat_bitonic|]. split; [|by left].
      left. exists (i - s), (k - s). repeat split; [lia..|].
      intros j Hj. rewrite Hhi, !Hx by lia. shape_cases.
    + assert (flat x' (a + s) s true) as Hf.
      { intros j Hj. rewrite Hhi, !Hx by lia. shape_cases. }
      split; [|split; [by eapply flat_bitonic|by right]].
      left. exists i, (k - s). repeat split; [lia..|].
      intros j Hj. rewrite Hlo, !Hx by lia. shape_cases.
    + assert (flat x' a s false) as Hf.
      { intros j Hj. rewrite Hlo, !Hx by lia. shape_cases. }
      split; [by eapply flat_bitonic|]. split; [|by left].
      right. exists (k - s), i. repeat split; [lia..|].
      intros j Hj. rewrite Hhi, !Hx by lia. shape_cases.
  - destruct (decide (k ≤ s)); [|destruct (decide (s ≤ i));
      [|destruct (decide (i + s ≤ k))]].
    + assert (flat x' (a + s) s true) as Hf.
      { intros j Hj. rewrite Hhi, !Hx by lia. shape_cases. }
      split; [|split; [by eapply flat_bitonic|by right]].
      right. exists i, k. repeat split; [lia..|].
      intros j Hj. rewrite Hlo, !Hx by lia. shape_cases.
    + assert (flat x' (a + s) s true) as Hf.
      { intros j Hj. rewrite Hhi, !Hx by lia. shape_cases. }
      split; [|split; [by eapply flat_bitonic|by right]].
      right. exists (i - s), (k - s). repeat split; [lia..|].
      intros j Hj. rewrite Hlo, !Hx by lia. shape_cases.
    + assert (flat x' a s false) as Hf.
      { intros j Hj. rewrite Hlo, !Hx by lia. shape_cases. }
      split; [by eapply flat_bitonic|]. split; [|by left].
      right. exists i, (k - s). repeat split; [lia..|].
      intros j Hj. rewrite Hhi, !Hx by lia. shape_cases.
    + assert (flat x' (a + s) s true) as Hf.
      { intros j Hj. rewrite Hhi, !Hx by lia. shape_cases. }
      split; [|split; [by eapply flat_bitonic|by right]].
      left. exists (k - s), i. repeat split; [lia..|].
      intros j Hj. rewrite Hlo, !Hx by lia. shape_cases.
Qed.

(** The descending half-cleaner: maxima below, minima above. *)
Lemma half_clean_desc x x' a s :
  bitonic01 x a (2 * s) →
  (∀ j, j < s → x' (a + j) = x (a + j) || x (a + (s + j))) →
  (∀ j, j < s → x' (a + s + j) = x (a + j) && x (a + (s + j))) →
  bitonic01 x' a s ∧ bitonic01 x' (a + s) s ∧
  (flat x' a s true ∨ flat x' (a + s) s false).
Proof.
  intros Hx Hlo Hhi.
  destruct Hx as [(i & k & Hik & Hk & Hx)|(i & k & Hik & Hk & Hx)].
  - destruct (decide (k ≤ s)); [|destruct (decide (s ≤ i));
      [|destruct (decide (i + s ≤ k))]].
    + assert (flat x' (a + s) s false) as Hf.
      { intros j Hj. rewrite Hhi, !Hx by lia. shape_cases. }
      split; [|split; [by eapply flat_bitonic|by right]].
      left. exists i, k. repeat split; [lia..|].
      intros j Hj. rewrite Hlo, !Hx by lia. shape_cases.
    + assert (flat x' (a + s) s false) as Hf.
      { intros j Hj. rewrite Hhi, !Hx by lia. shape_cases. }
      split; [|split; [by eapply flat_bitonic|by right]].
      left. exists (i - s), (k - s). repeat split; [lia..|].
      intros j Hj. rewrite Hlo, !Hx by lia. shape_cases.
    + assert (flat x' a s true) as Hf.
      { intros j Hj. rewrite Hlo, !Hx by lia. shape_cases. }
      split; [by eapply flat_bitonic|]. split; [|by left].
      left. exists i, (k - s). repeat split; [lia..|].
      intros j Hj. rewrite Hhi, !Hx by lia. shape_cases.
    + assert (flat x' (a + s) s false) as Hf.
      { intros j Hj. rewrite Hhi, !Hx by lia. shape_cases. }
      split; [|split; [by eapply flat_bitonic|by right]].
      right. exists (k - s), i. repeat split; [lia..|].
      intros j Hj. rewrite Hlo, !Hx by lia. shape_cases.
  - destruct (decide (k ≤ s)); [|destruct (decide (s ≤ i));
      [|destruct (decide (i + s ≤ k))]].
    + assert (flat x' a s true) as Hf.
      { intros j Hj. rewrite Hlo, !Hx by lia. shape_cases. }
      split; [by eapply flat_bitonic|]. split; [|by left].
      right. exists i, k. repeat split; [lia..|].
      intros j Hj. rewrite Hhi, !Hx by lia. shape_cases.
    + assert (flat x' a s true) as Hf.
      { intros j Hj. rewrite Hlo, !Hx by lia. shape_cases. }
      split; [by eapply flat_bitonic|]. split; [|by left].
      right. exists (i - s), (k - s). repeat split; [lia..|].
      intros j Hj. rewrite Hhi, !Hx by lia. shape_cases.
    + assert (flat x' (a + s) s false) as Hf.
      { intros j Hj. rewrite Hhi, !Hx by lia. shape_cases. }
      split; [|split; [by eapply flat_bitonic|by right]].
      right. exists i, (k - s). repeat split; [lia..|].
      intros j Hj. rewrite Hlo, !Hx by lia. shape_cases.
    + assert (flat x' a s true) as Hf.
      { intros j Hj. rewrite Hlo, !Hx by lia. shape_cases. }
      split; [by eapply flat_bitonic|]. split; [|by left].
      left. exists (k - s), i. repeat split; [lia..|].
      intros j Hj. rewrite Hhi, !Hx by lia. shape_cases.
Qed.

(** ** Bits of the lane numbers *)

Lemma land_pow2_zero g k :
  Nat.land g (2 ^ k) = 0 ↔ Nat.testbit g k = false.
Proof.
  split.
  - intros Hz.
    assert (Nat.testbit (Nat.land g (2 ^ k)) k = false) as Hb
      by (rewrite Hz; apply Nat.bits_0).
    rewrite Nat.land_spec, Nat.pow2_bits_true, andb_true_r in Hb. done.
  - intros Hb. apply Nat.bits_inj. intros m.
    rewrite Nat.land_spec, Nat.bits_0.
    destruct (decide (k = m)) as [<-|Hne].
    + by rewrite Hb.
    + rewrite Nat.pow2_bits_false by done. apply andb_false_r.
Qed.

Lemma lxor_pow2_clear g k :
  Nat.testbit g k = false → Nat.lxor g (2 ^ k) = g + 2 ^ k.
Proof.
  intros Hb. symmetry. apply Nat.add_nocarry_lxor.
  by apply land_pow2_zero.
Qed.

Lemma lxor_pow2_set g k :
  Nat.testbit g k = true → Nat.lxor g (2 ^ k) + 2 ^ k = g.
Proof.
  intros Hb.
  assert (Nat.testbit (Nat.lxor g (2 ^ k)) k = false) as Hc.
  { rewrite Nat.lxor_spec, Hb, Nat.pow2_bits_true. done. }
  rewrite <- (lxor_pow2_clear _ _ Hc).
  rewrite Nat.lxor_assoc, Nat.lxor_nilpotent, Nat.lxor_0_r. done.
Qed.

(** The bit [k] of a position tells the half of its block of [2 * 2^k]
    positions. *)
Lemma testbit_block q j k :
  j < 2 * 2 ^ k →
  Nat.testbit (q * (2 * 2 ^ k) + j) k = bool_decide (2 ^ k ≤ j).
Proof.
  intros Hj. pose proof (Nat.pow_nonzero 2 k ltac:(lia)) as Hs.
  case_bool_decide as Hhalf.
  - apply Nat.testbit_true.
    replace (q * (2 * 2 ^ k) + j)
      with ((j - 2 ^ k) + (2 * q + 1) * 2 ^ k) by lia.
    rewrite Nat.div_add by done. rewrite Nat.div_small by lia.
    replace (0 + (2 * q + 1)) with (1 + q * 2) by lia.
    by rewrite Nat.Div0.mod_add.
  - apply Nat.testbit_false.
    replace (q * (2 * 2 ^ k) + j) with (j + (2 * q) * 2 ^ k) by lia.
    rewrite Nat.div_add by done. rewrite Nat.div_small by lia.
    replace (0 + 2 * q) with (0 + q * 2) by lia.
    by rewrite Nat.Div0.mod_add.
Qed.

(** The partner of a position at the distance [2^k], and the direction of
    its block of [2^c] positions. *)
Lemma lxor_block q j k :
  j < 2 * 2 ^ k →
  Nat.lxor (q * (2 * 2 ^ k) + j) (2 ^ k)
  = if decide (j < 2 ^ k) then q * (2 * 2 ^ k) + j + 2 ^ k
    else q * (2 * 2 ^ k) + j - 2 ^ k.
Proof.
  intros Hj. case_decide as Hlow.
  - apply lxor_pow2_clear. rewrite testbit_block by done.
    apply bool_decide_eq_false_2. lia.
  - assert (Nat.testbit (q * (2 * 2 ^ k) + j) k = true) as Hb.
    { rewrite testbit_block by done. apply bool_decide_eq_true_2. lia. }
    pose proof (lxor_pow2_set _ _ Hb) as Hx. clear Hb. revert Hx.
    generalize (Nat.lxor (q * (2 * 2 ^ k) + j) (2 ^ k)).
    intros t Hx. lia.
Qed.

Lemma land_block b j c :
  j < 2 ^ c →
  Nat.land (b * 2 ^ c + j) (2 ^ c) = 0 ↔ Nat.even b = true.
Proof.
  intros Hj. rewrite land_pow2_zero.
  pose proof (Nat.pow_nonzero 2 c ltac:(lia)) as Hs.
  replace (b * 2 ^ c + j) with (j + b * 2 ^ c) by lia.
  rewrite Nat.testbit_eqb, Nat.div_add, Nat.div_small by done.
  rewrite Nat.add_0_l, <- Nat.bit0_eqb, Nat.bit0_odd, <- Nat.negb_even.
  destruct (Nat.even b); simpl; split; done.
Qed.
(** ** The exchange step of the merge *)

Lemma merge_exchange_length coop stride l :
  length (merge_exchange coop stride l) = length l.
Proof. apply length_imap. Qed.

(** The two lanes of a pair decide alike. *)
Lemma merge_takes_sym coop g p dg dp :
  merge_ascending coop p = merge_ascending coop g →
  merge_takes coop p g dg dp = merge_takes coop g p dp dg.
Proof.
  intros Hasc. unfold merge_takes, fgt. rewrite Hasc.
  destruct (bool_decide (g < p)), (bool_decide (p < g)),
    (merge_ascending coop g), (flt dp dg), (flt dg dp); done.
Qed.

Lemma merge_ascending_partner coop stride g :
  Nat.land stride coop = 0 →
  merge_ascending coop (Nat.lxor g stride) = merge_ascending coop g.
Proof.
  intros Hs. unfold merge_ascending. f_equal.
  assert (Nat.land (Nat.lxor g stride) coop = Nat.land g coop) as ->; [|done].
  apply Nat.bits_inj. intros m.
  assert (Nat.testbit (Nat.land stride coop) m = false) as Hm
    by (rewrite Hs; apply Nat.bits_0).
  rewrite Nat.land_spec in Hm.
  rewrite !Nat.land_spec, Nat.lxor_spec.
  destruct (Nat.testbit g m), (Nat.testbit stride m), (Nat.testbit coop m);
    done.
Qed.

Lemma merge_exchange_lookup coop stride l g :
  merge_exchange coop stride l !! g = l !! exchange_source coop stride l g.
Proof.
  unfold merge_exchange, exchange_source. rewrite list_lookup_imap.
  destruct (l !! g) as [me|] eqn:Eg; simpl; [|by rewrite Eg].
  destruct (l !! Nat.lxor g stride) as [pa|] eqn:Ep.
  - rewrite (nth_lookup_Some _ _ _ _ Ep).
    destruct (merge_takes coop g (Nat.lxor g stride) pa.1 me.1);
      by rewrite ?Ep, ?Eg.
  - rewrite nth_overflow by (by apply lookup_ge_None).
    rewrite Eg. by destruct (merge_takes _ _ _ _ _).
Qed.

Lemma exchange_source_involutive coop stride l g :
  Nat.land stride coop = 0 →
  exchange_source coop stride l (exchange_source coop stride l g) = g.
Proof.
  intros Hs. unfold exchange_source at 2.
  destruct (l !! g) as [me|] eqn:Eg.
  2:{ unfold exchange_source. by rewrite Eg. }
  destruct (l !! Nat.lxor g stride) as [pa|] eqn:Ep.
  2:{ unfold exchange_source. by rewrite Eg, Ep. }
  destruct (merge_takes coop g (Nat.lxor g stride) pa.1 me.1) eqn:Et.
  - unfold exchange_source.
    rewrite Nat.lxor_assoc, Nat.lxor_nilpotent, Nat.lxor_0_r.
    rewrite Ep, Eg.
    rewrite merge_takes_sym by (by apply merge_ascending_partner).
    by rewrite Et.
  - unfold exchange_source. by rewrite Eg, Ep, Et.
Qed.

(** An exchange step moves the pairs, it neither loses nor doubles one. *)
Lemma merge_exchange_NoDup coop stride l :
  Nat.land stride coop = 0 →
  NoDup (l.*2) → NoDup ((merge_exchange coop stride l).*2).
Proof.
  intros Hs Hnd. apply NoDup_alt. intros i j x Hi Hj.
  rewrite list_lookup_fmap, merge_exchange_lookup, <- list_lookup_fmap in Hi.
  rewrite list_lookup_fmap, merge_exchange_lookup, <- list_lookup_fmap in Hj.
  pose proof (proj1 (NoDup_alt _) Hnd _ _ _ Hi Hj) as Heq.
  rewrite <- (exchange_source_involutive coop stride l i Hs).
  rewrite <- (exchange_source_involutive coop stride l j Hs).
  by rewrite Heq.
Qed.

Lemma merge_exchange_Forall (P : sort_cell → Prop) coop stride l :
  Forall P l → Forall P (merge_exchange coop stride l).
Proof.
  rewrite !list.Forall_lookup. intros Hl g x Hg.
  rewrite merge_exchange_lookup in Hg. by eapply Hl.
Qed.

(** On the bits of a threshold an exchange step is a conjunction on the
    side of the small values and a disjunction on the other side. *)
Lemma merge_exchange_above t coop stride l g :
  keys_nonneg l →
  g < length l → Nat.lxor g stride < length l → Nat.lxor g stride ≠ g →
  above t (merge_exchange coop stride l) g
  = if eqb (bool_decide (g < Nat.lxor g stride)) (merge_ascending coop g)
    then above t l g && above t l (Nat.lxor g stride)
    else above t l g || above t l (Nat.lxor g stride).
Proof.
  intros Hnn Hg Hp Hne.
  destruct (lookup_lt_is_Some_2 l g Hg) as [me Eg].
  destruct (lookup_lt_is_Some_2 l _ Hp) as [pa Ep].
  pose proof (proj1 (list.Forall_lookup _ _) Hnn _ _ Eg) as Hme.
  pose proof (proj1 (list.Forall_lookup _ _) Hnn _ _ Ep) as Hpa.
  simpl in Hme, Hpa.
  unfold above.
  rewrite (nth_lookup_Some l g _ me Eg), (nth_lookup_Some l _ _ pa Ep).
  assert (merge_exchange coop stride l !! g
          = Some (if merge_takes coop g (Nat.lxor g stride) pa.1 me.1
                  then pa else me)) as El.
  { rewrite merge_exchange_lookup. unfold exchange_source, sort_cell in *.
    rewrite Eg, Ep. by destruct (merge_takes _ _ _ _ _). }
  rewrite (nth_lookup_Some _ g _ _ El).
  unfold merge_takes, fgt.
  pose proof (flt_nonneg pa.1 me.1 Hpa Hme) as H1.
  pose proof (flt_nonneg me.1 pa.1 Hme Hpa) as H2.
  destruct (flt pa.1 me.1) eqn:E1; destruct (flt me.1 pa.1) eqn:E2;
    destruct (merge_ascending coop g);
    repeat case_bool_decide; simpl; try done; try lia.
  all: try (destruct H1 as [H1 _]; specialize (H1 eq_refl)).
  all: try (destruct H2 as [H2 _]; specialize (H2 eq_refl)).
  all: try lia.
Qed.
(** ** A merge on 0-1 sequences *)

(** A monotone sequence of bits is a run. *)
Lemma monotone_run_up x a L :
  (∀ j j', j ≤ j' → j' < L → x (a + j) = true → x (a + j') = true) →
  run_up x a L.
Proof.
  induction L as [|L IH]; intros Hmono.
  - exists 0. split; [lia|]. intros j Hj. lia.
  - destruct IH as (i & Hi & Hx).
    { intros j j' Hjj Hj'. apply Hmono; lia. }
    destruct (decide (i < L)) as [Hlt|Hge].
    + exists i. split; [lia|]. intros j Hj.
      destruct (decide (j < L)) as [HjL|HjL]; [by apply Hx|].
      assert (j = L) as -> by lia.
      rewrite (Hmono i L) by (try lia; rewrite Hx by lia; shape_cases).
      shape_cases.
    + assert (i = L) as -> by lia.
      destruct (x (a + L)) eqn:EL.
      * exists L. split; [lia|]. intros j Hj.
        destruct (decide (j < L)) as [HjL|HjL]; [by apply Hx|].
        assert (j = L) as -> by lia. rewrite EL. shape_cases.
      * exists (S L). split; [lia|]. intros j Hj.
        destruct (decide (j < L)) as [HjL|HjL].
        -- rewrite Hx by done. shape_cases.
        -- assert (j = L) as -> by lia. rewrite EL. shape_cases.
Qed.

Lemma monotone_run_down x a L :
  (∀ j j', j ≤ j' → j' < L → x (a + j') = true → x (a + j) = true) →
  run_down x a L.
Proof.
  induction L as [|L IH]; intros Hmono.
  - exists 0. split; [lia|]. intros j Hj. lia.
  - destruct IH as (i & Hi & Hx).
    { intros j j' Hjj Hj'. apply Hmono; lia. }
    destruct (x (a + L)) eqn:EL.
    + exists (S L). split; [lia|]. intros j Hj.
      rewrite (Hmono j L) by (done || lia). shape_cases.
    + exists i. split; [lia|]. intros j Hj.
      destruct (decide (j < L)) as [HjL|HjL]; [by apply Hx|].
      assert (j = L) as -> by lia. rewrite EL. shape_cases.
Qed.

(** Two runs, one up and one down, make a bitonic block. *)
Lemma merging_init x a s asc :
  0 < s → run_up x a s → run_down x (a + s) s →
  merging x a (2 * s) (2 * s) asc.
Proof.
  intros Hs (i1 & Hi1 & Hup) (i2 & Hi2 & Hdown).
  exists 0. split; [lia|]. split; [intros q Hq; lia|]. split.
  - left. exists i1, (s + i2). split; [lia|]. split; [lia|].
    intros j Hj. replace (a + 0 * (2 * s) + j) with (a + j) by lia.
    destruct (decide (j < s)) as [Hlo|Hhi].
    + rewrite Hup by done. shape_cases.
    + replace (a + j) with (a + s + (j - s)) by lia.
      rewrite Hdown by lia. shape_cases.
  - intros q Hq Hq'. destruct q as [|q]; [lia|]. simpl in Hq'. lia.
Qed.

(** A half-cleaner applied to every piece of a block that is being
    merged halves the pieces. *)
Lemma merging_step x x' a C s r asc :
  0 < s → C = r * (2 * s) →
  merging x a C (2 * s) asc →
  (∀ q j, q < r → j < s →
     x' (a + q * (2 * s) + j)
     = (if asc then andb else orb)
         (x (a + q * (2 * s) + j)) (x (a + q * (2 * s) + (s + j)))
     ∧ x' (a + q * (2 * s) + s + j)
     = (if asc then orb else andb)
         (x (a + q * (2 * s) + j)) (x (a + q * (2 * s) + (s + j)))) →
  merging x' a C s asc.
Proof.
  intros Hs HC (m & Hm & Hbefore & Hmid & Hafter) Hstep.
  assert (∀ q, q * (2 * s) < C ↔ q < r) as Hqr.
  { intros q. rewrite HC. split; intros Hq; [|nia].
    destruct (decide (q < r)); [done|]. nia. }
  assert (∀ q c, q < r → flat x (a + q * (2 * s)) (2 * s) c →
            flat x' (a + q * (2 * s)) s c
            ∧ flat x' (a + q * (2 * s) + s) s c) as Hflat.
  { intros q c Hq Hf. split; intros j Hj.
    - rewrite (proj1 (Hstep q j Hq Hj)), !Hf by lia.
      by destruct asc, c.
    - rewrite (proj2 (Hstep q j Hq Hj)), !Hf by lia.
      by destruct asc, c. }
  assert (m < r) as Hmr by (by apply Hqr).
  assert (bitonic01 x' (a + m * (2 * s)) s
          ∧ bitonic01 x' (a + m * (2 * s) + s) s
          ∧ (flat x' (a + m * (2 * s)) s (negb asc)
             ∨ flat x' (a + m * (2 * s) + s) s asc)) as (Hlo & Hhi & Hclean).
  { destruct asc.
    - apply (half_clean_asc x x' _ s Hmid); intros j Hj; by apply Hstep.
    - apply (half_clean_desc x x' _ s Hmid); intros j Hj; by apply Hstep. }
  assert (∀ q', a + q' * s
                = a + (q' / 2) * (2 * s) + (q' mod 2) * s) as Hpos.
  { intros q'. pose proof (Nat.div_mod_eq q' 2) as E.
    rewrite E at 1. nia. }
  assert (∀ q' c, q' / 2 < r → flat x (a + (q' / 2) * (2 * s)) (2 * s) c →
            flat x' (a + q' * s) s c) as Hpiece.
  { intros q' c Hq' Hf. destruct (Hflat _ c Hq' Hf) as [F0 F1].
    rewrite Hpos. pose proof (Nat.mod_upper_bound q' 2 ltac:(lia)) as Hb.
    destruct (q' mod 2) as [|[|h]]; [|by rewrite Nat.mul_1_l|lia].
    by rewrite Nat.mul_0_l, Nat.add_0_r. }
  destruct Hclean as [Hc|Hc].
  - exists (2 * m + 1). split; [nia|]. split; [|split].
    + intros q' Hq'. destruct (decide (q' = 2 * m)) as [->|Hne].
      * by replace (a + 2 * m * s) with (a + m * (2 * s)) by nia.
      * assert (q' / 2 < m) as Hlt
          by (apply Nat.Div0.div_lt_upper_bound; lia).
        apply Hpiece; [lia|]. by apply Hbefore.
    + by replace (a + (2 * m + 1) * s) with (a + m * (2 * s) + s) by nia.
    + intros q' Hq' Hq's.
      assert (m < q' / 2) as Hlt.
      { pose proof (Nat.div_mod_eq q' 2).
        pose proof (Nat.mod_upper_bound q' 2 ltac:(lia)). lia. }
      assert (q' / 2 < r) as Hr.
      { apply Nat.Div0.div_lt_upper_bound. rewrite HC in Hq's. nia. }
      apply Hpiece; [done|]. apply Hafter; [done|]. by apply Hqr.
  - exists (2 * m). split; [nia|]. split; [|split].
    + intros q' Hq'.
      assert (q' / 2 < m) as Hlt
        by (apply Nat.Div0.div_lt_upper_bound; lia).
      apply Hpiece; [lia|]. by apply Hbefore.
    + by replace (a + 2 * m * s) with (a + m * (2 * s)) by nia.
    + intros q' Hq' Hq's. destruct (decide (q' = 2 * m + 1)) as [->|Hne].
      * by replace (a + (2 * m + 1) * s) with (a + m * (2 * s) + s) by nia.
      * assert (m < q' / 2) as Hlt.
        { pose proof (Nat.div_mod_eq q' 2).
          pose proof (Nat.mod_upper_bound q' 2 ltac:(lia)). lia. }
        assert (q' / 2 < r) as Hr.
        { apply Nat.Div0.div_lt_upper_bound. rewrite HC in Hq's. nia. }
        apply Hpiece; [done|]. apply Hafter; [done|]. by apply Hqr.
Qed.

(** Once the pieces are sorted, the block is. *)
Lemma merging_final x x' a C S r asc :
  0 < S → C = r * S →
  merging x a C S asc →
  (∀ q, q < r →
     (∀ c, flat x (a + q * S) S c → flat x' (a + q * S) S c)
     ∧ run_sorted x' (a + q * S) S asc) →
  run_sorted x' a C asc.
Proof.
  intros HS HC (m & Hm & Hbefore & _ & Hafter) Hsort.
  assert (∀ q, q * S < C ↔ q < r) as Hqr.
  { intros q. rewrite HC. split; intros Hq; [|nia].
    destruct (decide (q < r)); [done|]. nia. }
  assert (m < r) as Hmr by (by apply Hqr).
  assert (∀ J, J < C → J / S < r ∧ J mod S < S
                       ∧ a + J = a + J / S * S + J mod S) as Hsplit.
  { intros J HJ. pose proof (Nat.div_mod_eq J S) as E.
    pose proof (Nat.mod_upper_bound J S ltac:(lia)) as Hb.
    split; [|split; [done|lia]].
    apply Nat.Div0.div_lt_upper_bound. rewrite HC in HJ. nia. }
  assert (∀ q, q < m → flat x' (a + q * S) S (negb asc)) as Hb'.
  { intros q Hq. apply Hsort; [lia|]. by apply Hbefore. }
  assert (∀ q, m < q → q < r → flat x' (a + q * S) S asc) as Ha'.
  { intros q Hq Hr. apply Hsort; [done|]. apply Hafter; [done|].
    by apply Hqr. }
  destruct (Hsort m Hmr) as [_ Hrun].
  destruct asc; simpl in *.
  - destruct Hrun as (i & Hi & Hx). exists (m * S + i). split; [nia|].
    intros J HJ. destruct (Hsplit J HJ) as (Hq & Hj & ->).
    pose proof (Nat.div_mod_eq J S) as E.
    destruct (decide (J / S < m)) as [Hlt|Hge];
      [|destruct (decide (J / S = m)) as [Heq|Hne]].
    + rewrite Hb' by done. case_bool_decide; [nia|done].
    + rewrite Heq in *. rewrite Hx by done.
      repeat case_bool_decide; try done; nia.
    + rewrite Ha' by (done || lia). case_bool_decide; [done|nia].
  - destruct Hrun as (i & Hi & Hx). exists (m * S + i). split; [nia|].
    intros J HJ. destruct (Hsplit J HJ) as (Hq & Hj & ->).
    pose proof (Nat.div_mod_eq J S) as E.
    destruct (decide (J / S < m)) as [Hlt|Hge];
      [|destruct (decide (J / S = m)) as [Heq|Hne]].
    + rewrite Hb' by done. case_bool_decide; [done|nia].
    + rewrite Heq in *. rewrite Hx by done.
      repeat case_bool_decide; try done; nia.
    + rewrite Ha' by (done || lia). case_bool_decide; [nia|done].
Qed.
(** ** The sort inside the warps *)

Lemma bind_seq_S {A : Type} (f : nat → list A) r :
  (w ← seq 0 (S r); f w) = (w ← seq 0 r; f w) ++ f r.
Proof.
  rewrite seq_S, bind_app. simpl. by rewrite app_nil_r.
Qed.

Lemma bind_seq_length {A : Type} (f : nat → list A) r c :
  (∀ w, w < r → length (f w) = c) → length (w ← seq 0 r; f w) = r * c.
Proof.
  induction r as [|r IH]; intros Hf; [done|].
  rewrite bind_seq_S, length_app, IH by (intros; apply Hf; lia).
  rewrite Hf by lia. lia.
Qed.

Lemma bind_seq_lookup {A : Type} (f : nat → list A) r c w j :
  (∀ w, w < r → length (f w) = c) → w < r → j < c →
  (w ← seq 0 r; f w) !! (w * c + j) = f w !! j.
Proof.
  induction r as [|r IH]; intros Hf Hw Hj; [lia|].
  rewrite bind_seq_S.
  pose proof (bind_seq_length f r c ltac:(intros; apply Hf; lia)) as Hlen.
  destruct (decide (w < r)) as [Hlt|Hge].
  - rewrite lookup_app_l by nia. apply IH; [intros; apply Hf; lia|done..].
  - assert (w = r) as -> by lia.
    rewrite lookup_app_r by lia. f_equal. lia.
Qed.

Lemma bind_seq_Permutation {A : Type} (f g : nat → list A) r :
  (∀ w, w < r → f w ≡ₚ g w) → (w ← seq 0 r; f w) ≡ₚ (w ← seq 0 r; g w).
Proof.
  induction r as [|r IH]; intros Hf; [done|].
  rewrite !bind_seq_S. rewrite IH by (intros; apply Hf; lia).
  by rewrite Hf by lia.
Qed.

Lemma warp_chunk_lookup (l : list sort_cell) w j :
  j < warp_size → warp_chunk l w !! j = l !! (w * warp_size + j).
Proof.
  intros Hj. unfold warp_chunk. rewrite lookup_take_lt by done.
  by rewrite lookup_drop.
Qed.

Lemma warp_chunk_length (l : list sort_cell) w :
  (w + 1) * warp_size ≤ length l → length (warp_chunk l w) = warp_size.
Proof.
  intros Hw. unfold warp_chunk. rewrite length_take, length_drop. lia.
Qed.

Lemma warp_chunks (l : list sort_cell) r :
  length l = r * warp_size → (w ← seq 0 r; warp_chunk l w) = l.
Proof.
  intros Hl.
  assert (∀ w, w < r → length (warp_chunk l w) = warp_size) as Hc.
  { intros w Hw. apply warp_chunk_length. nia. }
  apply list_eq. intros i.
  destruct (decide (i < r * warp_size)) as [Hi|Hi].
  - pose proof (Nat.div_mod_eq i warp_size) as E.
    pose proof (Nat.mod_upper_bound i warp_size ltac:(done)) as Hm.
    assert (i / warp_size < r) as Hw
      by (apply Nat.Div0.div_lt_upper_bound; lia).
    replace i with (i / warp_size * warp_size + i mod warp_size) at 1 2
      by lia.
    rewrite (bind_seq_lookup _ r warp_size) by done.
    by apply warp_chunk_lookup.
  - rewrite !(proj2 (lookup_ge_None _ _)); [done|lia|].
    rewrite (bind_seq_length _ r warp_size) by done. lia.
Qed.

Lemma warp_chunk_nonneg l w : keys_nonneg l → keys_nonneg (warp_chunk l w).
Proof. intros Hl. by apply Forall_take, Forall_drop. Qed.

Section SortWarps.

Variable warp_sort : bool → list sort_cell → list sort_cell.
Hypothesis warp_sort_ok : warp_sort_sorts warp_sort.

Lemma sort_warps_perm asc l r :
  length l = r * warp_size → sort_warps warp_sort asc l ≡ₚ l.
Proof.
  intros Hl. unfold sort_warps. rewrite Hl, Nat.div_mul by done.
  trans (w ← seq 0 r; warp_chunk l w); [|by rewrite (warp_chunks l r Hl)].
  apply bind_seq_Permutation. intros w Hw.
  apply warp_sort_ok, warp_chunk_length. nia.
Qed.

Lemma sort_warps_length asc l r :
  length l = r * warp_size →
  length (sort_warps warp_sort asc l) = r * warp_size.
Proof.
  intros Hl. by rewrite (Permutation_length (sort_warps_perm asc l r Hl)).
Qed.

Lemma sort_warps_lookup asc l r w j :
  length l = r * warp_size → w < r → j < warp_size →
  sort_warps warp_sort asc l !! (w * warp_size + j)
  = warp_sort (asc (w * warp_size)) (warp_chunk l w) !! j.
Proof.
  intros Hl Hw Hj. unfold sort_warps. rewrite Hl, Nat.div_mul by done.
  apply (bind_seq_lookup
           (λ w, warp_sort (asc (w * warp_size)) (warp_chunk l w))
           r warp_size); [|done..].
  intros w' Hw'.
  assert (length (warp_chunk l w') = warp_size) as Hc
    by (apply warp_chunk_length; nia).
  by rewrite (Permutation_length (proj1 (warp_sort_ok _ _ Hc))).
Qed.

(** The pair a sorted warp holds in a register was in one of its
    registers before. *)
Lemma sort_warps_from asc l r w j x :
  length l = r * warp_size → w < r → j < warp_size →
  sort_warps warp_sort asc l !! (w * warp_size + j) = Some x →
  ∃ j', j' < warp_size ∧ l !! (w * warp_size + j') = Some x.
Proof.
  intros Hl Hw Hj Hx. rewrite (sort_warps_lookup asc l r) in Hx by done.
  assert (length (warp_chunk l w) = warp_size) as Hc
    by (apply warp_chunk_length; nia).
  apply list_elem_of_lookup_2 in Hx.
  rewrite (proj1 (warp_sort_ok _ _ Hc)) in Hx.
  apply list_elem_of_lookup in Hx as [j' Hj'].
  assert (j' < warp_size) as Hlt
    by (rewrite <- Hc; by eapply lookup_lt_Some).
  exists j'. split; [done|]. by rewrite <- warp_chunk_lookup.
Qed.

Lemma above_lookup t (l : list sort_cell) g x :
  l !! g = Some x → above t l g = bool_decide (t < x.1)%Z.
Proof. intros Hg. unfold above. by rewrite (nth_lookup_Some l g _ x Hg). Qed.

(** A warp whose bits are all alike keeps them. *)
Lemma sort_warps_flat t asc l r w c :
  length l = r * warp_size → w < r →
  flat (above t l) (w * warp_size) warp_size c →
  flat (above t (sort_warps warp_sort asc l)) (w * warp_size) warp_size c.
Proof.
  intros Hl Hw Hf j Hj.
  destruct (lookup_lt_is_Some_2 (sort_warps warp_sort asc l)
              (w * warp_size + j)) as [x Hx].
  { rewrite (sort_warps_length asc l r) by done. nia. }
  rewrite (above_lookup _ _ _ _ Hx).
  destruct (sort_warps_from asc l r w j x Hl Hw Hj Hx) as (j' & Hj' & Hx').
  rewrite <- (above_lookup t _ _ _ Hx'). by apply Hf.
Qed.

(** A sorted warp is a run of bits in its direction. *)
Lemma sort_warps_run t asc l r w :
  length l = r * warp_size → keys_nonneg l → w < r →
  run_sorted (above t (sort_warps warp_sort asc l)) (w * warp_size)
             warp_size (asc (w * warp_size)).
Proof.
  intros Hl Hnn Hw.
  assert (length (warp_chunk l w) = warp_size) as Hc
    by (apply warp_chunk_length; nia).
  destruct (warp_sort_ok (asc (w * warp_size)) _ Hc) as [Hperm Hord].
  specialize (Hord (warp_chunk_nonneg l w Hnn)).
  assert (∀ j j', j ≤ j' → j' < warp_size →
            ∃ x y, sort_warps warp_sort asc l !! (w * warp_size + j) = Some x
                   ∧ sort_warps warp_sort asc l !! (w * warp_size + j')
                     = Some y
                   ∧ f32_nonneg x.1 ∧ f32_nonneg y.1
                   ∧ fle (if asc (w * warp_size) then x.1 else y.1)
                         (if asc (w * warp_size) then y.1 else x.1) = true)
    as Hpair.
  { intros j j' Hjj Hj'.
    assert (∀ i, i < warp_size →
              ∃ x, warp_sort (asc (w * warp_size)) (warp_chunk l w) !! i
                   = Some x ∧ f32_nonneg x.1) as Hcell.
    { intros i Hi.
      destruct (lookup_lt_is_Some_2
                  (warp_sort (asc (w * warp_size)) (warp_chunk l w)) i)
        as [x Hx].
      { by rewrite (Permutation_length Hperm), Hc. }
      exists x. split; [done|].
      apply list_elem_of_lookup_2 in Hx. rewrite Hperm in Hx.
      pose proof (warp_chunk_nonneg l w Hnn) as Hcn.
      unfold keys_nonneg in Hcn. rewrite list.Forall_forall in Hcn.
      by apply Hcn in Hx. }
    destruct (Hcell j ltac:(lia)) as (x & Hx & Hxn).
    destruct (Hcell j' Hj') as (y & Hy & Hyn).
    exists x, y. rewrite !(sort_warps_lookup asc l r) by (done || lia).
    do 4 (split; [done|]). exact (Hord j j' x y Hjj Hx Hy). }
  unfold run_sorted. revert Hpair.
  destruct (asc (w * warp_size)); intros Hpair.
  - apply monotone_run_up. intros j j' Hjj Hj'.
    destruct (Hpair j j' Hjj Hj') as (x & y & Hx & Hy & Hxn & Hyn & Hle).
    rewrite (above_lookup _ _ _ _ Hx), (above_lookup _ _ _ _ Hy).
    apply fle_nonneg in Hle; [|done..].
    rewrite !bool_decide_eq_true. intros Ht. by eapply Z.lt_le_trans.
  - apply monotone_run_down. intros j j' Hjj Hj'.
    destruct (Hpair j j' Hjj Hj') as (x & y & Hx & Hy & Hxn & Hyn & Hle).
    rewrite (above_lookup _ _ _ _ Hx), (above_lookup _ _ _ _ Hy).
    apply fle_nonneg in Hle; [|done..].
    rewrite !bool_decide_eq_true. intros Ht. by eapply Z.lt_le_trans.
Qed.

End SortWarps.
(** ** The steps of a merge stage on the registers *)

Lemma pow2_pos a : 0 < 2 ^ a.
Proof. pose proof (Nat.pow_nonzero 2 a). lia. Qed.

Lemma land_pow2_pow2 k c : k ≠ c → Nat.land (2 ^ k) (2 ^ c) = 0.
Proof. intros Hkc. apply land_pow2_zero. by apply Nat.pow2_bits_false. Qed.

Lemma merge_ascending_block b j c :
  j < 2 ^ c → merge_ascending (2 ^ c) (b * 2 ^ c + j) = Nat.even b.
Proof.
  intros Hj. unfold merge_ascending. pose proof (land_block b j c Hj) as Hb.
  destruct (Nat.even b); case_bool_decide as Hd; try done.
  - by destruct Hd; apply Hb.
  - by apply Hb in Hd.
Qed.

(** The exchange at the distance [2^k] inside blocks of [2^c] registers:
    the lower half of every piece of [2 * 2^k] registers and its upper
    half. *)
Lemma merge_exchange_halves t c k l b q j :
  k < c → keys_nonneg l →
  (b + 1) * 2 ^ c ≤ length l → q * (2 * 2 ^ k) < 2 ^ c → j < 2 ^ k →
  above t (merge_exchange (2 ^ c) (2 ^ k) l)
        (b * 2 ^ c + q * (2 * 2 ^ k) + j)
  = (if Nat.even b then andb else orb)
      (above t l (b * 2 ^ c + q * (2 * 2 ^ k) + j))
      (above t l (b * 2 ^ c + q * (2 * 2 ^ k) + (2 ^ k + j)))
  ∧ above t (merge_exchange (2 ^ c) (2 ^ k) l)
          (b * 2 ^ c + q * (2 * 2 ^ k) + 2 ^ k + j)
  = (if Nat.even b then orb else andb)
      (above t l (b * 2 ^ c + q * (2 * 2 ^ k) + j))
      (above t l (b * 2 ^ c + q * (2 * 2 ^ k) + (2 ^ k + j))).
Proof.
  intros Hkc Hnn Hlen Hq Hj.
  pose proof (pow2_pos k) as Hs.
  assert (2 ^ c = 2 ^ (c - k - 1) * (2 * 2 ^ k)) as HC.
  { rewrite <- Nat.pow_succ_r', <- Nat.pow_add_r. f_equal. lia. }
  assert (q < 2 ^ (c - k - 1)) as HqR.
  { destruct (decide (q < 2 ^ (c - k - 1))); [done|]. nia. }
  assert (q * (2 * 2 ^ k) + 2 ^ k + j < 2 ^ c) as Hin by nia.
  assert (b * 2 ^ c + q * (2 * 2 ^ k) + j
          = (b * 2 ^ (c - k - 1) + q) * (2 * 2 ^ k) + j) as Elo by nia.
  assert (b * 2 ^ c + q * (2 * 2 ^ k) + 2 ^ k + j
          = (b * 2 ^ (c - k - 1) + q) * (2 * 2 ^ k) + (2 ^ k + j))
    as Ehi by nia.
  assert (Nat.lxor (b * 2 ^ c + q * (2 * 2 ^ k) + j) (2 ^ k)
          = b * 2 ^ c + q * (2 * 2 ^ k) + (2 ^ k + j)) as Xlo.
  { rewrite Elo, lxor_block by lia. rewrite decide_True by done. nia. }
  assert (Nat.lxor (b * 2 ^ c + q * (2 * 2 ^ k) + 2 ^ k + j) (2 ^ k)
          = b * 2 ^ c + q * (2 * 2 ^ k) + j) as Xhi.
  { rewrite Ehi, lxor_block by lia. rewrite decide_False by lia. nia. }
  assert (merge_ascending (2 ^ c) (b * 2 ^ c + q * (2 * 2 ^ k) + j)
          = Nat.even b) as Alo.
  { rewrite <- Nat.add_assoc. apply merge_ascending_block. nia. }
  assert (merge_ascending (2 ^ c) (b * 2 ^ c + q * (2 * 2 ^ k) + 2 ^ k + j)
          = Nat.even b) as Ahi.
  { rewrite <- !Nat.add_assoc. apply merge_ascending_block. nia. }
  split.
  - rewrite merge_exchange_above by (rewrite ?Xlo; (done || lia)).
    rewrite Xlo, Alo. rewrite bool_decide_eq_true_2 by lia.
    by destruct (Nat.even b).
  - rewrite merge_exchange_above by (rewrite ?Xhi; (done || lia)).
    rewrite Xhi, Ahi. rewrite bool_decide_eq_false_2 by lia.
    replace (b * 2 ^ c + q * (2 * 2 ^ k) + 2 ^ k + j)
      with (b * 2 ^ c + q * (2 * 2 ^ k) + (2 ^ k + j)) by lia.
    destruct (Nat.even b); simpl; [apply orb_comm|apply andb_comm].
Qed.
(** ** The merge stages *)

Lemma halving_16 fuel : halving fuel (2 ^ 4) = [].
Proof.
  destruct fuel; [done|]. cbn [halving]. change (2 ^ 4) with 16.
  by rewrite decide_False by (unfold warp_size; lia).
Qed.

Lemma halving_pow2 fuel k :
  4 ≤ k → halving (S fuel) (2 ^ S k) = 2 ^ S k :: halving fuel (2 ^ k).
Proof.
  intros Hk. cbn [halving].
  assert (2 ^ 4 ≤ 2 ^ k) as Hp by (apply Nat.pow_le_mono_r; lia).
  change (2 ^ 4) with 16 in Hp.
  rewrite Nat.pow_succ_r'.
  rewrite decide_True by (unfold warp_size; lia).
  do 2 f_equal. rewrite Nat.mul_comm. by apply Nat.div_mul.
Qed.

Lemma row_pairs_perm H P l l' : l' ≡ₚ l → row_pairs H P l → row_pairs H P l'.
Proof.
  intros Hp (Hlen & Hnd & HP & Hnn). unfold row_pairs, keys_nonneg in *.
  by rewrite Hp.
Qed.

Lemma first_run_ascending_warp b :
  first_run_ascending (b * warp_size) = Nat.even b.
Proof.
  unfold first_run_ascending, block_size, warp_size.
  replace (b * 32) with (b mod 32 * 32 + b / 32 * 1024)
    by (pose proof (Nat.div_mod_eq b 32); lia).
  rewrite Nat.Div0.mod_add.
  rewrite Nat.mod_small
    by (pose proof (Nat.mod_upper_bound b 32 ltac:(lia)); lia).
  rewrite Nat.div_mul by done.
  rewrite (Nat.div_mod_eq b 32) at 2.
  rewrite Nat.even_add, Nat.even_mul.
  change (Nat.even 32) with true. by destruct (Nat.even (b `mod` 32)).
Qed.

Section Stages.

Variables (H e : nat).
Hypothesis H_pow2 : H = 2 ^ e.
Variable P : sort_cell → Prop.
Variable warp_sort : bool → list sort_cell → list sort_cell.
Hypothesis warp_sort_ok : warp_sort_sorts warp_sort.

Lemma block_inside c b : c ≤ e → b * 2 ^ c < H → (b + 1) * 2 ^ c ≤ H.
Proof.
  intros Hc Hb. rewrite H_pow2 in *.
  assert (2 ^ e = 2 ^ (e - c) * 2 ^ c) as E
    by (rewrite <- Nat.pow_add_r; f_equal; lia).
  rewrite E in *.
  assert (b < 2 ^ (e - c)) by (destruct (decide (b < 2 ^ (e - c))); [done|nia]).
  nia.
Qed.

Lemma merge_exchange_row_pairs c k l :
  k < c → row_pairs H P l → row_pairs H P (merge_exchange (2 ^ c) (2 ^ k) l).
Proof.
  intros Hkc (Hlen & Hnd & HP & Hnn). split; [|split; [|split]].
  - by rewrite merge_exchange_length.
  - apply merge_exchange_NoDup; [|done]. apply land_pow2_pow2. lia.
  - by apply merge_exchange_Forall.
  - by apply merge_exchange_Forall.
Qed.

(** The exchanges of a stage, from the distance [2^k] down to a warp. *)
Lemma exchanges_merging c d : ∀ fuel l,
  4 + d < c → c ≤ e → d ≤ fuel →
  row_pairs H P l → merging_blocks H (2 ^ c) (2 * 2 ^ (4 + d)) l →
  let l' := foldl (λ l stride, merge_exchange (2 ^ c) stride l) l
                  (halving fuel (2 ^ (4 + d))) in
  row_pairs H P l' ∧ merging_blocks H (2 ^ c) warp_size l'.
Proof.
  induction d as [|d IH]; intros fuel l Hdc Hce Hfuel Hrow Hm; cbv zeta.
  - rewrite Nat.add_0_r, halving_16 in *. split; [done|].
    intros t b Hb. exact (Hm t b Hb).
  - destruct fuel as [|fuel]; [lia|].
    replace (4 + S d) with (S (4 + d)) in * by lia.
    rewrite halving_pow2 by lia. cbn [foldl].
    apply IH; [lia|done|lia|by apply merge_exchange_row_pairs|].
    intros t b Hb. specialize (Hm t b Hb).
    destruct Hrow as (Hlen & _ & _ & Hnn).
    pose proof (block_inside c b Hce Hb) as Hin.
    rewrite <- Nat.pow_succ_r'.
    apply (merging_step (above t l) _ (b * 2 ^ c) (2 ^ c) (2 ^ S (4 + d))
             (2 ^ (c - S (4 + d) - 1)) _ (pow2_pos _)); [|done|].
    + rewrite <- Nat.pow_succ_r', <- Nat.pow_add_r. f_equal. lia.
    + intros q j Hq Hj.
      apply merge_exchange_halves; [lia|done|lia| |done].
      assert (2 ^ c = 2 ^ (c - S (4 + d) - 1) * (2 * 2 ^ S (4 + d))) as E
        by (rewrite <- Nat.pow_succ_r', <- Nat.pow_add_r; f_equal; lia).
      rewrite E. nia.
Qed.

(** The sort inside the warps ends the stage. *)
Lemma sort_warps_blocks c l :
  5 ≤ c → c ≤ e →
  row_pairs H P l → merging_blocks H (2 ^ c) warp_size l →
  row_pairs H P (sort_warps warp_sort (merge_ascending (2 ^ c)) l)
  ∧ sorted_blocks H (2 ^ c)
      (sort_warps warp_sort (merge_ascending (2 ^ c)) l).
Proof.
  intros Hc Hce Hrow Hm.
  assert (H = 2 ^ (e - 5) * warp_size) as HH.
  { rewrite H_pow2. change warp_size with (2 ^ 5).
    rewrite <- Nat.pow_add_r. f_equal. lia. }
  assert (2 ^ c = 2 ^ (c - 5) * warp_size) as HC.
  { change warp_size with (2 ^ 5).
    rewrite <- Nat.pow_add_r. f_equal. lia. }
  assert (2 ^ (e - 5) = 2 ^ (e - c) * 2 ^ (c - 5)) as HR.
  { rewrite <- Nat.pow_add_r. f_equal. lia. }
  pose proof Hrow as (Hlen & _ & _ & Hnn). rewrite HH in Hlen.
  split.
  { eapply row_pairs_perm; [|done]. by eapply sort_warps_perm. }
  intros t b Hb. specialize (Hm t b Hb).
  pose proof (block_inside c b Hce Hb) as Hin.
  apply (merging_final (above t l) _ (b * 2 ^ c) (2 ^ c) warp_size
           (2 ^ (c - 5)) _ ltac:(unfold warp_size; lia) HC Hm).
  intros q Hq.
  assert (b * 2 ^ c + q * warp_size = (b * 2 ^ (c - 5) + q) * warp_size)
    as Epos by (rewrite HC; nia).
  assert (b * 2 ^ (c - 5) + q < 2 ^ (e - 5)) as Hw.
  { rewrite HH, HC in Hin. unfold warp_size in *. nia. }
  rewrite Epos. split.
  - intros cc.
    exact (sort_warps_flat warp_sort warp_sort_ok t _ l (2 ^ (e - 5)) _ cc
             Hlen Hw).
  - replace (Nat.even b)
      with (merge_ascending (2 ^ c) ((b * 2 ^ (c - 5) + q) * warp_size)).
    + exact (sort_warps_run warp_sort warp_sort_ok t _ l (2 ^ (e - 5)) _
               Hlen Hnn Hw).
    + rewrite <- Epos. apply merge_ascending_block.
      rewrite HC. unfold warp_size in *. nia.
Qed.

(** One turn of the loop over [coop]. *)
Lemma merge_stage_blocks c l :
  5 ≤ c → c < e →
  row_pairs H P l → sorted_blocks H (2 ^ c) l →
  row_pairs H P (merge_stage warp_sort l (2 ^ S c))
  ∧ sorted_blocks H (2 ^ S c) (merge_stage warp_sort l (2 ^ S c)).
Proof.
  intros Hc Hce Hrow Hs. unfold merge_stage.
  assert (2 ^ S c / 2 = 2 ^ c) as ->.
  { rewrite Nat.pow_succ_r', Nat.mul_comm. by apply Nat.div_mul. }
  assert (merging_blocks H (2 ^ S c) (2 * 2 ^ c) l) as Hm.
  { intros t b Hb. rewrite Nat.pow_succ_r' in *.
    pose proof (block_inside (S c) b ltac:(lia)) as Hin.
    rewrite Nat.pow_succ_r' in Hin. specialize (Hin Hb).
    apply merging_init; [apply pow2_pos|..].
    - pose proof (Hs t (2 * b) ltac:(lia)) as Hup.
      rewrite Nat.even_mul in Hup. change (Nat.even 2) with true in Hup.
      cbn [orb run_sorted] in Hup.
      by replace (2 * b * 2 ^ c) with (b * (2 * 2 ^ c)) in Hup by lia.
    - pose proof (Hs t (2 * b + 1) ltac:(lia)) as Hdown.
      rewrite Nat.even_add, Nat.even_mul in Hdown.
      change (Nat.even 2) with true in Hdown.
      change (Nat.even 1) with false in Hdown.
      cbn [orb eqb run_sorted] in Hdown.
      by replace ((2 * b + 1) * 2 ^ c) with (b * (2 * 2 ^ c) + 2 ^ c)
        in Hdown by lia. }
  assert (c = 4 + (c - 4)) as Ec by lia.
  pose proof (exchanges_merging (S c) (c - 4) (2 ^ S c) l) as Hex.
  rewrite <- Ec in Hex.
  destruct Hex as [Hrow' Hm']; [lia|lia| |done|done|].
  { pose proof (Nat.pow_gt_lin_r 2 (S c) ltac:(lia)). lia. }
  apply sort_warps_blocks; [lia|lia|done..].
Qed.

(** The loop over [coop]. *)
Lemma merge_stages_blocks d : ∀ c fuel l,
  5 ≤ c → c + d = e → d ≤ fuel →
  row_pairs H P l → sorted_blocks H (2 ^ c) l →
  let l' := foldl (merge_stage warp_sort) l (doubling fuel (2 ^ S c) H) in
  row_pairs H P l' ∧ sorted_blocks H (2 ^ e) l'.
Proof.
  induction d as [|d IH]; intros c fuel l Hc Hcd Hfuel Hrow Hs; cbv zeta.
  - assert (c = e) as -> by lia.
    assert (doubling fuel (2 ^ S e) H = []) as ->; [|done].
    destruct fuel; [done|]. cbn [doubling].
    rewrite decide_False; [done|].
    rewrite H_pow2, Nat.pow_succ_r'. pose proof (pow2_pos e). lia.
  - destruct fuel as [|fuel]; [lia|]. cbn [doubling].
    rewrite decide_True.
    2:{ rewrite H_pow2. apply Nat.pow_le_mono_r; lia. }
    cbn [foldl]. rewrite <- Nat.pow_succ_r'.
    destruct (merge_stage_blocks c l) as [Hrow' Hs']; [lia|lia|done..|].
    apply IH; [lia|lia|lia|done..].
Qed.

(** The runs the warps start from. *)
Lemma first_runs_blocks l :
  5 ≤ e → row_pairs H P l →
  row_pairs H P (sort_warps warp_sort first_run_ascending l)
  ∧ sorted_blocks H (2 ^ 5) (sort_warps warp_sort first_run_ascending l).
Proof.
  intros He Hrow.
  assert (H = 2 ^ (e - 5) * warp_size) as HH.
  { rewrite H_pow2. change warp_size with (2 ^ 5).
    rewrite <- Nat.pow_add_r. f_equal. lia. }
  pose proof Hrow as (Hlen & _ & _ & Hnn). rewrite HH in Hlen.
  split.
  { eapply row_pairs_perm; [|done]. by eapply sort_warps_perm. }
  intros t b Hb. change (2 ^ 5) with warp_size in *.
  rewrite <- first_run_ascending_warp.
  apply (sort_warps_run warp_sort warp_sort_ok t first_run_ascending l
           (2 ^ (e - 5)) b Hlen Hnn).
  rewrite HH in Hb. unfold warp_size in *. nia.
Qed.

(** The registers at the end of the kernel. *)
Lemma sort_row_blocks l :
  5 ≤ e → row_pairs H P l →
  let l' := foldl (merge_stage warp_sort)
                  (sort_warps warp_sort first_run_ascending l)
                  (doubling H (2 * warp_size) H) in
  row_pairs H P l' ∧ sorted_blocks H H l'.
Proof.
  intros He Hrow. cbv zeta.
  destruct (first_runs_blocks l He Hrow) as [Hrow0 Hs0].
  change (2 * warp_size) with (2 ^ S 5).
  assert (e - 5 ≤ H) as Hfuel.
  { rewrite H_pow2. pose proof (Nat.pow_gt_lin_r 2 e ltac:(lia)). lia. }
  destruct (merge_stages_blocks (e - 5) 5 H _ ltac:(lia) ltac:(lia)
              Hfuel Hrow0 Hs0) as [A B].
  split; [done|]. by rewrite <- H_pow2 in B.
Qed.

End Stages.

(** A row whose bits are a run upwards for every threshold is in
    non-decreasing order. *)
Lemma sorted_blocks_ordered H (l : list sort_cell) j j' x y :
  0 < H → sorted_blocks H H l →
  j ≤ j' → j' < H → l !! j = Some x → l !! j' = Some y →
  (x.1 ≤ y.1)%Z.
Proof.
  intros HH Hs Hjj Hj' Hx Hy.
  destruct (Hs y.1 0 ltac:(lia)) as (i & Hi & Hbits).
  pose proof (Hbits j ltac:(lia)) as Bj.
  pose proof (Hbits j' Hj') as Bj'.
  simpl in Bj, Bj'.
  rewrite (above_lookup _ _ _ _ Hx) in Bj.
  rewrite (above_lookup _ _ _ _ Hy) in Bj'.
  destruct (decide (x.1 ≤ y.1)%Z) as [|Hgt]; [done|].
  rewrite bool_decide_eq_true_2 in Bj by (apply Z.nle_gt; done).
  rewrite bool_decide_eq_false_2 in Bj' by apply Z.lt_irrefl.
  symmetry in Bj. apply bool_decide_eq_true_1 in Bj.
  symmetry in Bj'. apply bool_decide_eq_false_1 in Bj'. lia.
Qed.
(** ** The rows fused_transform_sort_D writes *)

Section SortRanked.

Variables (H e : nat).
Variable warp_sort : bool → list sort_cell → list sort_cell.
Hypothesis H_pow2 : H = 2 ^ e.
Hypothesis e_warp : 5 ≤ e.
Hypothesis warp_sort_ok : warp_sort_sorts warp_sort.

Lemma H_warps : H = 2 ^ (e - 5) * warp_size.
Proof.
  rewrite H_pow2. change warp_size with (2 ^ 5).
  rewrite <- Nat.pow_add_r. f_equal. lia.
Qed.

Lemma merge_stage_length l coop r :
  length l = r * warp_size →
  length (merge_stage warp_sort l coop) = r * warp_size.
Proof.
  intros Hl. unfold merge_stage. apply (sort_warps_length _ warp_sort_ok).
  apply (foldl_invariant (λ l : list sort_cell, length l = r * warp_size));
    [|done].
  intros a s _ Ha. by rewrite merge_exchange_length.
Qed.

Lemma sort_load_length D hub_id : length (sort_load H D hub_id) = H.
Proof. unfold sort_load. by rewrite length_fmap, length_seq. Qed.

Lemma fused_transform_sort_D_row_length D hub_id :
  length (fused_transform_sort_D_row H warp_sort D hub_id) = H.
Proof.
  unfold fused_transform_sort_D_row. etrans; [|symmetry; apply H_warps].
  apply (foldl_invariant
           (λ l : list sort_cell, length l = 2 ^ (e - 5) * warp_size)).
  - intros a coop _ Ha. by apply merge_stage_length.
  - apply (sort_warps_length _ warp_sort_ok).
    rewrite sort_load_length. apply H_warps.
Qed.

Lemma sort_load_row_pairs D hub_id :
  (∀ j, j < H → f32_nonneg (rdf D (H * hub_id + j))) →
  row_pairs H (cell_of_row H D hub_id) (sort_load H D hub_id).
Proof.
  intros Hnn. split; [apply sort_load_length|]. split; [|split].
  - unfold sort_load. rewrite <- list_fmap_compose.
    rewrite (list_fmap_ext _ id (seq 0 H)) by done.
    rewrite list_fmap_id. apply NoDup_seq.
  - unfold sort_load. apply Forall_fmap, list.Forall_forall.
    intros g Hg. apply elem_of_seq in Hg. split; simpl; [lia|done].
  - unfold sort_load, keys_nonneg. apply Forall_fmap, list.Forall_forall.
    intros g Hg. apply elem_of_seq in Hg. simpl. apply Hnn. lia.
Qed.

(** The cells of the row [hub_id] of the two matrices are the registers of
    the block [hub_id]. *)
Lemma fused_transform_sort_D_cells D hub_id j :
  hub_id < H → j < H →
  ∃ c, fused_transform_sort_D_row H warp_sort D hub_id !! j = Some c
       ∧ rdn (fused_transform_sort_D H warp_sort D).1 (hub_id * H + j) = c.2
       ∧ rdf (fused_transform_sort_D H warp_sort D).2 (hub_id * H + j) = c.1.
Proof.
  intros Hi Hj.
  destruct (lookup_lt_is_Some_2
              (fused_transform_sort_D_row H warp_sort D hub_id) j)
    as [c Hc]; [by rewrite fused_transform_sort_D_row_length|].
  exists c. split; [done|]. unfold fused_transform_sort_D, rdn, rdf.
  cbn [fst snd]. split.
  - apply nth_lookup_Some.
    rewrite (bind_seq_lookup
               (λ i, (fused_transform_sort_D_row H warp_sort D i).*2) H H)
      by (try done; intros;
          by rewrite length_fmap, fused_transform_sort_D_row_length).
    rewrite list_lookup_fmap. unfold sort_cell in *. by rewrite Hc.
  - apply nth_lookup_Some.
    rewrite (bind_seq_lookup
               (λ i, (fused_transform_sort_D_row H warp_sort D i).*1) H H)
      by (try done; intros;
          by rewrite length_fmap, fused_transform_sort_D_row_length).
    rewrite list_lookup_fmap. unfold sort_cell in *. by rewrite Hc.
Qed.

(** C6. For [H] a power of two of at least a warp and a sort inside the
    warps that does what is known of [bitonic::sort]: when the row
    [hub_id] of [D] holds non-negative floats, the row [hub_id] of the
    ranked identifiers is a permutation of [0, H), the row [hub_id] of the
    ranked distances is in non-decreasing order, and the distance at every
    position is the entry of [D] in the row [hub_id] and the column of the
    identifier at that position. *)
Theorem fused_transform_sort_D_ranked D hub_id :
  (∀ j, j < H → f32_nonneg (rdf D (H * hub_id + j))) → hub_id < H →
  let ranked := fused_transform_sort_D H warp_sort D in
  (λ j, rdn ranked.1 (hub_id * H + j)) <$> seq 0 H ≡ₚ seq 0 H
  ∧ (∀ j j', j ≤ j' → j' < H →
       fle (rdf ranked.2 (hub_id * H + j)) (rdf ranked.2 (hub_id * H + j'))
       = true)
  ∧ (∀ j, j < H →
       rdf ranked.2 (hub_id * H + j)
       = rdf D (H * hub_id + rdn ranked.1 (hub_id * H + j))).
Proof.
  intros Hnn Hi. cbv zeta.
  destruct (sort_row_blocks H e H_pow2 (cell_of_row H D hub_id) warp_sort
              warp_sort_ok (sort_load H D hub_id) e_warp
              (sort_load_row_pairs D hub_id Hnn))
    as [(Hlen & Hnd & Hcells & Hkeys) Hsorted].
  fold (fused_transform_sort_D_row H warp_sort D hub_id) in *.
  set (row := fused_transform_sort_D_row H warp_sort D hub_id) in *.
  assert (0 < H) as Hpos by (rewrite H_pow2; apply pow2_pos).
  split; [|split].
  - assert ((λ j, rdn (fused_transform_sort_D H warp_sort D).1
                      (hub_id * H + j)) <$> seq 0 H = row.*2) as ->.
    { apply list_eq. intros j. rewrite !list_lookup_fmap.
      destruct (decide (j < H)) as [Hj|Hj].
      - destruct (fused_transform_sort_D_cells D hub_id j Hi Hj)
          as (c & Hc & Hid & _).
        fold row in Hc. rewrite lookup_seq_lt by done.
        cbn [fmap option_fmap option_map Nat.add]. rewrite Hid. unfold sort_cell in *. by rewrite Hc.
      - rewrite lookup_seq_ge by lia. symmetry.
        apply fmap_None, lookup_ge_None. unfold sort_cell in *. lia. }
    apply submseteq_length_Permutation.
    + apply NoDup_submseteq; [done|]. intros x Hx.
      apply list_elem_of_fmap in Hx as (c & -> & Hc).
      rewrite list.Forall_forall in Hcells.
      apply elem_of_seq. destruct (Hcells c Hc). lia.
    + rewrite length_fmap, length_seq. unfold sort_cell in *. lia.
  - intros j j' Hjj Hj'.
    destruct (fused_transform_sort_D_cells D hub_id j Hi ltac:(lia))
      as (x & Hx & _ & ->).
    destruct (fused_transform_sort_D_cells D hub_id j' Hi Hj')
      as (y & Hy & _ & ->).
    fold row in Hx, Hy.
    unfold keys_nonneg in Hkeys. rewrite list.Forall_lookup in Hkeys.
    apply fle_nonneg; [by eapply (Hkeys j)|by eapply (Hkeys j')|].
    by eapply (sorted_blocks_ordered H row j j').
  - intros j Hj.
    destruct (fused_transform_sort_D_cells D hub_id j Hi Hj)
      as (c & Hc & -> & ->).
    fold row in Hc. rewrite list.Forall_lookup in Hcells.
    by destruct (Hcells j c Hc).
Qed.

End SortRanked.
(** ** The insertion sort of the examples is a sort inside a warp *)

Lemma warp_insert_perm asc x l : warp_insert asc x l ≡ₚ x :: l.
Proof.
  induction l as [|y l IH]; [done|]. simpl.
  destruct (if asc then flt y.1 x.1 else flt x.1 y.1); [|done].
  rewrite IH. apply Permutation_swap.
Qed.

Lemma warp_sort_insertion_perm asc l : warp_sort_insertion asc l ≡ₚ l.
Proof.
  unfold warp_sort_insertion. induction l as [|x l IH]; [done|].
  simpl. by rewrite warp_insert_perm, IH.
Qed.

Lemma in_order_trans asc (x y z : sort_cell) :
  in_order asc x y → in_order asc y z → in_order asc x z.
Proof. unfold in_order. destruct asc; intros; by etrans. Qed.

Lemma warp_insert_ordered asc x l :
  f32_nonneg x.1 → keys_nonneg l →
  ordered asc l → ordered asc (warp_insert asc x l).
Proof.
  intros Hx. induction l as [|y l IH]; intros Hl Ho.
  - simpl. split; [constructor|done].
  - destruct Ho as [Hy Ho]. apply list.Forall_cons in Hl as [Hyn Hl]. simpl.
    pose proof (flt_nonneg y.1 x.1 Hyn Hx) as Hyx.
    pose proof (flt_nonneg x.1 y.1 Hx Hyn) as Hxy.
    destruct (if asc then flt y.1 x.1 else flt x.1 y.1) eqn:E.
    + split; [|by apply IH].
      rewrite warp_insert_perm. apply list.Forall_cons. split; [|done].
      unfold in_order. destruct asc.
      * apply Hyx in E. by apply Z.lt_le_incl.
      * apply Hxy in E. by apply Z.lt_le_incl.
    + split; [|done]. apply list.Forall_cons.
      assert (in_order asc x y) as Hin.
      { unfold in_order. destruct asc.
        - destruct (decide (x.1 ≤ y.1)%Z) as [|Hgt]; [done|].
          apply Z.nle_gt, Hyx in Hgt. congruence.
        - destruct (decide (y.1 ≤ x.1)%Z) as [|Hgt]; [done|].
          apply Z.nle_gt, Hxy in Hgt. congruence. }
      split; [done|].
      eapply list.Forall_impl; [exact Hy|]. intros z Hz.
      by eapply in_order_trans.
Qed.

Lemma warp_sort_insertion_ordered asc l :
  keys_nonneg l → ordered asc (warp_sort_insertion asc l).
Proof.
  unfold warp_sort_insertion. induction l as [|x l IH]; intros Hl; [done|].
  apply list.Forall_cons in Hl as [Hx Hl]. simpl.
  apply warp_insert_ordered; [done| |by apply IH].
  unfold keys_nonneg.
  by rewrite (warp_sort_insertion_perm asc l : foldr _ _ _ ≡ₚ _).
Qed.

Lemma ordered_lookup asc l : ∀ a b x y,
  ordered asc l → a ≤ b → l !! a = Some x → l !! b = Some y →
  in_order asc x y.
Proof.
  induction l as [|z l IH]; intros a b x y Ho Hab Hx Hy; [done|].
  destruct Ho as [Hz Ho]. destruct a as [|a], b as [|b]; simpl in *.
  - simplify_eq. unfold in_order. destruct asc; done.
  - simplify_eq. rewrite list.Forall_lookup in Hz. by eapply Hz.
  - lia.
  - eapply (IH a b); try done. lia.
Qed.

Lemma warp_sort_insertion_sorts : warp_sort_sorts warp_sort_insertion.
Proof.
  intros asc l _. split; [apply warp_sort_insertion_perm|].
  intros Hnn a b x y Hab Hx Hy.
  pose proof (ordered_lookup asc _ a b x y
                (warp_sort_insertion_ordered asc l Hnn) Hab Hx Hy) as Hin.
  assert (∀ i z, warp_sort_insertion asc l !! i = Some z → f32_nonneg z.1)
    as Hcell.
  { intros i z Hz. apply list_elem_of_lookup_2 in Hz.
    rewrite warp_sort_insertion_perm in Hz.
    unfold keys_nonneg in Hnn. rewrite list.Forall_forall in Hnn.
    by apply Hnn in Hz. }
  unfold in_order in Hin.
  destruct asc; apply fle_nonneg; try done; by eapply Hcell.
Qed.
(** ** What the collector holds *)

Lemma WarpSelect_insert_Forall (Q : heap_entry → Prop) x h :
  Q x → Forall Q h → Forall Q (WarpSelect_insert x h).
Proof.
  intros Hx. induction h as [|y h IH]; intros Hh; simpl.
  - by constructor.
  - apply list.Forall_cons in Hh as [Hy Hh].
    destruct (flt x.1 y.1); repeat constructor; try done. by apply IH.
Qed.

Lemma WarpSelect_insert_length x h :
  length (WarpSelect_insert x h) = S (length h).
Proof.
  induction h as [|y h IH]; simpl; [done|].
  destruct (flt x.1 y.1); simpl; [done|]. by rewrite IH.
Qed.

Lemma WarpSelect_add_Forall (Q : heap_entry → Prop) K h lanes :
  Forall Q h → Forall Q lanes → Forall Q (WarpSelect_add K h lanes).
Proof.
  intros Hh Hl. unfold WarpSelect_add.
  apply (foldl_invariant (Forall Q)); [|done].
  intros a x Hx Ha. apply Forall_take, WarpSelect_insert_Forall; [|done].
  rewrite list.Forall_forall in Hl. by apply Hl.
Qed.

Lemma WarpSelect_add_length K h lanes :
  length h = K → length (WarpSelect_add K h lanes) = K.
Proof.
  intros Hh. unfold WarpSelect_add.
  apply (foldl_invariant (λ a : list heap_entry, length a = K)); [|done].
  intros a x _ Ha. rewrite length_take, WarpSelect_insert_length. lia.
Qed.

Section QueryValues.

Variable H : nat.
Variable l2dist : float → float → float → float → float → float → float.
Variable fsqrt : float → float.
Variable fsub : float → float → float.
Variable ix : knn_index.
Variables (K n : nat).

Lemma Query_step_heap qp st :
  heap (Query_step H l2dist ix K n qp st)
  = WarpSelect_add K (heap st)
      (Query_lane l2dist ix n qp st <$> seq 0 warp_size).
Proof. unfold Query_step. cbv zeta. by repeat case_decide. Qed.

(** Every lane hands the collector a squared distance, or the pair of an
    idle lane. *)
Lemma Query_lane_entry qp st lane :
  Query_entry l2dist ix n qp (Query_lane l2dist ix n qp st lane).
Proof.
  unfold Query_lane, Query_entry. cbv zeta. case_decide.
  - right. right. by exists (scan_hub_from st + lane).
  - right. by left.
Qed.

Lemma Query_loop_heap (Q : heap_entry → Prop) qp fuel : ∀ st,
  (∀ st lane, Q (Query_lane l2dist ix n qp st lane)) →
  Forall Q (heap st) → length (heap st) = K →
  Forall Q (heap (Query_loop H l2dist fsqrt fsub ix K n fuel qp st))
  ∧ length (heap (Query_loop H l2dist fsqrt fsub ix K n fuel qp st)) = K.
Proof.
  induction fuel as [|fuel IH]; intros st Hlane Hst Hlen; [done|].
  cbn [Query_loop].
  destruct (Query_continue H l2dist fsqrt fsub ix K qp st); [|done].
  apply IH; [done|..]; rewrite Query_step_heap.
  - apply WarpSelect_add_Forall; [done|].
    apply Forall_fmap, list.Forall_forall. intros lane _. apply Hlane.
  - by apply WarpSelect_add_length.
Qed.

(** The pairs a query ends with. *)
Lemma Query_result_entries qp j :
  j < K →
  Query_entry l2dist ix n qp
    (nth j (Query_result H l2dist fsqrt fsub ix K n qp) (FLT_MAX, (-1)%Z)).
Proof.
  intros Hj. unfold Query_result.
  destruct (Query_loop_heap (Query_entry l2dist ix n qp) qp
              (Query_fuel H ix) (Query_init H ix K qp)) as [Hall Hlen].
  - intros st lane. apply Query_lane_entry.
  - unfold Query_init, WarpSelect_init. cbn [heap].
    apply Forall_replicate. by left.
  - unfold Query_init, WarpSelect_init. cbn [heap]. apply length_replicate.
  - rewrite list.Forall_lookup in Hall.
    destruct (lookup_lt_is_Some_2 _ j ltac:(by rewrite Hlen)) as [x Hx].
    rewrite (nth_lookup_Some _ _ _ _ Hx). by eapply Hall.
Qed.

(** While hubs remain, the bound the loop holds is the cell of [dD] of
    the hub it is scanning. *)
Lemma Query_iter_bound qp i :
  let st := Nat.iter i (Query_step H l2dist ix K n qp) (Query_init H ix K qp) in
  hubs_processed st < H →
  dist_to_this_hub st
  = rdf (ix_dD ix) (rdn (ix_assignments ix) qp * H + hubs_processed st).
Proof.
  cbv zeta. induction i as [|i IH]; [done|]. rewrite Nat.iter_succ.
  revert IH.
  generalize (Nat.iter i (Query_step H l2dist ix K n qp)
                (Query_init H ix K qp)).
  intros st IH. unfold Query_step. cbv zeta.
  repeat case_decide; cbn [hubs_processed dist_to_this_hub]; intros Hp;
    try done; try lia; by apply IH.
Qed.

(** A cell of the result of a launch. *)
Lemma Query_cell Qps sched out s j :
  sched ≡ₚ query_grid n → s < n → j < K →
  let qp := rdn (ix_arr_idx ix) s in
  K * qp + j < length out.1 → K * qp + j < length out.2 →
  let out' :=
    Query H l2dist fsqrt fsub ix K n queries_per_block Qps sched out in
  out'.1 !! (K * qp + j)
  = Some (nth j (Query_result H l2dist fsqrt fsub ix K n qp)
                (FLT_MAX, (-1)%Z)).2 ∧
  out'.2 !! (K * qp + j)
  = Some (nth j (Query_result H l2dist fsqrt fsub ix K n qp)
                (FLT_MAX, (-1)%Z)).1.
Proof.
  intros Hsched Hs Hj qp H1 H2. cbv zeta.
  assert (n ≤ CEIL_DIV n queries_per_block * queries_per_block) as Hcover.
  { unfold CEIL_DIV. apply ceil_blocks_cover. unfold queries_per_block.
    simpl. lia. }
  destruct (grid_covers (CEIL_DIV n queries_per_block) queries_per_block s)
    as (w & Hw & Hws); [unfold queries_per_block; simpl; lia|lia|].
  destruct (div_mod_cell K qp j Hj) as [Ediv Emod].
  cut ((λ o : list Z * list float,
       o.1 !! (K * qp + j)
       = Some (nth ((K * qp + j) mod K)
                 (Query_result H l2dist fsqrt fsub ix K n
                    ((K * qp + j) / K)) (FLT_MAX, (-1)%Z)).2 ∧
       o.2 !! (K * qp + j)
       = Some (nth ((K * qp + j) mod K)
                 (Query_result H l2dist fsqrt fsub ix K n
                    ((K * qp + j) / K)) (FLT_MAX, (-1)%Z)).1)
      (Query H l2dist fsqrt fsub ix K n queries_per_block Qps sched out)).
  { cbv beta. by rewrite Ediv, Emod. }
  apply (launch_establishes
    (λ o : list Z * list float,
       length o.1 = length out.1 ∧ length o.2 = length out.2)
    (λ o : list Z * list float,
       o.1 !! (K * qp + j)
       = Some (nth ((K * qp + j) mod K)
                 (Query_result H l2dist fsqrt fsub ix K n
                    ((K * qp + j) / K)) (FLT_MAX, (-1)%Z)).2 ∧
       o.2 !! (K * qp + j)
       = Some (nth ((K * qp + j) mod K)
                 (Query_result H l2dist fsqrt fsub ix K n
                    ((K * qp + j) / K)) (FLT_MAX, (-1)%Z)).1)
    _ sched w).
  - intros w' o [L1 L2]. unfold Query_warp. cbv zeta.
    case_decide; [done|].
    destruct (Query_writeOut_length H l2dist fsqrt fsub ix K n
                (rdn (ix_arr_idx ix) (global_idx queries_per_block w')) o)
      as [-> ->]. done.
  - intros w' o _ Ho. unfold Query_warp. cbv zeta.
    case_decide; [done|]. by apply Query_writeOut_stable.
  - intros o [L1 L2]. unfold Query_warp. cbv zeta. rewrite Hws.
    rewrite decide_False by lia. rewrite Ediv, Emod.
    apply Query_writeOut_cell; [done|fold qp; lia|fold qp; lia].
  - by rewrite Hsched.
  - done.
Qed.

End QueryValues.
(** ** The values of the hub distance matrix *)

Section TableValues.

Variable H : nat.
Variable V : Z → Prop.
Hypothesis V_range : ∀ v, V v → (0 ≤ v < 2 ^ 31)%Z.
Hypothesis V_sentinel : V D_sentinel.

Lemma atomicMin_values a i v :
  (∀ j, j < H → V (rdz a j)) → V v →
  ∀ j, j < H → V (rdz (atomicMin a i v) j).
Proof.
  intros Ha Hv j Hj. unfold atomicMin, rdz.
  destruct (decide (i = j)) as [->|Hne];
    [|rewrite rd_insert_ne by done; by apply Ha].
  destruct (decide (j < length a)) as [Hlt|Hge].
  - rewrite rd_insert_eq by done. apply Z.min_case; [by apply Ha|done].
  - rewrite list_insert_ge by lia. by apply Ha.
Qed.

Lemma Construct_D_scan_values dists assignments b_id b_size n hub_id s ps :
  (∀ p, p ∈ ps → b_id * b_size + p < n →
        V (rdf dists (hub_id * b_size + p))) →
  (∀ j, j < H → V (rdz s j)) →
  ∀ j, j < H →
    V (rdz (foldl (Construct_D_scan dists assignments b_id b_size n hub_id)
                  s ps) j).
Proof.
  intros Hd Hs.
  apply (foldl_invariant (λ s : list Z, ∀ j, j < H → V (rdz s j))); [|done].
  intros a p Hp Ha. unfold Construct_D_scan. cbv zeta.
  case_decide; [|done]. apply atomicMin_values; [done|].
  rewrite float_as_int_nonneg by (by apply V_range, Hd). by apply Hd.
Qed.

Lemma Construct_D_merge_values bd hub_id (s2 : list Z) (D : list float) slots :
  hub_id < H → length D = H * H →
  (∀ j, j < H → V (rdz s2 j)) → (∀ c, c < H * H → V (rdf D c)) →
  let r := foldl (Construct_D_merge H bd hub_id) (s2, D) slots in
  length r.2 = H * H ∧ (∀ c, c < H * H → V (rdf r.2 c)).
Proof.
  intros Hh HlD Hs HD. cbv zeta.
  cut ((λ r : list Z * list float,
          (∀ j, j < H → V (rdz r.1 j)) ∧ length r.2 = H * H
          ∧ (∀ c, c < H * H → V (rdf r.2 c)))
         (foldl (Construct_D_merge H bd hub_id) (s2, D) slots)).
  { intros (_ & Hl & Hc). by split. }
  apply foldl_invariant; [|done].
  intros [s D'] slot _ (Hs' & Hl & HD'). cbn [fst snd] in *.
  unfold Construct_D_merge. case_decide as Hj; [|done]. cbn [fst snd].
  assert (H * hub_id + global_idx bd slot < H * H) as Hin by nia.
  assert (∀ j, j < H →
            V (rdz (atomicMin s (global_idx bd slot)
                      (float_as_int
                         (rdf D' (H * hub_id + global_idx bd slot)))) j))
    as Hs''.
  { apply atomicMin_values; [done|].
    rewrite float_as_int_nonneg by (by apply V_range, HD').
    by apply HD'. }
  split; [done|]. split; [by rewrite length_insert|].
  intros c Hc. unfold rdf.
  destruct (decide (H * hub_id + global_idx bd slot = c)) as [<-|Hne].
  - rewrite rd_insert_eq by lia.
    rewrite int_as_float_nonneg by (by apply V_range, Hs'').
    by apply Hs''.
  - rewrite rd_insert_ne by done. by apply HD'.
Qed.

Lemma Construct_D_block_values bd smem dists assignments b_id b_size n
    (D : list float) hub_id :
  0 < bd → H ≤ length smem → hub_id < H → length D = H * H →
  (∀ p, p < b_size → b_id * b_size + p < n →
        V (rdf dists (hub_id * b_size + p))) →
  (∀ c, c < H * H → V (rdf D c)) →
  let D' := Construct_D_block H bd smem dists assignments b_id b_size n
              D hub_id in
  length D' = H * H ∧ (∀ c, c < H * H → V (rdf D' c)).
Proof.
  intros Hbd Hsm Hh HlD Hd HD. cbv zeta. unfold Construct_D_block.
  apply Construct_D_merge_values; [done..| |done].
  apply Construct_D_scan_values.
  - intros p Hp. apply Hd. by eapply strided_below.
  - intros j Hj. by rewrite Construct_D_init_slots.
Qed.

Lemma Construct_D_values bd (smem : nat → list Z) dists assignments
    b_id b_size n (D : list float) :
  0 < bd → (∀ hub, H ≤ length (smem hub)) → length D = H * H →
  (∀ hub p, hub < H → p < b_size → b_id * b_size + p < n →
        V (rdf dists (hub * b_size + p))) →
  (∀ c, c < H * H → V (rdf D c)) →
  let D' := Construct_D H bd smem dists assignments b_id b_size n D in
  length D' = H * H ∧ (∀ c, c < H * H → V (rdf D' c)).
Proof.
  intros Hbd Hsm HlD Hd HD. cbv zeta. unfold Construct_D.
  apply (foldl_invariant
           (λ D : list float,
              length D = H * H ∧ (∀ c, c < H * H → V (rdf D c))));
    [|done].
  intros D' hub Hhub [Hl HD']. apply elem_of_seq in Hhub.
  apply Construct_D_block_values; try done; [lia|].
  intros p Hp Hidx. apply Hd; [lia|done..].
Qed.

End TableValues.

Section IndexValues.

Variable H : nat.
Variable l2dist : float → float → float → float → float → float → float.
Variable fsqrt : float → float.
Variables (points : list float) (dH : list Z).

Lemma D_value_range n v :
  Forall f32_nonneg (hub_distance_table H l2dist fsqrt n points dH) →
  D_value H l2dist fsqrt n points dH v → (0 ≤ v < 2 ^ 31)%Z.
Proof.
  intros Hnn [->|[->|(p & h & Hp & Hh & ->)]].
  - unfold FLT_MAX. lia.
  - unfold D_sentinel. lia.
  - pose proof (hub_distance_table_nonneg H l2dist fsqrt points dH n p h
                  Hnn Hp Hh) as Hw.
    unfold f32_nonneg in Hw. lia.
Qed.

(** Every cell of [D] holds, once the batch loop is over, the value
    [set_max_float] left, the sentinel, or the rooted distance of a point
    to a hub. *)
Lemma index_batches_values b_size n smem dists0 D0 k :
  0 < b_size →
  length dists0 = H * b_size → length D0 = H * H →
  (∀ b hub, H ≤ length (smem b hub)) →
  Forall f32_nonneg (hub_distance_table H l2dist fsqrt n points dH) →
  let st := foldl (index_batch H l2dist fsqrt b_size n dH points smem)
              ({| distances := dists0;
                  hub_counts := replicate (H + 1) 0;
                  dH_assignments := replicate n 0 |},
               set_max_float (H * H) D0) (seq 0 k) in
  cd_lengths (H * b_size) n st.1 ∧ length st.2 = H * H ∧
  (∀ c, c < H * H → D_value H l2dist fsqrt n points dH (rdf st.2 c)).
Proof.
  intros Hbs Hld HlD Hsm Hnn. induction k as [|k IH].
  - simpl. split; [|split].
    + split; simpl; [done|apply length_replicate].
    + by apply set_max_float_read.
    + intros c Hc. left. unfold set_max_float.
      rewrite HlD, Nat.min_id, <- HlD, drop_all, app_nil_r.
      unfold rdf. apply rd_lookup. apply lookup_replicate. split; [done|lia].
  - rewrite seq_S, foldl_app. simpl in *.
    destruct (foldl (index_batch H l2dist fsqrt b_size n dH points smem)
      ({| distances := dists0; hub_counts := replicate (H + 1) 0;
          dH_assignments := replicate n 0 |}, set_max_float (H * H) D0)
      (seq 0 k)) as [m D] eqn:Est.
    destruct IH as (Hlen & HlenD & Hvals). simpl in *.
    set (m' := Calculate_Distances H l2dist fsqrt block_size k b_size n dH
                 points (grid ((b_size + block_size - 1) / block_size)
                              block_size) m).
    assert (cd_lengths (H * b_size) n m') as Hlen'
      by by apply Calculate_Distances_lengths.
    assert (∀ p, p < b_size →
              ∃ th, th ∈ grid ((b_size + block_size - 1) / block_size)
                              block_size
                    ∧ global_idx block_size th = p) as Hcover.
    { intros p Hp. apply grid_covers; [unfold block_size; lia|].
      pose proof (ceil_blocks_cover b_size block_size).
      unfold block_size in *. lia. }
    assert (∀ h p, h < H → p < b_size → k * b_size + p < n →
              rdf (distances m') (h * b_size + p)
              = hub_distance l2dist fsqrt points dH (k * b_size + p) h)
      as Htable.
    { intros h p Hh Hp Hidx. unfold rdf. apply rd_lookup.
      replace (k * b_size + p) with (p + k * b_size) by lia.
      apply Calculate_Distances_table; [done| |done|lia|done].
      by apply Hcover. }
    split; [done|].
    apply (Construct_D_values H (D_value H l2dist fsqrt n points dH)).
    + intros v. by apply D_value_range.
    + right. by left.
    + unfold block_size. lia.
    + apply Hsm.
    + done.
    + intros hub p Hhub Hp Hidx. rewrite Htable by done.
      right. right. by exists (k * b_size + p), hub.
    + done.
Qed.

End IndexValues.
(** ** Squared distances in the results, rooted distances in the tables *)

Section SortedValues.

Variables (H e : nat).
Variable warp_sort : bool → list sort_cell → list sort_cell.
Hypothesis H_pow2 : H = 2 ^ e.
Hypothesis e_warp : 5 ≤ e.
Hypothesis warp_sort_ok : warp_sort_sorts warp_sort.

(** The sort moves the pairs of a row: what holds of all of them before
    holds of all of them after. *)
Lemma fused_transform_sort_D_row_Forall (P : sort_cell → Prop) D hub_id :
  Forall P (sort_load H D hub_id) →
  Forall P (fused_transform_sort_D_row H warp_sort D hub_id).
Proof.
  intros HP. unfold fused_transform_sort_D_row.
  pose proof (H_warps H e H_pow2 e_warp) as HH.
  cut ((λ l : list sort_cell,
          length l = 2 ^ (e - 5) * warp_size ∧ Forall P l)
         (foldl (merge_stage warp_sort)
            (sort_warps warp_sort first_run_ascending (sort_load H D hub_id))
            (doubling H (2 * warp_size) H))).
  { by intros [_ Hall]. }
  assert (∀ asc (l : list sort_cell),
            length l = 2 ^ (e - 5) * warp_size ∧ Forall P l →
            length (sort_warps warp_sort asc l) = 2 ^ (e - 5) * warp_size
            ∧ Forall P (sort_warps warp_sort asc l)) as Hsort.
  { intros asc l [Hl Hall]. split.
    - by apply (sort_warps_length _ warp_sort_ok).
    - by rewrite (sort_warps_perm _ warp_sort_ok asc l _ Hl). }
  apply foldl_invariant.
  - intros l coop _ Hl. unfold merge_stage. apply Hsort.
    apply (foldl_invariant
             (λ l : list sort_cell,
                length l = 2 ^ (e - 5) * warp_size ∧ Forall P l)); [|done].
    intros a s _ [Ha Hall]. split.
    + by rewrite merge_exchange_length.
    + by apply merge_exchange_Forall.
  - apply Hsort. split; [|done]. by rewrite sort_load_length.
Qed.

(** Every cell of a row of the ranked distances is a cell of the same
    row of [D]. *)
Lemma fused_transform_sort_D_from D hub_id j :
  hub_id < H → j < H →
  ∃ g, g < H
       ∧ rdf (fused_transform_sort_D H warp_sort D).2 (hub_id * H + j)
         = rdf D (H * hub_id + g).
Proof.
  intros Hi Hj.
  destruct (fused_transform_sort_D_cells H e warp_sort H_pow2 e_warp
              warp_sort_ok D hub_id j Hi Hj) as (c & Hc & _ & ->).
  assert (Forall (cell_of_row H D hub_id)
            (fused_transform_sort_D_row H warp_sort D hub_id)) as Hall.
  { apply fused_transform_sort_D_row_Forall.
    unfold sort_load. apply Forall_fmap, list.Forall_forall.
    intros g Hg. apply elem_of_seq in Hg. split; simpl; [lia|done]. }
  rewrite list.Forall_lookup in Hall.
  destruct (Hall j c Hc) as [Hg Hd]. by exists c.2.
Qed.

End SortedValues.

(** ** More on the prefix sums *)

(** X1. The warp scan is an inclusive prefix sum: after its five rounds
    of shuffles the lane [lane] of a full warp holds the sum of the values
    the lanes 0 to [lane] started with. *)
Theorem prefix_sum_warp_inclusive vals lane :
  length vals = warp_size → lane < warp_size →
  rdn (prefix_sum_warp vals) lane = sum_list (take (lane + 1) vals)
  ∧ length (prefix_sum_warp vals) = warp_size.
Proof.
  intros Hlen Hlane. split.
  - rewrite prefix_sum_warp_spec by done.
    apply sum_upto_take. rewrite Hlen. lia.
  - by rewrite prefix_sum_warp_length.
Qed.

(** X2. For [H] a power of two from 32 to 1024, where the loop over the
    chunks takes one turn, and for every larger power of two when no warp
    runs ahead of the others between two turns: the kernel passes its
    assertions and leaves in the cell [i] of both arrays, for every [i]
    below [H], the sum of the cells 0 to [i] of the input, whatever the
    second array and the shared memory held; it keeps the sizes of the
    arrays and the cells of the input from [H] on. *)
Theorem fused_prefix_sum_copy_inclusive H ahead e smem arr copy :
  H = 2 ^ e → 5 ≤ e → e ≤ 10 ∨ (∀ c w, ahead c w = false) →
  H ≤ length arr → H ≤ length copy → warp_size + 1 ≤ length smem →
  ∃ m, fused_prefix_sum_copy H ahead smem arr copy = Some m ∧
  length (ps_arr m) = length arr ∧ length (ps_copy m) = length copy ∧
  (∀ i, i < H →
     rdn (ps_arr m) i = sum_list (take (i + 1) arr)
     ∧ rdn (ps_copy m) i = sum_list (take (i + 1) arr)) ∧
  (∀ i, H ≤ i → rdn (ps_arr m) i = rdn arr i).
Proof.
  intros HH He Hquiet Ha Hc Hs.
  destruct (fused_prefix_sum_copy_spec H ahead e smem arr copy
              HH He Hquiet Ha Hc Hs) as (m & Em & La & Lc & Hsum & Hrest).
  exists m. split; [done|].
  split; [done|]. split; [done|]. split; [|done].
  intros i Hi. rewrite <- sum_upto_take by lia. by apply Hsum.
Qed.

Lemma prefix_sum_step_tables H ahead e smem counts copy0 placeholder0 :
  H = 2 ^ e → 5 ≤ e → e ≤ 10 ∨ (∀ c w, ahead c w = false) →
  length counts = H + 1 → length copy0 = H + 1 →
  length placeholder0 = H + 1 → warp_size + 1 ≤ length smem →
  ∃ r, prefix_sum_step H ahead smem counts copy0 placeholder0 = Some r ∧
  length r.1 = H + 1 ∧ r.2 = r.1
  ∧ ∀ i, i ≤ H → rdn r.1 i = sum_list (take i counts).
Proof.
  intros HH He Hquiet Hlc Hl0 Hlp Hls.
  destruct (prefix_sum_step_spec H ahead e smem counts copy0 placeholder0
              HH He Hquiet Hlc Hl0 Hlp Hls) as (r & Er & L1 & L2 & Hspec).
  exists r. split; [done|]. split; [done|]. split.
  - apply (nth_ext _ _ 0 0); [lia|]. intros i Hi.
    destruct (Hspec i ltac:(lia)) as [E1 E2].
    unfold rdn in E1, E2. by rewrite E1, E2.
  - intros i Hi. by destruct (Hspec i Hi) as [E1 _].
Qed.

(** X3. For [H] a power of two from 32 to 1024, and for every larger
    power of two when no warp of the kernel runs ahead of the others, the
    prefix-sum step of [C_and_Q] turns the counters into exclusive prefix
    sums: the cell [i] of [dH_psum] holds the sum of the counters of the
    hubs below [i], for every [i] up to [H], and [dH_psum_copy], the write
    cursors of the bucket sort, is the same table. *)
Theorem prefix_sum_step_exclusive H ahead e smem counts copy0 placeholder0 :
  H = 2 ^ e → 5 ≤ e → e ≤ 10 ∨ (∀ c w, ahead c w = false) →
  length counts = H + 1 → length copy0 = H + 1 →
  length placeholder0 = H + 1 → warp_size + 1 ≤ length smem →
  ∃ r, prefix_sum_step H ahead smem counts copy0 placeholder0 = Some r ∧
  r.2 = r.1 ∧ ∀ i, i ≤ H → rdn r.1 i = sum_list (take i counts).
Proof.
  intros HH He Hquiet Hlc Hl0 Hlp Hls.
  destruct (prefix_sum_step_tables H ahead e smem counts copy0 placeholder0
              HH He Hquiet Hlc Hl0 Hlp Hls) as (r & Er & _ & E & Hsum).
  by exists r.
Qed.
(** ** The integers behind the floats *)

Lemma f32_nonneg_int w : f32_nonneg w → (0 ≤ w < 2 ^ 31)%Z.
Proof. unfold f32_nonneg. lia. Qed.

(** X4. On the words of non-negative floats the order of the signed
    integers [__float_as_int] yields is the order of the floats, and
    [__int_as_float] gives back the float, so that the minimum
    [atomicMin] takes on the integers is the smaller float: what
    [Construct_D] relies on.  The order is the reverse on negative floats:
    -2.0 is below -1.0 and its integer is above. *)
Theorem float_as_int_order a b :
  f32_nonneg a → f32_nonneg b →
  (flt a b = true ↔ (float_as_int a < float_as_int b)%Z)
  ∧ int_as_float (float_as_int a) = a
  ∧ int_as_float (Z.min (float_as_int a) (float_as_int b))
    = (if flt b a then b else a)
  ∧ flt 0xc0000000%Z 0xbf800000%Z = true
  ∧ (float_as_int 0xbf800000 < float_as_int 0xc0000000)%Z.
Proof.
  intros Ha Hb.
  pose proof (f32_nonneg_int a Ha) as Ia.
  pose proof (f32_nonneg_int b Hb) as Ib.
  rewrite !float_as_int_nonneg by done.
  split; [by apply flt_nonneg|]. split; [by apply int_as_float_nonneg|].
  split; [|split; [done|by vm_compute]].
  pose proof (flt_nonneg b a Hb Ha) as Hlt.
  destruct (flt b a).
  - rewrite Z.min_r by (apply Z.lt_le_incl; by apply Hlt).
    by apply int_as_float_nonneg.
  - rewrite Z.min_l.
    + by apply int_as_float_nonneg.
    + destruct (decide (a ≤ b)%Z) as [|Hgt]; [done|].
      apply Z.nle_gt in Hgt. apply Hlt in Hgt. done.
Qed.
(** ** The hub a point is assigned to *)

Lemma flt_spec a b :
  flt a b = true
  ↔ f32_is_nan a = false ∧ f32_is_nan b = false ∧ (f32_key a < f32_key b)%Z.
Proof.
  unfold flt. rewrite !andb_true_iff, !negb_true_iff, Z.ltb_lt. tauto.
Qed.

Lemma flt_false a b :
  flt a b = false →
  f32_is_nan a = true ∨ f32_is_nan b = true ∨ (f32_key b ≤ f32_key a)%Z.
Proof.
  intros Hf. destruct (f32_is_nan a) eqn:Ea; [by left|].
  destruct (f32_is_nan b) eqn:Eb; [right; by left|].
  right. right. destruct (decide (f32_key b ≤ f32_key a)%Z) as [|Hgt]; [done|].
  assert (flt a b = true) as Ht.
  { apply flt_spec. split; [done|]. split; [done|]. by apply Z.nle_gt. }
  congruence.
Qed.

Section NearestFacts.

Variable H : nat.
Variable l2dist : float → float → float → float → float → float → float.
Variable fsqrt : float → float.
Variables (points : list float) (dH : list Z).

(** The loop over the hubs, after [k] hubs: nothing below [FLT_MAX] was
    seen, or the hub held is the first one at the least distance seen. *)
Lemma nearest_fold idx k :
  let d := hub_distance l2dist fsqrt points dH idx in
  let r := foldl (nearest_step l2dist fsqrt points dH idx) (FLT_MAX, H + 1)
                 (seq 0 k) in
  (r = (FLT_MAX, H + 1) ∧ ∀ h, h < k → flt (d h) FLT_MAX = false)
  ∨ (r.2 < k ∧ r.1 = d r.2 ∧ flt (d r.2) FLT_MAX = true
     ∧ (∀ h, h < k → flt (d h) (d r.2) = false)
     ∧ (∀ h, h < r.2 → flt (d r.2) (d h) = true ∨ f32_is_nan (d h) = true)).
Proof.
  cbv zeta. induction k as [|k IH].
  - left. split; [done|]. intros h Hh. lia.
  - rewrite seq_S, foldl_app. cbn [foldl Nat.add].
    set (d := hub_distance l2dist fsqrt points dH idx) in *.
    destruct IH as [[-> Hnone]|(Ha & Hm & Hfin & Hmin & Hfirst)].
    + unfold nearest_step. fold d. cbn [fst snd].
      destruct (flt (d k) FLT_MAX) eqn:Ek.
      * right. cbn [fst snd]. split; [lia|]. split; [done|].
        split; [done|]. split.
        -- intros h Hh. destruct (decide (h = k)) as [->|Hne];
             [apply flt_irrefl|].
           destruct (flt (d h) (d k)) eqn:Eh; [|done].
           rewrite <- (Hnone h ltac:(lia)). symmetry.
           by eapply flt_trans.
        -- intros h Hh. apply flt_spec in Ek as (Nk & Nm & Kk).
           destruct (flt_false _ _ (Hnone h Hh)) as [Nh|[Nh|Kh]];
             [by right|congruence|].
           destruct (f32_is_nan (d h)) eqn:Nh; [by right|].
           left. apply flt_spec. split; [done|]. split; [done|]. lia.
      * left. split; [done|]. intros h Hh.
        destruct (decide (h = k)) as [->|Hne]; [done|]. apply Hnone. lia.
    + destruct (foldl (nearest_step l2dist fsqrt points dH idx)
                  (FLT_MAX, H + 1) (seq 0 k)) as [m a].
      cbn [fst snd] in *. subst m. right.
      unfold nearest_step. fold d. cbn [fst snd].
      destruct (flt (d k) (d a)) eqn:Ek; cbn [fst snd].
      * split; [lia|]. split; [done|]. split; [by eapply flt_trans|]. split.
        -- intros h Hh. destruct (decide (h = k)) as [->|Hne];
             [apply flt_irrefl|].
           destruct (flt (d h) (d k)) eqn:Eh; [|done].
           rewrite <- (Hmin h ltac:(lia)). symmetry.
           by eapply flt_trans.
        -- intros h Hh. apply flt_spec in Ek as (Nk & Na & Kk).
           destruct (f32_is_nan (d h)) eqn:Nh; [by right|]. left.
           apply flt_spec. split; [done|]. split; [done|].
           destruct (decide (h < a)) as [Hlt|Hge].
           ++ destruct (Hfirst h Hlt) as [Hf|Hn]; [|congruence].
              apply flt_spec in Hf. lia.
           ++ destruct (flt_false _ _ (Hmin h Hh)) as [N|[N|Kh]];
                [congruence|congruence|lia].
      * split; [lia|]. split; [done|]. split; [done|]. split; [|done].
        intros h Hh. destruct (decide (h = k)) as [->|Hne]; [done|].
        apply Hmin. lia.
Qed.

(** X5. Under every schedule that holds the thread of the point, the
    kernel assigns the point the first hub at its least distance, when
    that distance is below [FLT_MAX]: no hub is nearer, and the hubs
    before it are farther or at no distance at all (a NaN).  A point with
    no distance below [FLT_MAX] is assigned [H + 1], past the hubs. *)
Theorem Calculate_Distances_nearest bd b_id b_size n L sched m p :
  cd_lengths L n m →
  (∃ th, th ∈ sched ∧ global_idx bd th = p) →
  p < b_size → p + b_id * b_size < n →
  let idx := p + b_id * b_size in
  let d := hub_distance l2dist fsqrt points dH idx in
  ∃ a,
    dH_assignments
      (Calculate_Distances H l2dist fsqrt bd b_id b_size n dH points sched m)
      !! idx = Some a
    ∧ ((a = H + 1 ∧ ∀ h, h < H → flt (d h) FLT_MAX = false)
       ∨ (a < H ∧ flt (d a) FLT_MAX = true
          ∧ (∀ h, h < H → flt (d h) (d a) = false)
          ∧ (∀ h, h < a → flt (d a) (d h) = true
                          ∨ f32_is_nan (d h) = true))).
Proof.
  intros Hm Hth Hp Hidx. cbv zeta.
  exists (nearest_hub H l2dist fsqrt points dH (p + b_id * b_size)).
  split; [by eapply Calculate_Distances_assignment|].
  unfold nearest_hub.
  destruct (nearest_fold (p + b_id * b_size) H)
    as [[-> Hnone]|(Ha & _ & Hfin & Hmin & Hfirst)].
  - left. by split.
  - right. by repeat split.
Qed.

End NearestFacts.
(** ** The hub counters *)

Lemma filter_fmap_length {A B : Type} (f : A → B) (P : B → Prop)
    `{∀ y, Decision (P y)} (l : list A) :
  length (filter P (f <$> l)) = length (filter (λ x, P (f x)) l).
Proof.
  induction l as [|x l IH]; [done|]. rewrite fmap_cons, !filter_cons.
  case_decide; simpl; by rewrite IH.
Qed.

(** A counter that takes one [atomicAdd] per item, at the cell the item
    selects. *)
Lemma atomicAdd_fold_count {A : Type} (f : A → nat) (l : list A) : ∀ c0 h,
  h < length c0 →
  rdn (foldl (λ c x, atomicAdd c (f x) 1) c0 l) h
  = rdn c0 h + length (filter (λ x, f x = h) l)
  ∧ length (foldl (λ c x, atomicAdd c (f x) 1) c0 l) = length c0.
Proof.
  induction l as [|x l IH]; intros c0 h Hh; cbn [foldl].
  - split; [|done]. rewrite filter_nil. simpl. lia.
  - destruct (IH (atomicAdd c0 (f x) 1) h) as [E L].
    { unfold atomicAdd. by rewrite length_insert. }
    rewrite E, L. unfold atomicAdd. rewrite length_insert. split; [|done].
    rewrite filter_cons. destruct (decide (f x = h)) as [Ex|Ex].
    + rewrite Ex, rdn_insert_eq by done. simpl. lia.
    + rewrite rdn_insert_ne by done. lia.
Qed.

Section CounterFacts.

Variable H : nat.
Variable l2dist : float → float → float → float → float → float → float.
Variable fsqrt : float → float.
Variables (points : list float) (dH : list Z).

(** The counters after a launch: one [atomicAdd] per point of the batch
    that has a thread, in the order of the schedule. *)
Lemma Calculate_Distances_counts_fold bd b_id b_size n sched : ∀ m,
  hub_counts
    (Calculate_Distances H l2dist fsqrt bd b_id b_size n dH points sched m)
  = foldl (λ c p, atomicAdd c
                    (nearest_hub H l2dist fsqrt points dH (p + b_id * b_size))
                    1)
          (hub_counts m)
          (filter (λ p, p < min b_size (n - b_id * b_size))
                  (global_idx bd <$> sched)).
Proof.
  induction sched as [|th sched IH]; intros m; [done|].
  change (Calculate_Distances H l2dist fsqrt bd b_id b_size n dH points
            (th :: sched) m)
    with (Calculate_Distances H l2dist fsqrt bd b_id b_size n dH points sched
            (Calculate_Distances_thread H l2dist fsqrt bd b_id b_size n dH
               points th m)).
  rewrite IH, Calculate_Distances_thread_eq. cbv zeta.
  rewrite fmap_cons, filter_cons.
  destruct (decide (global_idx bd th < min b_size (n - b_id * b_size)))
    as [Hin|Hout].
  - rewrite decide_True by lia. done.
  - rewrite decide_False by lia. done.
Qed.

Lemma Calculate_Distances_counts_grid nb bd b_id b_size n sched m h :
  sched ≡ₚ grid nb bd → b_size ≤ nb * bd → h < length (hub_counts m) →
  let m' :=
    Calculate_Distances H l2dist fsqrt bd b_id b_size n dH points sched m in
  rdn (hub_counts m') h
  = rdn (hub_counts m) h
    + length (filter
                (λ p, nearest_hub H l2dist fsqrt points dH
                        (p + b_id * b_size) = h)
                (seq 0 (min b_size (n - b_id * b_size))))
  ∧ length (hub_counts m') = length (hub_counts m).
Proof.
  intros Hsched Hcover Hh. cbv zeta.
  rewrite Calculate_Distances_counts_fold.
  destruct (atomicAdd_fold_count
              (λ p, nearest_hub H l2dist fsqrt points dH (p + b_id * b_size))
              (filter (λ p, p < min b_size (n - b_id * b_size))
                      (global_idx bd <$> sched))
              (hub_counts m) h Hh) as [E L].
  rewrite E, L. split; [|done]. f_equal.
  apply Permutation_length, filter_Permutation.
  apply (grid_schedule_points nb); [done|lia].
Qed.

(** X6. Whatever the order in which the threads of the launch run, the
    counter of every hub grows by the number of points of the batch that
    are assigned to it, and the table of the counters keeps its size. *)
Theorem Calculate_Distances_counts nb bd b_id b_size n sched m h :
  sched ≡ₚ grid nb bd → b_size ≤ nb * bd → h < length (hub_counts m) →
  let m' :=
    Calculate_Distances H l2dist fsqrt bd b_id b_size n dH points sched m in
  rdn (hub_counts m') h
  = rdn (hub_counts m) h
    + length (filter
                (λ p, nearest_hub H l2dist fsqrt points dH
                        (p + b_id * b_size) = h)
                (seq 0 (min b_size (n - b_id * b_size))))
  ∧ length (hub_counts m') = length (hub_counts m).
Proof. apply Calculate_Distances_counts_grid. Qed.

End CounterFacts.
(** ** The counters and the assignments after the batch loop *)

Lemma filter_ext_in {A : Type} (P Q : A → Prop)
    `{∀ x, Decision (P x)} `{∀ x, Decision (Q x)} (l : list A) :
  (∀ x, x ∈ l → P x ↔ Q x) → filter P l = filter Q l.
Proof.
  induction l as [|x l IH]; intros Hl; [done|]. rewrite !filter_cons.
  rewrite IH by (intros y Hy; apply Hl; by right).
  pose proof (Hl x ltac:(by left)) as Hx.
  destruct (decide (P x)), (decide (Q x)); tauto.
Qed.

Section IndexCounts.

Variable H : nat.
Variable l2dist : float → float → float → float → float → float → float.
Variable fsqrt : float → float.
Variables (points : list float) (dH : list Z).

Lemma index_batches_counts b_size n smem dists0 D0 k :
  0 < b_size → length dists0 = H * b_size →
  let st := foldl (index_batch H l2dist fsqrt b_size n dH points smem)
              ({| distances := dists0;
                  hub_counts := replicate (H + 1) 0;
                  dH_assignments := replicate n 0 |},
               set_max_float (H * H) D0) (seq 0 k) in
  cd_lengths (H * b_size) n st.1 ∧ length (hub_counts st.1) = H + 1 ∧
  (∀ idx, idx < n → idx < k * b_size →
     dH_assignments st.1 !! idx
     = Some (nearest_hub H l2dist fsqrt points dH idx)) ∧
  (∀ h, h ≤ H →
     rdn (hub_counts st.1) h
     = length (filter (λ idx, nearest_hub H l2dist fsqrt points dH idx = h)
                      (seq 0 (min n (k * b_size))))).
Proof.
  intros Hbs Hld. induction k as [|k IH].
  - simpl. split; [|split; [|split]].
    + split; simpl; [done|apply length_replicate].
    + apply length_replicate.
    + intros idx _ Hk. lia.
    + intros h Hh. rewrite Nat.min_0_r. simpl. unfold rdn.
      apply rd_lookup, lookup_replicate. split; [done|lia].
  - rewrite seq_S, foldl_app. cbn [foldl Nat.add].
    destruct (foldl (index_batch H l2dist fsqrt b_size n dH points smem)
      ({| distances := dists0; hub_counts := replicate (H + 1) 0;
          dH_assignments := replicate n 0 |}, set_max_float (H * H) D0)
      (seq 0 k)) as [m D] eqn:Est.
    destruct IH as (Hlen & Hlc & Hassign & Hcount).
    cbn [fst snd] in *. unfold index_batch. cbn [fst snd].
    set (m' := Calculate_Distances H l2dist fsqrt block_size k b_size n dH
                 points (grid ((b_size + block_size - 1) / block_size)
                              block_size) m).
    assert (b_size ≤ (b_size + block_size - 1) / block_size * block_size)
      as Hcov.
    { pose proof (ceil_blocks_cover b_size block_size).
      unfold block_size in *. lia. }
    assert (∀ p, p < b_size →
              ∃ th, th ∈ grid ((b_size + block_size - 1) / block_size)
                              block_size
                    ∧ global_idx block_size th = p) as Hcover.
    { intros p Hp. apply grid_covers; [unfold block_size; lia|lia]. }
    split; [by apply Calculate_Distances_lengths|].
    assert (∀ h, h ≤ H →
              rdn (hub_counts m') h
              = rdn (hub_counts m) h
                + length (filter
                    (λ p, nearest_hub H l2dist fsqrt points dH
                            (p + k * b_size) = h)
                    (seq 0 (min b_size (n - k * b_size))))
              ∧ length (hub_counts m') = length (hub_counts m)) as Hstep.
    { intros h Hh.
      apply (Calculate_Distances_counts_grid H l2dist fsqrt points dH
               ((b_size + block_size - 1) / block_size)); [done|done|lia]. }
    split; [by rewrite (proj2 (Hstep 0 ltac:(lia)))|]. split.
    + intros idx Hidx Hk. destruct (decide (idx < k * b_size)) as [Hold|Hnew].
      * apply Calculate_Distances_assignment_stable. by apply Hassign.
      * replace idx with ((idx - k * b_size) + k * b_size) by lia.
        eapply Calculate_Distances_assignment; try done; try lia.
        apply Hcover. lia.
    + intros h Hh. rewrite (proj1 (Hstep h Hh)), Hcount by done.
      replace (min n (S k * b_size))
        with (min n (k * b_size) + min b_size (n - k * b_size)) by lia.
      rewrite seq_app, list.filter_app, length_app. f_equal.
      destruct (decide (n ≤ k * b_size)) as [Hfull|Hmore].
      * by replace (min b_size (n - k * b_size)) with 0 by lia.
      * replace (0 + min n (k * b_size)) with (k * b_size + 0) by lia.
        rewrite <- fmap_add_seq, filter_fmap_length.
        f_equal. apply filter_ext_in. intros p _.
        by rewrite (Nat.add_comm (k * b_size) p).
Qed.

Lemma index_tables_counts b_size n smem dists0 D0 :
  0 < b_size → length dists0 = H * b_size →
  let m := (index_tables H l2dist fsqrt b_size n dH points smem dists0 D0).1 in
  length (hub_counts m) = H + 1 ∧ length (dH_assignments m) = n ∧
  (∀ idx, idx < n →
     rdn (dH_assignments m) idx
     = nearest_hub H l2dist fsqrt points dH idx) ∧
  (∀ h, h ≤ H →
     rdn (hub_counts m) h = hub_population (dH_assignments m) n h).
Proof.
  intros Hbs Hld. cbv zeta. unfold index_tables.
  destruct (index_batches_counts b_size n smem dists0 D0
              ((n + b_size - 1) / b_size) Hbs Hld)
    as ((_ & Hla) & Hlc & Hassign & Hcount).
  pose proof (ceil_blocks_cover n b_size Hbs) as Hcov.
  set (m := (foldl _ _ _).1) in *.
  assert (∀ idx, idx < n →
            rdn (dH_assignments m) idx
            = nearest_hub H l2dist fsqrt points dH idx) as Hnear.
  { intros idx Hidx. unfold rdn. apply rd_lookup, Hassign; lia. }
  split; [done|]. split; [done|]. split; [done|].
  intros h Hh. rewrite Hcount by done.
  replace (min n ((n + b_size - 1) / b_size * b_size)) with n by lia.
  unfold hub_population, assigned_count. f_equal.
  apply filter_ext_in. intros idx Hidx. apply elem_of_seq in Hidx.
  by rewrite Hnear by lia.
Qed.

(** X7. Once the batch loop of [C_and_Q] is over, whatever the batch
    size, every point is assigned its nearest hub, and the counter of every
    hub is the number of points assigned to it, the population of the
    hub. *)
Theorem index_tables_counters b_size n smem dists0 D0 :
  0 < b_size → length dists0 = H * b_size →
  let m := (index_tables H l2dist fsqrt b_size n dH points smem dists0 D0).1 in
  length (hub_counts m) = H + 1 ∧ length (dH_assignments m) = n ∧
  (∀ idx, idx < n →
     rdn (dH_assignments m) idx
     = nearest_hub H l2dist fsqrt points dH idx) ∧
  (∀ h, h ≤ H →
     rdn (hub_counts m) h = hub_population (dH_assignments m) n h).
Proof. apply index_tables_counts. Qed.

End IndexCounts.
(** ** The coordinates in the buckets and the cursors *)

Lemma BucketSort_point_lengths points assignments n m x :
  bucket_lengths n m →
  bucket_lengths n (BucketSort_point points assignments m x).
Proof.
  intros (L1 & L2 & L3 & L4). unfold bucket_lengths, BucketSort_point.
  cbn [arr_idx arr_x arr_y arr_z]. by rewrite !length_insert.
Qed.

Lemma BucketSort_point_new points assignments n m x :
  bucket_lengths n m → rdn (bs_cursor m) (rdn assignments x) < n →
  bucket_holds points (BucketSort_point points assignments m x)
    (rdn (bs_cursor m) (rdn assignments x)) x.
Proof.
  intros (L1 & L2 & L3 & L4) Hloc. unfold bucket_holds, BucketSort_point.
  cbn [arr_idx arr_x arr_y arr_z].
  repeat split; apply list_lookup_insert_eq; lia.
Qed.

Lemma BucketSort_point_old points assignments m x loc y :
  rdn (bs_cursor m) (rdn assignments x) ≠ loc →
  bucket_holds points m loc y →
  bucket_holds points (BucketSort_point points assignments m x) loc y.
Proof.
  intros Hne (E1 & E2 & E3 & E4). unfold bucket_holds, BucketSort_point.
  cbn [arr_idx arr_x arr_y arr_z]. by rewrite !list_lookup_insert_ne.
Qed.

Section BucketCoords.

Variables (H n : nat) (points : list float) (assignments off : list nat).

Hypothesis assignments_valid : ∀ idx, idx < n → rdn assignments idx < H.
Hypothesis off_length : length off = H + 1.
Hypothesis off_exclusive :
  ∀ h, h ≤ H → rdn off h = sum_upto (hub_population assignments n) h.

(** The loop over the points, with the coordinates and the cursors. *)
Lemma BucketSort_points_coords rest : ∀ done m,
  (∀ h, assigned_count assignments (done ++ rest) h
        = hub_population assignments n h) →
  (∀ x, x ∈ done ++ rest → x < n) →
  bucket_lengths n m → length (bs_cursor m) = H + 1 →
  (∀ h, h < H →
     rdn (bs_cursor m) h = rdn off h + assigned_count assignments done h) →
  (∀ x, x ∈ done → ∃ loc,
     rdn off (rdn assignments x) ≤ loc
     ∧ loc < rdn off (rdn assignments x)
             + assigned_count assignments done (rdn assignments x)
     ∧ bucket_holds points m loc x) →
  let m' := foldl (BucketSort_point points assignments) m rest in
  bucket_lengths n m' ∧
  (∀ h, h < H → rdn (bs_cursor m') h = rdn off (h + 1)) ∧
  ∀ x, x ∈ done ++ rest → ∃ loc,
    bucket_holds points m' loc x
    ∧ rdn off (rdn assignments x) ≤ loc < rdn off (rdn assignments x + 1).
Proof.
  pose proof (off_next H n assignments off off_length off_exclusive)
    as Hnext.
  pose proof (off_mono H n assignments off off_length off_exclusive)
    as Hmono.
  pose proof (off_total H n assignments off assignments_valid off_length
                off_exclusive) as Htot.
  induction rest as [|x rest IH];
    intros done m Hcount Hlt Hlen Hlc Hcur Hplaced.
  - cbn [foldl]. rewrite app_nil_r in *. split; [done|]. split.
    + intros h Hh. rewrite Hcur, Hcount, Hnext by done. done.
    + intros y Hy. destruct (Hplaced y Hy) as (loc & Hlo & Hhi & Hloc).
      exists loc. split; [done|]. rewrite Hcount in Hhi.
      rewrite Hnext by (apply assignments_valid, Hlt, Hy). lia.
  - cbn [foldl]. cbv zeta in IH.
    assert (x < n) as Hx by (apply Hlt, elem_of_app; right; left).
    pose proof (assignments_valid x Hx) as Hh.
    assert (∀ h', assigned_count assignments done h'
                  + (if decide (rdn assignments x = h') then 1 else 0)
                  ≤ hub_population assignments n h') as Hroom.
    { intros h'. rewrite <- Hcount.
      rewrite assigned_count_app, assigned_count_cons. lia. }
    assert (∀ h', assigned_count assignments (done ++ [x]) h'
                  = assigned_count assignments done h'
                    + (if decide (rdn assignments x = h') then 1 else 0))
      as Hdone'.
    { intros h'. rewrite assigned_count_app, assigned_count_cons,
        assigned_count_nil. lia. }
    pose proof (Hroom (rdn assignments x)) as Hroom_h.
    rewrite decide_True in Hroom_h by done.
    pose proof (Hmono (rdn assignments x + 1) H ltac:(lia) ltac:(lia))
      as Hseg.
    rewrite Hnext in Hseg by done.
    assert (rdn (bs_cursor m) (rdn assignments x) < n) as Hloc
      by (rewrite Hcur by done; lia).
    replace (done ++ x :: rest) with ((done ++ [x]) ++ rest) in *
      by (by rewrite <- app_assoc).
    apply IH; try done.
    + by apply BucketSort_point_lengths.
    + unfold BucketSort_point. cbn [bs_cursor]. unfold atomicAdd.
      by rewrite length_insert.
    + intros h' Hh'. unfold BucketSort_point. cbn [bs_cursor].
      rewrite Hdone'. unfold atomicAdd.
      destruct (decide (rdn assignments x = h')) as [<-|Hne].
      * rewrite rdn_insert_eq by lia. rewrite Hcur by done. lia.
      * rewrite rdn_insert_ne by done. rewrite Hcur by done. lia.
    + intros y Hy. apply elem_of_app in Hy as [Hy|Hy].
      * destruct (Hplaced y Hy) as (loc & Hlo & Hhi & Hholds).
        exists loc. split; [done|]. split; [rewrite Hdone'; lia|].
        apply BucketSort_point_old; [|done].
        rewrite Hcur by done.
        assert (y < n) as Hyn
          by (apply Hlt, elem_of_app; left; apply elem_of_app; by left).
        pose proof (assignments_valid y Hyn) as Hhy.
        pose proof (Hroom (rdn assignments y)) as Hry.
        destruct (decide (rdn assignments y = rdn assignments x)) as [E|Hne].
        -- rewrite E in *. lia.
        -- rewrite decide_False in Hry by done.
           destruct (decide (rdn assignments y < rdn assignments x)).
           ++ pose proof (Hmono (rdn assignments y + 1) (rdn assignments x)
                            ltac:(lia) ltac:(lia)) as Hm.
              rewrite Hnext in Hm by done. lia.
           ++ pose proof (Hmono (rdn assignments x + 1) (rdn assignments y)
                            ltac:(lia) ltac:(lia)) as Hm.
              rewrite Hnext in Hm by done. lia.
      * apply list_elem_of_singleton in Hy as ->.
        exists (rdn (bs_cursor m) (rdn assignments x)).
        rewrite Hcur at 1 2 by done. split; [lia|]. split.
        -- rewrite Hdone'. rewrite decide_True by done. lia.
        -- by apply (BucketSort_point_new points assignments n).
Qed.

(** The launch under a schedule of its grid. *)
Lemma BucketSort_placed sched m :
  bs_cursor m = off → bucket_lengths n m →
  sched ≡ₚ bucket_grid n →
  let m' := BucketSort n points assignments sched m in
  bucket_lengths n m' ∧
  arr_idx m' ≡ₚ seq 0 n ∧
  (∀ h, h < H → rdn (bs_cursor m') h = rdn off (h + 1)) ∧
  ∀ p, p < n → ∃ loc,
    bucket_holds points m' loc p
    ∧ rdn off (rdn assignments p) ≤ loc < rdn off (rdn assignments p + 1).
Proof.
  intros Hcur Hlen Hsched. cbv zeta. rewrite BucketSort_points.
  pose proof (bucket_schedule_points n sched Hsched) as Hperm.
  set (idxs := filter (λ idx, idx < n) (global_idx block_size <$> sched)) in *.
  destruct (BucketSort_points_coords idxs [] m) as (Hlen' & Hcur' & Hplaced).
  - intros h. cbn [app]. unfold hub_population.
    by apply assigned_count_perm.
  - intros x Hx. cbn [app] in Hx. rewrite Hperm in Hx.
    apply elem_of_seq in Hx. lia.
  - done.
  - by rewrite Hcur.
  - intros h Hh. rewrite Hcur, assigned_count_nil. lia.
  - intros x Hx. by apply elem_of_nil in Hx.
  - cbn [app] in Hplaced. split; [done|]. split; [|split; [done|]].
    + symmetry. apply submseteq_length_Permutation.
      * apply NoDup_submseteq; [apply NoDup_seq|].
        intros p Hp. assert (p ∈ idxs) as Hin by by rewrite Hperm.
        destruct (Hplaced p Hin) as (loc & (Hloc & _) & _).
        by eapply list_elem_of_lookup_2.
      * destruct Hlen' as [-> _]. by rewrite length_seq.
    + intros p Hp. apply Hplaced. rewrite Hperm. apply elem_of_seq. lia.
Qed.

(** X8. Started on cursors that are the exclusive prefix sums of the
    populations, the scatter leaves every point in a cell of the segment
    of its hub together with its three coordinates, and every cursor at
    the start of the next segment, under every schedule. *)
Theorem BucketSort_coordinates sched m :
  bs_cursor m = off → bucket_lengths n m →
  sched ≡ₚ bucket_grid n →
  let m' := BucketSort n points assignments sched m in
  (∀ h, h < H → rdn (bs_cursor m') h = rdn off (h + 1)) ∧
  ∀ p, p < n → ∃ loc,
    rdn off (rdn assignments p) ≤ loc < rdn off (rdn assignments p + 1)
    ∧ rdn (arr_idx m') loc = p
    ∧ rdf (arr_x m') loc = rdf points (p * dim + 0)
    ∧ rdf (arr_y m') loc = rdf points (p * dim + 1)
    ∧ rdf (arr_z m') loc = rdf points (p * dim + 2).
Proof.
  intros Hcur Hlen Hsched. cbv zeta.
  destruct (BucketSort_placed sched m Hcur Hlen Hsched)
    as (_ & _ & Hcur' & Hplaced).
  split; [done|]. intros p Hp.
  destruct (Hplaced p Hp) as (loc & (E1 & E2 & E3 & E4) & Hseg).
  exists loc. split; [done|]. unfold rdn, rdf.
  by rewrite (rd_lookup _ _ _ _ E1), (rd_lookup _ _ _ _ E2),
    (rd_lookup _ _ _ _ E3), (rd_lookup _ _ _ _ E4).
Qed.

End BucketCoords.
(** ** The index C_and_Q builds *)

Section PipelineFacts.

Variables (H e : nat).
Variable l2dist : float → float → float → float → float → float → float.
Variable fsqrt : float → float.
Variable warp_sort : bool → list sort_cell → list sort_cell.
Variable ahead : nat → nat → bool.

Lemma nearest_hub_valid points dH idx :
  (∃ h, h < H
        ∧ flt (hub_distance l2dist fsqrt points dH idx h) FLT_MAX = true) →
  nearest_hub H l2dist fsqrt points dH idx < H.
Proof.
  intros (h & Hh & Hfin). unfold nearest_hub.
  destruct (nearest_fold H l2dist fsqrt points dH idx H)
    as [[_ Hnone]|(Ha & _)]; [|done].
  rewrite Hnone in Hfin by done. done.
Qed.

(** With at most 2048 hubs and every point at a distance below [FLT_MAX]
    of a hub, no assertion of the batch loop fails. *)
Lemma index_tables_asserts_ok b_size n dH data smem dists0 D0 :
  0 < H → H ≤ 2048 → 0 < b_size → length dists0 = H * b_size →
  (∀ idx, idx < n → nearest_hub H l2dist fsqrt data dH idx < H) →
  index_tables_asserts H l2dist fsqrt b_size n dH data smem dists0 D0 = true.
Proof.
  intros HH0 HH Hbs Hld Hnear. unfold index_tables_asserts. cbv zeta.
  apply forallb_forall. intros b _.
  unfold index_batch_asserts, Calculate_Distances_asserts,
    Construct_D_asserts. cbv zeta.
  rewrite !bool_decide_eq_true_2 by (unfold block_size; lia).
  cbn [andb]. apply forallb_forall. intros p Hp.
  apply in_seq in Hp.
  destruct (decide (n ≤ b * b_size + p)) as [Hout|Hin];
    [by rewrite bool_decide_eq_true_2|].
  rewrite (bool_decide_eq_true_2 (_ < H)); [apply orb_true_r|].
  destruct (index_batches_counts H l2dist fsqrt data dH b_size n smem
              dists0 D0 b Hbs Hld) as (Hlen & _).
  cbv zeta in Hlen.
  replace (b * b_size + p) with (p + b * b_size) by lia.
  unfold rdn.
  erewrite (rd_lookup _ _ _ 0).
  2:{ eapply (Calculate_Distances_assignment H l2dist fsqrt data dH);
        [exact Hlen| |lia|lia].
      apply grid_covers; [unfold block_size; lia|].
      pose proof (ceil_blocks_cover b_size block_size).
      unfold block_size in *. lia. }
  apply Hnear. lia.
Qed.

Lemma build_index_tables al b_size n data :
  H = 2 ^ e → 5 ≤ e →
  e ≤ 10 ∨ (e ≤ 11 ∧ ∀ c w, ahead c w = false) →
  0 < b_size →
  length (al_distances al) = H * b_size →
  warp_size + 1 ≤ length (al_smem_psum al) →
  bucket_lengths n
    {| arr_x := al_arr_x al; arr_y := al_arr_y al; arr_z := al_arr_z al;
       arr_idx := al_arr_idx al; bs_cursor := [] |} →
  let dH := Randomly_Select_Hubs H (Z.of_nat n) (hubs_grid H) (al_dH al) in
  (∀ idx, idx < n →
     ∃ h, h < H
          ∧ flt (hub_distance l2dist fsqrt data dH idx h) FLT_MAX = true) →
  let tables := index_tables H l2dist fsqrt b_size n dH data
                  (al_smem_D al) (al_distances al) (al_D al) in
  ∃ ix,
  build_index H l2dist fsqrt warp_sort ahead al b_size n data = Some ix
  ∧ (ix_points ix = data ∧ ix_dH ix = dH
     ∧ ix_iD ix = (fused_transform_sort_D H warp_sort tables.2).1
     ∧ ix_dD ix = (fused_transform_sort_D H warp_sort tables.2).2
     ∧ ix_assignments ix = dH_assignments tables.1)
  ∧ (∀ idx, idx < n →
       rdn (ix_assignments ix) idx = nearest_hub H l2dist fsqrt data dH idx
       ∧ rdn (ix_assignments ix) idx < H)
  ∧ length (ix_dH_psum ix) = H + 1
  ∧ (∀ h, h ≤ H →
       rdn (ix_dH_psum ix) h
       = sum_upto (hub_population (ix_assignments ix) n) h)
  ∧ rdn (ix_dH_psum ix) H = n
  ∧ ix_arr_idx ix ≡ₚ seq 0 n
  ∧ (∀ p, p < n → ∃ loc,
       rdn (ix_dH_psum ix) (rdn (ix_assignments ix) p) ≤ loc
       < rdn (ix_dH_psum ix) (rdn (ix_assignments ix) p + 1)
       ∧ rdn (ix_arr_idx ix) loc = p
       ∧ rdf (ix_arr_x ix) loc = rdf data (p * dim + 0)
       ∧ rdf (ix_arr_y ix) loc = rdf data (p * dim + 1)
       ∧ rdf (ix_arr_z ix) loc = rdf data (p * dim + 2)).
Proof.
  intros HH He Hquiet Hbs Hld Hls Hlen dH Hfin tables.
  assert (0 < H) as HH0 by (rewrite HH; apply pow2_pos).
  assert (H ≤ 2048) as HH2.
  { rewrite HH. change 2048 with (2 ^ 11).
    apply Nat.pow_le_mono_r; lia. }
  assert (e ≤ 10 ∨ (∀ c w, ahead c w = false)) as Hquiet'
    by (destruct Hquiet as [?|[_ ?]]; [by left|by right]).
  destruct (index_tables_counts H l2dist fsqrt data dH b_size n
              (al_smem_D al) (al_distances al) (al_D al) Hbs Hld)
    as (Hlc & Hla & Hnear & Hpop).
  fold tables in Hlc, Hla, Hnear, Hpop.
  assert (∀ idx, idx < n → rdn (dH_assignments tables.1) idx < H) as Hvalid.
  { intros idx Hidx. rewrite Hnear by done.
    by apply nearest_hub_valid, Hfin. }
  destruct (prefix_sum_step_tables H ahead e (al_smem_psum al)
              (hub_counts tables.1) (replicate (H + 1) 0)
              (replicate (H + 1) 0) HH He Hquiet' Hlc
              (length_replicate _ _) (length_replicate _ _) Hls)
    as (psums & Epsums & Hlo & Hsame & Hsum).
  unfold build_index. fold dH. fold tables.
  rewrite index_tables_asserts_ok; try done.
  2:{ intros idx Hidx. by apply nearest_hub_valid, Hfin. }
  rewrite Epsums. cbn [mbind option_bind].
  eexists. split; [reflexivity|].
  cbn [ix_points ix_dH ix_iD ix_dD ix_assignments ix_dH_psum ix_arr_idx
       ix_arr_x ix_arr_y ix_arr_z].
  split; [done|].
  assert (∀ h, h ≤ H →
            rdn psums.1 h
            = sum_upto (hub_population (dH_assignments tables.1) n) h)
    as Hoff.
  { intros h Hh. rewrite Hsum by done.
    rewrite <- sum_upto_take by lia.
    apply sum_upto_ext. intros i Hi. apply Hpop. lia. }
  destruct Hlen as (L1 & L2 & L3 & L4). cbn [arr_idx arr_x arr_y arr_z] in *.
  destruct (BucketSort_placed H n data (dH_assignments tables.1) psums.1
              Hvalid Hlo Hoff (bucket_grid n)
              {| arr_x := al_arr_x al; arr_y := al_arr_y al;
                 arr_z := al_arr_z al; arr_idx := al_arr_idx al;
                 bs_cursor := psums.2 |})
    as (_ & Hperm & _ & Hplaced); [done|by repeat split|done|].
  split; [|split; [done|split; [done|split; [|split]]]].
  - intros idx Hidx. split; [by apply Hnear|by apply Hvalid].
  - by apply (off_total H n (dH_assignments tables.1)).
  - exact Hperm.
  - intros p Hp.
    destruct (Hplaced p Hp) as (loc & (E1 & E2 & E3 & E4) & Hseg).
    exists loc. split; [done|]. unfold rdn, rdf.
    split; [exact (rd_lookup _ _ _ _ E1)|].
    split; [exact (rd_lookup _ _ _ _ E2)|].
    split; [exact (rd_lookup _ _ _ _ E3)|exact (rd_lookup _ _ _ _ E4)].
Qed.

(** X9. The stages of [C_and_Q] fit together.  For [H] a power of two
    from 32 to 1024 (or 2048 when no warp of the prefix-sum kernel runs
    ahead of the others), a data set that is not empty and points that
    each have a hub at a distance below [FLT_MAX]: no kernel fails an assertion and the index is built;
    in it every point is assigned its nearest hub; [dH_psum] holds the
    exclusive prefix sums of the hub populations and ends with [n]; the
    bucketed identifiers are a permutation of [0, n); and every point
    sits, with its coordinates, in the segment of its hub. *)
Theorem build_index_buckets al b_size n data :
  H = 2 ^ e → 5 ≤ e →
  e ≤ 10 ∨ (e ≤ 11 ∧ ∀ c w, ahead c w = false) →
  0 < b_size → 0 < n →
  length (al_distances al) = H * b_size →
  warp_size + 1 ≤ length (al_smem_psum al) →
  bucket_lengths n
    {| arr_x := al_arr_x al; arr_y := al_arr_y al; arr_z := al_arr_z al;
       arr_idx := al_arr_idx al; bs_cursor := [] |} →
  let dH := Randomly_Select_Hubs H (Z.of_nat n) (hubs_grid H) (al_dH al) in
  (∀ idx, idx < n →
     ∃ h, h < H
          ∧ flt (hub_distance l2dist fsqrt data dH idx h) FLT_MAX = true) →
  ∃ ix,
  build_index H l2dist fsqrt warp_sort ahead al b_size n data = Some ix
  ∧ (∀ idx, idx < n →
       rdn (ix_assignments ix) idx = nearest_hub H l2dist fsqrt data dH idx
       ∧ rdn (ix_assignments ix) idx < H)
  ∧ length (ix_dH_psum ix) = H + 1
  ∧ (∀ h, h ≤ H →
       rdn (ix_dH_psum ix) h
       = sum_upto (hub_population (ix_assignments ix) n) h)
  ∧ rdn (ix_dH_psum ix) H = n
  ∧ ix_arr_idx ix ≡ₚ seq 0 n
  ∧ (∀ p, p < n → ∃ loc,
       rdn (ix_dH_psum ix) (rdn (ix_assignments ix) p) ≤ loc
       < rdn (ix_dH_psum ix) (rdn (ix_assignments ix) p + 1)
       ∧ rdn (ix_arr_idx ix) loc = p
       ∧ rdf (ix_arr_x ix) loc = rdf data (p * dim + 0)
       ∧ rdf (ix_arr_y ix) loc = rdf data (p * dim + 1)
       ∧ rdf (ix_arr_z ix) loc = rdf data (p * dim + 2)).
Proof.
  intros HH He Hquiet Hbs Hn Hld Hls Hlen dH Hfin.
  destruct (build_index_tables al b_size n data HH He Hquiet Hbs Hld Hls
              Hlen Hfin) as (ix & Eix & _ & Hrest).
  by exists ix.
Qed.

End PipelineFacts.
(** ** The hub distance matrix after a launch *)

Section ConstructDBound.

Variable H : nat.

Lemma Construct_D_block_sentinel bd smem dists assignments b_id b_size n
    (D : list float) hub_id j :
  0 < bd → H ≤ length smem →
  (∀ p, p < b_size → b_id * b_size + p < n →
        (0 ≤ rdf dists (hub_id * b_size + p) < 2 ^ 31)%Z) →
  (∀ c, (0 ≤ rdf D c < 2 ^ 31)%Z) →
  j < H → H * hub_id + j < length D →
  (rdf (Construct_D_block H bd smem dists assignments b_id b_size n D hub_id)
       (H * hub_id + j)
   ≤ D_sentinel)%Z.
Proof.
  intros Hbd Hlen Hd HD Hj Hc. unfold Construct_D_block.
  etrans.
  - apply Construct_D_merge_cell; try done.
    + by rewrite Construct_D_scan_length, Construct_D_init_length.
    + intros j' Hj'. apply Construct_D_scan_lower.
      * intros q Hq Hqidx. rewrite float_as_int_nonneg.
        -- apply Hd; [|done]. by eapply strided_below.
        -- apply Hd; [|done]. by eapply strided_below.
      * rewrite Construct_D_init_slots by done. done.
  - etrans; [apply Construct_D_scan_le|].
    by rewrite Construct_D_init_slots.
Qed.

(** X10. A launch of [Construct_D] on non-negative distances keeps the
    size of [D], lowers its cells or leaves them, never below zero, and
    leaves no cell above the sentinel 0x7f000000 the shared row starts
    with: after the first batch no cell holds [FLT_MAX] any more, and a
    pair of hubs with no point holds the sentinel. *)
Theorem Construct_D_bounded bd (smem : nat → list Z) dists assignments
    b_id b_size n (D : list float) :
  0 < bd → (∀ hub, H ≤ length (smem hub)) → length D = H * H →
  (∀ hub p, hub < H → p < b_size → b_id * b_size + p < n →
        (0 ≤ rdf dists (hub * b_size + p) < 2 ^ 31)%Z) →
  (∀ c, (0 ≤ rdf D c < 2 ^ 31)%Z) →
  let D' := Construct_D H bd smem dists assignments b_id b_size n D in
  length D' = length D ∧ (∀ c, (0 ≤ rdf D' c ≤ rdf D c)%Z) ∧
  (∀ i j, i < H → j < H → (rdf D' (H * i + j) ≤ D_sentinel)%Z
                          ∧ (rdf D' (H * i + j) < FLT_MAX)%Z).
Proof.
  intros Hbd Hsm HlenD Hd HD. cbv zeta.
  destruct (Construct_D_launch H bd smem dists assignments b_id b_size n D
              Hbd Hsm HlenD Hd HD) as (Hl & Hr & _).
  split; [done|]. split; [done|].
  assert (∀ (D1 : list float) hub, hub ∈ seq 0 H →
            length D1 = length D ∧ (∀ c, (0 ≤ rdf D1 c ≤ rdf D c)%Z) →
            let D2 := Construct_D_block H bd (smem hub) dists assignments
                        b_id b_size n D1 hub in
            length D2 = length D ∧ (∀ c, (0 ≤ rdf D2 c ≤ rdf D c)%Z) ∧
            (∀ c, (rdf D2 c ≤ rdf D1 c)%Z)) as Hstep.
  { intros D1 hub Hhub [Hl1 Hr1]. apply elem_of_seq in Hhub.
    destruct (Construct_D_block_range H bd (smem hub) dists assignments
                b_id b_size n D1 hub) as [Hl2 Hr2]; try done.
    - intros p Hp Hidx. apply Hd; [lia|done|done].
    - intros c. pose proof (Hr1 c). pose proof (HD c). lia.
    - simpl. split; [lia|]. split.
      + intros c. pose proof (Hr1 c). pose proof (Hr2 c). lia.
      + intros c. apply Hr2. }
  intros i j Hi Hj.
  cut (rdf (Construct_D H bd smem dists assignments b_id b_size n D)
           (H * i + j) ≤ D_sentinel)%Z.
  { intros Hle. split; [done|]. unfold D_sentinel, FLT_MAX in *. lia. }
  unfold Construct_D.
  apply (foldl_establishes
    (λ D1 : list float,
       length D1 = length D ∧ (∀ c, (0 ≤ rdf D1 c ≤ rdf D c)%Z))
    (λ D1 : list float, (rdf D1 (H * i + j) ≤ D_sentinel)%Z)
    _ (seq 0 H) i).
  - intros D1 hub Hhub HI. destruct (Hstep D1 hub Hhub HI) as (?&?&?).
    done.
  - intros D1 hub Hhub HI HP.
    destruct (Hstep D1 hub Hhub HI) as (_ & _ & Hdec).
    etrans; [apply Hdec|done].
  - intros D1 [Hl1 Hr1].
    apply Construct_D_block_sentinel; try done.
    + intros q Hq Hqidx. by apply Hd.
    + intros c. pose proof (Hr1 c). pose proof (HD c). lia.
    + rewrite Hl1, HlenD. nia.
  - apply elem_of_seq. lia.
  - split; [done|]. intros c. pose proof (HD c). lia.
Qed.

End ConstructDBound.
(** ** Hubs that coincide *)

Section HubsRepeat.

Variable H : nat.

Lemma Randomly_Select_Hubs_range (n : Z) sched dH :
  (0 < n)%Z → length dH = H → sched ≡ₚ hubs_grid H →
  Forall (λ p, (0 ≤ p < n)%Z) (Randomly_Select_Hubs H n sched dH).
Proof.
  intros Hn Hlen Hperm. apply list.Forall_lookup. intros s x Hx.
  assert (s < H) as Hs.
  { apply lookup_lt_Some in Hx.
    by rewrite Randomly_Select_Hubs_length, Hlen in Hx. }
  rewrite Randomly_Select_Hubs_slot in Hx; [| lia | lia |].
  - injection Hx as <-. apply Z.mod_pos_bound. lia.
  - destruct (grid_covers ((H + block_size - 1) / block_size) block_size s)
      as (th & Hin & Hth).
    + unfold block_size. lia.
    + pose proof (ceil_blocks_cover H block_size). unfold block_size in *.
      lia.
    + exists th. split; [|done]. by rewrite Hperm.
Qed.

(** X11. The kernel does not draw distinct hubs.  Every slot holds a
    point index below [n], and with fewer points than hubs two slots of
    the hub list hold the same point: the list has a repetition, under
    every schedule. *)
Theorem Randomly_Select_Hubs_repeats (n : Z) sched dH :
  (0 < n < Z.of_nat H)%Z → length dH = H → sched ≡ₚ hubs_grid H →
  let hubs := Randomly_Select_Hubs H n sched dH in
  length hubs = H ∧ Forall (λ p, (0 ≤ p < n)%Z) hubs ∧ ¬ NoDup hubs.
Proof.
  intros Hn Hlen Hperm. cbv zeta.
  pose proof (Randomly_Select_Hubs_range n sched dH ltac:(lia) Hlen Hperm)
    as Hrange.
  split; [by rewrite Randomly_Select_Hubs_length|]. split; [done|].
  intros Hnd.
  assert (Randomly_Select_Hubs H n sched dH
            ⊆+ Z.of_nat <$> seq 0 (Z.to_nat n)) as Hsub.
  { apply NoDup_submseteq; [done|]. intros x Hx.
    rewrite list.Forall_forall in Hrange. specialize (Hrange x Hx).
    apply list_elem_of_fmap. exists (Z.to_nat x). split; [lia|].
    apply elem_of_seq. lia. }
  apply submseteq_length in Hsub.
  rewrite Randomly_Select_Hubs_length, length_fmap, length_seq in Hsub. lia.
Qed.

End HubsRepeat.
(** ** reassignPoints on hubs that all hold enough points *)

Section ReassignBalanced.

Variable H : nat.

(** X12. When every hub already holds at least [k] points, a launch of
    [reassignPoints] whose first block covers the points and the hubs
    runs to its end without a failing assertion and changes neither the
    counters nor the assignments. *)
Theorem reassignPoints_balanced nb bd n k dists smem counts assign :
  n ≤ bd → H ≤ bd → H ≤ length (smem 0) →
  k < n → H < reassign_shared_memory_size →
  (∀ idx, idx < n → rdn assign idx < H) →
  (∀ h, h < H → k ≤ rdn counts h) →
  reassignPoints H nb bd n k dists smem (counts, assign)
  = Some (counts, assign).
Proof.
  intros Hn HH Hsm Hk HS Hvalid Hfull. unfold reassignPoints.
  rewrite decide_True by done.
  destruct nb as [|nb]; [done|].
  rewrite <- cons_seq. cbn [foldl].
  assert (reassignPoints_block H bd n k dists smem (Some (counts, assign)) 0
          = Some (counts, assign)) as ->.
  { unfold reassignPoints_block. cbn [mbind option_bind fst].
    apply (foldl_invariant (λ r, r = Some (counts, assign))); [|done].
    intros r t Ht ->. apply elem_of_seq in Ht. cbn [mbind option_bind].
    unfold reassignPoints_thread, global_idx. cbn [fst snd].
    replace (0 * bd + t) with t by lia.
    assert ((if decide (t < n)
             then reassign_move H n k t dists
                    (reassign_snapshot H bd 0 (smem 0) counts)
                    (counts, assign)
             else Some (counts, assign)) = Some (counts, assign)) as ->.
    { case_decide as Ht'; [|done]. unfold reassign_move. cbn [fst snd].
      rewrite decide_False; [done|].
      rewrite reassign_snapshot_read by auto.
      specialize (Hfull (rdn assign t) (Hvalid t Ht')). lia. }
    cbn [mbind option_bind fst snd].
    rewrite decide_False; [done|]. intros [Ht' Hlt].
    rewrite reassign_snapshot_read in Hlt by auto.
    specialize (Hfull t Ht'). lia. }
  apply reassignPoints_blocks_idle; [done..|].
  intros b Hb. apply elem_of_seq in Hb. lia.
Qed.

End ReassignBalanced.
(** ** The output of a launch of Query *)

Section QueryOutput.

Variable H : nat.
Variable l2dist : float → float → float → float → float → float → float.
Variable fsqrt : float → float.
Variable fsub : float → float → float.
Variable ix : knn_index.
Variables (K n : nat).

Lemma Query_length Qps sched out :
  let out' :=
    Query H l2dist fsqrt fsub ix K n queries_per_block Qps sched out in
  length out'.1 = length out.1 ∧ length out'.2 = length out.2.
Proof.
  cbv zeta. unfold Query.
  apply (launch_invariant (λ o : list Z * list float,
           length o.1 = length out.1 ∧ length o.2 = length out.2));
    [|done].
  intros w o [L1 L2]. unfold Query_warp. case_decide; [done|].
  destruct (Query_writeOut_length H l2dist fsqrt fsub ix K n
              (rdn (ix_arr_idx ix) (global_idx queries_per_block w)) o)
    as [-> ->]. done.
Qed.

Lemma arr_idx_covers qp :
  ix_arr_idx ix ≡ₚ seq 0 n → qp < n → ∃ s, s < n ∧ rdn (ix_arr_idx ix) s = qp.
Proof.
  intros Hperm Hqp.
  assert (qp ∈ ix_arr_idx ix) as Hin.
  { rewrite Hperm. apply elem_of_seq. lia. }
  apply list_elem_of_lookup in Hin as [s Hs]. exists s. split.
  - apply lookup_lt_Some in Hs. by rewrite Hperm, length_seq in Hs.
  - unfold rdn. by apply nth_lookup_Some with (d := 0) in Hs.
Qed.

Lemma Query_output Qps sched out c :
  sched ≡ₚ query_grid n → ix_arr_idx ix ≡ₚ seq 0 n →
  length out.1 = K * n → length out.2 = K * n → c < K * n →
  let out' :=
    Query H l2dist fsqrt fsub ix K n queries_per_block Qps sched out in
  out'.1 !! c
  = Some (nth (c mod K) (Query_result H l2dist fsqrt fsub ix K n (c / K))
              (FLT_MAX, (-1)%Z)).2 ∧
  out'.2 !! c
  = Some (nth (c mod K) (Query_result H l2dist fsqrt fsub ix K n (c / K))
              (FLT_MAX, (-1)%Z)).1.
Proof.
  intros Hsched Hperm L1 L2 Hc. cbv zeta.
  assert (0 < K) as HK by (destruct K; lia).
  assert (c / K < n) as Hq by (apply Nat.Div0.div_lt_upper_bound; lia).
  destruct (arr_idx_covers (c / K) Hperm Hq) as (s & Hs & Es).
  pose proof (Nat.mod_upper_bound c K ltac:(lia)) as Hm.
  pose proof (Nat.div_mod_eq c K) as Ec.
  pose proof (Query_cell H l2dist fsqrt fsub ix K n Qps sched out s
                (c mod K) Hsched Hs Hm) as Hcell.
  cbv zeta in Hcell. rewrite Es, <- Ec in Hcell.
  apply Hcell; lia.
Qed.

(** X13. Over an index whose [arr_idx] lists every point once, a launch
    of [Query] fills the whole of the two result arrays of [K * n] cells:
    the cell [c] holds the entry [c mod K] of the result of the point
    [c / K].  So the output depends neither on the order in which the
    warps run, nor on what the result arrays held before, nor on the list
    of query points. *)
Theorem Query_schedule_independent Qps1 Qps2 sched1 sched2 out1 out2 :
  sched1 ≡ₚ query_grid n → sched2 ≡ₚ query_grid n →
  ix_arr_idx ix ≡ₚ seq 0 n →
  length out1.1 = K * n → length out1.2 = K * n →
  length out2.1 = K * n → length out2.2 = K * n →
  let out' :=
    Query H l2dist fsqrt fsub ix K n queries_per_block Qps1 sched1 out1 in
  out' = Query H l2dist fsqrt fsub ix K n queries_per_block Qps2 sched2 out2
  ∧ length out'.1 = K * n ∧ length out'.2 = K * n
  ∧ ∀ c, c < K * n →
      out'.1 !! c
      = Some (nth (c mod K)
                (Query_result H l2dist fsqrt fsub ix K n (c / K))
                (FLT_MAX, (-1)%Z)).2 ∧
      out'.2 !! c
      = Some (nth (c mod K)
                (Query_result H l2dist fsqrt fsub ix K n (c / K))
                (FLT_MAX, (-1)%Z)).1.
Proof.
  intros Hs1 Hs2 Hperm A1 A2 B1 B2. cbv zeta.
  destruct (Query_length Qps1 sched1 out1) as [LA1 LA2].
  destruct (Query_length Qps2 sched2 out2) as [LB1 LB2].
  split; [|split; [lia|split; [lia|]]].
  - rewrite (surjective_pairing (Query _ _ _ _ _ _ _ _ Qps1 sched1 out1)).
    rewrite (surjective_pairing (Query _ _ _ _ _ _ _ _ Qps2 sched2 out2)).
    f_equal; apply list_eq; intros c.
    + destruct (decide (c < K * n)) as [Hc|Hc].
      * destruct (Query_output Qps1 sched1 out1 c) as [-> _]; try done.
        destruct (Query_output Qps2 sched2 out2 c) as [-> _]; done.
      * rewrite !lookup_ge_None_2; [done|lia|lia].
    + destruct (decide (c < K * n)) as [Hc|Hc].
      * destruct (Query_output Qps1 sched1 out1 c) as [_ ->]; try done.
        destruct (Query_output Qps2 sched2 out2 c) as [_ ->]; done.
      * rewrite !lookup_ge_None_2; [done|lia|lia].
  - intros c Hc. by apply Query_output.
Qed.

End QueryOutput.
(** ** What C_and_Q returns *)

Lemma Query_dispatch_Some k : 1 ≤ k ≤ 160 → is_Some (Query_dispatch k).
Proof.
  intros Hk. unfold Query_dispatch.
  destruct (CEIL_DIV k warp_size) as [|[|[|[|[|[|r]]]]]] eqn:E;
    try done; apply CEIL_DIV_warp in E; case_decide; lia.
Qed.

Section PipelineOutput.

Variables (H e : nat).
Variable l2dist : float → float → float → float → float → float → float.
Variable fsqrt : float → float.
Variable fsub : float → float → float.
Variable warp_sort : bool → list sort_cell → list sort_cell.
Variable ahead : nat → nat → bool.

(** X14. For [H] a power of two from 32 to 1024 (or 2048 when no warp of
    the prefix-sum kernel runs ahead of the others), a data set that is
    not empty, points that each have a hub at a distance below [FLT_MAX], [k] between 1 and 160 and
    result arrays of [k * n] cells: no kernel of [C_and_Q] fails an
    assertion, [C_and_Q] returns, and what it returns does not depend on
    the number and the list of the query points it is given: it answers
    for every point of the data set, the cell [c] of the result arrays
    holding the entry [c mod k] of the result of the point [c / k] over
    the index that was built. *)
Theorem C_and_Q_answers al b_size n data k results :
  H = 2 ^ e → 5 ≤ e →
  e ≤ 10 ∨ (e ≤ 11 ∧ ∀ c w, ahead c w = false) →
  0 < b_size → 0 < n →
  length (al_distances al) = H * b_size →
  warp_size + 1 ≤ length (al_smem_psum al) →
  bucket_lengths n
    {| arr_x := al_arr_x al; arr_y := al_arr_y al; arr_z := al_arr_z al;
       arr_idx := al_arr_idx al; bs_cursor := [] |} →
  let dH := Randomly_Select_Hubs H (Z.of_nat n) (hubs_grid H) (al_dH al) in
  (∀ idx, idx < n →
     ∃ h, h < H
          ∧ flt (hub_distance l2dist fsqrt data dH idx h) FLT_MAX = true) →
  1 ≤ k ≤ 160 → length results.1 = k * n → length results.2 = k * n →
  ∃ ix out,
    build_index H l2dist fsqrt warp_sort ahead al b_size n data = Some ix
    ∧ (∀ q queries,
         C_and_Q H l2dist fsqrt fsub warp_sort ahead al b_size n data
           q queries k results = Some out)
    ∧ length out.1 = k * n ∧ length out.2 = k * n
    ∧ ∀ c, c < k * n →
        out.1 !! c
        = Some (nth (c mod k)
                  (Query_result H l2dist fsqrt fsub ix k n (c / k))
                  (FLT_MAX, (-1)%Z)).2 ∧
        out.2 !! c
        = Some (nth (c mod k)
                  (Query_result H l2dist fsqrt fsub ix k n (c / k))
                  (FLT_MAX, (-1)%Z)).1.
Proof.
  intros HH He Hquiet Hb Hn Hd Hs Hl dH Hfin Hk L1 L2.
  destruct (build_index_tables H e l2dist fsqrt warp_sort ahead al b_size n
              data HH He Hquiet Hb Hd Hs Hl Hfin)
    as (ix & Eix & _ & _ & _ & _ & _ & Hperm & _).
  exists ix.
  exists (Query H l2dist fsqrt fsub ix k n queries_per_block []
            (query_grid n) results).
  split; [done|]. split; [|split; [|split]].
  - intros q queries. unfold C_and_Q. rewrite Eix.
    cbn [mbind option_bind].
    destruct (Query_dispatch_Some k Hk) as [wt ->]. reflexivity.
  - destruct (Query_length H l2dist fsqrt fsub ix k n [] (query_grid n)
                results) as [-> _]. done.
  - destruct (Query_length H l2dist fsqrt fsub ix k n [] (query_grid n)
                results) as [_ ->]. done.
  - intros c Hc. by apply Query_output.
Qed.

End PipelineOutput.
(** ** The sort on distances of any kind *)

Section SortCells.

Variables (H e : nat).
Variable warp_sort : bool → list sort_cell → list sort_cell.
Hypothesis H_pow2 : H = 2 ^ e.
Hypothesis e_warp : 5 ≤ e.
Hypothesis warp_sort_perm : warp_sort_permutes warp_sort.
Variable P : sort_cell → Prop.

Lemma sort_warps_permutes asc l r :
  length l = r * warp_size → sort_warps warp_sort asc l ≡ₚ l.
Proof.
  intros Hl. unfold sort_warps. rewrite Hl, Nat.div_mul by done.
  trans (w ← seq 0 r; warp_chunk l w); [|by rewrite (warp_chunks l r Hl)].
  apply bind_seq_Permutation. intros w Hw.
  apply warp_sort_perm, warp_chunk_length. nia.
Qed.

Lemma row_cells_perm l l' : l' ≡ₚ l → row_cells H P l → row_cells H P l'.
Proof.
  intros Hp (Hlen & Hnd & HP). unfold row_cells in *. by rewrite Hp.
Qed.

Lemma sort_warps_row_cells asc l :
  row_cells H P l → row_cells H P (sort_warps warp_sort asc l).
Proof.
  intros Hrow. eapply row_cells_perm; [|done].
  apply (sort_warps_permutes asc l (2 ^ (e - 5))).
  destruct Hrow as [-> _]. by apply H_warps.
Qed.

Lemma exchanges_row_cells c d : ∀ fuel l,
  4 + d < c → row_cells H P l →
  row_cells H P (foldl (λ l stride, merge_exchange (2 ^ c) stride l) l
                       (halving fuel (2 ^ (4 + d)))).
Proof.
  induction d as [|d IH]; intros fuel l Hdc Hrow.
  - by rewrite Nat.add_0_r, halving_16.
  - destruct fuel as [|fuel]; [done|].
    replace (4 + S d) with (S (4 + d)) in * by lia.
    rewrite halving_pow2 by lia. cbn [foldl].
    apply IH; [lia|]. destruct Hrow as (Hlen & Hnd & HP).
    split; [|split].
    + by rewrite merge_exchange_length.
    + apply merge_exchange_NoDup; [|done]. apply land_pow2_pow2. lia.
    + by apply merge_exchange_Forall.
Qed.

Lemma merge_stage_row_cells c l :
  5 ≤ c → row_cells H P l →
  row_cells H P (merge_stage warp_sort l (2 ^ S c)).
Proof.
  intros Hc Hrow. unfold merge_stage.
  assert (2 ^ S c / 2 = 2 ^ c) as ->.
  { rewrite Nat.pow_succ_r', Nat.mul_comm. by apply Nat.div_mul. }
  apply sort_warps_row_cells.
  pose proof (exchanges_row_cells (S c) (c - 4) (2 ^ S c) l) as Hex.
  replace (4 + (c - 4)) with c in Hex by lia.
  apply Hex; [lia|done].
Qed.

Lemma merge_stages_row_cells d : ∀ c fuel l,
  5 ≤ c → c + d = e → row_cells H P l →
  row_cells H P (foldl (merge_stage warp_sort) l (doubling fuel (2 ^ S c) H)).
Proof.
  induction d as [|d IH]; intros c fuel l Hc Hcd Hrow.
  - assert (c = e) as -> by lia.
    assert (doubling fuel (2 ^ S e) H = []) as ->; [|done].
    destruct fuel; [done|]. cbn [doubling].
    rewrite decide_False; [done|].
    rewrite H_pow2, Nat.pow_succ_r'. pose proof (pow2_pos e). lia.
  - destruct fuel as [|fuel]; [done|]. cbn [doubling].
    case_decide; [|done].
    cbn [foldl]. rewrite <- Nat.pow_succ_r'.
    apply IH; [lia|lia|]. by apply merge_stage_row_cells.
Qed.

End SortCells.

Section SortPermutes.

Variables (H e : nat).
Variable warp_sort : bool → list sort_cell → list sort_cell.
Hypothesis H_pow2 : H = 2 ^ e.
Hypothesis e_warp : 5 ≤ e.
Hypothesis warp_sort_perm : warp_sort_permutes warp_sort.

Lemma fused_transform_sort_D_row_cells D hub_id :
  row_cells H (cell_of_row H D hub_id)
    (fused_transform_sort_D_row H warp_sort D hub_id).
Proof.
  unfold fused_transform_sort_D_row.
  change (2 * warp_size) with (2 ^ S 5).
  apply (merge_stages_row_cells H e warp_sort H_pow2 e_warp warp_sort_perm
           _ (e - 5)); [lia|lia|].
  apply (sort_warps_row_cells H e warp_sort H_pow2 e_warp warp_sort_perm).
  split; [apply sort_load_length|]. split.
  - unfold sort_load. rewrite <- list_fmap_compose.
    rewrite (list_fmap_ext _ id (seq 0 H)) by done.
    rewrite list_fmap_id. apply NoDup_seq.
  - unfold sort_load. apply Forall_fmap, list.Forall_forall.
    intros g Hg. apply elem_of_seq in Hg. split; simpl; [lia|done].
Qed.

(** The cells of the row [hub_id] of the two matrices are the registers
    of the block [hub_id]. *)
Lemma fused_transform_sort_D_registers D hub_id j :
  hub_id < H → j < H →
  ∃ c, fused_transform_sort_D_row H warp_sort D hub_id !! j = Some c
       ∧ rdn (fused_transform_sort_D H warp_sort D).1 (hub_id * H + j) = c.2
       ∧ rdf (fused_transform_sort_D H warp_sort D).2 (hub_id * H + j) = c.1.
Proof.
  intros Hi Hj.
  assert (∀ i, length (fused_transform_sort_D_row H warp_sort D i) = H)
    as Hlen by (intros i; apply fused_transform_sort_D_row_cells).
  destruct (lookup_lt_is_Some_2
              (fused_transform_sort_D_row H warp_sort D hub_id) j)
    as [c Hc]; [by rewrite Hlen|].
  exists c. split; [done|]. unfold fused_transform_sort_D, rdn, rdf.
  cbn [fst snd]. split.
  - apply nth_lookup_Some.
    rewrite (bind_seq_lookup
               (λ i, (fused_transform_sort_D_row H warp_sort D i).*2) H H)
      by (try done; intros; by rewrite length_fmap, Hlen).
    rewrite list_lookup_fmap. unfold sort_cell in *. by rewrite Hc.
  - apply nth_lookup_Some.
    rewrite (bind_seq_lookup
               (λ i, (fused_transform_sort_D_row H warp_sort D i).*1) H H)
      by (try done; intros; by rewrite length_fmap, Hlen).
    rewrite list_lookup_fmap. unfold sort_cell in *. by rewrite Hc.
Qed.

(** The identifier in a cell of the ranked matrix is a hub. *)
Lemma fused_transform_sort_D_ids D hub_id j :
  hub_id < H → j < H →
  rdn (fused_transform_sort_D H warp_sort D).1 (hub_id * H + j) < H.
Proof.
  intros Hi Hj.
  destruct (fused_transform_sort_D_registers D hub_id j Hi Hj)
    as (c & Hc & -> & _).
  destruct (fused_transform_sort_D_row_cells D hub_id) as (_ & _ & Hcells).
  rewrite list.Forall_lookup in Hcells. by destruct (Hcells j c Hc).
Qed.

(** X15. The sort neither loses nor invents a hub, whatever the
    distances are, negative ones and NaNs among them, and whatever the
    order in which the sort inside the warps leaves its pairs.  For [H] a
    power of two of at least a warp and a sort inside the warps that
    permutes its pairs: the two ranked matrices hold [H * H] cells each,
    every row of the ranked identifiers is a permutation of [0, H), and
    the distance at every position is the entry of [D] in that row and
    the column of the identifier at that position. *)
Theorem fused_transform_sort_D_permutes D hub_id :
  hub_id < H →
  let ranked := fused_transform_sort_D H warp_sort D in
  length ranked.1 = H * H ∧ length ranked.2 = H * H
  ∧ (λ j, rdn ranked.1 (hub_id * H + j)) <$> seq 0 H ≡ₚ seq 0 H
  ∧ (∀ j, j < H →
       rdf ranked.2 (hub_id * H + j)
       = rdf D (H * hub_id + rdn ranked.1 (hub_id * H + j))).
Proof.
  intros Hi. cbv zeta.
  assert (∀ i, length (fused_transform_sort_D_row H warp_sort D i) = H)
    as Hrows by (intros i; apply fused_transform_sort_D_row_cells).
  destruct (fused_transform_sort_D_row_cells D hub_id)
    as (Hlen & Hnd & Hcells).
  set (row := fused_transform_sort_D_row H warp_sort D hub_id) in *.
  split; [|split; [|split]].
  - unfold fused_transform_sort_D. cbn [fst].
    apply bind_seq_length. intros w _. by rewrite length_fmap.
  - unfold fused_transform_sort_D. cbn [snd].
    apply bind_seq_length. intros w _. by rewrite length_fmap.
  - assert ((λ j, rdn (fused_transform_sort_D H warp_sort D).1
                      (hub_id * H + j)) <$> seq 0 H = row.*2) as ->.
    { apply list_eq. intros j. rewrite !list_lookup_fmap.
      destruct (decide (j < H)) as [Hj|Hj].
      - destruct (fused_transform_sort_D_registers D hub_id j Hi Hj)
          as (c & Hc & Hid & _).
        fold row in Hc. rewrite lookup_seq_lt by done.
        cbn [fmap option_fmap option_map Nat.add]. rewrite Hid.
        unfold sort_cell in *. by rewrite Hc.
      - rewrite lookup_seq_ge by lia. symmetry.
        apply fmap_None, lookup_ge_None. unfold sort_cell in *. lia. }
    apply submseteq_length_Permutation.
    + apply NoDup_submseteq; [done|]. intros x Hx.
      apply list_elem_of_fmap in Hx as (c & -> & Hc).
      rewrite list.Forall_forall in Hcells.
      apply elem_of_seq. destruct (Hcells c Hc). lia.
    + rewrite length_fmap, length_seq. unfold sort_cell in *. lia.
  - intros j Hj.
    destruct (fused_transform_sort_D_registers D hub_id j Hi Hj)
      as (c & Hc & -> & ->).
    fold row in Hc. rewrite list.Forall_lookup in Hcells.
    by destruct (Hcells j c Hc).
Qed.

End SortPermutes.
(** ** The first pair of the collector *)

Lemma WarpSelect_insert_head (y : heap_entry) h d :
  h ≠ [] →
  nth 0 (WarpSelect_insert y h) d
  = if flt y.1 (nth 0 h d).1 then y else nth 0 h d.
Proof.
  destruct h as [|z h]; [done|]. intros _. simpl.
  by destruct (flt y.1 z.1).
Qed.

Lemma WarpSelect_insert_bounds x y h :
  h ≠ [] → heap_bounds x h → heap_bounds x (WarpSelect_insert y h).
Proof.
  intros Hne Hx. unfold heap_bounds in *.
  rewrite WarpSelect_insert_head by done.
  destruct (flt y.1 (nth 0 h (FLT_MAX, (-1)%Z)).1) eqn:Hy; [|done].
  destruct (flt x.1 y.1) eqn:Hxy; [|done].
  by rewrite (flt_trans _ _ _ Hxy Hy) in Hx.
Qed.

Lemma WarpSelect_insert_self x h :
  h ≠ [] → heap_bounds x (WarpSelect_insert x h).
Proof.
  intros Hne. unfold heap_bounds. rewrite WarpSelect_insert_head by done.
  destruct (flt x.1 (nth 0 h (FLT_MAX, (-1)%Z)).1) eqn:Hx;
    [apply flt_irrefl|done].
Qed.

Lemma heap_bounds_take x K h : 1 ≤ K → heap_bounds x h → heap_bounds x (take K h).
Proof.
  intros HK. unfold heap_bounds. destruct K as [|K]; [lia|].
  by destruct h.
Qed.

Lemma WarpSelect_add_bounds x K h lanes :
  1 ≤ K → length h = K →
  heap_bounds x h ∨ x ∈ lanes → heap_bounds x (WarpSelect_add K h lanes).
Proof.
  intros HK Hlen. unfold WarpSelect_add.
  assert (∀ a : list heap_entry, length a = K → a ≠ []) as Hne
    by (intros [|??] ?; [simpl in *; lia|done]).
  assert (∀ (a : list heap_entry) (y : heap_entry),
            length a = K → length (take K (WarpSelect_insert y a)) = K)
    as Hkeep
    by (intros a y Ha; rewrite length_take, WarpSelect_insert_length; lia).
  intros [Hx|Hx].
  - apply (foldl_invariant
             (λ a : list heap_entry, length a = K ∧ heap_bounds x a));
      [|done].
    intros a y _ [Ha Hb]. split; [by apply Hkeep|].
    apply heap_bounds_take; [done|].
    apply WarpSelect_insert_bounds; [by apply Hne|done].
  - apply (foldl_establishes (λ a : list heap_entry, length a = K)
             (heap_bounds x) _ lanes x); try done.
    + intros a y _ Ha. by apply Hkeep.
    + intros a y _ Ha Hb. apply heap_bounds_take; [done|].
      apply WarpSelect_insert_bounds; [by apply Hne|done].
    + intros a Ha. apply heap_bounds_take; [done|].
      apply WarpSelect_insert_self. by apply Hne.
Qed.

(** ** The traversal over an index *)

Section Traversal.

Variable H : nat.
Variable l2dist : float → float → float → float → float → float → float.
Variable fsqrt : float → float.
Variable fsub : float → float → float.
Variable ix : knn_index.
Variables (K n : nat).

Lemma Query_loop_heap_inv (I : query_state → Prop) (Q : heap_entry → Prop)
    qp fuel : ∀ st,
  (∀ st, I st → I (Query_step H l2dist ix K n qp st)) →
  (∀ st lane, I st → Q (Query_lane l2dist ix n qp st lane)) →
  I st → Forall Q (heap st) → length (heap st) = K →
  Forall Q (heap (Query_loop H l2dist fsqrt fsub ix K n fuel qp st))
  ∧ length (heap (Query_loop H l2dist fsqrt fsub ix K n fuel qp st)) = K.
Proof.
  induction fuel as [|fuel IH]; intros st Hstep Hlane HI Hst Hlen; [done|].
  cbn [Query_loop].
  destruct (Query_continue H l2dist fsqrt fsub ix K qp st); [|done].
  apply IH; [done|done|by apply Hstep|..]; rewrite Query_step_heap.
  - apply WarpSelect_add_Forall; [done|].
    apply Forall_fmap, list.Forall_forall. intros lane _. by apply Hlane.
  - by apply WarpSelect_add_length.
Qed.

Lemma Query_loop_bounds x qp fuel : ∀ st,
  1 ≤ K → length (heap st) = K → heap_bounds x (heap st) →
  heap_bounds x (heap (Query_loop H l2dist fsqrt fsub ix K n fuel qp st)).
Proof.
  induction fuel as [|fuel IH]; intros st HK Hlen Hx; [done|].
  cbn [Query_loop].
  destruct (Query_continue H l2dist fsqrt fsub ix K qp st); [|done].
  apply IH; [done|..]; rewrite Query_step_heap.
  - by apply WarpSelect_add_length.
  - apply WarpSelect_add_bounds; [done..|by left].
Qed.

End Traversal.

(** ** The buckets a query scans *)

Section Scanning.

Variable H : nat.
Variable l2dist : float → float → float → float → float → float → float.
Variable ix : knn_index.
Variables (K n : nat) (data : list float).

Hypothesis ix_data : ix_points ix = data.
Hypothesis ix_valid : ∀ idx, idx < n → rdn (ix_assignments ix) idx < H.
Hypothesis ix_offsets :
  ∀ h, h ≤ H →
    rdn (ix_dH_psum ix) h = sum_upto (hub_population (ix_assignments ix) n) h.
Hypothesis ix_total : rdn (ix_dH_psum ix) H = n.
Hypothesis ix_perm : ix_arr_idx ix ≡ₚ seq 0 n.
Hypothesis ix_placed :
  ∀ p, p < n → ∃ loc,
    rdn (ix_dH_psum ix) (rdn (ix_assignments ix) p) ≤ loc
    < rdn (ix_dH_psum ix) (rdn (ix_assignments ix) p + 1)
    ∧ rdn (ix_arr_idx ix) loc = p
    ∧ rdf (ix_arr_x ix) loc = rdf data (p * dim + 0)
    ∧ rdf (ix_arr_y ix) loc = rdf data (p * dim + 1)
    ∧ rdf (ix_arr_z ix) loc = rdf data (p * dim + 2).
Hypothesis ix_ids :
  ∀ i j, i < H → j < H → rdn (ix_iD ix) (i * H + j) < H.

Lemma psum_mono h1 h2 :
  h1 ≤ h2 → h2 ≤ H → rdn (ix_dH_psum ix) h1 ≤ rdn (ix_dH_psum ix) h2.
Proof.
  intros H12 H2. rewrite !ix_offsets by lia. by apply sum_upto_mono.
Qed.

Lemma psum_bound h : h ≤ H → rdn (ix_dH_psum ix) h ≤ n.
Proof. intros Hh. rewrite <- ix_total. by apply psum_mono. Qed.

(** Every cell of the bucketed arrays holds a point of the data set with
    its coordinates, in the segment of the hub of the point. *)
Lemma bucket_cell a :
  a < n →
  let p := rdn (ix_arr_idx ix) a in
  p < n
  ∧ rdn (ix_dH_psum ix) (rdn (ix_assignments ix) p) ≤ a
    < rdn (ix_dH_psum ix) (rdn (ix_assignments ix) p + 1)
  ∧ rdf (ix_arr_x ix) a = rdf data (p * dim)
  ∧ rdf (ix_arr_y ix) a = rdf data (p * dim + 1)
  ∧ rdf (ix_arr_z ix) a = rdf data (p * dim + 2).
Proof.
  intros Ha. cbv zeta.
  assert (length (ix_arr_idx ix) = n) as Hlen
    by (by rewrite ix_perm, length_seq).
  destruct (lookup_lt_is_Some_2 (ix_arr_idx ix) a) as [p Hp]; [lia|].
  assert (rdn (ix_arr_idx ix) a = p) as ->
    by (unfold rdn; by apply nth_lookup_Some).
  assert (p < n) as Hpn.
  { assert (p ∈ seq 0 n) as Hin
      by (rewrite <- ix_perm; by eapply list_elem_of_lookup_2).
    apply elem_of_seq in Hin. lia. }
  destruct (ix_placed p Hpn) as (loc & Hseg & Eloc & Ex & Ey & Ez).
  assert (loc < n) as Hloc.
  { pose proof (psum_bound (rdn (ix_assignments ix) p + 1)
                  ltac:(pose proof (ix_valid p Hpn); lia)). lia. }
  assert (ix_arr_idx ix !! loc = Some p) as Hp'.
  { destruct (lookup_lt_is_Some_2 (ix_arr_idx ix) loc) as [p' Hp'];
      [lia|].
    rewrite Hp'. f_equal. rewrite <- Eloc. unfold rdn. symmetry.
    by apply nth_lookup_Some. }
  assert (NoDup (ix_arr_idx ix)) as Hnd
    by (rewrite ix_perm; apply NoDup_seq).
  assert (a = loc) as ->
    by exact (proj1 (NoDup_alt _) Hnd a loc p Hp Hp').
  rewrite Nat.add_0_r in Ex. done.
Qed.

(** A cell in the segment of a hub holds a point of that hub. *)
Lemma bucket_hub a h :
  h < H →
  rdn (ix_dH_psum ix) h ≤ a < rdn (ix_dH_psum ix) (h + 1) →
  a < n ∧ rdn (ix_assignments ix) (rdn (ix_arr_idx ix) a) = h.
Proof.
  intros Hh Ha.
  pose proof (psum_bound (h + 1) ltac:(lia)) as Hn.
  split; [lia|].
  destruct (bucket_cell a ltac:(lia)) as (Hp & Hseg & _).
  pose proof (ix_valid _ Hp) as Hv.
  set (h' := rdn (ix_assignments ix) (rdn (ix_arr_idx ix) a)) in *.
  destruct (decide (h' = h)) as [|Hne]; [done|].
  destruct (decide (h' < h)) as [Hlt|Hge].
  - pose proof (psum_mono (h' + 1) h ltac:(lia) ltac:(lia)). lia.
  - pose proof (psum_mono (h + 1) h' ltac:(lia) ltac:(lia)). lia.
Qed.

Lemma Query_init_scanning qp :
  rdn (ix_assignments ix) qp < H →
  Query_scanning H ix n qp (Query_init H ix K qp).
Proof.
  intros Hq. unfold Query_scanning, Query_scanned_hub, Query_init.
  cbn [scan_hub_to scan_hub_from hubs_processed].
  rewrite decide_True by done. rewrite Nat.add_0_r.
  split; [apply psum_bound; lia|]. intros _. done.
Qed.

Lemma Query_step_scanning qp st :
  rdn (ix_assignments ix) qp < H →
  Query_scanning H ix n qp st →
  Query_scanning H ix n qp (Query_step H l2dist ix K n qp st).
Proof.
  intros Hq [Hto Hhub]. unfold Query_step. cbv zeta.
  destruct (decide (scan_hub_to st ≤ scan_hub_from st + warp_size))
    as [Hend|Hmore].
  - destruct (decide (hubs_processed st + 1 < H)) as [Hnext|Hlast];
      unfold Query_scanning, Query_scanned_hub;
      cbn [scan_hub_to scan_hub_from hubs_processed].
    + rewrite decide_False by lia.
      pose proof (ix_ids _ _ Hq Hnext) as Hid.
      split; [apply psum_bound; lia|]. intros _. done.
    + split; [done|]. intros Hp. lia.
  - unfold Query_scanning, Query_scanned_hub in *.
    cbn [scan_hub_to scan_hub_from hubs_processed].
    split; [done|]. intros Hp. destruct (Hhub Hp) as (A & B & C).
    split; [done|]. split; [lia|done].
Qed.

Lemma Query_iter_scanning qp i :
  rdn (ix_assignments ix) qp < H →
  Query_scanning H ix n qp
    (Nat.iter i (Query_step H l2dist ix K n qp) (Query_init H ix K qp)).
Proof.
  intros Hq. induction i as [|i IH]; [by apply Query_init_scanning|].
  rewrite Nat.iter_succ. by apply Query_step_scanning.
Qed.

(** A lane inside the bucket hands the collector the pair of a point of
    the hub that is scanned: its identifier, and [l2dist] between the
    query and the point, taken on their coordinates in the data set. *)
Lemma Query_lane_point qp st lane :
  Query_scanning H ix n qp st → hubs_processed st < H →
  scan_hub_from st + lane < scan_hub_to st →
  let a := scan_hub_from st + lane in
  let p := rdn (ix_arr_idx ix) a in
  a < n ∧ p < n
  ∧ rdn (ix_assignments ix) p = Query_scanned_hub H ix qp st
  ∧ Query_lane l2dist ix n qp st lane
    = (point_l2dist l2dist data qp p, Z.of_nat p).
Proof.
  intros [Hto Hhub] Hp Hin. cbv zeta.
  destruct (Hhub Hp) as (Hh & Hfrom & Eto).
  destruct (bucket_hub (scan_hub_from st + lane) _ Hh ltac:(lia))
    as [Ha Hassign].
  destruct (bucket_cell _ Ha) as (Hpn & _ & Ex & Ey & Ez).
  split; [done|]. split; [done|]. split; [done|].
  unfold Query_lane. cbv zeta. rewrite decide_True by done.
  unfold point_l2dist. by rewrite ix_data, Ex, Ey, Ez.
Qed.

Lemma Query_lane_result qp st lane :
  Query_scanning H ix n qp st →
  result_entry l2dist data n qp (Query_lane l2dist ix n qp st lane).
Proof.
  intros [Hto _]. unfold Query_lane. cbv zeta. case_decide as Hin.
  - destruct (bucket_cell (scan_hub_from st + lane) ltac:(lia))
      as (Hpn & _ & Ex & Ey & Ez).
    right. right. exists (rdn (ix_arr_idx ix) (scan_hub_from st + lane)).
    split; [done|]. unfold point_l2dist. by rewrite ix_data, Ex, Ey, Ez.
  - right. by left.
Qed.

End Scanning.

(** ** Squared distances in the results, rooted distances in the tables *)

Section Distances.

Variables (H e : nat).
Variable l2dist : float → float → float → float → float → float → float.
Variable fsqrt : float → float.
Variable fsub : float → float → float.
Variable warp_sort : bool → list sort_cell → list sort_cell.
Variable ahead : nat → nat → bool.


End Distances.
(** ** When C_and_Q aborts *)

Lemma Query_dispatch_None k : k = 0 ∨ 160 < k → Query_dispatch k = None.
Proof.
  intros Hk. unfold Query_dispatch.
  destruct (CEIL_DIV k warp_size) as [|[|[|[|[|[|r]]]]]] eqn:E;
    try done; apply CEIL_DIV_warp in E; case_decide; lia.
Qed.

Section PipelineAborts.

Variable H : nat.
Variable l2dist : float → float → float → float → float → float → float.
Variable fsqrt : float → float.
Variable fsub : float → float → float.
Variable warp_sort : bool → list sort_cell → list sort_cell.
Variable ahead : nat → nat → bool.

Lemma index_tables_asserts_hubs b_size n dH data smem dists0 D0 :
  0 < b_size → 0 < n → H = 0 ∨ 2048 < H →
  index_tables_asserts H l2dist fsqrt b_size n dH data smem dists0 D0
  = false.
Proof.
  intros Hbs Hn HH. unfold index_tables_asserts. cbv zeta.
  assert (0 < (n + b_size - 1) / b_size) as Hb.
  { apply Nat.div_str_pos. lia. }
  destruct ((n + b_size - 1) / b_size) as [|batches]; [lia|].
  rewrite <- cons_seq. cbn [forallb].
  apply andb_false_iff. left.
  unfold index_batch_asserts, Calculate_Distances_asserts,
    Construct_D_asserts. cbv zeta.
  destruct HH as [->|HH].
  - by rewrite bool_decide_eq_false_2 by lia.
  - rewrite (bool_decide_eq_false_2 (H ≤ 2048)) by lia.
    by rewrite andb_false_r.
Qed.

(** X16. [C_and_Q] has no result when an assertion of one of its kernels
    fails or its [switch] ends in the [default] branch: for a data set
    that is not empty, when there is no hub or there are more than 2048
    (the assertions of [Calculate_Distances] and [Construct_D]), when [H]
    is not a power of two or is below a warp (the assertions of
    [fused_prefix_sum_copy]), and when [k] is 0 or above 160. *)
Theorem C_and_Q_aborts al b_size n data q queries k results :
  0 < b_size → 0 < n →
  H = 0 ∨ 2048 < H ∨ popc H ≠ 1 ∨ H < 32 ∨ k = 0 ∨ 160 < k →
  C_and_Q H l2dist fsqrt fsub warp_sort ahead al b_size n data q queries k
    results = None.
Proof.
  intros Hbs Hn Hbad. unfold C_and_Q.
  destruct (build_index H l2dist fsqrt warp_sort ahead al b_size n data)
    as [ix|] eqn:Eix; [|done].
  cbn [mbind option_bind].
  destruct Hbad as [HH|[HH|[HH|[HH|Hk]]]].
  - unfold build_index in Eix.
    by rewrite index_tables_asserts_hubs in Eix by (done || by left).
  - unfold build_index in Eix.
    by rewrite index_tables_asserts_hubs in Eix by (done || by right).
  - unfold build_index, prefix_sum_step, fused_prefix_sum_copy in Eix.
    rewrite decide_False in Eix by (intros [? ?]; done).
    by destruct (index_tables_asserts _ _ _ _ _ _ _ _ _ _).
  - unfold build_index, prefix_sum_step, fused_prefix_sum_copy in Eix.
    rewrite decide_False in Eix by (intros [? ?]; lia).
    by destruct (index_tables_asserts _ _ _ _ _ _ _ _ _ _).
  - by rewrite Query_dispatch_None.
Qed.

End PipelineAborts.
(** ** The statements at concrete inputs *)

(** C9 at 32 hubs and 7 points, slot 5. *)
Lemma Randomly_Select_Hubs_deterministic_witness :
  Randomly_Select_Hubs 32 7 (hubs_grid 32) (replicate 32 0%Z) !! 5
  = Some (hub_rand 5 mod 7)%Z
  ∧ (0 ≤ hub_rand 5 mod 7 < 7)%Z.
Proof.
  apply (Randomly_Select_Hubs_deterministic 32 7 (hubs_grid 32)
           (replicate 32 0%Z) 5); [lia|reflexivity|reflexivity|lia].
Defined.

(** C5 for the three points on a line with the hubs 0 and 2, in batches
    of two points: the entry [D[0][1]] against the point 2 of hub 1. *)
Lemma Construct_D_sound_witness :
  fle (rdf (index_tables 2 f32_l2dist f32_sqrt 2 3 line3_hubs line3
              zero_smem (replicate 4 0%Z) (replicate 4 0%Z)).2 (2 * 0 + 1))
      (hub_distance f32_l2dist f32_sqrt line3 line3_hubs 2 0) = true.
Proof.
  apply (Construct_D_sound 2 f32_l2dist f32_sqrt line3 line3_hubs 2 3
           zero_smem (replicate 4 0%Z) (replicate 4 0%Z) 0 1 2).
  - lia.
  - reflexivity.
  - reflexivity.
  - intros b hub. simpl. lia.
  - assert (hub_distance_table 2 f32_l2dist f32_sqrt 3 line3 line3_hubs
            = [0; 1101004800; 1092616192; 1092616192; 1101004800; 0]%Z)
      as -> by (vm_compute; reflexivity).
    unfold f32_nonneg. repeat (constructor; [lia|]). constructor.
  - lia.
  - lia.
  - lia.
  - vm_compute. reflexivity.
Defined.

(** C8 for three points, the points 0 and 2 in hub 1 and the point 1 in
    hub 0. *)
Lemma BucketSort_permutation_witness :
  let m' := BucketSort 3 line3 [1; 0; 1] (bucket_grid 3)
              three_point_buckets in
  arr_idx m' ≡ₚ seq 0 3 ∧
  ∀ p, p < 3 → ∃ loc,
    arr_idx m' !! loc = Some p
    ∧ rdn [0; 1; 3] (rdn [1; 0; 1] p) ≤ loc
      < rdn [0; 1; 3] (rdn [1; 0; 1] p + 1).
Proof.
  apply (BucketSort_permutation 2 3 line3 [1; 0; 1] [0; 1; 3]).
  - intros [|[|[|idx]]] Hidx; unfold rdn; simpl; lia.
  - reflexivity.
  - intros [|[|[|h]]] Hh; [reflexivity..|lia].
  - reflexivity.
  - reflexivity.
  - reflexivity.
Defined.

(** A launch that runs to its end, for three points and two hubs with
    [k = 2]: the point 2 leaves hub 1, which held one point, for hub 0. *)
Lemma reassignPoints_rebalanced_witness :
  2 < 3 ∧
  (∀ h, h < 2 → 0 < rdn [3; 0] h → 2 ≤ rdn [3; 0] h) ∧
  (∀ h, h < 2 → rdn [2; 1] h < 2 →
     rdn [3; 0] h = 0 ∧
     ∀ idx, idx < 3 → rdn [0; 0; 1] idx = h →
       rdn [0; 0; 0] idx < 2 ∧ 2 ≤ rdn [2; 1] (rdn [0; 0; 0] idx) ∧
       ∀ h', h' < 2 → 2 ≤ rdn [2; 1] h' →
         flt (rdf three_point_distances (h' * 3 + idx))
             (rdf three_point_distances (rdn [0; 0; 0] idx * 3 + idx))
         = false).
Proof.
  apply (reassignPoints_rebalanced 2 1 4 3 2 three_point_distances
           (λ _, replicate 2 0) [2; 1] [0; 0; 1] [3; 0] [0; 0; 0]).
  - lia.
  - lia.
  - lia.
  - simpl. lia.
  - simpl. lia.
  - reflexivity.
  - intros [|[|[|idx]]] Hidx; unfold rdn; simpl; lia.
  - vm_compute. reflexivity.
Defined.

(** C6 for 64 hubs, the row 1 of a matrix of small distances, and the
    insertion sort inside the warps. *)
Lemma fused_transform_sort_D_ranked_witness :
  let ranked := fused_transform_sort_D 64 warp_sort_insertion D64 in
  (λ j, rdn ranked.1 (1 * 64 + j)) <$> seq 0 64 ≡ₚ seq 0 64
  ∧ (∀ j j', j ≤ j' → j' < 64 →
       fle (rdf ranked.2 (1 * 64 + j)) (rdf ranked.2 (1 * 64 + j')) = true)
  ∧ (∀ j, j < 64 →
       rdf ranked.2 (1 * 64 + j)
       = rdf D64 (64 * 1 + rdn ranked.1 (1 * 64 + j))).
Proof.
  apply (fused_transform_sort_D_ranked 64 6 warp_sort_insertion).
  - reflexivity.
  - lia.
  - apply warp_sort_insertion_sorts.
  - intros j Hj.
    do 64 (destruct j as [|j]; [vm_compute; split; discriminate|]). lia.
  - lia.
Defined.


(** C1 for the index of the three points on a line, one neighbour per
    query. *)
Lemma Query_rows_by_point_witness :
  Query_points line3_index 3 queries_per_block (query_grid 3)
    ≡ₚ rdn (ix_arr_idx line3_index) <$> seq 0 3.
Proof.
  apply (Query_rows_by_point 32 f32_l2dist f32_sqrt f32_sub line3_index
           1 3 [2] (query_grid 3) (replicate 3 7%Z, replicate 3 0%Z)).
  reflexivity.
Defined.

(** ** Where the code departs from the specification *)

(** C1. With the single query point 2 supplied, [C_and_Q] handles the
    three points 1, 2 and 0 as queries, and the row 0 of the result holds
    the neighbour of the point 0, not that of the supplied query. *)
Lemma Query_ignores_query_list :
  Query_points line3_index 3 queries_per_block (query_grid 3) = [1; 2; 0]
  ∧ C_and_Q 32 f32_l2dist f32_sqrt f32_sub warp_sort_insertion in_step
      (zero_allocations 32 3 3) 3 3 line3 1 [2] 1
      (replicate 3 7%Z, replicate 3 0%Z)
    = Some ([0; 1; 2]%Z, [0; 0; 0]%Z).
Proof. split; vm_compute; reflexivity. Qed.

(** C2. For the three points on a line and [k = 2 < n], every hub holds
    at most one point: the kernel fails an assertion.  And [C_and_Q]
    does not launch it: the hub 4 keeps its single point. *)
Lemma reassignPoints_aborts :
  reassignPoints 32 1 1024 3 2 (distances line3_tables.1)
    (λ _, replicate 1024 0)
    (hub_counts line3_tables.1, dH_assignments line3_tables.1) = None
  ∧ rdn (hub_counts line3_tables.1) 4 = 1.
Proof. split; vm_compute; reflexivity. Qed.

(** C7. At [H = 2048], a power of two, with one point in each of the
    first 1024 hubs, so that the counters sum to 1024: when the first
    warp of the prefix-sum kernel stores its sum of the second chunk
    before the second warp has read its cell for the first chunk, which
    no barrier prevents, the offset table that [C_and_Q] derives is not
    monotone, 32 at the cell 32 and 1 at the cell 33; with the warps in
    step the same cells hold 32 and 33. *)
Lemma prefix_sum_offsets_race :
  let counts := replicate 1024 1 ++ replicate 1025 0 in
  let offset ahead :=
    (λ r : list nat * list nat, (rdn r.1 32, rdn r.1 33, rdn r.1 2048))
      <$> prefix_sum_step 2048 ahead (replicate 33 0) counts
            (replicate 2049 0) (replicate 2049 0) in
  sum_list (take 2048 counts) = 1024
  ∧ offset (λ c w, bool_decide (c = 0 ∧ w = 1)) = Some (32, 1, 1024)
  ∧ offset in_step = Some (32, 33, 1024).
Proof. repeat split; vm_compute; reflexivity. Qed.

(** C3. At the entry of the loop the square root of the worst retained
    distance exceeds the bound, and the loop goes on: the guard of the
    code holds where the guard the specification words fails. *)
Lemma Query_guard_inverted :
  let st := Query_init 32 line3_index 1 0 in
  fgt (f32_sqrt (warpKTop 1 (heap st)))
      (f32_sub (dist_to_this_hub st)
               (Query_dist_to_my_hub f32_l2dist f32_sqrt line3_index 0))
  = true
  ∧ Query_continue 32 f32_l2dist f32_sqrt f32_sub line3_index 1 0 st = true
  ∧ Query_continue_spec 32 f32_l2dist f32_sqrt f32_sub line3_index 1 0 st
    = false
  ∧ hubs_processed
      (Query_loop 32 f32_l2dist f32_sqrt f32_sub line3_index 1 3 1 0 st)
    = 1.
Proof. repeat split; vm_compute; reflexivity. Qed.
(** ** The further statements at concrete inputs *)

(** X1 for the lanes holding 0 to 31, at the last lane. *)
Lemma prefix_sum_warp_inclusive_witness :
  rdn (prefix_sum_warp (seq 0 32)) 31 = sum_list (take (31 + 1) (seq 0 32))
  ∧ length (prefix_sum_warp (seq 0 32)) = warp_size.
Proof.
  apply (prefix_sum_warp_inclusive (seq 0 32) 31);
    [reflexivity|unfold warp_size; lia].
Defined.

(** X2 at 32 hubs, the cell [i] holding [i], under a schedule in which
    every warp runs ahead. *)
Lemma fused_prefix_sum_copy_inclusive_witness :
  ∃ m, fused_prefix_sum_copy 32 (λ _ _, true) (replicate 33 0) (seq 0 33)
         (replicate 33 7) = Some m ∧
  length (ps_arr m) = length (seq 0 33) ∧
  length (ps_copy m) = length (replicate 33 7) ∧
  (∀ i, i < 32 →
     rdn (ps_arr m) i = sum_list (take (i + 1) (seq 0 33))
     ∧ rdn (ps_copy m) i = sum_list (take (i + 1) (seq 0 33))) ∧
  (∀ i, 32 ≤ i → rdn (ps_arr m) i = rdn (seq 0 33) i).
Proof.
  apply (fused_prefix_sum_copy_inclusive 32 (λ _ _, true) 5
           (replicate 33 0) (seq 0 33) (replicate 33 7)).
  - reflexivity.
  - lia.
  - left. lia.
  - simpl. lia.
  - simpl. lia.
  - unfold warp_size. simpl. lia.
Defined.

(** X3 at 32 hubs, the hub [h] holding [h] points. *)
Lemma prefix_sum_step_exclusive_witness :
  ∃ r, prefix_sum_step 32 (λ _ _, true) (replicate 33 0) (seq 0 33)
         (replicate 33 0) (replicate 33 0) = Some r ∧
  r.2 = r.1 ∧ ∀ i, i ≤ 32 → rdn r.1 i = sum_list (take i (seq 0 33)).
Proof.
  apply (prefix_sum_step_exclusive 32 (λ _ _, true) 5 (replicate 33 0)
           (seq 0 33) (replicate 33 0) (replicate 33 0)).
  - reflexivity.
  - lia.
  - left. lia.
  - reflexivity.
  - reflexivity.
  - reflexivity.
  - unfold warp_size. simpl. lia.
Defined.

(** X4 for the words of 1.0 and 2.0. *)
Lemma float_as_int_order_witness :
  (flt 0x3f800000%Z 0x40000000%Z = true
   ↔ (float_as_int 0x3f800000%Z < float_as_int 0x40000000%Z)%Z)
  ∧ int_as_float (float_as_int 0x3f800000%Z) = 0x3f800000%Z
  ∧ int_as_float (Z.min (float_as_int 0x3f800000%Z) (float_as_int 0x40000000%Z))
    = (if flt 0x40000000%Z 0x3f800000%Z then 0x40000000%Z
       else 0x3f800000%Z)
  ∧ flt 0xc0000000%Z 0xbf800000%Z = true
  ∧ (float_as_int 0xbf800000%Z < float_as_int 0xc0000000%Z)%Z.
Proof.
  apply (float_as_int_order 0x3f800000%Z 0x40000000%Z);
    unfold f32_nonneg; lia.
Defined.

(** X5 for the three points on a line with the hubs 0 and 2, in one
    block of four threads: the point 1. *)
Lemma Calculate_Distances_nearest_witness :
  let d := hub_distance f32_l2dist f32_sqrt line3 line3_hubs (1 + 0 * 3) in
  ∃ a,
    dH_assignments
      (Calculate_Distances 2 f32_l2dist f32_sqrt 4 0 3 3 line3_hubs line3
         (grid 1 4)
         (CdMem (replicate 6 0%Z) (replicate 3 0) (replicate 3 0)))
      !! (1 + 0 * 3) = Some a
    ∧ ((a = 2 + 1 ∧ ∀ h, h < 2 → flt (d h) FLT_MAX = false)
       ∨ (a < 2 ∧ flt (d a) FLT_MAX = true
          ∧ (∀ h, h < 2 → flt (d h) (d a) = false)
          ∧ (∀ h, h < a → flt (d a) (d h) = true
                          ∨ f32_is_nan (d h) = true))).
Proof.
  apply (Calculate_Distances_nearest 2 f32_l2dist f32_sqrt line3 line3_hubs
           4 0 3 3 6 (grid 1 4)
           (CdMem (replicate 6 0%Z) (replicate 3 0) (replicate 3 0)) 1).
  - split; reflexivity.
  - exists (0, 1). split; [|reflexivity].
    apply elem_of_grid. lia.
  - lia.
  - lia.
Defined.

(** X6 at the same launch, for the counter of the hub 0. *)
Lemma Calculate_Distances_counts_witness :
  let m := CdMem (replicate 6 0%Z) (replicate 3 0) (replicate 3 0) in
  let m' :=
    Calculate_Distances 2 f32_l2dist f32_sqrt 4 0 3 3 line3_hubs line3
      (grid 1 4) m in
  rdn (hub_counts m') 0
  = rdn (hub_counts m) 0
    + length (filter
                (λ p, nearest_hub 2 f32_l2dist f32_sqrt line3 line3_hubs
                        (p + 0 * 3) = 0)
                (seq 0 (min 3 (3 - 0 * 3))))
  ∧ length (hub_counts m') = length (hub_counts m).
Proof.
  apply (Calculate_Distances_counts 2 f32_l2dist f32_sqrt line3 line3_hubs
           1 4 0 3 3 (grid 1 4)
           (CdMem (replicate 6 0%Z) (replicate 3 0) (replicate 3 0)) 0).
  - reflexivity.
  - lia.
  - simpl. lia.
Defined.

(** X7 for the three points with the hubs 0 and 2, in batches of two
    points. *)
Lemma index_tables_counters_witness :
  let m := (index_tables 2 f32_l2dist f32_sqrt 2 3 line3_hubs line3
              zero_smem (replicate 4 0%Z) (replicate 4 0%Z)).1 in
  length (hub_counts m) = 2 + 1 ∧ length (dH_assignments m) = 3 ∧
  (∀ idx, idx < 3 →
     rdn (dH_assignments m) idx
     = nearest_hub 2 f32_l2dist f32_sqrt line3 line3_hubs idx) ∧
  (∀ h, h ≤ 2 →
     rdn (hub_counts m) h = hub_population (dH_assignments m) 3 h).
Proof.
  apply (index_tables_counters 2 f32_l2dist f32_sqrt line3 line3_hubs
           2 3 zero_smem (replicate 4 0%Z) (replicate 4 0%Z)).
  - lia.
  - reflexivity.
Defined.

(** X8 for three points, the points 0 and 2 in hub 1 and the point 1 in
    hub 0. *)
Lemma BucketSort_coordinates_witness :
  let m' := BucketSort 3 line3 [1; 0; 1] (bucket_grid 3)
              three_point_buckets in
  (∀ h, h < 2 → rdn (bs_cursor m') h = rdn [0; 1; 3] (h + 1)) ∧
  ∀ p, p < 3 → ∃ loc,
    rdn [0; 1; 3] (rdn [1; 0; 1] p) ≤ loc
      < rdn [0; 1; 3] (rdn [1; 0; 1] p + 1)
    ∧ rdn (arr_idx m') loc = p
    ∧ rdf (arr_x m') loc = rdf line3 (p * dim + 0)
    ∧ rdf (arr_y m') loc = rdf line3 (p * dim + 1)
    ∧ rdf (arr_z m') loc = rdf line3 (p * dim + 2).
Proof.
  apply (BucketSort_coordinates 2 3 line3 [1; 0; 1] [0; 1; 3]).
  - intros [|[|[|idx]]] Hidx; unfold rdn; simpl; lia.
  - reflexivity.
  - intros [|[|[|h]]] Hh; [reflexivity..|lia].
  - reflexivity.
  - repeat split; reflexivity.
  - reflexivity.
Defined.

(** X10 for two hubs and three points, the points 0 and 1 in hub 0 and
    the point 2 in hub 1, on a matrix that holds [FLT_MAX]. *)
Lemma Construct_D_bounded_witness :
  let D' := Construct_D 2 4 (λ _, replicate 2 0%Z) three_point_distances
              [0; 0; 1] 0 3 3 (replicate 4 FLT_MAX) in
  length D' = length (replicate 4 FLT_MAX) ∧
  (∀ c, (0 ≤ rdf D' c ≤ rdf (replicate 4 FLT_MAX) c)%Z) ∧
  (∀ i j, i < 2 → j < 2 → (rdf D' (2 * i + j) ≤ D_sentinel)%Z
                          ∧ (rdf D' (2 * i + j) < FLT_MAX)%Z).
Proof.
  apply (Construct_D_bounded 2 4 (λ _, replicate 2 0%Z)
           three_point_distances [0; 0; 1] 0 3 3 (replicate 4 FLT_MAX)).
  - lia.
  - intros hub. simpl. lia.
  - reflexivity.
  - intros hub p Hhub Hp _.
    destruct hub as [|[|hub]]; [| |lia];
      (destruct p as [|[|[|p]]]; [| | |lia]);
      vm_compute; split; congruence.
  - intros c.
    assert (rdf (replicate 4 FLT_MAX) c = FLT_MAX
            ∨ rdf (replicate 4 FLT_MAX) c = 0%Z) as [-> | ->].
    + do 4 (destruct c as [|c]; [left; reflexivity|]).
      right. by destruct c.
    + unfold FLT_MAX. lia.
    + lia.
Defined.

(** X11 for 32 hubs drawn among three points. *)
Lemma Randomly_Select_Hubs_repeats_witness :
  let hubs := Randomly_Select_Hubs 32 3 (hubs_grid 32) (replicate 32 0%Z) in
  length hubs = 32 ∧ Forall (λ p, (0 ≤ p < 3)%Z) hubs ∧ ¬ NoDup hubs.
Proof.
  apply (Randomly_Select_Hubs_repeats 32 3 (hubs_grid 32)
           (replicate 32 0%Z)); [lia|reflexivity|reflexivity].
Defined.

(** X12 for two hubs that hold two points and one point, with [k = 1]. *)
Lemma reassignPoints_balanced_witness :
  reassignPoints 2 1 4 3 1 three_point_distances (λ _, replicate 2 0)
    ([2; 1], [0; 0; 1])
  = Some ([2; 1], [0; 0; 1]).
Proof.
  apply (reassignPoints_balanced 2 1 4 3 1 three_point_distances
           (λ _, replicate 2 0) [2; 1] [0; 0; 1]).
  - lia.
  - lia.
  - simpl. lia.
  - lia.
  - unfold reassign_shared_memory_size. lia.
  - intros [|[|[|idx]]] Hidx; unfold rdn; simpl; lia.
  - intros [|[|h]] Hh; unfold rdn; simpl; lia.
Defined.

(** X13 for the index of the three points on a line, with [K = 1], from
    two different contents of the result arrays and two lists of query
    points. *)
Lemma Query_schedule_independent_witness :
  let out' :=
    Query 32 f32_l2dist f32_sqrt f32_sub line3_index 1 3 queries_per_block
      [2] (query_grid 3) (replicate 3 7%Z, replicate 3 0%Z) in
  out' = Query 32 f32_l2dist f32_sqrt f32_sub line3_index 1 3
           queries_per_block [] (query_grid 3)
           (replicate 3 0%Z, replicate 3 5%Z)
  ∧ length out'.1 = 1 * 3 ∧ length out'.2 = 1 * 3
  ∧ ∀ c, c < 1 * 3 →
      out'.1 !! c
      = Some (nth (c mod 1)
                (Query_result 32 f32_l2dist f32_sqrt f32_sub line3_index
                   1 3 (c / 1))
                (FLT_MAX, (-1)%Z)).2 ∧
      out'.2 !! c
      = Some (nth (c mod 1)
                (Query_result 32 f32_l2dist f32_sqrt f32_sub line3_index
                   1 3 (c / 1))
                (FLT_MAX, (-1)%Z)).1.
Proof.
  apply (Query_schedule_independent 32 f32_l2dist f32_sqrt f32_sub
           line3_index 1 3 [2] [] (query_grid 3) (query_grid 3)
           (replicate 3 7%Z, replicate 3 0%Z)
           (replicate 3 0%Z, replicate 3 5%Z)).
  - reflexivity.
  - reflexivity.
  - exact (Permutation_app_comm [1; 2] [0]).
  - reflexivity.
  - reflexivity.
  - reflexivity.
  - reflexivity.
Defined.

(** X9 for the three points on a line, indexed with 32 hubs in one
    batch. *)
Lemma build_index_buckets_witness :
  let dH := Randomly_Select_Hubs 32 (Z.of_nat 3) (hubs_grid 32)
              (al_dH (zero_allocations 32 3 3)) in
  ∃ ix,
  build_index 32 f32_l2dist f32_sqrt warp_sort_insertion in_step
    (zero_allocations 32 3 3) 3 3 line3 = Some ix
  ∧ (∀ idx, idx < 3 →
       rdn (ix_assignments ix) idx
       = nearest_hub 32 f32_l2dist f32_sqrt line3 dH idx
       ∧ rdn (ix_assignments ix) idx < 32)
  ∧ length (ix_dH_psum ix) = 32 + 1
  ∧ (∀ h, h ≤ 32 →
       rdn (ix_dH_psum ix) h
       = sum_upto (hub_population (ix_assignments ix) 3) h)
  ∧ rdn (ix_dH_psum ix) 32 = 3
  ∧ ix_arr_idx ix ≡ₚ seq 0 3
  ∧ (∀ p, p < 3 → ∃ loc,
       rdn (ix_dH_psum ix) (rdn (ix_assignments ix) p) ≤ loc
       < rdn (ix_dH_psum ix) (rdn (ix_assignments ix) p + 1)
       ∧ rdn (ix_arr_idx ix) loc = p
       ∧ rdf (ix_arr_x ix) loc = rdf line3 (p * dim + 0)
       ∧ rdf (ix_arr_y ix) loc = rdf line3 (p * dim + 1)
       ∧ rdf (ix_arr_z ix) loc = rdf line3 (p * dim + 2)).
Proof.
  intros dH.
  apply (build_index_buckets 32 5 f32_l2dist f32_sqrt warp_sort_insertion
           in_step (zero_allocations 32 3 3) 3 3 line3).
  - reflexivity.
  - lia.
  - left. lia.
  - lia.
  - lia.
  - reflexivity.
  - unfold warp_size. simpl. lia.
  - repeat split; reflexivity.
  - intros idx Hidx. exists 0. split; [lia|].
    destruct idx as [|[|[|idx]]]; [vm_compute; reflexivity..|lia].
Defined.

(** X14 for the three points on a line, indexed with 32 hubs in one
    batch, with [k = 1]. *)
Lemma C_and_Q_answers_witness :
  ∃ ix out,
    build_index 32 f32_l2dist f32_sqrt warp_sort_insertion in_step
      (zero_allocations 32 3 3) 3 3 line3 = Some ix
    ∧ (∀ q queries,
         C_and_Q 32 f32_l2dist f32_sqrt f32_sub warp_sort_insertion in_step
           (zero_allocations 32 3 3) 3 3 line3 q queries 1
           (replicate 3 7%Z, replicate 3 0%Z) = Some out)
    ∧ length out.1 = 1 * 3 ∧ length out.2 = 1 * 3
    ∧ ∀ c, c < 1 * 3 →
        out.1 !! c
        = Some (nth (c mod 1)
                  (Query_result 32 f32_l2dist f32_sqrt f32_sub ix 1 3 (c / 1))
                  (FLT_MAX, (-1)%Z)).2 ∧
        out.2 !! c
        = Some (nth (c mod 1)
                  (Query_result 32 f32_l2dist f32_sqrt f32_sub ix 1 3 (c / 1))
                  (FLT_MAX, (-1)%Z)).1.
Proof.
  apply (C_and_Q_answers 32 5 f32_l2dist f32_sqrt f32_sub warp_sort_insertion
           in_step (zero_allocations 32 3 3) 3 3 line3 1
           (replicate 3 7%Z, replicate 3 0%Z)).
  - reflexivity.
  - lia.
  - left. lia.
  - lia.
  - lia.
  - reflexivity.
  - unfold warp_size. simpl. lia.
  - repeat split; reflexivity.
  - intros idx Hidx. exists 0. split; [lia|].
    destruct idx as [|[|[|idx]]]; [vm_compute; reflexivity..|lia].
  - lia.
  - reflexivity.
  - reflexivity.
Defined.

(** X15 at 64 hubs, where the rows of two warps go through a merge
    stage, with the sort by insertion inside the warps, on a matrix that
    holds NaNs and the float -1.0 in turn: the row 1. *)
Lemma fused_transform_sort_D_permutes_witness :
  let D := (λ c, if Nat.even c then 0x7fc00000%Z else 0xbf800000%Z)
             <$> seq 0 (64 * 64) in
  let ranked := fused_transform_sort_D 64 warp_sort_insertion D in
  length ranked.1 = 64 * 64 ∧ length ranked.2 = 64 * 64
  ∧ (λ j, rdn ranked.1 (1 * 64 + j)) <$> seq 0 64 ≡ₚ seq 0 64
  ∧ (∀ j, j < 64 →
       rdf ranked.2 (1 * 64 + j)
       = rdf D (64 * 1 + rdn ranked.1 (1 * 64 + j))).
Proof.
  intros D.
  apply (fused_transform_sort_D_permutes 64 6 warp_sort_insertion
           eq_refl ltac:(lia)
           (λ asc l _, warp_sort_insertion_perm asc l) D 1).
  lia.
Defined.

(** X16 at 4096 hubs, for the three points on a line. *)
Lemma C_and_Q_aborts_witness :
  C_and_Q 4096 f32_l2dist f32_sqrt f32_sub warp_sort_insertion in_step
    (zero_allocations 4096 3 3) 3 3 line3 1 [2] 1
    (replicate 3 7%Z, replicate 3 0%Z) = None.
Proof.
  apply (C_and_Q_aborts 4096 f32_l2dist f32_sqrt f32_sub warp_sort_insertion
           in_step (zero_allocations 4096 3 3) 3 3 line3 1 [2] 1
           (replicate 3 7%Z, replicate 3 0%Z)); [lia|lia|].
  right. left. lia.
Defined.
